(** * Omega interpreter: bytecode compiler and stack VM

    A shallow embedding of [src/interpreter/vm.c] and
    [src/interpreter/compiler.c].  The C globals [vm], [parser], [current]
    and [currentClass] become explicit state; every C function becomes a
    state transformer of the same name.  Heap objects live in a store indexed
    by address, so that aliasing between the stack, closures, the
    open-upvalue list and containers is kept.  Undefined behaviour of the C
    program (reading outside an array, an unchecked [AS_...] cast of the wrong
    object) is the [None] outcome of the monads below. *)

From Stdlib Require Import ZArith List String Lia Bool.
From Stdlib Require Import Floats.SpecFloat.
From stdpp Require Import base option list gmap strings fin_maps.

Set Default Proof Using "Type".
Open Scope nat_scope.

(** ** Values, chunks and heap objects (value.h, chunk.h, object.h) *)

(** IEEE-754 binary64, as the Standard Library specifies it. *)
Definition double := spec_float.
Definition prec64 : Z := 53.
Definition emax64 : Z := 1024.

(** An [Obj*]: the address of a heap object. *)
Definition addr := nat.

Inductive Value :=
| NIL_VAL
| BOOL_VAL (b : bool)
| NUMBER_VAL (d : double)
| OBJ_VAL (o : addr).

(** Modelled from the spec: the hash table module (table.c) is absent.  A
    table is a finite map keyed by [ObjString*]; keys are compared by
    identity, which is sound for interned strings. *)
Abbreviation Table := (gmap addr Value).

(** Modelled from the spec: chunk.h is absent.  The opcodes are numbered in
    the order in which section 4.3 of the specification lists the
    instruction set, starting from 0 as a C enum does.  The specification
    gives that order and no byte values: a statement below that depends on
    the values says so. *)
Inductive OpCode :=
| OP_CONSTANT | OP_CONSTANT_LONG | OP_NIL | OP_TRUE | OP_FALSE | OP_POP
| OP_GET_LOCAL | OP_SET_LOCAL | OP_GET_GLOBAL | OP_DEFINE_GLOBAL
| OP_SET_GLOBAL | OP_GET_UPVALUE | OP_SET_UPVALUE | OP_CLOSE_UPVALUE
| OP_GET_PROPERTY | OP_SET_PROPERTY | OP_GET_SUPER
| OP_EQUAL | OP_GREATER | OP_LESS | OP_ADD | OP_SUBTRACT | OP_MULTIPLY
| OP_DIVIDE | OP_MODULO | OP_NEGATE | OP_NOT
| OP_BITWISE_AND | OP_BITWISE_OR | OP_BITWISE_XOR | OP_BITWISE_LS
| OP_BITWISE_RS | OP_BITWISE_NOT
| OP_JUMP | OP_JUMP_IF_FALSE | OP_LOOP
| OP_CALL | OP_INVOKE | OP_SUPER_INVOKE | OP_RETURN
| OP_CLOSURE | OP_CLASS | OP_INHERIT | OP_METHOD
| OP_ARRAY | OP_DICT | OP_OBJECT_GET | OP_OBJECT_SET | OP_OUT.

Definition all_opcodes : list OpCode :=
  [ OP_CONSTANT; OP_CONSTANT_LONG; OP_NIL; OP_TRUE; OP_FALSE; OP_POP;
    OP_GET_LOCAL; OP_SET_LOCAL; OP_GET_GLOBAL; OP_DEFINE_GLOBAL;
    OP_SET_GLOBAL; OP_GET_UPVALUE; OP_SET_UPVALUE; OP_CLOSE_UPVALUE;
    OP_GET_PROPERTY; OP_SET_PROPERTY; OP_GET_SUPER;
    OP_EQUAL; OP_GREATER; OP_LESS; OP_ADD; OP_SUBTRACT; OP_MULTIPLY;
    OP_DIVIDE; OP_MODULO; OP_NEGATE; OP_NOT;
    OP_BITWISE_AND; OP_BITWISE_OR; OP_BITWISE_XOR; OP_BITWISE_LS;
    OP_BITWISE_RS; OP_BITWISE_NOT;
    OP_JUMP; OP_JUMP_IF_FALSE; OP_LOOP;
    OP_CALL; OP_INVOKE; OP_SUPER_INVOKE; OP_RETURN;
    OP_CLOSURE; OP_CLASS; OP_INHERIT; OP_METHOD;
    OP_ARRAY; OP_DICT; OP_OBJECT_GET; OP_OBJECT_SET; OP_OUT ].

Global Instance OpCode_eq_dec : EqDecision OpCode.
Proof. solve_decision. Defined.

(** The byte that encodes an opcode, and the opcode a byte decodes to. *)
Definition opcode_byte (op : OpCode) : nat :=
  default 0 (fst <$> list_find (λ o, o = op) all_opcodes).

Definition opcode_of_byte (b : nat) : option OpCode := all_opcodes !! b.

(** A chunk: the instruction bytes, the source line of each byte, and the
    constant pool. *)
Record Chunk := mkChunk {
  code : list nat;
  lines : list nat;
  constants : list Value
}.

Inductive FunctionReturnType :=
| TYPE_NONE | TYPE_VOID | TYPE_INT | TYPE_FLOAT | TYPE_STRING | TYPE_BOOL.

Global Instance FunctionReturnType_eq_dec : EqDecision FunctionReturnType.
Proof. solve_decision. Defined.

Record ObjFunction := mkFunction {
  arity : nat;
  upvalueCount : nat;
  returnType : FunctionReturnType;
  chunk : Chunk;
  name : option addr
}.

(** The host functions registered by [initVM]. *)
Inductive NativeFn :=
| clockNative | timeNative | termNative | lengthNative
| arrayPrepend | arrayAppend | arrayHead | arrayTail | arrayRest
| dictRemove.

(** Where an upvalue's [location] pointer points: at a slot of the value
    stack (open) or at the upvalue's own [closed] field. *)
Inductive UpLoc := OnStack (slot : nat) | InClosed.

Global Instance UpLoc_eq_dec : EqDecision UpLoc.
Proof. solve_decision. Defined.

Record ObjUpvalue := mkUpvalue {
  location : UpLoc;
  closed : Value
}.

Inductive Obj :=
| OBJ_STRING (chars : string)
| OBJ_FUNCTION (f : ObjFunction)
| OBJ_NATIVE (fn : NativeFn)
| OBJ_CLOSURE (function : addr) (upvalues : list (option addr))
| OBJ_UPVALUE (u : ObjUpvalue)
| OBJ_CLASS (cname : addr) (methods : Table)
| OBJ_INSTANCE (klass : addr) (fields : Table)
| OBJ_BOUND_METHOD (receiver : Value) (method : addr)
| OBJ_ARRAY (elements : list Value)
| OBJ_DICT (items : Table).

Record CallFrame := mkFrame {
  closure : addr;
  ip : nat;
  slots : nat
}.

Inductive InterpretResult :=
| INTERPRET_OK | INTERPRET_COMPILE_ERROR | INTERPRET_RUNTIME_ERROR.

(** The global [vm].  [stack] lists the slots of the value stack written so
    far and [stackTop] is the index of the first free one, so slots at
    [stackTop] and above hold stale values; a stack address is an offset
    from [vm.stack].  [frames] holds [frames[0 .. frameCount-1]].  The
    [next] links of the open upvalues are the spine of [openUpvalues].
    [stderr] and [stdout] record what is printed; [clock_tape] supplies the
    results of the host's clock(), time() and system(). *)
Record VM := mkVM {
  frames : list CallFrame;
  stack : list Value;
  stackTop : nat;
  globals : Table;
  strings : gmap string addr;
  initString : option addr;
  openUpvalues : list addr;
  heap : gmap addr Obj;
  stderr : list string;
  stdout : list Value;
  clock_tape : list double
}.

(** ** The state monad of the program

    A computation reads and updates the global state [S]; [None] is
    undefined behaviour of the C program (or, for the compiler, fuel that ran
    out).  vm.c runs on the global [vm]. *)

Definition ST (S A : Type) : Type := S -> option (A * S).

Definition ret {S A} (a : A) : ST S A := fun s => Some (a, s).

Definition bind {S A B} (m : ST S A) (k : A -> ST S B) : ST S B :=
  fun s => match m s with
           | Some (a, s') => k a s'
           | None => None
           end.

Definition undef {S A} : ST S A := fun _ => None.

Definition get {S} : ST S S := fun s => Some (s, s).

Definition modify {S} (f : S -> S) : ST S unit := fun s => Some (tt, f s).

Declare Scope vm_scope.
Delimit Scope vm_scope with vm.
Notation "'do' x <- m ; k" := (bind m (fun x => k))
  (at level 10, x name, m at level 100, k at level 200,
   format "'[v' 'do'  x  <-  m ; '/' k ']'") : vm_scope.
Notation "m ;; k" := (bind m (fun _ => k))
  (at level 100, k at level 200, right associativity) : vm_scope.
Open Scope vm_scope.

Abbreviation M := (ST VM).

Definition get_vm : M VM := get.

Definition modify_vm (f : VM -> VM) : M unit := modify f.

(** A value read through a possibly invalid pointer. *)
Definition of_option {S A} (o : option A) : ST S A :=
  match o with Some a => ret a | None => undef end.

(** Field updates of the global [vm]. *)
Definition set_frames (x : list CallFrame) (vm : VM) : VM :=
  mkVM x (stack vm) (stackTop vm) (globals vm) (strings vm) (initString vm)
       (openUpvalues vm) (heap vm) (stderr vm) (stdout vm) (clock_tape vm).
Definition set_stack (x : list Value) (vm : VM) : VM :=
  mkVM (frames vm) x (stackTop vm) (globals vm) (strings vm) (initString vm)
       (openUpvalues vm) (heap vm) (stderr vm) (stdout vm) (clock_tape vm).
Definition set_stackTop (x : nat) (vm : VM) : VM :=
  mkVM (frames vm) (stack vm) x (globals vm) (strings vm) (initString vm)
       (openUpvalues vm) (heap vm) (stderr vm) (stdout vm) (clock_tape vm).
Definition set_globals (x : Table) (vm : VM) : VM :=
  mkVM (frames vm) (stack vm) (stackTop vm) x (strings vm) (initString vm)
       (openUpvalues vm) (heap vm) (stderr vm) (stdout vm) (clock_tape vm).
Definition set_strings (x : gmap string addr) (vm : VM) : VM :=
  mkVM (frames vm) (stack vm) (stackTop vm) (globals vm) x (initString vm)
       (openUpvalues vm) (heap vm) (stderr vm) (stdout vm) (clock_tape vm).
Definition set_initString (x : option addr) (vm : VM) : VM :=
  mkVM (frames vm) (stack vm) (stackTop vm) (globals vm) (strings vm) x
       (openUpvalues vm) (heap vm) (stderr vm) (stdout vm) (clock_tape vm).
Definition set_openUpvalues (x : list addr) (vm : VM) : VM :=
  mkVM (frames vm) (stack vm) (stackTop vm) (globals vm) (strings vm)
       (initString vm) x (heap vm) (stderr vm) (stdout vm) (clock_tape vm).
Definition set_heap (x : gmap addr Obj) (vm : VM) : VM :=
  mkVM (frames vm) (stack vm) (stackTop vm) (globals vm) (strings vm)
       (initString vm) (openUpvalues vm) x (stderr vm) (stdout vm)
       (clock_tape vm).
Definition set_stderr (x : list string) (vm : VM) : VM :=
  mkVM (frames vm) (stack vm) (stackTop vm) (globals vm) (strings vm)
       (initString vm) (openUpvalues vm) (heap vm) x (stdout vm)
       (clock_tape vm).
Definition set_stdout (x : list Value) (vm : VM) : VM :=
  mkVM (frames vm) (stack vm) (stackTop vm) (globals vm) (strings vm)
       (initString vm) (openUpvalues vm) (heap vm) (stderr vm) x
       (clock_tape vm).
Definition set_clock_tape (x : list double) (vm : VM) : VM :=
  mkVM (frames vm) (stack vm) (stackTop vm) (globals vm) (strings vm)
       (initString vm) (openUpvalues vm) (heap vm) (stderr vm) (stdout vm) x.

(** ** Heap objects (object.c, absent: modelled from the spec) *)

(** Modelled from the spec: the allocator of object.c is absent.  A new
    object gets an address that no live object has. *)
Definition allocateObject (o : Obj) : M addr :=
  fun vm => let a := fresh (dom (heap vm)) in
            Some (a, set_heap (<[a := o]> (heap vm)) vm).

(** Dereference of an object pointer. *)
Definition deref (a : addr) : M Obj :=
  fun vm => match heap vm !! a with
            | Some o => Some (o, vm)
            | None => None
            end.

(** Write through an object pointer. *)
Definition store (a : addr) (o : Obj) : M unit :=
  modify_vm (fun vm => set_heap (<[a := o]> (heap vm)) vm).

Inductive ObjType :=
| T_STRING | T_FUNCTION | T_NATIVE | T_CLOSURE | T_UPVALUE | T_CLASS
| T_INSTANCE | T_BOUND_METHOD | T_ARRAY | T_DICT.

Global Instance ObjType_eq_dec : EqDecision ObjType.
Proof. solve_decision. Defined.

Definition obj_type (o : Obj) : ObjType :=
  match o with
  | OBJ_STRING _ => T_STRING
  | OBJ_FUNCTION _ => T_FUNCTION
  | OBJ_NATIVE _ => T_NATIVE
  | OBJ_CLOSURE _ _ => T_CLOSURE
  | OBJ_UPVALUE _ => T_UPVALUE
  | OBJ_CLASS _ _ => T_CLASS
  | OBJ_INSTANCE _ _ => T_INSTANCE
  | OBJ_BOUND_METHOD _ _ => T_BOUND_METHOD
  | OBJ_ARRAY _ => T_ARRAY
  | OBJ_DICT _ => T_DICT
  end.

(** [OBJ_TYPE(value)] for an object value; [None] when the value is not an
    object (or its pointer is dangling). *)
Definition OBJ_TYPE (h : gmap addr Obj) (v : Value) : option ObjType :=
  match v with
  | OBJ_VAL a => obj_type <$> h !! a
  | _ => None
  end.

(** [isObjType]: [IS_OBJ(value) && AS_OBJ(value)->type == type]. *)
Definition isObjType (h : gmap addr Obj) (v : Value) (t : ObjType) : bool :=
  bool_decide (OBJ_TYPE h v = Some t).

Definition IS_NIL (v : Value) : bool :=
  match v with NIL_VAL => true | _ => false end.
Definition IS_BOOL (v : Value) : bool :=
  match v with BOOL_VAL _ => true | _ => false end.
Definition IS_NUMBER (v : Value) : bool :=
  match v with NUMBER_VAL _ => true | _ => false end.
Definition IS_OBJ (v : Value) : bool :=
  match v with OBJ_VAL _ => true | _ => false end.

Definition IS_STRING h v := isObjType h v T_STRING.
Definition IS_INSTANCE h v := isObjType h v T_INSTANCE.
Definition IS_CLASS h v := isObjType h v T_CLASS.
Definition IS_ARRAY h v := isObjType h v T_ARRAY.
Definition IS_DICT h v := isObjType h v T_DICT.

(** The type tests of vm.c read the heap of the current state. *)
Definition test (p : gmap addr Obj -> Value -> bool) (v : Value) : M bool :=
  fun vm => Some (p (heap vm) v, vm).

(** Unchecked casts: [AS_BOOL], [AS_NUMBER] and [AS_OBJ] read a union member
    without looking at the tag. *)
Definition AS_BOOL (v : Value) : M bool :=
  match v with BOOL_VAL b => ret b | _ => undef end.
Definition AS_NUMBER (v : Value) : M double :=
  match v with NUMBER_VAL d => ret d | _ => undef end.
Definition AS_OBJ (v : Value) : M addr :=
  match v with OBJ_VAL a => ret a | _ => undef end.

(** ** Stack primitives and error reporting (vm.c) *)

Definition resetStack : M unit :=
  modify_vm (fun vm => set_openUpvalues [] (set_frames [] (set_stackTop 0 vm))).

(** [runtimeError] prints the message (the formatted arguments and the
    backtrace lines are not recorded) and resets the stack. *)
Definition runtimeError (format : string) : M unit :=
  modify_vm (fun vm => set_stderr (stderr vm ++ [format]) vm) ;;
  resetStack.

(** [push]: [*vm.stackTop = value; vm.stackTop++], growing the stack when it
    is full. *)
Definition push (value : Value) : M unit :=
  fun vm =>
    if decide (stackTop vm < length (stack vm)) then
      Some (tt, set_stackTop (S (stackTop vm))
                  (set_stack (<[stackTop vm := value]> (stack vm)) vm))
    else if decide (stackTop vm = length (stack vm)) then
      Some (tt, set_stackTop (S (stackTop vm))
                  (set_stack (stack vm ++ [value]) vm))
    else None.

(** [pop]: [vm.stackTop--; return *vm.stackTop]. *)
Definition pop : M Value :=
  fun vm =>
    match stackTop vm with
    | 0 => None
    | S t => match stack vm !! t with
             | Some v => Some (v, set_stackTop t vm)
             | None => None
             end
    end.

(** [peek]: [vm.stackTop[-1 - distance]]. *)
Definition peek (distance : nat) : M Value :=
  fun vm =>
    if decide (distance < stackTop vm) then
      match stack vm !! (stackTop vm - 1 - distance) with
      | Some v => Some (v, vm)
      | None => None
      end
    else None.

(** [vm.stackTop[-1 - distance] = value], as [callValue] and [invoke] write
    it. *)
Definition poke (distance : nat) (value : Value) : M unit :=
  fun vm =>
    if decide (distance < stackTop vm ∧ stackTop vm - 1 - distance < length (stack vm)) then
      Some (tt, set_stack (<[stackTop vm - 1 - distance := value]> (stack vm)) vm)
    else None.

(** Read and write of an arbitrary stack slot ([frame->slots[slot]],
    [*upvalue->location]). *)
Definition read_slot (i : nat) : M Value :=
  fun vm => match stack vm !! i with
            | Some v => Some (v, vm)
            | None => None
            end.

Definition write_slot (i : nat) (value : Value) : M unit :=
  fun vm =>
    if decide (i < length (stack vm)) then
      Some (tt, set_stack (<[i := value]> (stack vm)) vm)
    else None.

(** ** Tables (table.c, absent: modelled from the spec) *)

(** [tableSet] stores the entry and returns whether the key is new. *)
Definition tableSet (t : Table) (key : addr) (value : Value) : Table * bool :=
  (<[key := value]> t, bool_decide (t !! key = None)).

Definition tableGet (t : Table) (key : addr) : option Value := t !! key.

Definition tableDelete (t : Table) (key : addr) : Table := delete key t.

(** [tableAddAll(from, to)] sets every entry of [from] in [to]. *)
Definition tableAddAll (from to : Table) : Table := from ∪ to.

(** ** Object constructors and accessors (object.c, absent: modelled from
    the spec) *)

(** [copyString] and [takeString] return the interned string with the given
    characters, creating it when there is none. *)
Definition copyString (chars : string) : M addr :=
  do vm <- get_vm;
  match strings vm !! chars with
  | Some a => ret a
  | None =>
      do a <- allocateObject (OBJ_STRING chars);
      modify_vm (fun vm => set_strings (<[chars := a]> (strings vm)) vm) ;;
      ret a
  end.

Definition takeString (chars : string) : M addr := copyString chars.

Definition newFunction : M addr :=
  allocateObject (OBJ_FUNCTION (mkFunction 0 0 TYPE_NONE (mkChunk [] [] []) None)).

Definition newNative (function : NativeFn) : M addr :=
  allocateObject (OBJ_NATIVE function).

Definition AS_FUNCTION (v : Value) : M ObjFunction :=
  do a <- AS_OBJ v;
  do o <- deref a;
  match o with OBJ_FUNCTION f => ret f | _ => undef end.

Definition function_of (a : addr) : M ObjFunction := AS_FUNCTION (OBJ_VAL a).

(** [newClosure] allocates [function->upvalueCount] upvalue pointers, all
    [NULL]. *)
Definition newClosure (function : addr) : M addr :=
  do f <- function_of function;
  allocateObject (OBJ_CLOSURE function (replicate (upvalueCount f) None)).

Definition newUpvalue (slot : nat) : M addr :=
  allocateObject (OBJ_UPVALUE (mkUpvalue (OnStack slot) NIL_VAL)).

Definition newClass (name : addr) : M addr :=
  allocateObject (OBJ_CLASS name ∅).

Definition newInstance (klass : addr) : M addr :=
  allocateObject (OBJ_INSTANCE klass ∅).

Definition newBoundMethod (receiver : Value) (method : addr) : M addr :=
  allocateObject (OBJ_BOUND_METHOD receiver method).

Definition newArray : M addr := allocateObject (OBJ_ARRAY []).

Definition newDict : M addr := allocateObject (OBJ_DICT ∅).

(** The remaining unchecked casts of object.h. *)
Definition AS_STRING (v : Value) : M addr :=
  do a <- AS_OBJ v;
  do o <- deref a;
  match o with OBJ_STRING _ => ret a | _ => undef end.

Definition string_chars (a : addr) : M string :=
  do o <- deref a;
  match o with OBJ_STRING s => ret s | _ => undef end.

Definition AS_CLOSURE (v : Value) : M addr :=
  do a <- AS_OBJ v;
  do o <- deref a;
  match o with OBJ_CLOSURE _ _ => ret a | _ => undef end.

Definition closure_function (a : addr) : M addr :=
  do o <- deref a;
  match o with OBJ_CLOSURE f _ => ret f | _ => undef end.

Definition closure_upvalues (a : addr) : M (list (option addr)) :=
  do o <- deref a;
  match o with OBJ_CLOSURE _ us => ret us | _ => undef end.

Definition AS_CLASS (v : Value) : M addr :=
  do a <- AS_OBJ v;
  do o <- deref a;
  match o with OBJ_CLASS _ _ => ret a | _ => undef end.

Definition class_methods (a : addr) : M Table :=
  do o <- deref a;
  match o with OBJ_CLASS _ ms => ret ms | _ => undef end.

Definition set_class_methods (a : addr) (ms : Table) : M unit :=
  do o <- deref a;
  match o with OBJ_CLASS n _ => store a (OBJ_CLASS n ms) | _ => undef end.

Definition AS_INSTANCE (v : Value) : M addr :=
  do a <- AS_OBJ v;
  do o <- deref a;
  match o with OBJ_INSTANCE _ _ => ret a | _ => undef end.

Definition instance_klass (a : addr) : M addr :=
  do o <- deref a;
  match o with OBJ_INSTANCE k _ => ret k | _ => undef end.

Definition instance_fields (a : addr) : M Table :=
  do o <- deref a;
  match o with OBJ_INSTANCE _ fs => ret fs | _ => undef end.

Definition set_instance_fields (a : addr) (fs : Table) : M unit :=
  do o <- deref a;
  match o with OBJ_INSTANCE k _ => store a (OBJ_INSTANCE k fs) | _ => undef end.

Definition AS_BOUND_METHOD (v : Value) : M (Value * addr) :=
  do a <- AS_OBJ v;
  do o <- deref a;
  match o with OBJ_BOUND_METHOD r m => ret (r, m) | _ => undef end.

Definition AS_NATIVE (v : Value) : M NativeFn :=
  do a <- AS_OBJ v;
  do o <- deref a;
  match o with OBJ_NATIVE fn => ret fn | _ => undef end.

Definition AS_ARRAY (v : Value) : M addr :=
  do a <- AS_OBJ v;
  do o <- deref a;
  match o with OBJ_ARRAY _ => ret a | _ => undef end.

(** [array->elements.values[0 .. count-1]]. *)
Definition array_elements (a : addr) : M (list Value) :=
  do o <- deref a;
  match o with OBJ_ARRAY es => ret es | _ => undef end.

Definition set_array_elements (a : addr) (es : list Value) : M unit :=
  do o <- deref a;
  match o with OBJ_ARRAY _ => store a (OBJ_ARRAY es) | _ => undef end.

Definition AS_DICT (v : Value) : M addr :=
  do a <- AS_OBJ v;
  do o <- deref a;
  match o with OBJ_DICT _ => ret a | _ => undef end.

Definition dict_items (a : addr) : M Table :=
  do o <- deref a;
  match o with OBJ_DICT t => ret t | _ => undef end.

Definition set_dict_items (a : addr) (t : Table) : M unit :=
  do o <- deref a;
  match o with OBJ_DICT _ => store a (OBJ_DICT t) | _ => undef end.

Definition upvalue_of (a : addr) : M ObjUpvalue :=
  do o <- deref a;
  match o with OBJ_UPVALUE u => ret u | _ => undef end.

(** [writeArray] appends a value to an array. *)
Definition writeArray (array : addr) (value : Value) : M unit :=
  do es <- array_elements array;
  set_array_elements array (es ++ [value]).

(** [readArray] reads an element; an index outside [0, count) is not
    defined by the specification. *)
Definition readArray (array : addr) (index : Z) : M Value :=
  do es <- array_elements array;
  if decide (0 <= index)%Z then of_option (es !! Z.to_nat index) else undef.

(** [writeDict] sets a key of a dictionary, overwriting an earlier entry. *)
Definition writeDict (dict : addr) (key : addr) (value : Value) : M unit :=
  do t <- dict_items dict;
  set_dict_items dict (fst (tableSet t key value)).

(** [readDict] reads a key of a dictionary, nil when it is absent. *)
Definition readDict (dict : addr) (key : addr) : M Value :=
  do t <- dict_items dict;
  ret (default NIL_VAL (tableGet t key)).

(** ** Numbers *)

(** [(int)d] for a double [d]: truncation toward zero, undefined when the
    result does not fit a 32-bit [int] (or [d] is not finite). *)
Definition double_to_int (d : double) : option Z :=
  match d with
  | S754_zero _ => Some 0%Z
  | S754_finite s m e =>
      let mag := if (0 <=? e)%Z then Z.shiftl (Zpos m) e
                 else Z.shiftr (Zpos m) (- e) in
      let v := if s then (- mag)%Z else mag in
      if ((- 2 ^ 31 <=? v) && (v <? 2 ^ 31))%Z then Some v else None
  | _ => None
  end.

(** [(double)i] for an [int] [i]. *)
Definition int_to_double (i : Z) : double :=
  binary_normalize prec64 emax64 i 0 false.

Definition is_sign_negative (d : double) : bool :=
  match d with
  | S754_zero s | S754_infinity s | S754_finite s _ _ => s
  | S754_nan => false
  end.

(** [fmod(a, b)]: the exact remainder of the truncated division. *)
Definition fmod (a b : double) : double :=
  match a, b with
  | S754_nan, _ | _, S754_nan => S754_nan
  | S754_infinity _, _ => S754_nan
  | _, S754_zero _ => S754_nan
  | _, S754_infinity _ => a
  | S754_zero _, _ => a
  | S754_finite sa ma ea, S754_finite _ mb eb =>
      let e := Z.min ea eb in
      let x := Z.shiftl (Zpos ma) (ea - e) in
      let y := Z.shiftl (Zpos mb) (eb - e) in
      let r := Z.rem x y in
      binary_normalize prec64 emax64 (if sa then (- r)%Z else r) e sa
  end.

(** The [int] operators of the bitwise instructions.  A shift is undefined
    for a count outside [0, 32), a left shift also for a negative or
    overflowing operand. *)
Definition int_shl (a b : Z) : option Z :=
  if ((0 <=? b) && (b <? 32) && (0 <=? a) && (Z.shiftl a b <? 2 ^ 31))%Z
  then Some (Z.shiftl a b) else None.

Definition int_shr (a b : Z) : option Z :=
  if ((0 <=? b) && (b <? 32))%Z then Some (Z.shiftr a b) else None.

(** Modelled from the spec: value.c is absent.  Values of different kinds
    differ, numbers compare as doubles, objects by identity. *)
Definition valuesEqual (a b : Value) : bool :=
  match a, b with
  | NIL_VAL, NIL_VAL => true
  | BOOL_VAL x, BOOL_VAL y => eqb x y
  | NUMBER_VAL x, NUMBER_VAL y => SFeqb x y
  | OBJ_VAL x, OBJ_VAL y => bool_decide (x = y)
  | _, _ => false
  end.

Definition isFalsey (value : Value) : bool :=
  match value with
  | NIL_VAL => true
  | BOOL_VAL b => negb b
  | _ => false
  end.

(** ** Native functions (vm.c) *)

(** The next result of the host's clock(), time() or system(). *)
Definition host_number : M double :=
  fun vm => match clock_tape vm with
            | d :: rest => Some (d, set_clock_tape rest vm)
            | [] => Some (S754_zero false, vm)
            end.

(** The loop [for (i = n; i > 0; i--) values[i] = values[i - 1]]. *)
Fixpoint shift_right (i : nat) (values : list Value) : list Value :=
  match i with
  | 0 => values
  | S j => shift_right j (<[i := default NIL_VAL (values !! j)]> values)
  end.

(** The loop [for (i = from; i < bound; i++) values[i] = values[i + 1]],
    run for [n] iterations. *)
Fixpoint shift_left (n i : nat) (values : list Value) : list Value :=
  match n with
  | 0 => values
  | S n' => shift_left n' (S i) (<[i := default NIL_VAL (values !! S i)]> values)
  end.

(** The loop of [arrayRest]: [writeArray(anewArray, values[i])] for
    [i = from .. count-1]. *)
Fixpoint copy_from (n i : nat) (values : list Value) (anewArray : addr) : M unit :=
  match n with
  | 0 => ret tt
  | S n' =>
      do v <- of_option (values !! i);
      writeArray anewArray v ;;
      copy_from n' (S i) values anewArray
  end.

(** A native receives [argCount] and [args], the address of its first
    argument on the value stack. *)
Definition native (fn : NativeFn) (argCount : nat) (args : nat) : M Value :=
  match fn with
  | lengthNative =>
      if negb (argCount =? 1) then
        runtimeError "SKILL ISSUE: length() takes exactly 1 argument." ;;
        ret NIL_VAL
      else
        do a0 <- read_slot args;
        do is_string <- test IS_STRING a0;
        if is_string then
          do s <- AS_STRING a0;
          do chars <- string_chars s;
          ret (NUMBER_VAL (int_to_double (Z.of_nat (String.length chars))))
        else
          do is_array <- test IS_ARRAY a0;
          if is_array then
            do array <- AS_ARRAY a0;
            do es <- array_elements array;
            ret (NUMBER_VAL (int_to_double (Z.of_nat (length es))))
          else
            runtimeError "SKILL ISSUE: Argument to length() must be a string or an array." ;;
            ret NIL_VAL
  | clockNative => do d <- host_number; ret (NUMBER_VAL d)
  | timeNative => do d <- host_number; ret (NUMBER_VAL d)
  | termNative =>
      do bad <- (if negb (argCount =? 1) then ret true
                 else do a0 <- read_slot args;
                      do b <- test IS_STRING a0; ret (negb b));
      if bad then
        runtimeError "SKILL ISSUE: term() takes exactly 1 string argument." ;;
        ret NIL_VAL
      else
        do d <- host_number; ret (NUMBER_VAL d)
  | arrayPrepend =>
      do bad <- (if negb (argCount =? 2) then ret true
                 else do a0 <- read_slot args;
                      do b <- test IS_ARRAY a0; ret (negb b));
      if bad then
        runtimeError "SKILL ISSUE: prepend() takes exactly 2 arguments: array and value." ;;
        ret NIL_VAL
      else
        do a0 <- read_slot args;
        do array <- AS_ARRAY a0;
        do value <- read_slot (args + 1);
        writeArray array NIL_VAL ;;
        do es <- array_elements array;
        set_array_elements array (<[0 := value]> (shift_right (length es - 1) es)) ;;
        ret NIL_VAL
  | arrayAppend =>
      do bad <- (if negb (argCount =? 2) then ret true
                 else do a0 <- read_slot args;
                      do b <- test IS_ARRAY a0; ret (negb b));
      if bad then
        runtimeError "SKILL ISSUE: append() takes exactly 2 arguments: array and value." ;;
        ret NIL_VAL
      else
        do a0 <- read_slot args;
        do array <- AS_ARRAY a0;
        do value <- read_slot (args + 1);
        writeArray array value ;;
        ret NIL_VAL
  | arrayHead =>
      do bad <- (if negb (argCount =? 1) then ret true
                 else do a0 <- read_slot args;
                      do b <- test IS_ARRAY a0; ret (negb b));
      if bad then
        runtimeError "SKILL ISSUE: head() takes exactly 1 argument: array." ;;
        ret NIL_VAL
      else
        do a0 <- read_slot args;
        do array <- AS_ARRAY a0;
        do es <- array_elements array;
        if length es =? 0 then
          runtimeError "SKILL ISSUE: head() called on an empty array." ;;
          ret NIL_VAL
        else
          do value <- of_option (es !! 0);
          set_array_elements array
            (take (length es - 1) (shift_left (length es - 1) 0 es)) ;;
          ret value
  | arrayTail =>
      do bad <- (if negb (argCount =? 1) then ret true
                 else do a0 <- read_slot args;
                      do b <- test IS_ARRAY a0; ret (negb b));
      if bad then
        runtimeError "SKILL ISSUE: tail() takes exactly 1 argument: array." ;;
        ret NIL_VAL
      else
        do a0 <- read_slot args;
        do array <- AS_ARRAY a0;
        do es <- array_elements array;
        if length es =? 0 then
          runtimeError "SKILL ISSUE: tail() called on an empty array." ;;
          ret NIL_VAL
        else
          do value <- of_option (es !! (length es - 1));
          set_array_elements array (take (length es - 1) es) ;;
          ret value
  | arrayRest =>
      do bad <- (if negb (argCount =? 1) then ret true
                 else do a0 <- read_slot args;
                      do b <- test IS_ARRAY a0; ret (negb b));
      if bad then
        runtimeError "SKILL ISSUE: rest() takes exactly 1 argument: array." ;;
        ret NIL_VAL
      else
        do a0 <- read_slot args;
        do array <- AS_ARRAY a0;
        do es <- array_elements array;
        if length es =? 0 then
          runtimeError "SKILL ISSUE: rest() called on an empty array." ;;
          ret NIL_VAL
        else
          do anewArray <- newArray;
          copy_from (length es - 1) 1 es anewArray ;;
          ret (OBJ_VAL anewArray)
  | dictRemove =>
      do bad <- (if negb (argCount =? 2) then ret true
                 else do a0 <- read_slot args;
                      do b0 <- test IS_DICT a0;
                      if negb b0 then ret true
                      else do a1 <- read_slot (args + 1);
                           do b1 <- test IS_STRING a1; ret (negb b1));
      if bad then
        runtimeError "SKILL ISSUE: delete() takes exactly 2 arguments: dictionary and key." ;;
        ret NIL_VAL
      else
        do a0 <- read_slot args;
        do dict <- AS_DICT a0;
        do a1 <- read_slot (args + 1);
        do key <- AS_STRING a1;
        do t <- dict_items dict;
        set_dict_items dict (tableDelete t key) ;;
        ret NIL_VAL
  end.

(** ** Calls, methods and upvalues (vm.c) *)

Definition call (closure : addr) (argCount : nat) : M bool :=
  do fa <- closure_function closure;
  do f <- function_of fa;
  if negb (argCount =? arity f) then
    runtimeError "SKILL ISSUE: Expected %d arguments but got %d." ;;
    ret false
  else
    do vm <- get_vm;
    if decide (argCount + 1 <= stackTop vm) then
      modify_vm (fun vm =>
        set_frames (frames vm ++ [mkFrame closure 0 (stackTop vm - argCount - 1)]) vm) ;;
      ret true
    else undef.

Definition checkReturnType (function : ObjFunction) (returnValue : Value) : M bool :=
  match returnType function with
  | TYPE_NONE => ret true
  | TYPE_VOID => ret (IS_NIL returnValue)
  | TYPE_INT | TYPE_FLOAT => ret (IS_NUMBER returnValue)
  | TYPE_STRING => test IS_STRING returnValue
  | TYPE_BOOL => ret (IS_BOOL returnValue)
  end.

Definition callValue (callee : Value) (argCount : nat) : M bool :=
  do vm <- get_vm;
  match OBJ_TYPE (heap vm) callee with
  | Some T_BOUND_METHOD =>
      do bound <- AS_BOUND_METHOD callee;
      poke argCount (fst bound) ;;
      call (snd bound) argCount
  | Some T_CLASS =>
      do klass <- AS_CLASS callee;
      do instance <- newInstance klass;
      poke argCount (OBJ_VAL instance) ;;
      do methods <- class_methods klass;
      do init <- of_option (initString vm);
      match tableGet methods init with
      | Some initializer =>
          do c <- AS_CLOSURE initializer;
          call c argCount
      | None =>
          if negb (argCount =? 0) then
            runtimeError "SKILL ISSUE: Expected 0 arguments but got %d." ;;
            ret false
          else ret true
      end
  | Some T_CLOSURE =>
      do c <- AS_CLOSURE callee;
      call c argCount
  | Some T_NATIVE =>
      do fn <- AS_NATIVE callee;
      do top <- (do vm <- get_vm; ret (stackTop vm));
      if decide (argCount <= top) then
        do result <- native fn argCount (top - argCount);
        do vm <- get_vm;
        if decide (argCount + 1 <= stackTop vm) then
          modify_vm (set_stackTop (stackTop vm - (argCount + 1))) ;;
          push result ;;
          ret true
        else undef
      else undef
  | _ =>
      runtimeError "SKILL ISSUE: Can only call functions and classes." ;;
      ret false
  end.

Definition invokeFromClass (klass : addr) (name : addr) (argCount : nat) : M bool :=
  do methods <- class_methods klass;
  match tableGet methods name with
  | None =>
      runtimeError "SKILL ISSUE: Undefined property '%s'." ;;
      ret false
  | Some method =>
      do c <- AS_CLOSURE method;
      call c argCount
  end.

Definition invoke (name : addr) (argCount : nat) : M bool :=
  do receiver <- peek argCount;
  do is_instance <- test IS_INSTANCE receiver;
  if negb is_instance then
    runtimeError "SKILL ISSUE: Only instances have methods." ;;
    ret false
  else
    do instance <- AS_INSTANCE receiver;
    do fields <- instance_fields instance;
    match tableGet fields name with
    | Some value =>
        poke argCount value ;;
        callValue value argCount
    | None =>
        do klass <- instance_klass instance;
        invokeFromClass klass name argCount
    end.

Definition bindMethod (klass : addr) (name : addr) : M bool :=
  do methods <- class_methods klass;
  match tableGet methods name with
  | None =>
      runtimeError "SKILL ISSUE: Undefined property '%s'." ;;
      ret false
  | Some method =>
      do receiver <- peek 0;
      do c <- AS_CLOSURE method;
      do bound <- newBoundMethod receiver c;
      pop ;;
      push (OBJ_VAL bound) ;;
      ret true
  end.

(** The search loop of [captureUpvalue]: it walks the open list while the
    node's location is above [local], and returns the nodes passed (the
    last of them is [prevUpvalue]) and the rest of the list (its head is
    [upvalue]).  Comparing with a location that is not a stack address is
    undefined. *)
Fixpoint captureUpvalue_search (h : gmap addr Obj) (local : nat)
    (l : list addr) : option (list addr * list addr) :=
  match l with
  | [] => Some ([], [])
  | upvalue :: next =>
      match h !! upvalue with
      | Some (OBJ_UPVALUE u) =>
          match location u with
          | OnStack i =>
              if decide (local < i) then
                match captureUpvalue_search h local next with
                | Some (passed, rest) => Some (upvalue :: passed, rest)
                | None => None
                end
              else Some ([], l)
          | InClosed => None
          end
      | _ => None
      end
  end.

Definition captureUpvalue (local : nat) : M addr :=
  do vm <- get_vm;
  do found <- of_option (captureUpvalue_search (heap vm) local (openUpvalues vm));
  let create :=
    do createdUpvalue <- newUpvalue local;
    modify_vm (set_openUpvalues (fst found ++ createdUpvalue :: snd found)) ;;
    ret createdUpvalue in
  match snd found with
  | upvalue :: _ =>
      do u <- upvalue_of upvalue;
      if decide (location u = OnStack local) then ret upvalue else create
  | [] => create
  end.

(** The loop of [closeUpvalues]; [l] is [vm.openUpvalues] at the loop
    head. *)
Fixpoint closeUpvalues_loop (last : nat) (l : list addr) : M unit :=
  match l with
  | [] => ret tt
  | upvalue :: next =>
      do u <- upvalue_of upvalue;
      match location u with
      | OnStack i =>
          if decide (last <= i) then
            do v <- read_slot i;
            store upvalue (OBJ_UPVALUE (mkUpvalue InClosed v)) ;;
            modify_vm (set_openUpvalues next) ;;
            closeUpvalues_loop last next
          else ret tt
      | InClosed => undef
      end
  end.

Definition closeUpvalues (last : nat) : M unit :=
  do vm <- get_vm;
  closeUpvalues_loop last (openUpvalues vm).

Definition defineMethod (name : addr) : M unit :=
  do method <- peek 0;
  do v <- peek 1;
  do klass <- AS_CLASS v;
  do methods <- class_methods klass;
  set_class_methods klass (fst (tableSet methods name method)) ;;
  pop ;;
  ret tt.

Definition concatenate : M unit :=
  do vb <- peek 0;
  do b <- AS_STRING vb;
  do va <- peek 1;
  do a <- AS_STRING va;
  do sa <- string_chars a;
  do sb <- string_chars b;
  do result <- takeString (sa ++ sb);
  pop ;;
  pop ;;
  push (OBJ_VAL result).

(** ** The dispatch loop (vm.c, [run]) *)

(** The cached [frame]: [&vm.frames[vm.frameCount - 1]]. *)
Definition frame : M CallFrame :=
  do vm <- get_vm; of_option (last (frames vm)).

Definition set_frame_ip (new_ip : nat) : M unit :=
  do vm <- get_vm;
  match frames vm with
  | [] => undef
  | _ :: _ =>
      modify_vm (set_frames
        (alter (fun fr => mkFrame (closure fr) new_ip (slots fr))
               (length (frames vm) - 1) (frames vm)))
  end.

Definition frame_function : M ObjFunction :=
  do fr <- frame;
  do fa <- closure_function (closure fr);
  function_of fa.

Definition READ_BYTE : M nat :=
  do fr <- frame;
  do f <- frame_function;
  do b <- of_option (code (chunk f) !! ip fr);
  set_frame_ip (S (ip fr)) ;;
  ret b.

Definition READ_SHORT : M nat :=
  do hi <- READ_BYTE;
  do lo <- READ_BYTE;
  ret (N.to_nat (N.land (N.lor (N.shiftl (N.of_nat hi) 8) (N.of_nat lo)) 65535)).

Definition READ_CONSTANT : M Value :=
  do i <- READ_BYTE;
  do f <- frame_function;
  of_option (constants (chunk f) !! i).

Definition READ_CONSTANT_LONG : M Value :=
  do i <- READ_SHORT;
  do f <- frame_function;
  of_option (constants (chunk f) !! i).

Definition READ_STRING : M addr :=
  do v <- READ_CONSTANT; AS_STRING v.

(** What one instruction tells the loop: go on ([break]) or leave [run]
    with a result. *)
Abbreviation go_on := (ret (None : option InterpretResult)).
Abbreviation leave r := (ret (Some r : option InterpretResult)).

(** [runtimeError(...); return INTERPRET_RUNTIME_ERROR;] *)
Definition fail (format : string) : M (option InterpretResult) :=
  runtimeError format ;; leave INTERPRET_RUNTIME_ERROR.

(** [IS_NUMBER(peek(0)) && IS_NUMBER(peek(1))]. *)
Definition both_numbers : M bool :=
  do v0 <- peek 0;
  if IS_NUMBER v0 then do v1 <- peek 1; ret (IS_NUMBER v1) else ret false.

(** The macro [BINARY_OP]. *)
Definition BINARY_OP (op : double -> double -> Value) : M (option InterpretResult) :=
  do ok <- both_numbers;
  if negb ok then fail "SKILL ISSUE: Operands must be numbers."
  else
    do vb <- pop; do b <- AS_NUMBER vb;
    do va <- pop; do a <- AS_NUMBER va;
    push (op a b) ;; go_on.

(** The body shared by the two-operand bitwise instructions: both operands
    are converted to [int]. *)
Definition bitwise_op (ok : bool) (op : Z -> Z -> option Z) (message : string)
    : M (option InterpretResult) :=
  if ok then
    do vb <- pop; do db <- AS_NUMBER vb; do b <- of_option (double_to_int db);
    do va <- pop; do da <- AS_NUMBER va; do a <- of_option (double_to_int da);
    do r <- of_option (op a b);
    push (NUMBER_VAL (int_to_double r)) ;; go_on
  else fail message.

(** The loop of [OP_CLOSURE] that fills [closure->upvalues[i]] for
    [i = from .. from + n - 1]. *)
Fixpoint closure_upvalues_loop (n i : nat) (new_closure : addr) : M unit :=
  match n with
  | 0 => ret tt
  | S n' =>
      do isLocal <- READ_BYTE;
      do index <- READ_BYTE;
      do fr <- frame;
      do u <- (if negb (isLocal =? 0) then
                 do c <- captureUpvalue (slots fr + index); ret (Some c)
               else
                 do us <- closure_upvalues (closure fr);
                 of_option (us !! index));
      do o <- deref new_closure;
      match o with
      | OBJ_CLOSURE f us =>
          if decide (i < length us) then
            store new_closure (OBJ_CLOSURE f (<[i := u]> us)) ;;
            closure_upvalues_loop n' (S i) new_closure
          else undef
      | _ => undef
      end
  end.

(** The first loop of [OP_ARRAY]: [writeArray(array, peek(elementCount - i - 1))]
    for [i = from .. elementCount - 1]. *)
Fixpoint array_fill_loop (n i elementCount : nat) (array : addr) : M unit :=
  match n with
  | 0 => ret tt
  | S n' =>
      do v <- peek (elementCount - i - 1);
      writeArray array v ;;
      array_fill_loop n' (S i) elementCount array
  end.

(** A loop of [n] calls of [pop]. *)
Fixpoint pop_loop (n : nat) : M unit :=
  match n with
  | 0 => ret tt
  | S n' => pop ;; pop_loop n'
  end.

(** The loop of [OP_DICT]; it returns [false] after reporting a key that is
    not a string. *)
Fixpoint dict_fill_loop (n : nat) (dict : addr) : M bool :=
  match n with
  | 0 => ret true
  | S n' =>
      do value <- pop;
      do key <- pop;
      do is_string <- test IS_STRING key;
      if negb is_string then
        runtimeError "SKILL ISSUE: Dictionary keys must be strings." ;;
        ret false
      else
        do k <- AS_STRING key;
        writeDict dict k value ;;
        dict_fill_loop n' dict
  end.

(** The body of [case op:] in the [switch] of [run]. *)
Definition exec (op : OpCode) : M (option InterpretResult) :=
  match op with
  | OP_CONSTANT => do constant <- READ_CONSTANT; push constant ;; go_on
  | OP_CONSTANT_LONG => do constant <- READ_CONSTANT_LONG; push constant ;; go_on
  | OP_NIL => push NIL_VAL ;; go_on
  | OP_TRUE => push (BOOL_VAL true) ;; go_on
  | OP_FALSE => push (BOOL_VAL false) ;; go_on
  | OP_POP => pop ;; go_on
  | OP_GET_LOCAL =>
      do slot <- READ_BYTE;
      do fr <- frame;
      do v <- read_slot (slots fr + slot);
      push v ;; go_on
  | OP_SET_LOCAL =>
      do slot <- READ_BYTE;
      do fr <- frame;
      do v <- peek 0;
      write_slot (slots fr + slot) v ;; go_on
  | OP_GET_GLOBAL =>
      do name <- READ_STRING;
      do vm <- get_vm;
      match tableGet (globals vm) name with
      | None => fail "SKILL ISSUE: Undefined variable '%s'."
      | Some value => push value ;; go_on
      end
  | OP_DEFINE_GLOBAL =>
      do name <- READ_STRING;
      do v <- peek 0;
      modify_vm (fun vm => set_globals (fst (tableSet (globals vm) name v)) vm) ;;
      pop ;; go_on
  | OP_SET_GLOBAL =>
      do name <- READ_STRING;
      do v <- peek 0;
      do vm <- get_vm;
      let (t, isNewKey) := tableSet (globals vm) name v in
      modify_vm (set_globals t) ;;
      if isNewKey then
        modify_vm (set_globals (tableDelete t name)) ;;
        fail "SKILL ISSUE: Undefined variable '%s'."
      else go_on
  | OP_GET_UPVALUE =>
      do slot <- READ_BYTE;
      do fr <- frame;
      do us <- closure_upvalues (closure fr);
      do p <- of_option (us !! slot);
      do a <- of_option p;
      do u <- upvalue_of a;
      do v <- (match location u with
               | OnStack i => read_slot i
               | InClosed => ret (closed u)
               end);
      push v ;; go_on
  | OP_SET_UPVALUE =>
      do slot <- READ_BYTE;
      do fr <- frame;
      do us <- closure_upvalues (closure fr);
      do p <- of_option (us !! slot);
      do a <- of_option p;
      do u <- upvalue_of a;
      do v <- peek 0;
      match location u with
      | OnStack i => write_slot i v
      | InClosed => store a (OBJ_UPVALUE (mkUpvalue InClosed v))
      end ;;
      go_on
  | OP_GET_PROPERTY =>
      do v <- peek 0;
      do is_instance <- test IS_INSTANCE v;
      if is_instance then
        do instance <- AS_INSTANCE v;
        do name <- READ_STRING;
        do fields <- instance_fields instance;
        match tableGet fields name with
        | Some value => pop ;; push value ;; go_on
        | None =>
            do klass <- instance_klass instance;
            do bound <- bindMethod klass name;
            if negb bound then leave INTERPRET_RUNTIME_ERROR else go_on
        end
      else
        do is_dict <- test IS_DICT v;
        if is_dict then
          do dict <- AS_DICT v;
          do name <- READ_STRING;
          do value <- readDict dict name;
          pop ;; push value ;; go_on
        else fail "SKILL ISSUE: Only instances and dictionaries have properties."
  | OP_SET_PROPERTY =>
      do target <- peek 1;
      do is_instance <- test IS_INSTANCE target;
      if is_instance then
        do instance <- AS_INSTANCE target;
        do name <- READ_STRING;
        do v <- peek 0;
        do fields <- instance_fields instance;
        set_instance_fields instance (fst (tableSet fields name v)) ;;
        do value <- pop;
        pop ;;
        push value ;; go_on
      else
        do is_dict <- test IS_DICT target;
        if is_dict then
          do dict <- AS_DICT target;
          do name <- READ_STRING;
          do v <- peek 0;
          writeDict dict name v ;;
          do value <- pop;
          pop ;;
          push value ;; go_on
        else fail "SKILL ISSUE: Only instances and dictionaries have fields."
  | OP_GET_SUPER =>
      do name <- READ_STRING;
      do v <- pop;
      do superclass <- AS_CLASS v;
      do bound <- bindMethod superclass name;
      if negb bound then leave INTERPRET_RUNTIME_ERROR else go_on
  | OP_EQUAL =>
      do b <- pop;
      do a <- pop;
      push (BOOL_VAL (valuesEqual a b)) ;; go_on
  | OP_GREATER => BINARY_OP (fun a b => BOOL_VAL (SFltb b a))
  | OP_LESS => BINARY_OP (fun a b => BOOL_VAL (SFltb a b))
  | OP_BITWISE_AND =>
      do ok <- both_numbers;
      bitwise_op ok (fun a b => Some (Z.land a b))
        "SKILL ISSUE: operands must be numbers."
  | OP_BITWISE_OR =>
      do ok <- both_numbers;
      bitwise_op ok (fun a b => Some (Z.lor a b))
        "SKILL ISSUE: Operands must be two numbers."
  | OP_BITWISE_XOR =>
      do ok <- both_numbers;
      bitwise_op ok (fun a b => Some (Z.lxor a b))
        "SKILL ISSUE: Operands must be two numbers."
  | OP_BITWISE_LS =>
      do ok <- both_numbers;
      bitwise_op ok int_shl "SKILL ISSUE: Operands must be two numbers."
  | OP_BITWISE_RS =>
      do v0 <- peek 0;
      do v1 <- peek 1;
      bitwise_op (IS_NUMBER v0 && IS_NUMBER v1) int_shr
        "SKILL ISSUE: Operands must be two numbers."
  | OP_BITWISE_NOT =>
      do v0 <- peek 0;
      if IS_NUMBER v0 then
        do v <- pop; do value <- AS_NUMBER v;
        do intValue <- of_option (double_to_int value);
        push (NUMBER_VAL (int_to_double (Z.lnot intValue))) ;; go_on
      else fail "SKILL ISSUE: Operand must be a number."
  | OP_ADD =>
      do v0 <- peek 0;
      do s0 <- test IS_STRING v0;
      do strings <- (if s0 then do v1 <- peek 1; test IS_STRING v1 else ret false);
      if strings then concatenate ;; go_on
      else
        do numbers <- both_numbers;
        if numbers then
          do vb <- pop; do b <- AS_NUMBER vb;
          do va <- pop; do a <- AS_NUMBER va;
          push (NUMBER_VAL (SFadd prec64 emax64 a b)) ;; go_on
        else fail "SKILL ISSUE: Operands must be two numbers or two strings."
  | OP_MODULO =>
      do ok <- both_numbers;
      if negb ok then fail "SKILL ISSUE: Operands must be numbers."
      else
        do vb <- pop; do b <- AS_NUMBER vb;
        do va <- pop; do a <- AS_NUMBER va;
        if SFeqb b (S754_zero false) then fail "SKILL ISSUE: Division by zero."
        else push (NUMBER_VAL (fmod a b)) ;; go_on
  | OP_SUBTRACT => BINARY_OP (fun a b => NUMBER_VAL (SFsub prec64 emax64 a b))
  | OP_MULTIPLY => BINARY_OP (fun a b => NUMBER_VAL (SFmul prec64 emax64 a b))
  | OP_DIVIDE => BINARY_OP (fun a b => NUMBER_VAL (SFdiv prec64 emax64 a b))
  | OP_NOT =>
      do v <- pop;
      push (BOOL_VAL (isFalsey v)) ;; go_on
  | OP_NEGATE =>
      do v0 <- peek 0;
      if negb (IS_NUMBER v0) then fail "SKILL ISSUE: Operand must be a number."
      else
        do v <- pop; do d <- AS_NUMBER v;
        push (NUMBER_VAL (SFopp d)) ;; go_on
  | OP_OUT =>
      do v <- pop;
      modify_vm (fun vm => set_stdout (stdout vm ++ [v]) vm) ;; go_on
  | OP_JUMP =>
      do offset <- READ_SHORT;
      do fr <- frame;
      set_frame_ip (ip fr + offset) ;; go_on
  | OP_JUMP_IF_FALSE =>
      do offset <- READ_SHORT;
      do v <- peek 0;
      if isFalsey v then
        do fr <- frame; set_frame_ip (ip fr + offset) ;; go_on
      else go_on
  | OP_LOOP =>
      do offset <- READ_SHORT;
      do fr <- frame;
      if decide (offset <= ip fr) then set_frame_ip (ip fr - offset) ;; go_on
      else undef
  | OP_CALL =>
      do argCount <- READ_BYTE;
      do callee <- peek argCount;
      do ok <- callValue callee argCount;
      if negb ok then leave INTERPRET_RUNTIME_ERROR
      else frame ;; go_on
  | OP_INVOKE =>
      do method <- READ_STRING;
      do argCount <- READ_BYTE;
      do ok <- invoke method argCount;
      if negb ok then leave INTERPRET_RUNTIME_ERROR
      else frame ;; go_on
  | OP_SUPER_INVOKE =>
      do method <- READ_STRING;
      do argCount <- READ_BYTE;
      do v <- pop;
      do superclass <- AS_CLASS v;
      do ok <- invokeFromClass superclass method argCount;
      if negb ok then leave INTERPRET_RUNTIME_ERROR
      else frame ;; go_on
  | OP_CLOSURE =>
      do c <- READ_CONSTANT;
      do _ <- AS_FUNCTION c;
      do function <- AS_OBJ c;
      do new_closure <- newClosure function;
      push (OBJ_VAL new_closure) ;;
      do us <- closure_upvalues new_closure;
      closure_upvalues_loop (length us) 0 new_closure ;; go_on
  | OP_CLOSE_UPVALUE =>
      do vm <- get_vm;
      if decide (1 <= stackTop vm) then
        closeUpvalues (stackTop vm - 1) ;;
        pop ;; go_on
      else undef
  | OP_RETURN =>
      do fr <- frame;
      do result <- pop;
      closeUpvalues (slots fr) ;;
      modify_vm (fun vm => set_frames (removelast (frames vm)) vm) ;;
      do vm <- get_vm;
      if length (frames vm) =? 0 then
        pop ;; leave INTERPRET_OK
      else
        do fa <- closure_function (closure fr);
        do function <- function_of fa;
        do bad <- (if negb (bool_decide (returnType function = TYPE_NONE)) then
                     do ok <- checkReturnType function result; ret (negb ok)
                   else ret false);
        if bad then fail "SKILL ISSUE: Invalid return type."
        else
          modify_vm (set_stackTop (slots fr)) ;;
          push result ;;
          frame ;; go_on
  | OP_CLASS =>
      do name <- READ_STRING;
      do klass <- newClass name;
      push (OBJ_VAL klass) ;; go_on
  | OP_INHERIT =>
      do superclass <- peek 1;
      do is_class <- test IS_CLASS superclass;
      if negb is_class then fail "SKILL ISSUE: Superclass must be a class."
      else
        do v <- peek 0;
        do subclass <- AS_CLASS v;
        do super <- AS_CLASS superclass;
        do from <- class_methods super;
        do to <- class_methods subclass;
        set_class_methods subclass (tableAddAll from to) ;;
        pop ;; go_on
  | OP_METHOD =>
      do name <- READ_STRING;
      defineMethod name ;; go_on
  | OP_ARRAY =>
      do elementCount <- READ_BYTE;
      do array <- newArray;
      array_fill_loop elementCount 0 elementCount array ;;
      pop_loop elementCount ;;
      push (OBJ_VAL array) ;; go_on
  | OP_OBJECT_GET =>
      do target <- peek 1;
      do is_array <- test IS_ARRAY target;
      if is_array then
        do v0 <- peek 0;
        if negb (IS_NUMBER v0) then fail "SKILL ISSUE: Array access requires a number."
        else
          do vi <- pop; do d <- AS_NUMBER vi;
          do index <- of_option (double_to_int d);
          do va <- pop; do array <- AS_ARRAY va;
          do v <- readArray array index;
          push v ;; go_on
      else
        do is_dict <- test IS_DICT target;
        if is_dict then
          do v0 <- peek 0;
          do is_string <- test IS_STRING v0;
          if negb is_string then fail "SKILL ISSUE: Dictionary keys must be strings."
          else
            do vk <- pop; do key <- AS_STRING vk;
            do vd <- pop; do dict <- AS_DICT vd;
            do v <- readDict dict key;
            push v ;; go_on
        else fail "SKILL ISSUE: Only arrays and dictionaries support get set operations."
  | OP_OBJECT_SET =>
      do target <- peek 2;
      do is_array <- test IS_ARRAY target;
      if is_array then
        do v1 <- peek 1;
        if negb (IS_NUMBER v1) then fail "SKILL ISSUE: Array access requires a number."
        else
          do value <- peek 0;
          do d <- AS_NUMBER v1;
          do index <- of_option (double_to_int d);
          do array <- AS_ARRAY target;
          do es <- array_elements array;
          (* [array->elements.values[index] = value], with no check of the
             index.  The elements are the slots below [count]; a write at
             [count] or above goes to the slots the array keeps past its
             elements ([head()] and [tail()] lower [count] and give no
             storage back) and changes no element.  How many such slots
             there are is decided by the absent value.c and is not
             recorded.  A negative index lies before the storage. *)
          if decide (0 <= index)%Z then
            set_array_elements array (<[Z.to_nat index := value]> es) ;;
            pop ;; pop ;; pop ;;
            push NIL_VAL ;; go_on
          else undef
      else
        do is_dict <- test IS_DICT target;
        if is_dict then
          do v1 <- peek 1;
          do is_string <- test IS_STRING v1;
          if negb is_string then fail "SKILL ISSUE: Dictionary keys must be strings."
          else
            do value <- peek 0;
            do key <- AS_STRING v1;
            do dict <- AS_DICT target;
            writeDict dict key value ;;
            pop ;; pop ;; pop ;;
            push NIL_VAL ;; go_on
        else fail "SKILL ISSUE: Only arrays and dictionaries support set operations."
  | OP_DICT =>
      do dict <- newDict;
      do elementCount <- READ_BYTE;
      do ok <- dict_fill_loop elementCount dict;
      if negb ok then leave INTERPRET_RUNTIME_ERROR
      else push (OBJ_VAL dict) ;; go_on
  end.

(** One turn of the [for (;;)] loop: fetch a byte and dispatch on it.  A
    byte that is no opcode matches no [case]. *)
Definition step : M (option InterpretResult) :=
  do instruction <- READ_BYTE;
  match opcode_of_byte instruction with
  | Some op => exec op
  | None => go_on
  end.

(** [run], for at most [fuel] instructions; [None] as a result means the
    loop is still running. *)
Fixpoint run (fuel : nat) : M (option InterpretResult) :=
  match fuel with
  | 0 => go_on
  | S fuel' =>
      do r <- step;
      match r with
      | Some result => leave result
      | None => run fuel'
      end
  end.

Definition defineNative (name : string) (function : NativeFn) : M unit :=
  do s <- copyString name;
  push (OBJ_VAL s) ;;
  do n <- newNative function;
  push (OBJ_VAL n) ;;
  do v0 <- read_slot 0;
  do key <- AS_STRING v0;
  do v1 <- read_slot 1;
  modify_vm (fun vm => set_globals (fst (tableSet (globals vm) key v1)) vm) ;;
  pop ;;
  pop ;;
  ret tt.

Definition initVM : M unit :=
  modify_vm (fun vm => set_stackTop 0 (set_stack [] vm)) ;;
  modify_vm (set_frames []) ;;
  resetStack ;;
  modify_vm (set_heap ∅) ;;
  modify_vm (set_globals ∅) ;;
  modify_vm (set_strings ∅) ;;
  modify_vm (set_initString None) ;;
  do init <- copyString "init";
  modify_vm (set_initString (Some init)) ;;
  defineNative "clock" clockNative ;;
  defineNative "time" timeNative ;;
  defineNative "term" termNative ;;
  defineNative "prepend" arrayPrepend ;;
  defineNative "append" arrayAppend ;;
  defineNative "head" arrayHead ;;
  defineNative "tail" arrayTail ;;
  defineNative "rest" arrayRest ;;
  defineNative "remove" dictRemove ;;
  defineNative "length" lengthNative.

(** The [vm] before [initVM]. *)
Definition vm0 : VM := mkVM [] [] 0 ∅ ∅ None [] ∅ [] [] [].

(** * The compiler (compiler.c) *)

Module Compiler.

(** Modelled from the spec: scanner.h is absent.  The token kinds are the
    ones compiler.c names. *)
Inductive TokenType :=
| TOKEN_LEFT_PAREN | TOKEN_RIGHT_PAREN | TOKEN_LEFT_BRACE | TOKEN_RIGHT_BRACE
| TOKEN_LEFT_BRACKET | TOKEN_RIGHT_BRACKET | TOKEN_COMMA | TOKEN_DOT
| TOKEN_COLON | TOKEN_MINUS | TOKEN_PLUS | TOKEN_MODULO | TOKEN_SEMICOLON
| TOKEN_SLASH | TOKEN_STAR | TOKEN_AT
| TOKEN_BANG | TOKEN_BANG_EQUAL | TOKEN_EQUAL | TOKEN_EQUAL_EQUAL
| TOKEN_GREATER | TOKEN_GREATER_EQUAL | TOKEN_LESS | TOKEN_LESS_EQUAL
| TOKEN_IDENTIFIER | TOKEN_STRING | TOKEN_NUMBER
| TOKEN_AND | TOKEN_CLASS | TOKEN_ELSE | TOKEN_FALSE | TOKEN_FOR | TOKEN_FN
| TOKEN_IF | TOKEN_NIL | TOKEN_OR | TOKEN_OUT | TOKEN_RETURN | TOKEN_SUPER
| TOKEN_THIS | TOKEN_TRUE | TOKEN_VAR | TOKEN_IMPORT | TOKEN_WHILE
| TOKEN_UNTIL | TOKEN_ERROR
| TOKEN_BITWISE_AND | TOKEN_BITWISE_OR | TOKEN_BITWISE_XOR | TOKEN_BITWISE_LS
| TOKEN_BITWISE_RS | TOKEN_BITWISE_NOT
| TOKEN_EOF.

Global Instance TokenType_eq_dec : EqDecision TokenType.
Proof. solve_decision. Defined.

(** A token: its kind, its text ([start] and [length] in C) and its line. *)
Record Token := mkToken {
  type : TokenType;
  lexeme : string;
  line : nat
}.

Record Parser := mkParser {
  current : Token;
  previous : Token;
  hadError : bool;
  panicMode : bool
}.

(** The enum [Precedence]. *)
Definition PREC_NONE := 0.
Definition PREC_ASSIGNMENT := 1.
Definition PREC_OR := 2.
Definition PREC_AND := 3.
Definition PREC_EQUALITY := 4.
Definition PREC_COMPARISON := 5.
Definition PREC_TERM := 6.
Definition PREC_FACTOR := 7.
Definition PREC_BITWISE := 8.
Definition PREC_UNARY := 9.
Definition PREC_CALL := 10.
Definition PREC_PRIMARY := 11.

(** A [ParseFn]: the handlers that the table [rules] points to. *)
Inductive ParseFn :=
| fn_grouping | fn_call | fn_dictLiteral | fn_arrayLiteral | fn_objectAccess
| fn_dot | fn_unary | fn_binary | fn_variable | fn_string | fn_number
| fn_and | fn_literal | fn_or | fn_super | fn_this.

Record ParseRule := mkRule {
  prefix : option ParseFn;
  infix : option ParseFn;
  precedence : nat
}.

Record Local := mkLocal {
  name : string;
  depth : Z;
  isCaptured : bool
}.

Record Upvalue := mkCUpvalue {
  index : nat;
  isLocal : bool
}.

Inductive FunctionType :=
| TYPE_FUNCTION | TYPE_INITIALIZER | TYPE_METHOD | TYPE_SCRIPT.

Global Instance FunctionType_eq_dec : EqDecision FunctionType.
Proof. solve_decision. Defined.

(** A [Compiler]; [locals] is [locals[0 .. localCount-1]] and [upvalues] is
    [upvalues[0 .. function->upvalueCount-1]].  The [enclosing] link is the
    tail of the list [compiler] below. *)
Record Compiler := mkCompiler {
  function : addr;
  function_type : FunctionType;
  locals : list Local;
  upvalues : list Upvalue;
  scopeDepth : Z
}.

Record ClassCompiler := mkClassCompiler {
  hasSuperclass : bool
}.

(** The globals of compiler.c next to the global [vm]: [parser], the
    scanner's remaining tokens, the chain of compilers that starts at the C
    global [current] (innermost first), the chain that starts at
    [currentClass], and the names handed to [loadFile]. *)
Record State := mkState {
  parser : Parser;
  scanner : list Token;
  compiler : list Compiler;
  currentClass : list ClassCompiler;
  vm : VM;
  imports : list string
}.

Abbreviation C := (ST State).

Definition set_parser (x : Parser) (s : State) : State :=
  mkState x (scanner s) (compiler s) (currentClass s) (vm s) (imports s).
Definition set_scanner (x : list Token) (s : State) : State :=
  mkState (parser s) x (compiler s) (currentClass s) (vm s) (imports s).
Definition set_compiler (x : list Compiler) (s : State) : State :=
  mkState (parser s) (scanner s) x (currentClass s) (vm s) (imports s).
Definition set_currentClass (x : list ClassCompiler) (s : State) : State :=
  mkState (parser s) (scanner s) (compiler s) x (vm s) (imports s).
Definition set_vm (x : VM) (s : State) : State :=
  mkState (parser s) (scanner s) (compiler s) (currentClass s) x (imports s).
Definition set_imports (x : list string) (s : State) : State :=
  mkState (parser s) (scanner s) (compiler s) (currentClass s) (vm s) x.

(** A function of vm.c or object.c called from the compiler. *)
Definition liftVM {A} (m : M A) : C A :=
  fun s => match m (vm s) with
           | Some (a, v) => Some (a, set_vm v s)
           | None => None
           end.

Definition get_parser : C Parser := do s <- get; ret (parser s).

Definition modify_parser (f : Parser -> Parser) : C unit :=
  modify (fun s => set_parser (f (parser s)) s).

(** [*current], and an update of it. *)
Definition cur : C Compiler :=
  do s <- get; of_option (head (compiler s)).

Definition modify_cur (f : Compiler -> Compiler) : C unit :=
  do s <- get;
  match compiler s with
  | c :: enclosing => modify (set_compiler (f c :: enclosing))
  | [] => undef
  end.

(** [*current->function], and an update of it. *)
Definition cur_function : C ObjFunction :=
  do c <- cur; liftVM (function_of (function c)).

Definition modify_function (f : ObjFunction -> ObjFunction) : C unit :=
  do c <- cur;
  do fn <- liftVM (function_of (function c));
  liftVM (store (function c) (OBJ_FUNCTION (f fn))).

Definition currentChunk : C Chunk :=
  do f <- cur_function; ret (chunk f).

Definition modify_chunk (f : Chunk -> Chunk) : C unit :=
  modify_function (fun fn =>
    mkFunction (arity fn) (upvalueCount fn) (returnType fn) (f (chunk fn))
               (match fn with mkFunction _ _ _ _ n => n end)).

(** An opcode used as a byte, as the C enum is. *)
Coercion opcode_byte : OpCode >-> nat.

Definition UINT8_MAX := 255.
Definition UINT8_COUNT := 256.
Definition UINT16_MAX : Z := 65535.

(** ** The chunk module (chunk.c, absent: modelled from the spec) *)

(** [writeChunk] appends a byte and its source line. *)
Definition writeChunk (c : Chunk) (byte : nat) (line : nat) : Chunk :=
  mkChunk (code c ++ [byte mod 256]) (lines c ++ [line]) (constants c).

(** [addConstant] appends a value to the constant pool and returns its
    index. *)
Definition addConstant (value : Value) : C nat :=
  do c <- currentChunk;
  modify_chunk (fun c => mkChunk (code c) (lines c) (constants c ++ [value])) ;;
  ret (length (constants c)).

(** [writeConstant] adds the constant and emits [OP_CONSTANT] with a
    one-byte index, or [OP_CONSTANT_LONG] with a two-byte index when the
    index does not fit a byte. *)
Definition writeConstant (value : Value) (line : nat) : C unit :=
  do i <- addConstant value;
  if decide (i <= UINT8_MAX) then
    modify_chunk (fun c => writeChunk (writeChunk c OP_CONSTANT line) i line)
  else
    modify_chunk (fun c =>
      writeChunk (writeChunk (writeChunk c OP_CONSTANT_LONG line)
                    (i / 256) line) i line).

(** ** Errors and the token stream *)

Definition errorAt (token : Token) (message : string) : C unit :=
  do p <- get_parser;
  if panicMode p then ret tt
  else
    modify_parser (fun p => mkParser (current p) (previous p) (hadError p) true) ;;
    liftVM (modify_vm (fun vm => set_stderr (stderr vm ++ [message]) vm)) ;;
    modify_parser (fun p => mkParser (current p) (previous p) true (panicMode p)).

Definition error (message : string) : C unit :=
  do p <- get_parser; errorAt (previous p) message.

Definition errorAtCurrent (message : string) : C unit :=
  do p <- get_parser; errorAt (current p) message.

(** Modelled from the spec: the scanner is absent.  [scanToken] hands out
    the next token of the source, and [TOKEN_EOF] once they are used up. *)
Definition scanToken : C Token :=
  do s <- get;
  match scanner s with
  | t :: rest => modify (set_scanner rest) ;; ret t
  | [] => ret (mkToken TOKEN_EOF "" 0)
  end.

(** The loop of [advance]; every turn takes a token, so [n] turns are
    enough when [n] exceeds the number of tokens left. *)
Fixpoint advance_loop (n : nat) : C unit :=
  match n with
  | 0 => undef
  | S n' =>
      do t <- scanToken;
      modify_parser (fun p => mkParser t (previous p) (hadError p) (panicMode p)) ;;
      if negb (bool_decide (type t = TOKEN_ERROR)) then ret tt
      else errorAtCurrent (lexeme t) ;; advance_loop n'
  end.

Definition advance : C unit :=
  modify_parser (fun p => mkParser (current p) (current p) (hadError p) (panicMode p)) ;;
  do s <- get;
  advance_loop (S (length (scanner s))).

Definition check (t : TokenType) : C bool :=
  do p <- get_parser; ret (bool_decide (type (current p) = t)).

Definition consume (t : TokenType) (message : string) : C unit :=
  do c <- check t;
  if c then advance else errorAtCurrent message.

(** The C function [match]. *)
Definition match_ (t : TokenType) : C bool :=
  do c <- check t;
  if negb c then ret false else advance ;; ret true.

(** ** Emitting code *)

Definition emitByte (byte : nat) : C unit :=
  do p <- get_parser;
  modify_chunk (fun c => writeChunk c byte (line (previous p))).

Definition emitBytes (byte1 byte2 : nat) : C unit :=
  emitByte byte1 ;; emitByte byte2.

Definition byte_of_int (z : Z) : nat := Z.to_nat (Z.land z 255).

Definition emitLoop (loopStart : nat) : C unit :=
  emitByte OP_LOOP ;;
  do c <- currentChunk;
  let offset := (Z.of_nat (length (code c)) - Z.of_nat loopStart + 2)%Z in
  (if decide (offset > UINT16_MAX)%Z then error "Loop body too large." else ret tt) ;;
  emitByte (byte_of_int (Z.shiftr offset 8)) ;;
  emitByte (byte_of_int offset).

Definition emitJump (instruction : nat) : C nat :=
  emitByte instruction ;;
  emitByte 255 ;;
  emitByte 255 ;;
  do c <- currentChunk;
  ret (length (code c) - 2).

Definition emitReturn : C unit :=
  do c <- cur;
  (if decide (function_type c = TYPE_INITIALIZER) then emitBytes OP_GET_LOCAL 0
   else emitByte OP_NIL) ;;
  emitByte OP_RETURN.

Definition makeConstant (value : Value) : C nat :=
  do constant <- addConstant value;
  if decide (UINT8_MAX < constant) then
    error "Too many constants in one chunk." ;; ret 0
  else ret constant.

Definition emitConstant (value : Value) : C unit :=
  do p <- get_parser;
  writeConstant value (line (previous p)).

Definition patchJump (offset : nat) : C unit :=
  do c <- currentChunk;
  let jump := (Z.of_nat (length (code c)) - Z.of_nat offset - 2)%Z in
  (if decide (jump > UINT16_MAX)%Z then error "Too much code to jump over."
   else ret tt) ;;
  do c <- currentChunk;
  if decide (offset + 1 < length (code c)) then
    modify_chunk (fun c =>
      mkChunk (<[offset + 1 := byte_of_int jump]>
                 (<[offset := byte_of_int (Z.shiftr jump 8)]> (code c)))
              (lines c) (constants c))
  else undef.

Definition initCompiler (ftype : FunctionType) : C unit :=
  do f <- liftVM newFunction;
  modify (fun s => set_compiler (mkCompiler f ftype [] [] 0 :: compiler s) s) ;;
  (if negb (bool_decide (ftype = TYPE_SCRIPT)) then
     do p <- get_parser;
     do n <- liftVM (copyString (lexeme (previous p)));
     modify_function (fun fn =>
       mkFunction (arity fn) (upvalueCount fn) (returnType fn) (chunk fn) (Some n))
   else ret tt) ;;
  modify_cur (fun c =>
    mkCompiler (function c) (function_type c)
      (locals c ++ [mkLocal (if negb (bool_decide (ftype = TYPE_FUNCTION))
                             then "this" else "") 0 false])
      (upvalues c) (scopeDepth c)).

Definition endCompiler : C addr :=
  emitReturn ;;
  do c <- cur;
  modify (fun s => set_compiler (tail (compiler s)) s) ;;
  ret (function c).

Definition beginScope : C unit :=
  modify_cur (fun c =>
    mkCompiler (function c) (function_type c) (locals c) (upvalues c)
               (scopeDepth c + 1)).

(** The loop of [endScope]; it drops one local per turn. *)
Fixpoint endScope_loop (n : nat) : C unit :=
  match n with
  | 0 => ret tt
  | S n' =>
      do c <- cur;
      match last (locals c) with
      | Some l =>
          if decide (depth l > scopeDepth c)%Z then
            (if isCaptured l then emitByte OP_CLOSE_UPVALUE else emitByte OP_POP) ;;
            modify_cur (fun c =>
              mkCompiler (function c) (function_type c) (removelast (locals c))
                         (upvalues c) (scopeDepth c)) ;;
            endScope_loop n'
          else ret tt
      | None => ret tt
      end
  end.

Definition endScope : C unit :=
  modify_cur (fun c =>
    mkCompiler (function c) (function_type c) (locals c) (upvalues c)
               (scopeDepth c - 1)) ;;
  do c <- cur;
  endScope_loop (length (locals c)).

(** ** Variables *)

Definition identifierConstant (name : string) : C nat :=
  do a <- liftVM (copyString name);
  makeConstant (OBJ_VAL a).

Definition fetchImportName (name : string) : C addr :=
  liftVM (copyString name).

Definition identifiersEqual (a b : string) : bool := bool_decide (a = b).

(** The loop of [resolveLocal]: it looks at [locals[n-1]], ..., [locals[0]]. *)
Fixpoint resolveLocal_loop (name : string) (n : nat) (ls : list Local)
    : option (nat * Local) :=
  match n with
  | 0 => None
  | S i =>
      match ls !! i with
      | Some l =>
          if identifiersEqual name (Compiler.name l) then Some (i, l)
          else resolveLocal_loop name i ls
      | None => None
      end
  end.

(** A [Compiler*] argument is the position [k] of the compiler in the
    chain: 0 is [current], 1 is [current->enclosing], and so on.  The
    result -1 of C is [None]. *)
Definition resolveLocal (k : nat) (name : string) : C (option nat) :=
  do s <- get;
  do c <- of_option (compiler s !! k);
  match resolveLocal_loop name (length (locals c)) (locals c) with
  | Some (i, l) =>
      (if decide (depth l = -1)%Z then
         error "Can't read local variable in its own initializer."
       else ret tt) ;;
      ret (Some i)
  | None => ret None
  end.

Definition modify_compiler_at (k : nat) (f : Compiler -> Compiler) : C unit :=
  do s <- get;
  match compiler s !! k with
  | Some _ => modify (set_compiler (alter f k (compiler s)))
  | None => undef
  end.

Definition addUpvalue (k : nat) (index : nat) (isLocal : bool) : C nat :=
  do s <- get;
  do c <- of_option (compiler s !! k);
  do fn <- liftVM (function_of (function c));
  let upvalueCount := upvalueCount fn in
  match list_find (fun u => Compiler.index u = index ∧ Compiler.isLocal u = isLocal)
                  (take upvalueCount (upvalues c)) with
  | Some (i, _) => ret i
  | None =>
      if decide (upvalueCount = UINT8_COUNT) then
        error "Too many closure variables in function." ;; ret 0
      else
        modify_compiler_at k (fun c =>
          mkCompiler (function c) (function_type c) (locals c)
            (take upvalueCount (upvalues c) ++ [mkCUpvalue index isLocal])
            (scopeDepth c)) ;;
        liftVM (store (function c) (OBJ_FUNCTION
          (mkFunction (arity fn) (S upvalueCount) (returnType fn) (chunk fn)
                      (match fn with mkFunction _ _ _ _ n => n end)))) ;;
        ret upvalueCount
  end.

(** [resolveUpvalue] recurses along [enclosing]; [n] bounds the length of
    the chain. *)
Fixpoint resolveUpvalue (n : nat) (k : nat) (name : string) : C (option nat) :=
  match n with
  | 0 => undef
  | S n' =>
      do s <- get;
      match compiler s !! S k with
      | None => ret None
      | Some _ =>
          do local <- resolveLocal (S k) name;
          match local with
          | Some l =>
              modify_compiler_at (S k) (fun c =>
                mkCompiler (function c) (function_type c)
                  (alter (fun x => mkLocal (Compiler.name x) (depth x) true) l (locals c))
                  (upvalues c) (scopeDepth c)) ;;
              do i <- addUpvalue k (l mod 256) true;
              ret (Some i)
          | None =>
              do upvalue <- resolveUpvalue n' (S k) name;
              match upvalue with
              | Some u =>
                  do i <- addUpvalue k (u mod 256) false;
                  ret (Some i)
              | None => ret None
              end
          end
      end
  end.

Definition addLocal (name : string) : C unit :=
  do c <- cur;
  if decide (length (locals c) = UINT8_COUNT) then
    error "Too many local variables in function."
  else
    modify_cur (fun c =>
      mkCompiler (function c) (function_type c)
                 (locals c ++ [mkLocal name (-1) false])
                 (upvalues c) (scopeDepth c)).

(** The loop of [declareVariable]: it looks at [locals[n-1]], ...,
    [locals[0]] and reports whether the name is already declared in the
    current scope. *)
Fixpoint declareVariable_loop (name : string) (scope : Z) (n : nat)
    (ls : list Local) : bool :=
  match n with
  | 0 => false
  | S i =>
      match ls !! i with
      | Some l =>
          if (negb (bool_decide (depth l = -1)%Z)
              && bool_decide (depth l < scope)%Z) then false
          else if identifiersEqual name (Compiler.name l) then true
          else declareVariable_loop name scope i ls
      | None => false
      end
  end.

Definition declareVariable : C unit :=
  do c <- cur;
  if decide (scopeDepth c = 0)%Z then ret tt
  else
    do p <- get_parser;
    let name := lexeme (previous p) in
    (if declareVariable_loop name (scopeDepth c) (length (locals c)) (locals c)
     then error "Already a variable with this name in this scope."
     else ret tt) ;;
    addLocal name.

Definition parseVariable (errorMessage : string) : C nat :=
  consume TOKEN_IDENTIFIER errorMessage ;;
  declareVariable ;;
  do c <- cur;
  if decide (scopeDepth c > 0)%Z then ret 0
  else
    do p <- get_parser;
    identifierConstant (lexeme (previous p)).

(** [loadFile] reads a file and interprets it; the file system is outside
    the model, so the call is only recorded. *)
Definition loadFile (name : string) : C unit :=
  modify (fun s => set_imports (imports s ++ [name]) s).

Definition parseImport (errorMessage : string) : C nat :=
  consume TOKEN_IDENTIFIER errorMessage ;;
  do p <- get_parser;
  do a <- fetchImportName (lexeme (previous p));
  do name <- liftVM (string_chars a);
  loadFile name ;;
  ret 0.

Definition markInitialized : C unit :=
  do c <- cur;
  if decide (scopeDepth c = 0)%Z then ret tt
  else
    match locals c with
    | [] => undef
    | _ :: _ =>
        modify_cur (fun c =>
          mkCompiler (function c) (function_type c)
            (alter (fun x => mkLocal (Compiler.name x) (scopeDepth c) (isCaptured x))
                   (length (locals c) - 1) (locals c))
            (upvalues c) (scopeDepth c))
    end.

Definition defineVariable (global : nat) : C unit :=
  do c <- cur;
  if decide (scopeDepth c > 0)%Z then markInitialized
  else emitBytes OP_DEFINE_GLOBAL global.

(** ** The table [rules] *)

Definition getRule (t : TokenType) : ParseRule :=
  match t with
  | TOKEN_LEFT_PAREN => mkRule (Some fn_grouping) (Some fn_call) PREC_CALL
  | TOKEN_LEFT_BRACE => mkRule (Some fn_dictLiteral) None PREC_NONE
  | TOKEN_LEFT_BRACKET => mkRule (Some fn_arrayLiteral) (Some fn_objectAccess) PREC_CALL
  | TOKEN_DOT => mkRule None (Some fn_dot) PREC_CALL
  | TOKEN_MINUS => mkRule (Some fn_unary) (Some fn_binary) PREC_TERM
  | TOKEN_PLUS => mkRule None (Some fn_binary) PREC_TERM
  | TOKEN_MODULO => mkRule None (Some fn_binary) PREC_TERM
  | TOKEN_SLASH => mkRule None (Some fn_binary) PREC_FACTOR
  | TOKEN_STAR => mkRule None (Some fn_binary) PREC_FACTOR
  | TOKEN_BANG => mkRule (Some fn_unary) None PREC_NONE
  | TOKEN_BANG_EQUAL => mkRule None (Some fn_binary) PREC_EQUALITY
  | TOKEN_EQUAL_EQUAL => mkRule None (Some fn_binary) PREC_EQUALITY
  | TOKEN_GREATER => mkRule None (Some fn_binary) PREC_COMPARISON
  | TOKEN_GREATER_EQUAL => mkRule None (Some fn_binary) PREC_COMPARISON
  | TOKEN_LESS => mkRule None (Some fn_binary) PREC_COMPARISON
  | TOKEN_LESS_EQUAL => mkRule None (Some fn_binary) PREC_COMPARISON
  | TOKEN_IDENTIFIER => mkRule (Some fn_variable) None PREC_NONE
  | TOKEN_STRING => mkRule (Some fn_string) None PREC_NONE
  | TOKEN_NUMBER => mkRule (Some fn_number) None PREC_NONE
  | TOKEN_AND => mkRule None (Some fn_and) PREC_AND
  | TOKEN_FALSE => mkRule (Some fn_literal) None PREC_NONE
  | TOKEN_NIL => mkRule (Some fn_literal) None PREC_NONE
  | TOKEN_OR => mkRule None (Some fn_or) PREC_OR
  | TOKEN_SUPER => mkRule (Some fn_super) None PREC_NONE
  | TOKEN_THIS => mkRule (Some fn_this) None PREC_NONE
  | TOKEN_TRUE => mkRule (Some fn_literal) None PREC_NONE
  | TOKEN_BITWISE_AND => mkRule None (Some fn_binary) PREC_BITWISE
  | TOKEN_BITWISE_OR => mkRule None (Some fn_binary) PREC_BITWISE
  | TOKEN_BITWISE_XOR => mkRule None (Some fn_binary) PREC_BITWISE
  | TOKEN_BITWISE_LS => mkRule None (Some fn_binary) PREC_BITWISE
  | TOKEN_BITWISE_RS => mkRule None (Some fn_binary) PREC_BITWISE
  | TOKEN_BITWISE_NOT => mkRule (Some fn_unary) None PREC_BITWISE
  | _ => mkRule None None PREC_NONE
  end.

(** ** Expressions

    [parsePrecedence], [statement] and [declaration] are declared before
    they are defined in C; here the functions that call them take them as
    section variables, and the recursion is closed further down.  [fuel]
    bounds the loops over the token stream, and [strtod] is the C
    library's. *)

Section Parsing.

Variable fuel : nat.
Variable strtod : string -> double.
Variable parsePrecedence : nat -> C unit.
Variable statement : C unit.
Variable declaration : C unit.

Definition expression : C unit := parsePrecedence PREC_ASSIGNMENT.

(** The [do ... while (match(TOKEN_COMMA))] loop of [argumentList]. *)
Fixpoint argumentList_loop (n : nat) (argCount : nat) : C nat :=
  match n with
  | 0 => undef
  | S n' =>
      expression ;;
      (if decide (argCount = 255) then error "Can't have more than 255 arguments."
       else ret tt) ;;
      let argCount := (argCount + 1) mod 256 in
      do more <- match_ TOKEN_COMMA;
      if more then argumentList_loop n' argCount else ret argCount
  end.

Definition argumentList : C nat :=
  do closing <- check TOKEN_RIGHT_PAREN;
  do argCount <- (if negb closing then argumentList_loop fuel 0 else ret 0);
  consume TOKEN_RIGHT_PAREN "Expect ')' after arguments." ;;
  ret argCount.

Definition and_ (canAssign : bool) : C unit :=
  do endJump <- emitJump OP_JUMP_IF_FALSE;
  emitByte OP_POP ;;
  parsePrecedence PREC_AND ;;
  patchJump endJump.

Definition binary (canAssign : bool) : C unit :=
  do p <- get_parser;
  let operatorType := type (previous p) in
  let rule := getRule operatorType in
  parsePrecedence (precedence rule + 1) ;;
  match operatorType with
  | TOKEN_BANG_EQUAL => emitBytes OP_EQUAL OP_NOT
  | TOKEN_EQUAL_EQUAL => emitByte OP_EQUAL
  | TOKEN_GREATER => emitByte OP_GREATER
  | TOKEN_GREATER_EQUAL => emitBytes OP_LESS OP_NOT
  | TOKEN_LESS => emitByte OP_LESS
  | TOKEN_LESS_EQUAL => emitBytes OP_GREATER OP_NOT
  | TOKEN_PLUS => emitByte OP_ADD
  | TOKEN_MODULO => emitByte OP_MODULO
  | TOKEN_MINUS => emitByte OP_SUBTRACT
  | TOKEN_STAR => emitByte OP_MULTIPLY
  | TOKEN_SLASH => emitByte OP_DIVIDE
  | TOKEN_BITWISE_AND => emitByte OP_BITWISE_AND
  | TOKEN_BITWISE_OR => emitByte OP_BITWISE_OR
  | TOKEN_BITWISE_XOR => emitByte OP_BITWISE_XOR
  | TOKEN_BITWISE_LS => emitByte OP_BITWISE_LS
  | TOKEN_BITWISE_RS => emitByte OP_BITWISE_RS
  | _ => ret tt
  end.

Definition call (canAssign : bool) : C unit :=
  do argCount <- argumentList;
  emitBytes OP_CALL argCount.

Definition dot (canAssign : bool) : C unit :=
  consume TOKEN_IDENTIFIER "Expect property name after '.'." ;;
  do p <- get_parser;
  do name <- identifierConstant (lexeme (previous p));
  do assign <- (if canAssign then match_ TOKEN_EQUAL else ret false);
  if assign then
    expression ;;
    emitBytes OP_SET_PROPERTY name
  else
    do paren <- match_ TOKEN_LEFT_PAREN;
    if paren then
      do argCount <- argumentList;
      emitBytes OP_INVOKE name ;;
      emitByte argCount
    else emitBytes OP_GET_PROPERTY name.

Definition literal (canAssign : bool) : C unit :=
  do p <- get_parser;
  match type (previous p) with
  | TOKEN_FALSE => emitByte OP_FALSE
  | TOKEN_NIL => emitByte OP_NIL
  | TOKEN_TRUE => emitByte OP_TRUE
  | _ => ret tt
  end.

Definition grouping (canAssign : bool) : C unit :=
  expression ;;
  consume TOKEN_RIGHT_PAREN "Expect ')' after expression.".

Definition number (canAssign : bool) : C unit :=
  do p <- get_parser;
  let value := strtod (lexeme (previous p)) in
  emitConstant (NUMBER_VAL value).

Definition or_ (canAssign : bool) : C unit :=
  do elseJump <- emitJump OP_JUMP_IF_FALSE;
  do endJump <- emitJump OP_JUMP;
  patchJump elseJump ;;
  emitByte OP_POP ;;
  parsePrecedence PREC_OR ;;
  patchJump endJump.

(** The [do ... while (match(TOKEN_COMMA))] loop of [arrayLiteral]. *)
Fixpoint arrayLiteral_loop (n : nat) (elementCount : nat) : C nat :=
  match n with
  | 0 => undef
  | S n' =>
      expression ;;
      let elementCount := elementCount + 1 in
      do more <- match_ TOKEN_COMMA;
      if more then arrayLiteral_loop n' elementCount else ret elementCount
  end.

Definition arrayLiteral (canAssign : bool) : C unit :=
  do closing <- check TOKEN_RIGHT_BRACKET;
  do elementCount <- (if negb closing then arrayLiteral_loop fuel 0 else ret 0);
  consume TOKEN_RIGHT_BRACKET "Expect ']' after array elements." ;;
  emitBytes OP_ARRAY elementCount.

(** The [do ... while (match(TOKEN_COMMA))] loop of [dictLiteral]. *)
Fixpoint dictLiteral_loop (n : nat) (elementCount : nat) : C nat :=
  match n with
  | 0 => undef
  | S n' =>
      expression ;;
      consume TOKEN_COLON "Expect ':' after key." ;;
      expression ;;
      let elementCount := elementCount + 1 in
      do more <- match_ TOKEN_COMMA;
      if more then dictLiteral_loop n' elementCount else ret elementCount
  end.

Definition dictLiteral (canAssign : bool) : C unit :=
  do closing <- check TOKEN_RIGHT_BRACE;
  do elementCount <- (if negb closing then dictLiteral_loop fuel 0 else ret 0);
  consume TOKEN_RIGHT_BRACE "Expect '}' after dict elements." ;;
  emitBytes OP_DICT elementCount.

Definition objectAccess (canAssign : bool) : C unit :=
  expression ;;
  consume TOKEN_RIGHT_BRACKET "Expect ']' after index." ;;
  do assign <- (if canAssign then match_ TOKEN_EQUAL else ret false);
  if assign then
    expression ;;
    emitByte OP_OBJECT_SET
  else emitByte OP_OBJECT_GET.

(** The handler [string]: the constant is the token's text without its
    quotes. *)
Definition string_ (canAssign : bool) : C unit :=
  do p <- get_parser;
  let text := lexeme (previous p) in
  do a <- liftVM (copyString (substring 1 (String.length text - 2) text));
  emitConstant (OBJ_VAL a).

Definition namedVariable (name : string) (canAssign : bool) : C unit :=
  do local <- resolveLocal 0 name;
  do ops <-
    (match local with
     | Some arg => ret (OP_GET_LOCAL, OP_SET_LOCAL, arg)
     | None =>
         do s <- get;
         do upvalue <- resolveUpvalue (length (compiler s)) 0 name;
         match upvalue with
         | Some arg => ret (OP_GET_UPVALUE, OP_SET_UPVALUE, arg)
         | None =>
             do arg <- identifierConstant name;
             ret (OP_GET_GLOBAL, OP_SET_GLOBAL, arg)
         end
     end);
  let '(getOp, setOp, arg) := ops in
  do assign <- (if canAssign then match_ TOKEN_EQUAL else ret false);
  if assign then
    expression ;;
    emitBytes (opcode_byte setOp) arg
  else emitBytes (opcode_byte getOp) arg.

Definition variable (canAssign : bool) : C unit :=
  do p <- get_parser;
  namedVariable (lexeme (previous p)) canAssign.

Definition super_ (canAssign : bool) : C unit :=
  do s <- get;
  match currentClass s with
  | [] => error "Can't use 'super' outside of a class."
  | c :: _ =>
      if negb (hasSuperclass c) then
        error "Can't use 'super' in a class with no superclass."
      else ret tt
  end ;;
  consume TOKEN_DOT "Expect '.' after 'super'." ;;
  consume TOKEN_IDENTIFIER "Expect superclass method name." ;;
  do p <- get_parser;
  do name <- identifierConstant (lexeme (previous p));
  namedVariable "this" false ;;
  do paren <- match_ TOKEN_LEFT_PAREN;
  if paren then
    do argCount <- argumentList;
    namedVariable "super" false ;;
    emitBytes OP_SUPER_INVOKE name ;;
    emitByte argCount
  else
    namedVariable "super" false ;;
    emitBytes OP_GET_SUPER name.

Definition this_ (canAssign : bool) : C unit :=
  do s <- get;
  match currentClass s with
  | [] => error "Can't use 'this' outside of a class."
  | _ :: _ => variable false
  end.

Definition unary (canAssign : bool) : C unit :=
  do p <- get_parser;
  let operatorType := type (previous p) in
  parsePrecedence PREC_UNARY ;;
  match operatorType with
  | TOKEN_BANG => emitByte OP_NOT
  | TOKEN_MINUS => emitByte OP_NEGATE
  | TOKEN_BITWISE_NOT => emitByte OP_BITWISE_NOT
  | _ => ret tt
  end.

(** A call through a [ParseFn] pointer. *)
Definition call_ParseFn (f : ParseFn) (canAssign : bool) : C unit :=
  match f with
  | fn_grouping => grouping canAssign
  | fn_call => call canAssign
  | fn_dictLiteral => dictLiteral canAssign
  | fn_arrayLiteral => arrayLiteral canAssign
  | fn_objectAccess => objectAccess canAssign
  | fn_dot => dot canAssign
  | fn_unary => unary canAssign
  | fn_binary => binary canAssign
  | fn_variable => variable canAssign
  | fn_string => string_ canAssign
  | fn_number => number canAssign
  | fn_and => and_ canAssign
  | fn_literal => literal canAssign
  | fn_or => or_ canAssign
  | fn_super => super_ canAssign
  | fn_this => this_ canAssign
  end.

(** The [while] loop of [parsePrecedence] over the infix operators. *)
Fixpoint parsePrecedence_loop (n : nat) (precedence : nat) (canAssign : bool) : C unit :=
  match n with
  | 0 => undef
  | S n' =>
      do p <- get_parser;
      if decide (precedence <= Compiler.precedence (getRule (type (current p)))) then
        advance ;;
        do p <- get_parser;
        do infixRule <- of_option (infix (getRule (type (previous p))));
        call_ParseFn infixRule canAssign ;;
        parsePrecedence_loop n' precedence canAssign
      else ret tt
  end.

(** The body of [parsePrecedence]. *)
Definition parsePrecedence_body (precedence : nat) : C unit :=
  advance ;;
  do p <- get_parser;
  match prefix (getRule (type (previous p))) with
  | None => error "Expect expression."
  | Some prefixRule =>
      let canAssign := bool_decide (precedence <= PREC_ASSIGNMENT) in
      call_ParseFn prefixRule canAssign ;;
      parsePrecedence_loop fuel precedence canAssign ;;
      do assign <- (if canAssign then match_ TOKEN_EQUAL else ret false);
      if assign then error "Invalid assignment target." else ret tt
  end.

(** ** Declarations and statements *)

(** The [while] loop of [block]. *)
Fixpoint block_loop (n : nat) : C unit :=
  match n with
  | 0 => undef
  | S n' =>
      do closing <- check TOKEN_RIGHT_BRACE;
      do eof <- check TOKEN_EOF;
      if negb closing && negb eof then declaration ;; block_loop n'
      else ret tt
  end.

Definition block : C unit :=
  block_loop fuel ;;
  consume TOKEN_RIGHT_BRACE "Expect '}' after block.".

Definition parseReturnType : C FunctionReturnType :=
  do at_sign <- match_ TOKEN_AT;
  if at_sign then
    do ident <- match_ TOKEN_IDENTIFIER;
    do p <- get_parser;
    let text := lexeme (previous p) in
    if ident && bool_decide (text = "void") then ret TYPE_VOID
    else if ident && bool_decide (text = "int") then ret TYPE_INT
    else if ident && bool_decide (text = "float") then ret TYPE_FLOAT
    else if ident && bool_decide (text = "str") then ret TYPE_STRING
    else if ident && bool_decide (text = "bool") then ret TYPE_BOOL
    else error "Invalid return type." ;; ret TYPE_NONE
  else ret TYPE_NONE.

(** The [do ... while (match(TOKEN_COMMA))] loop over the parameters. *)
Fixpoint function_params_loop (n : nat) : C unit :=
  match n with
  | 0 => undef
  | S n' =>
      modify_function (fun fn =>
        mkFunction (S (arity fn)) (upvalueCount fn) (returnType fn) (chunk fn)
                   (match fn with mkFunction _ _ _ _ x => x end)) ;;
      do fn <- cur_function;
      (if decide (255 < arity fn) then
         errorAtCurrent "Can't have more than 255 parameters."
       else ret tt) ;;
      do constant <- parseVariable "Expect parameter name.";
      defineVariable constant ;;
      do more <- match_ TOKEN_COMMA;
      if more then function_params_loop n' else ret tt
  end.

(** The loop of [function] that emits the upvalue descriptors
    [i = from .. from + n - 1]. *)
Fixpoint function_upvalues_loop (n i : nat) (us : list Upvalue) : C unit :=
  match n with
  | 0 => ret tt
  | S n' =>
      do u <- of_option (us !! i);
      emitByte (if isLocal u then 1 else 0) ;;
      emitByte (index u) ;;
      function_upvalues_loop n' (S i) us
  end.

(** The last byte of the current chunk, [code[count - 1]]. *)
Definition last_code_byte : C nat :=
  do c <- currentChunk;
  match length (code c) with
  | 0 => undef
  | S i => of_option (code c !! i)
  end.

Definition function_ (ftype : FunctionType) : C unit :=
  initCompiler ftype ;;
  beginScope ;;
  consume TOKEN_LEFT_PAREN "Expect '(' after function name." ;;
  do closing <- check TOKEN_RIGHT_PAREN;
  (if negb closing then function_params_loop fuel else ret tt) ;;
  consume TOKEN_RIGHT_PAREN "Expect ')' after parameters." ;;
  do returnType <- parseReturnType;
  modify_function (fun fn =>
    mkFunction (arity fn) (upvalueCount fn) returnType (chunk fn)
               (match fn with mkFunction _ _ _ _ x => x end)) ;;
  consume TOKEN_LEFT_BRACE "Expect '{' before function body." ;;
  block ;;
  do lastByte <- last_code_byte;
  (if negb (lastByte =? OP_RETURN) then
     if bool_decide (returnType = TYPE_VOID) || bool_decide (returnType = TYPE_NONE)
     then emitReturn
     else error "Function must have an explicit return."
   else ret tt) ;;
  do compiler <- cur;
  do function <- endCompiler;
  do constant <- makeConstant (OBJ_VAL function);
  emitBytes OP_CLOSURE constant ;;
  do fn <- liftVM (function_of function);
  function_upvalues_loop (upvalueCount fn) 0 (upvalues compiler).

Definition method : C unit :=
  consume TOKEN_IDENTIFIER "Expect method name." ;;
  do p <- get_parser;
  do constant <- identifierConstant (lexeme (previous p));
  let ftype := if bool_decide (lexeme (previous p) = "init")
               then TYPE_INITIALIZER else TYPE_METHOD in
  function_ ftype ;;
  emitBytes OP_METHOD constant.

(** The [while] loop of [classDeclaration] over the methods. *)
Fixpoint class_methods_loop (n : nat) : C unit :=
  match n with
  | 0 => undef
  | S n' =>
      do closing <- check TOKEN_RIGHT_BRACE;
      do eof <- check TOKEN_EOF;
      if negb closing && negb eof then method ;; class_methods_loop n'
      else ret tt
  end.

Definition classDeclaration : C unit :=
  consume TOKEN_IDENTIFIER "Expect class name." ;;
  do p <- get_parser;
  let className := lexeme (previous p) in
  do nameConstant <- identifierConstant className;
  declareVariable ;;
  emitBytes OP_CLASS nameConstant ;;
  defineVariable nameConstant ;;
  modify (fun s => set_currentClass (mkClassCompiler false :: currentClass s) s) ;;
  do less <- match_ TOKEN_LESS;
  (if less then
     consume TOKEN_IDENTIFIER "Expect superclass name." ;;
     variable false ;;
     do p <- get_parser;
     (if identifiersEqual className (lexeme (previous p)) then
        error "A class can't inherit from itself."
      else ret tt) ;;
     beginScope ;;
     addLocal "super" ;;
     defineVariable 0 ;;
     namedVariable className false ;;
     emitByte OP_INHERIT ;;
     modify (fun s => set_currentClass (mkClassCompiler true :: tail (currentClass s)) s)
   else ret tt) ;;
  namedVariable className false ;;
  consume TOKEN_LEFT_BRACE "Expect '{' before class body." ;;
  class_methods_loop fuel ;;
  consume TOKEN_RIGHT_BRACE "Expect '}' after class body." ;;
  emitByte OP_POP ;;
  do s <- get;
  do classCompiler <- of_option (head (currentClass s));
  (if hasSuperclass classCompiler then endScope else ret tt) ;;
  modify (fun s => set_currentClass (tail (currentClass s)) s).

Definition fnDeclaration : C unit :=
  do global <- parseVariable "Expect function name.";
  markInitialized ;;
  function_ TYPE_FUNCTION ;;
  defineVariable global.

Definition varDeclaration : C unit :=
  do global <- parseVariable "Expect variable name.";
  do init <- match_ TOKEN_EQUAL;
  (if init then expression else emitByte OP_NIL) ;;
  consume TOKEN_SEMICOLON "Expect ';' after variable declaration." ;;
  defineVariable global.

Definition importDeclaration : C unit :=
  parseImport "Expect a file to import." ;; ret tt.

Definition expressionStatement : C unit :=
  expression ;;
  consume TOKEN_SEMICOLON "Expect ';' after expression." ;;
  emitByte OP_POP.

Definition forStatement : C unit :=
  beginScope ;;
  consume TOKEN_LEFT_PAREN "Expect '(' after 'for'." ;;
  do semi <- match_ TOKEN_SEMICOLON;
  (if semi then ret tt
   else
     do var <- match_ TOKEN_VAR;
     if var then varDeclaration else expressionStatement) ;;
  do c <- currentChunk;
  let loopStart := length (code c) in
  do semi <- match_ TOKEN_SEMICOLON;
  do exitJump <-
    (if negb semi then
       expression ;;
       consume TOKEN_SEMICOLON "Expect ';' after loop condition." ;;
       do j <- emitJump OP_JUMP_IF_FALSE;
       emitByte OP_POP ;;
       ret (Some j)
     else ret None);
  do paren <- match_ TOKEN_RIGHT_PAREN;
  do loopStart <-
    (if negb paren then
       do bodyJump <- emitJump OP_JUMP;
       do c <- currentChunk;
       let incrementStart := length (code c) in
       expression ;;
       emitByte OP_POP ;;
       consume TOKEN_RIGHT_PAREN "Expect ')' after for clauses." ;;
       emitLoop loopStart ;;
       patchJump bodyJump ;;
       ret incrementStart
     else ret loopStart);
  statement ;;
  emitLoop loopStart ;;
  match exitJump with
  | Some j => patchJump j ;; emitByte OP_POP
  | None => ret tt
  end ;;
  endScope.

Definition ifStatement : C unit :=
  consume TOKEN_LEFT_PAREN "Expect '(' after 'if'." ;;
  expression ;;
  consume TOKEN_RIGHT_PAREN "Expect ')' after condition." ;;
  do thenJump <- emitJump OP_JUMP_IF_FALSE;
  emitByte OP_POP ;;
  statement ;;
  do elseJump <- emitJump OP_JUMP;
  patchJump thenJump ;;
  emitByte OP_POP ;;
  do else_ <- match_ TOKEN_ELSE;
  (if else_ then statement else ret tt) ;;
  patchJump elseJump.

Definition outStatement : C unit :=
  expression ;;
  consume TOKEN_SEMICOLON "Expect ';' after value." ;;
  emitByte OP_OUT.

Definition returnStatement : C unit :=
  do c <- cur;
  (if decide (function_type c = TYPE_SCRIPT) then
     error "Can't return from top-level code."
   else ret tt) ;;
  do semi <- match_ TOKEN_SEMICOLON;
  if semi then
    do fn <- cur_function;
    (if negb (bool_decide (returnType fn = TYPE_VOID)) then
       error "Function must return a value."
     else ret tt) ;;
    emitReturn
  else
    do fn <- cur_function;
    (if bool_decide (returnType fn = TYPE_VOID) then
       error "Void function cannot return a value."
     else ret tt) ;;
    expression ;;
    consume TOKEN_SEMICOLON "Expect ';' after return value." ;;
    do lastOpcode <- last_code_byte;
    do fn <- cur_function;
    match returnType fn with
    | TYPE_INT | TYPE_FLOAT =>
        if negb (lastOpcode =? OP_CONSTANT) && negb (lastOpcode =? OP_ADD)
           && negb (lastOpcode =? OP_SUBTRACT) && negb (lastOpcode =? OP_MULTIPLY)
           && negb (lastOpcode =? OP_DIVIDE) && negb (lastOpcode =? OP_NEGATE)
        then error "Function must return a number."
        else ret tt
    | TYPE_STRING =>
        if negb (lastOpcode =? OP_CONSTANT)
        then error "Function must return a string."
        else ret tt
    | TYPE_BOOL =>
        if negb (lastOpcode =? OP_TRUE) && negb (lastOpcode =? OP_FALSE)
           && negb (lastOpcode =? OP_EQUAL) && negb (lastOpcode =? OP_GREATER)
           && negb (lastOpcode =? OP_LESS) && negb (lastOpcode =? OP_NOT)
        then error "Function must return a boolean."
        else ret tt
    | TYPE_VOID => ret tt
    | TYPE_NONE => ret tt
    end ;;
    emitByte OP_RETURN.

Definition whileStatement : C unit :=
  do c <- currentChunk;
  let loopStart := length (code c) in
  consume TOKEN_LEFT_PAREN "Expect '(' after 'while'." ;;
  expression ;;
  consume TOKEN_RIGHT_PAREN "Expect ')' after condition." ;;
  do exitJump <- emitJump OP_JUMP_IF_FALSE;
  emitByte OP_POP ;;
  statement ;;
  emitLoop loopStart ;;
  patchJump exitJump ;;
  emitByte OP_POP.

Definition untilStatement : C unit :=
  do c <- currentChunk;
  let loopStart := length (code c) in
  consume TOKEN_LEFT_PAREN "Expect '(' after 'until'." ;;
  expression ;;
  consume TOKEN_RIGHT_PAREN "Expect ')' after condition." ;;
  emitByte OP_NOT ;;
  do exitJump <- emitJump OP_JUMP_IF_FALSE;
  emitByte OP_POP ;;
  statement ;;
  emitLoop loopStart ;;
  patchJump exitJump ;;
  emitByte OP_POP.

(** The [while] loop of [synchronize]. *)
Fixpoint synchronize_loop (n : nat) : C unit :=
  match n with
  | 0 => undef
  | S n' =>
      do p <- get_parser;
      if bool_decide (type (current p) = TOKEN_EOF) then ret tt
      else if bool_decide (type (previous p) = TOKEN_SEMICOLON) then ret tt
      else
        match type (current p) with
        | TOKEN_CLASS | TOKEN_FN | TOKEN_VAR | TOKEN_FOR | TOKEN_IF
        | TOKEN_WHILE | TOKEN_OUT | TOKEN_RETURN | TOKEN_IMPORT => ret tt
        | _ => advance ;; synchronize_loop n'
        end
  end.

Definition synchronize : C unit :=
  modify_parser (fun p => mkParser (current p) (previous p) (hadError p) false) ;;
  do s <- get;
  synchronize_loop (S (S (length (scanner s)))).

(** The body of [declaration]. *)
Definition declaration_body : C unit :=
  do class <- match_ TOKEN_CLASS;
  (if class then classDeclaration
   else
     do fn <- match_ TOKEN_FN;
     if fn then fnDeclaration
     else
       do var <- match_ TOKEN_VAR;
       if var then varDeclaration
       else
         do import <- match_ TOKEN_IMPORT;
         if import then importDeclaration
         else statement) ;;
  do p <- get_parser;
  if panicMode p then synchronize else ret tt.

(** The body of [statement]. *)
Definition statement_body : C unit :=
  do out <- match_ TOKEN_OUT;
  if out then outStatement
  else
    do for_ <- match_ TOKEN_FOR;
    if for_ then forStatement
    else
      do if_ <- match_ TOKEN_IF;
      if if_ then ifStatement
      else
        do return_ <- match_ TOKEN_RETURN;
        if return_ then returnStatement
        else
          do while <- match_ TOKEN_WHILE;
          if while then whileStatement
          else
            do until <- match_ TOKEN_UNTIL;
            if until then untilStatement
            else
              do brace <- match_ TOKEN_LEFT_BRACE;
              if brace then
                beginScope ;;
                block ;;
                endScope
              else expressionStatement.

(** The [while (!match(TOKEN_EOF))] loop of [compile]. *)
Fixpoint compile_loop (n : nat) : C unit :=
  match n with
  | 0 => undef
  | S n' =>
      do eof <- match_ TOKEN_EOF;
      if negb eof then declaration ;; compile_loop n' else ret tt
  end.

End Parsing.

(** The recursion of the parser, closed with [fuel] as the bound on its
    depth as well. *)
Fixpoint parsePrecedence (strtod : string -> double) (fuel : nat)
    (precedence : nat) : C unit :=
  match fuel with
  | 0 => undef
  | S fuel' =>
      parsePrecedence_body fuel strtod
        (fun p s => parsePrecedence strtod fuel' p s) precedence
  end.

Fixpoint statement (strtod : string -> double) (fuel : nat) : C unit :=
  match fuel with
  | 0 => undef
  | S fuel' =>
      statement_body fuel (fun p s => parsePrecedence strtod fuel' p s)
        (fun s => statement strtod fuel' s) (fun s => declaration strtod fuel' s)
  end
with declaration (strtod : string -> double) (fuel : nat) : C unit :=
  match fuel with
  | 0 => undef
  | S fuel' =>
      declaration_body fuel (fun p s => parsePrecedence strtod fuel' p s)
        (fun s => statement strtod fuel' s) (fun s => declaration strtod fuel' s)
  end.

(** [compile]; the source is given as the tokens the scanner makes of it.
    The result is the function, or [None] for C's [NULL]. *)
Definition compile (strtod : string -> double) (fuel : nat)
    (source : list Token) : C (option addr) :=
  modify (set_scanner source) ;;
  initCompiler TYPE_SCRIPT ;;
  modify_parser (fun p => mkParser (current p) (previous p) false (panicMode p)) ;;
  modify_parser (fun p => mkParser (current p) (previous p) (hadError p) false) ;;
  advance ;;
  compile_loop (fun s => declaration strtod fuel s) fuel ;;
  do function <- endCompiler;
  do p <- get_parser;
  ret (if hadError p then None else Some function).

End Compiler.

(** [interpret] (vm.c), on the state of both files. *)
Definition interpret (strtod : string -> double) (fuel : nat)
    (source : list Compiler.Token) : Compiler.C InterpretResult :=
  do function <- Compiler.compile strtod fuel source;
  match function with
  | None => ret INTERPRET_COMPILE_ERROR
  | Some function =>
      Compiler.liftVM (
        push (OBJ_VAL function) ;;
        do closure <- newClosure function;
        pop ;;
        push (OBJ_VAL closure) ;;
        call closure 0 ;;
        do r <- run fuel;
        of_option r)
  end.


(** ** States on which the properties below are exercised *)

(** A [vm] that runs the closure at address 1 of the function at address 0,
    whose chunk is [c]; the frame's base is slot 0, its [ip] is
    [ip0], and [extra] holds further heap objects. *)
Definition example_vm (c : Chunk) (returns : FunctionReturnType)
    (ip0 : nat) (extra : gmap addr Obj) (st : list Value) : VM :=
  mkVM [mkFrame 1 ip0 0] st (length st) ∅ ∅ None []
       (<[1 := OBJ_CLOSURE 0 []]>
          (<[0 := OBJ_FUNCTION (mkFunction 0 0 returns c None)]> extra))
       [] [] [].

Definition one : double := int_to_double 1.
Definition two : double := int_to_double 2.

(** ** Notions used by the statements *)

(** The message a native prints when its array argument is empty. *)
Definition empty_array_message (fn : NativeFn) : string :=
  match fn with
  | arrayHead => "SKILL ISSUE: head() called on an empty array."
  | arrayTail => "SKILL ISSUE: tail() called on an empty array."
  | arrayRest => "SKILL ISSUE: rest() called on an empty array."
  | _ => ""
  end.

(** What a declared return type requires of the returned value: nil for
    void, a number for int and float, a string for str, a boolean for
    bool. *)
Definition return_value_conforms (h : gmap addr Obj)
    (declared : FunctionReturnType) (result : Value) : bool :=
  match declared with
  | TYPE_NONE => true
  | TYPE_VOID => match result with NIL_VAL => true | _ => false end
  | TYPE_INT | TYPE_FLOAT =>
      match result with NUMBER_VAL _ => true | _ => false end
  | TYPE_STRING =>
      match result with
      | OBJ_VAL a => match h !! a with Some (OBJ_STRING _) => true | _ => false end
      | _ => false
      end
  | TYPE_BOOL => match result with BOOL_VAL _ => true | _ => false end
  end.

(** The heap [h'] differs from [h] only in upvalue objects. *)
Definition only_upvalues_differ (h h' : gmap addr Obj) : Prop :=
  forall a, h' !! a = h !! a \/
            exists u u', h !! a = Some (OBJ_UPVALUE u) /\
                         h' !! a = Some (OBJ_UPVALUE u').

(** The stack slots of the pairs of a dict literal, in source order: each
    key followed by its value, the last pair on top. *)
Definition dict_literal_slots (pairs : list (addr * Value)) : list Value :=
  flat_map (fun p => [OBJ_VAL (fst p); snd p]) pairs.

(** The value of the first and of the last pair with key [k]. *)
Fixpoint first_occurrence (k : addr) (pairs : list (addr * Value)) : option Value :=
  match pairs with
  | [] => None
  | (k', v) :: rest =>
      if decide (k' = k) then Some v else first_occurrence k rest
  end.

Definition last_occurrence (k : addr) (pairs : list (addr * Value)) : option Value :=
  first_occurrence k (rev pairs).

(** The pairs are on top of the stack, above slot [base], and their keys
    are strings. *)
Definition dict_literal_on_stack (vm : VM) (base : nat)
    (pairs : list (addr * Value)) : Prop :=
  stackTop vm = base + length (dict_literal_slots pairs) /\
  (forall i, i < length (dict_literal_slots pairs) ->
     stack vm !! (base + i) = dict_literal_slots pairs !! i) /\
  (forall p, In p pairs -> exists chars, heap vm !! fst p = Some (OBJ_STRING chars)).

(** The table that the loop of [OP_DICT] builds from the pairs: the pairs
    are written from the last to the first. *)
Definition dict_of_pairs (items : Table) (pairs : list (addr * Value)) : Table :=
  foldr (fun p m => <[fst p := snd p]> m) items pairs.

(** C5 as it is stated: after [OP_DICT n] on the pairs of a literal, a key
    maps to the value of its last occurrence in the literal. *)
Definition OP_DICT_last_occurrence_wins : Prop :=
  forall (vm vm1 vm' : VM) (base : nat) (pairs : list (addr * Value))
         (dict : addr) (items : Table) (k : addr),
    dict_literal_on_stack vm base pairs ->
    READ_BYTE vm = Some (length pairs, vm1) ->
    exec OP_DICT vm = Some (None, vm') ->
    stack vm' !! base = Some (OBJ_VAL dict) ->
    heap vm' !! dict = Some (OBJ_DICT items) ->
    items !! k = last_occurrence k pairs.

(** A function that is running [OP_DICT 2] on the slots of the literal
    [{"x": 1, "x": 2}]; the string "x" is the object at address 2. *)
Definition dict_example_pairs : list (addr * Value) :=
  [(2, NUMBER_VAL one); (2, NUMBER_VAL two)].

Definition dict_example : VM :=
  example_vm (mkChunk [opcode_byte OP_DICT; 2] [1; 1] []) TYPE_NONE 1
    (<[2 := OBJ_STRING "x"]> ∅)
    (OBJ_VAL 1 :: dict_literal_slots dict_example_pairs).

Definition dict_example_after : VM :=
  match exec OP_DICT dict_example with
  | Some (_, vm') => vm'
  | None => dict_example
  end.

(** The [vm] after [initVM]. *)
Definition vm_init : VM :=
  match initVM vm0 with
  | Some (_, vm) => vm
  | None => vm0
  end.

(** The state in which [interpret] calls [compile]. *)
Definition compiler_init : Compiler.State :=
  Compiler.mkState
    (Compiler.mkParser (Compiler.mkToken Compiler.TOKEN_EOF "" 0)
                       (Compiler.mkToken Compiler.TOKEN_EOF "" 0) false false)
    [] [] [] vm_init [].

(** A token on line 1. *)
Definition tok (t : Compiler.TokenType) (text : string) : Compiler.Token :=
  Compiler.mkToken t text 1.

(** The text of a string token: the characters between two quotes. *)
Definition quoted (text : string) : string :=
  String (Ascii.ascii_of_nat 34) (text ++ String (Ascii.ascii_of_nat 34) "").

(** The tokens of [fn f() @int { return "x"; }]. *)
Definition return_string_from_int : list Compiler.Token :=
  [ tok Compiler.TOKEN_FN "fn"; tok Compiler.TOKEN_IDENTIFIER "f";
    tok Compiler.TOKEN_LEFT_PAREN "("; tok Compiler.TOKEN_RIGHT_PAREN ")";
    tok Compiler.TOKEN_AT "@"; tok Compiler.TOKEN_IDENTIFIER "int";
    tok Compiler.TOKEN_LEFT_BRACE "{"; tok Compiler.TOKEN_RETURN "return";
    tok Compiler.TOKEN_STRING (quoted "x");
    tok Compiler.TOKEN_SEMICOLON ";"; tok Compiler.TOKEN_RIGHT_BRACE "}";
    tok Compiler.TOKEN_EOF "" ].

(** The tokens of [fn f() @int { out 1; return 2; }]. *)
Definition return_second_number_from_int : list Compiler.Token :=
  [ tok Compiler.TOKEN_FN "fn"; tok Compiler.TOKEN_IDENTIFIER "f";
    tok Compiler.TOKEN_LEFT_PAREN "("; tok Compiler.TOKEN_RIGHT_PAREN ")";
    tok Compiler.TOKEN_AT "@"; tok Compiler.TOKEN_IDENTIFIER "int";
    tok Compiler.TOKEN_LEFT_BRACE "{";
    tok Compiler.TOKEN_OUT "out"; tok Compiler.TOKEN_NUMBER "1";
    tok Compiler.TOKEN_SEMICOLON ";";
    tok Compiler.TOKEN_RETURN "return"; tok Compiler.TOKEN_NUMBER "2";
    tok Compiler.TOKEN_SEMICOLON ";"; tok Compiler.TOKEN_RIGHT_BRACE "}";
    tok Compiler.TOKEN_EOF "" ].

(** The bytes with which [returnStatement] compares the last byte of the
    chunk when the function declares a numeric return type. *)
Definition numeric_return_bytes : list nat :=
  [ opcode_byte OP_CONSTANT; opcode_byte OP_ADD; opcode_byte OP_SUBTRACT;
    opcode_byte OP_MULTIPLY; opcode_byte OP_DIVIDE; opcode_byte OP_NEGATE ].

(** The state [s] with the heap [h]. *)
Definition with_heap (h : gmap addr Obj) (s : Compiler.State) : Compiler.State :=
  Compiler.set_vm (set_heap h (Compiler.vm s)) s.

(** A computation of the compiler that neither looks at the heap nor
    changes it, and leaves the chain of compilers alone: the functions
    that move through the tokens and report errors are such. *)
Definition parser_only {A} (m : Compiler.C A) : Prop :=
  forall s,
    match m s with
    | Some (a, s') =>
        Compiler.compiler s' = Compiler.compiler s /\
        forall h, m (with_heap h s) = Some (a, with_heap h s')
    | None => forall h, m (with_heap h s) = None
    end.

(** [emitByte] with the line given: [writeChunk(currentChunk(), byte, line)]. *)
Definition emitByte_at (byte line : nat) : Compiler.C unit :=
  Compiler.modify_chunk (fun c => Compiler.writeChunk c byte line).

(** [strtod] on the decimal integers: enough to run the examples. *)
Fixpoint decimal_value (text : string) (acc : Z) : Z :=
  match text with
  | EmptyString => acc
  | String c rest =>
      decimal_value rest (10 * acc + (Z.of_nat (Ascii.nat_of_ascii c) - 48))%Z
  end.

Definition strtod_decimal (text : string) : double :=
  int_to_double (decimal_value text 0).

(** The compiler right after it has taken the keyword of
    [until (true) out 1;] or [while (true) out 1;]: the current token is
    the opening parenthesis. *)
Definition loop_example : Compiler.State :=
  match (modify (Compiler.set_scanner
                   [ tok Compiler.TOKEN_LEFT_PAREN "(";
                     tok Compiler.TOKEN_TRUE "true";
                     tok Compiler.TOKEN_RIGHT_PAREN ")";
                     tok Compiler.TOKEN_OUT "out";
                     tok Compiler.TOKEN_NUMBER "1";
                     tok Compiler.TOKEN_SEMICOLON ";";
                     tok Compiler.TOKEN_EOF "" ]) ;;
         Compiler.initCompiler Compiler.TYPE_SCRIPT ;;
         Compiler.advance) compiler_init with
  | Some (_, s) => s
  | None => compiler_init
  end.

(** ** The list of open upvalues *)

(** The stack slot at which the upvalue at [a] points, when [a] is an
    open upvalue. *)
Definition open_slot (h : gmap addr Obj) (a : addr) : option nat :=
  match h !! a with
  | Some (OBJ_UPVALUE u) =>
      match location u with
      | OnStack i => Some i
      | InClosed => None
      end
  | _ => None
  end.

(** The slots of the nodes of [vm.openUpvalues], from the head of the list
    on; [None] when a node of the list is not an open upvalue. *)
Definition open_slots (vm : VM) : option (list nat) :=
  mapM (open_slot (heap vm)) (openUpvalues vm).

(** Every element of [l] is greater than all the elements after it. *)
Fixpoint strictly_descending (l : list nat) : Prop :=
  match l with
  | [] => True
  | i :: rest => Forall (fun j => j < i) rest /\ strictly_descending rest
  end.

Global Instance strictly_descending_dec l : Decision (strictly_descending l).
Proof. induction l; simpl; apply _. Defined.

(** The open-upvalue list is strictly descending by stack address. *)
Definition open_upvalues_descending (vm : VM) : Prop :=
  match open_slots vm with
  | Some slots => strictly_descending slots
  | None => False
  end.

Global Instance open_upvalues_descending_dec vm :
  Decision (open_upvalues_descending vm).
Proof. unfold open_upvalues_descending. destruct (open_slots vm); apply _. Defined.

(** A computation of the VM that keeps the open-upvalue list descending. *)
Definition preserves {A} (m : M A) : Prop :=
  forall vm r vm',
    open_upvalues_descending vm -> m vm = Some (r, vm') ->
    open_upvalues_descending vm'.

(** A stack of three values whose slots 2 and 0 are captured by the open
    upvalues at addresses 2 and 3. *)
Definition upvalues_example : VM :=
  set_openUpvalues [2; 3]
    (example_vm (mkChunk [] [] []) TYPE_NONE 0
       (<[2 := OBJ_UPVALUE (mkUpvalue (OnStack 2) NIL_VAL)]>
          (<[3 := OBJ_UPVALUE (mkUpvalue (OnStack 0) NIL_VAL)]> ∅))
       [NUMBER_VAL one; NUMBER_VAL two; BOOL_VAL true]).

(** ** Further states on which the properties are exercised *)

(** A function declared [@int], at address 2, returns the number on top
    of the stack to the script that called it: the frame of the script and
    the frame of the function, whose base is slot 1. *)
Definition int_function : ObjFunction :=
  mkFunction 0 0 TYPE_INT (mkChunk [opcode_byte OP_RETURN] [1] []) None.

Definition return_example : VM :=
  mkVM [mkFrame 1 5 0; mkFrame 3 1 1]
       [OBJ_VAL 1; OBJ_VAL 3; NUMBER_VAL one] 3 ∅ ∅ None []
       (<[3 := OBJ_CLOSURE 2 []]>
          (<[2 := OBJ_FUNCTION int_function]>
             (<[1 := OBJ_CLOSURE 0 []]>
                (<[0 := OBJ_FUNCTION
                          (mkFunction 0 0 TYPE_NONE (mkChunk [] [] []) None)]> ∅))))
       [] [] [].

(** [OP_CALL 1] on the closure at address 3 of a function of one
    parameter, with the argument on top of the stack. *)
Definition call_example : VM :=
  example_vm (mkChunk [opcode_byte OP_CALL; 1] [1; 1] []) TYPE_NONE 1
    (<[3 := OBJ_CLOSURE 2 []]>
       (<[2 := OBJ_FUNCTION
                 (mkFunction 1 0 TYPE_NONE (mkChunk [] [] []) None)]> ∅))
    [OBJ_VAL 1; OBJ_VAL 3; NUMBER_VAL one].

(** [OP_SET_PROPERTY] of the name "x", the string at address 2, on the
    instance at address 3, with the number 1 on top of the stack. *)
Definition set_property_example : VM :=
  example_vm (mkChunk [opcode_byte OP_SET_PROPERTY; 0] [1; 1] [OBJ_VAL 2])
    TYPE_NONE 1
    (<[2 := OBJ_STRING "x"]>
       (<[3 := OBJ_INSTANCE 4 ∅]> (<[4 := OBJ_CLASS 2 ∅]> ∅)))
    [OBJ_VAL 1; OBJ_VAL 3; NUMBER_VAL one].

(** A call of a native with the empty array at address 2 in slot 1. *)
Definition empty_array_example : VM :=
  example_vm (mkChunk [] [] []) TYPE_NONE 0 (<[2 := OBJ_ARRAY []]> ∅)
    [OBJ_VAL 1; OBJ_VAL 2].

(** [OP_OBJECT_SET] that stores [true] at index 1 of the array [[1, 2]]
    at address 2. *)
Definition object_set_example : VM :=
  example_vm (mkChunk [opcode_byte OP_OBJECT_SET] [1] []) TYPE_NONE 1
    (<[2 := OBJ_ARRAY [NUMBER_VAL one; NUMBER_VAL two]]> ∅)
    [OBJ_VAL 1; OBJ_VAL 2; NUMBER_VAL one; BOOL_VAL true].

(** [OP_ARRAY 2] with the numbers 1 and 2 on top of the stack. *)
Definition array_example : VM :=
  example_vm (mkChunk [opcode_byte OP_ARRAY; 2] [1; 1] []) TYPE_NONE 1 ∅
    [OBJ_VAL 1; NUMBER_VAL one; NUMBER_VAL two].

(** The tokens of [fn f() @int { return true; }]. *)
Definition return_true_from_int : list Compiler.Token :=
  [ tok Compiler.TOKEN_FN "fn"; tok Compiler.TOKEN_IDENTIFIER "f";
    tok Compiler.TOKEN_LEFT_PAREN "("; tok Compiler.TOKEN_RIGHT_PAREN ")";
    tok Compiler.TOKEN_AT "@"; tok Compiler.TOKEN_IDENTIFIER "int";
    tok Compiler.TOKEN_LEFT_BRACE "{"; tok Compiler.TOKEN_RETURN "return";
    tok Compiler.TOKEN_TRUE "true";
    tok Compiler.TOKEN_SEMICOLON ";"; tok Compiler.TOKEN_RIGHT_BRACE "}";
    tok Compiler.TOKEN_EOF "" ].

(** The line of the token that is [previous] after [consume t]: the line of
    the token taken, when the current token is of kind [t], and the line of
    the token before it otherwise. *)
Definition line_after_consume (t : Compiler.TokenType) (p : Compiler.Parser) : nat :=
  if bool_decide (Compiler.type (Compiler.current p) = t)
  then Compiler.line (Compiler.current p)
  else Compiler.line (Compiler.previous p).

(** [emitByte] placed before [consume t], with the line that [emitByte]
    records when it comes after it. *)
Definition emitByte_before (t : Compiler.TokenType) (byte : nat) : Compiler.C unit :=
  do p <- Compiler.get_parser;
  emitByte_at byte (line_after_consume t p).

(** ** Notions used by the further properties *)

(** The natives that take an array as their first argument, the number of
    arguments they take and the message they print when called otherwise. *)
Definition array_native_arity (fn : NativeFn) : option nat :=
  match fn with
  | arrayPrepend | arrayAppend => Some 2
  | arrayHead | arrayTail | arrayRest => Some 1
  | _ => None
  end.

Definition array_native_usage (fn : NativeFn) : string :=
  match fn with
  | arrayPrepend => "SKILL ISSUE: prepend() takes exactly 2 arguments: array and value."
  | arrayAppend => "SKILL ISSUE: append() takes exactly 2 arguments: array and value."
  | arrayHead => "SKILL ISSUE: head() takes exactly 1 argument: array."
  | arrayTail => "SKILL ISSUE: tail() takes exactly 1 argument: array."
  | arrayRest => "SKILL ISSUE: rest() takes exactly 1 argument: array."
  | _ => ""
  end.

(** The state after [runtimeError] has printed [message]. *)
Definition after_runtimeError (message : string) (vm : VM) : VM :=
  set_openUpvalues [] (set_frames [] (set_stackTop 0
    (set_stderr (stderr vm ++ [message]) vm))).

(** An array of three elements at address 2, in slot 1, and a value in
    slot 2. *)
Definition three_array_example : VM :=
  example_vm (mkChunk [] [] []) TYPE_NONE 0
    (<[2 := OBJ_ARRAY [NUMBER_VAL one; NUMBER_VAL two; BOOL_VAL true]]> ∅)
    [OBJ_VAL 1; OBJ_VAL 2; NIL_VAL].

(** A dictionary with the key "x" (the string at address 3) at address 2,
    in slot 1, and the key in slot 2. *)
Definition dict_remove_example : VM :=
  example_vm (mkChunk [] [] []) TYPE_NONE 0
    (<[2 := OBJ_DICT (<[3 := NUMBER_VAL one]> ∅)]> (<[3 := OBJ_STRING "x"]> ∅))
    [OBJ_VAL 1; OBJ_VAL 2; OBJ_VAL 3].

(** The string "abc" at address 2, in slot 1. *)
Definition string_example : VM :=
  example_vm (mkChunk [] [] []) TYPE_NONE 0 (<[2 := OBJ_STRING "abc"]> ∅)
    [OBJ_VAL 1; OBJ_VAL 2].

(** The object at [a] is the string [chars]. *)
Definition holds_string (h : gmap addr Obj) (a : addr) (chars : string) : bool :=
  match h !! a with
  | Some (OBJ_STRING c) => bool_decide (c = chars)
  | _ => false
  end.

(** The string object [o] at [a] is the one the table has for its
    characters. *)
Definition in_table (t : gmap string addr) (a : addr) (o : Obj) : bool :=
  match o with
  | OBJ_STRING chars => bool_decide (t !! chars = Some a)
  | _ => true
  end.

(** The table [vm.strings] and the string objects of the heap agree: the
    table maps the characters of every string object to that object, and
    only such. *)
Definition strings_interned (vm : VM) : Prop :=
  map_Forall (fun chars a => holds_string (heap vm) a chars = true) (strings vm) /\
  map_Forall (fun a o => in_table (strings vm) a o = true) (heap vm).

Global Instance strings_interned_dec vm : Decision (strings_interned vm).
Proof. unfold strings_interned. apply _. Defined.

(** The kinds of objects that the instructions write to after they are
    created. *)
Definition mutable_type (t : ObjType) : bool :=
  match t with
  | T_CLOSURE | T_UPVALUE | T_CLASS | T_INSTANCE | T_ARRAY | T_DICT => true
  | T_STRING | T_FUNCTION | T_NATIVE | T_BOUND_METHOD => false
  end.

(** A computation of the VM that keeps the property [I] of the state. *)
Definition keeps {A} (I : VM -> Prop) (m : M A) : Prop :=
  forall vm r vm', I vm -> m vm = Some (r, vm') -> I vm'.

(** What [run] leaves of the object [o] at [a]: an object of the same kind
    at [a], and [o] itself when it is of a kind that is not written to. *)
Definition object_persists (a : addr) (o : Obj) (vm : VM) : Prop :=
  exists o', heap vm !! a = Some o' /\ obj_type o' = obj_type o /\
             (mutable_type (obj_type o) = false -> o' = o).

(** A script that concatenates two strings:
    [OP_CONSTANT 0; OP_CONSTANT 1; OP_ADD], with the string constants "a"
    and "b" at addresses 2 and 3, both interned. *)
Definition concat_example : VM :=
  set_strings (<["a"%string := 2]> (<["b"%string := 3]> ∅))
    (example_vm
       (mkChunk [opcode_byte OP_CONSTANT; 0; opcode_byte OP_CONSTANT; 1;
                 opcode_byte OP_ADD]
                [1; 1; 1; 1; 1] [OBJ_VAL 2; OBJ_VAL 3])
       TYPE_NONE 0
       (<[2 := OBJ_STRING "a"]> (<[3 := OBJ_STRING "b"]> ∅))
       [OBJ_VAL 1]).

Definition concat_example_after : VM :=
  match run 3 concat_example with
  | Some (_, vm') => vm'
  | None => concat_example
  end.

(** [upvalues_example] after [closeUpvalues] from slot 1 on. *)
Definition upvalues_example_closed : VM :=
  match closeUpvalues 1 upvalues_example with
  | Some (_, vm') => vm'
  | None => upvalues_example
  end.

(** [OP_DEFINE_GLOBAL] of the name "x", the string at address 2, with the
    number 1 on top of the stack. *)
Definition global_example : VM :=
  example_vm (mkChunk [opcode_byte OP_DEFINE_GLOBAL; 0] [1; 1] [OBJ_VAL 2])
    TYPE_NONE 1 (<[2 := OBJ_STRING "x"]> ∅)
    [OBJ_VAL 1; NUMBER_VAL one].

(** [OP_GET_PROPERTY] of the name "x" on the instance at address 3, whose
    field "x" is 1. *)
Definition property_example : VM :=
  example_vm (mkChunk [opcode_byte OP_GET_PROPERTY; 0] [1; 1] [OBJ_VAL 2])
    TYPE_NONE 1
    (<[2 := OBJ_STRING "x"]>
       (<[3 := OBJ_INSTANCE 4 (<[2 := NUMBER_VAL one]> ∅)]>
          (<[4 := OBJ_CLASS 2 ∅]> ∅)))
    [OBJ_VAL 1; OBJ_VAL 3].

(** [OP_INHERIT] with the superclass at address 2, which has the method
    named by the string at address 5, and the subclass at address 3. *)
Definition inherit_example : VM :=
  example_vm (mkChunk [opcode_byte OP_INHERIT] [1] []) TYPE_NONE 1
    (<[2 := OBJ_CLASS 4 (<[5 := OBJ_VAL 1]> ∅)]>
       (<[3 := OBJ_CLASS 4 ∅]>
          (<[4 := OBJ_STRING "A"]> (<[5 := OBJ_STRING "m"]> ∅))))
    [OBJ_VAL 1; OBJ_VAL 2; OBJ_VAL 3].

(** A call of the native [length] on the string "abc", and a call of the
    native [head] on an empty array. *)
Definition native_call_example : VM :=
  example_vm (mkChunk [] [] []) TYPE_NONE 0
    (<[2 := OBJ_STRING "abc"]> (<[3 := OBJ_NATIVE lengthNative]> ∅))
    [OBJ_VAL 1; OBJ_VAL 3; OBJ_VAL 2].

Definition native_error_example : VM :=
  example_vm (mkChunk [] [] []) TYPE_NONE 0
    (<[2 := OBJ_ARRAY []]> (<[3 := OBJ_NATIVE arrayHead]> ∅))
    [OBJ_VAL 1; OBJ_VAL 3; OBJ_VAL 2].

(** ** The chunk the compiler writes to *)

(** The function that [current->function] points to, its chunk, and the
    state in which that chunk is [c]. *)
Definition current_function (s : Compiler.State) : option ObjFunction :=
  match Compiler.compiler s with
  | k :: _ =>
      match heap (Compiler.vm s) !! Compiler.function k with
      | Some (OBJ_FUNCTION fn) => Some fn
      | _ => None
      end
  | [] => None
  end.

Definition chunk_of (s : Compiler.State) : option Chunk :=
  chunk <$> current_function s.

Definition with_chunk (c : Chunk) (s : Compiler.State) : Compiler.State :=
  match Compiler.compiler s with
  | k :: _ =>
      match heap (Compiler.vm s) !! Compiler.function k with
      | Some (OBJ_FUNCTION fn) =>
          with_heap
            (<[Compiler.function k :=
                 OBJ_FUNCTION (mkFunction (arity fn) (upvalueCount fn)
                                 (returnType fn) c (name fn))]>
               (heap (Compiler.vm s))) s
      | _ => s
      end
  | [] => s
  end.

(** The operand of a jump as [READ_SHORT] reads it from two bytes. *)
Definition short_of_bytes (hi lo : nat) : nat :=
  N.to_nat (N.land (N.lor (N.shiftl (N.of_nat hi) 8) (N.of_nat lo)) 65535).

(** The compiler of a script whose chunk holds the five bytes of
    [OP_NIL; OP_JUMP 255 255; OP_POP], the operand of the jump at
    offset 2 not yet patched. *)
Definition jump_example : Compiler.State :=
  match (Compiler.initCompiler Compiler.TYPE_SCRIPT ;;
         Compiler.emitByte (opcode_byte OP_NIL) ;;
         Compiler.emitJump (opcode_byte OP_JUMP) ;;
         Compiler.emitByte (opcode_byte OP_POP)) compiler_init with
  | Some (_, s) => s
  | None => compiler_init
  end.

(** ** Scopes of the compiler *)

(** The locals on which the loop of [declareVariable] does not stop: those
    not yet initialised and those of depth [scope] or deeper. *)
Definition in_current_scope (scope : Z) (l : Compiler.Local) : bool :=
  bool_decide (Compiler.depth l = -1)%Z || bool_decide (scope <= Compiler.depth l)%Z.

(** The state in which [current] has the locals [ls] and the scope depth
    [d]. *)
Definition with_scope (ls : list Compiler.Local) (d : Z) (s : Compiler.State)
    : Compiler.State :=
  match Compiler.compiler s with
  | k :: ks =>
      Compiler.set_compiler
        (Compiler.mkCompiler (Compiler.function k) (Compiler.function_type k) ls
           (Compiler.upvalues k) d :: ks) s
  | [] => s
  end.

(** The state after an error message was reported outside panic mode. *)
Definition reported (message : string) (s : Compiler.State) : Compiler.State :=
  Compiler.set_parser
    (Compiler.mkParser (Compiler.current (Compiler.parser s))
       (Compiler.previous (Compiler.parser s)) true true)
    (Compiler.set_vm
       (set_stderr (stderr (Compiler.vm s) ++ [message]) (Compiler.vm s)) s).

(** The byte that [endScope] emits for a local. *)
Definition scope_exit_byte (l : Compiler.Local) : nat :=
  if Compiler.isCaptured l then opcode_byte OP_CLOSE_UPVALUE else opcode_byte OP_POP.

(** A script compiler inside two nested blocks: [a] is declared in the
    outer block, [b] and a second [a] in the inner one; the token just
    consumed is the identifier [b]. *)
Definition scope_example : Compiler.State :=
  match (Compiler.initCompiler Compiler.TYPE_SCRIPT ;;
         Compiler.beginScope ;;
         Compiler.addLocal "a" ;; Compiler.markInitialized ;;
         Compiler.beginScope ;;
         Compiler.addLocal "b" ;; Compiler.markInitialized ;;
         Compiler.addLocal "a" ;; Compiler.markInitialized)
          (Compiler.set_parser
             (Compiler.mkParser (tok Compiler.TOKEN_EOF "")
                (tok Compiler.TOKEN_IDENTIFIER "b") false false)
             compiler_init) with
  | Some (_, s) => s
  | None => compiler_init
  end.

(** The compiler [current] of [scope_example]. *)
Definition scope_example_compiler : Compiler.Compiler :=
  Compiler.mkCompiler 21 Compiler.TYPE_SCRIPT
    [Compiler.mkLocal "this" 0 false; Compiler.mkLocal "a" 1 false;
     Compiler.mkLocal "b" 2 false; Compiler.mkLocal "a" 2 false]
    [] 2.

(** The loop of [declareVariable] statement by statement: after a match it
    calls [error] and goes on with the next local.  [declareVariable_loop]
    says whether this loop calls [error]; the two agree because [error]
    does nothing in panic mode (lemma [declareVariable_scan_loop]). *)
Fixpoint declareVariable_scan (name : string) (scope : Z) (n : nat)
    (ls : list Compiler.Local) : Compiler.C unit :=
  match n with
  | 0 => ret tt
  | S i =>
      match ls !! i with
      | Some l =>
          if (negb (bool_decide (Compiler.depth l = -1)%Z)
              && bool_decide (Compiler.depth l < scope)%Z) then ret tt
          else
            (if Compiler.identifiersEqual name (Compiler.name l) then
               Compiler.error "Already a variable with this name in this scope."
             else ret tt) ;;
            declareVariable_scan name scope i ls
      | None => ret tt
      end
  end.

(** ** Runtime errors *)

(** The state [runtimeError] leaves: a message was printed, the stack is
    empty, no frame and no open upvalue is left. *)
Definition stack_reset (vm : VM) : Prop :=
  stackTop vm = 0 /\ frames vm = [] /\ openUpvalues vm = [] /\ stderr vm <> [].

(** The result with which [run] reports a runtime error. *)
Definition failed (r : option InterpretResult) : bool :=
  match r with
  | Some INTERPRET_RUNTIME_ERROR => true
  | _ => false
  end.

(** A computation that, started in a state with [P], answers a result
    with [f] only after [runtimeError]. *)
Definition reports {A} (P : VM -> Prop) (f : A -> bool) (m : M A) : Prop :=
  forall vm a vm', P vm -> m vm = Some (a, vm') -> f a = true -> stack_reset vm'.

(** A frame about to execute [OP_NEGATE] with [nil] on top of the stack. *)
Definition negate_example : VM :=
  example_vm (mkChunk [opcode_byte OP_NEGATE] [1] []) TYPE_NONE 0 ∅
    [OBJ_VAL 1; NIL_VAL].
(** * Properties *)

(** ** Running a computation step by step *)

Arguments bind : simpl never.
Arguments ret : simpl never.
Arguments undef : simpl never.

Lemma bind_Some {S A B} (m : ST S A) (k : A -> ST S B) s a s' :
  m s = Some (a, s') -> bind m k s = k a s'.
Proof. intros H. unfold bind. rewrite H. reflexivity. Qed.

Lemma bind_None {S A B} (m : ST S A) (k : A -> ST S B) s :
  m s = None -> bind m k s = None.
Proof. intros H. unfold bind. rewrite H. reflexivity. Qed.

Lemma bind_inv {S A B} (m : ST S A) (k : A -> ST S B) s r :
  bind m k s = Some r ->
  exists a s', m s = Some (a, s') /\ k a s' = Some r.
Proof.
  unfold bind. destruct (m s) as [[a s']|]; [|discriminate].
  intros H. exists a, s'. auto.
Qed.

Lemma peek_Some d v vm :
  d < stackTop vm -> stack vm !! (stackTop vm - 1 - d) = Some v ->
  peek d vm = Some (v, vm).
Proof.
  intros Hd Hv. unfold peek. rewrite decide_True by assumption.
  rewrite Hv. reflexivity.
Qed.

Lemma pop_Some t v vm :
  stackTop vm = S t -> stack vm !! t = Some v ->
  pop vm = Some (v, set_stackTop t vm).
Proof. intros Ht Hv. unfold pop. rewrite Ht, Hv. reflexivity. Qed.

Lemma push_Some v vm :
  stackTop vm <= length (stack vm) ->
  push v vm = Some (tt, set_stackTop (S (stackTop vm))
    (set_stack (if decide (stackTop vm < length (stack vm))
                then <[stackTop vm := v]> (stack vm)
                else stack vm ++ [v]) vm)).
Proof.
  intros Hle. unfold push. destruct (decide (stackTop vm < length (stack vm))).
  - reflexivity.
  - rewrite decide_True by lia. reflexivity.
Qed.

(** After [push], the pushed value is at the old top and the slots below
    are as before. *)
Lemma push_stack v (l : list Value) t i :
  t <= length l -> i <= t ->
  (if decide (t < length l) then <[t := v]> l else l ++ [v]) !! i
  = if decide (i = t) then Some v else l !! i.
Proof.
  intros Ht Hi. destruct (decide (t < length l)).
  - destruct (decide (i = t)) as [->|].
    + apply list_lookup_insert_eq. assumption.
    + apply list_lookup_insert_ne. congruence.
  - assert (t = length l) as -> by lia.
    destruct (decide (i = length l)) as [->|].
    + rewrite lookup_app_r by lia. rewrite Nat.sub_diag. reflexivity.
    + apply lookup_app_l. lia.
Qed.

Lemma alter_last {A} (f : A -> A) (l : list A) x :
  alter f (length (l ++ [x]) - 1) (l ++ [x]) = l ++ [f x].
Proof.
  rewrite length_app. simpl.
  replace (length l + 1 - 1) with (length l + 0) by lia.
  rewrite alter_app_r. reflexivity.
Qed.

Lemma last_Some_app {A} (l : list A) x :
  last l = Some x -> exists l', l = l' ++ [x].
Proof.
  intros H. apply last_Some in H. exact H.
Qed.

(** *** What a successful run of a primitive tells *)

Lemma ret_inv {S A} (a : A) (s : S) r : ret a s = Some r -> r = (a, s).
Proof. unfold ret. congruence. Qed.

Lemma get_inv {S} (s : S) r : get s = Some r -> r = (s, s).
Proof. unfold get. congruence. Qed.

Lemma modify_inv {S} (f : S -> S) (s : S) r :
  modify f s = Some r -> r = (tt, f s).
Proof. unfold modify. congruence. Qed.

Lemma of_option_inv {S A} (o : option A) (s : S) r :
  of_option o s = Some r -> exists a, o = Some a /\ r = (a, s).
Proof.
  destruct o as [a|]; simpl; [|discriminate].
  intros [= <-]. exists a. auto.
Qed.

Lemma undef_inv {S A} (s : S) (r : A * S) : undef s = Some r -> False.
Proof. discriminate. Qed.

(** Decompose the hypotheses that say that a sequence of binds succeeds. *)
Ltac inv_vm :=
  repeat match goal with
  | H : bind _ _ _ = Some _ |- _ =>
      apply bind_inv in H; destruct H as (? & ? & ? & H)
  | H : ret _ _ = Some _ |- _ => apply ret_inv in H; simplify_eq
  | H : get_vm _ = Some _ |- _ => apply get_inv in H; simplify_eq
  | H : get _ = Some _ |- _ => apply get_inv in H; simplify_eq
  | H : modify_vm _ _ = Some _ |- _ => apply modify_inv in H; simplify_eq
  | H : modify _ _ = Some _ |- _ => apply modify_inv in H; simplify_eq
  | H : undef _ = Some _ |- _ => destruct (undef_inv _ _ H)
  | H : of_option _ _ = Some _ |- _ =>
      apply of_option_inv in H; destruct H as (? & ? & ?); simplify_eq
  end.

Lemma frame_inv fr vm vm' :
  frame vm = Some (fr, vm') -> vm' = vm /\ last (frames vm) = Some fr.
Proof. unfold frame. intros H. inv_vm. auto. Qed.

Lemma deref_inv a o vm vm' :
  deref a vm = Some (o, vm') -> vm' = vm /\ heap vm !! a = Some o.
Proof.
  unfold deref. destruct (heap vm !! a); [|discriminate].
  intros [= <- <-]. auto.
Qed.

Lemma function_of_inv a f vm vm' :
  function_of a vm = Some (f, vm') ->
  vm' = vm /\ heap vm !! a = Some (OBJ_FUNCTION f).
Proof.
  unfold function_of, AS_FUNCTION, AS_OBJ. intros H. inv_vm.
  match goal with H : deref _ _ = _ |- _ => apply deref_inv in H as [-> Ho] end.
  match goal with H : match ?o with _ => _ end _ = _ |- _ =>
    destruct o; inv_vm end.
  auto.
Qed.

Lemma closure_function_inv a f vm vm' :
  closure_function a vm = Some (f, vm') ->
  vm' = vm /\ exists us, heap vm !! a = Some (OBJ_CLOSURE f us).
Proof.
  unfold closure_function. intros H. inv_vm.
  match goal with H : deref _ _ = _ |- _ => apply deref_inv in H as [-> Ho] end.
  match goal with H : match ?o with _ => _ end _ = _ |- _ =>
    destruct o; inv_vm end.
  eauto.
Qed.

Lemma frame_function_inv f vm vm' :
  frame_function vm = Some (f, vm') ->
  vm' = vm /\ exists fr fa us,
    last (frames vm) = Some fr /\
    heap vm !! closure fr = Some (OBJ_CLOSURE fa us) /\
    heap vm !! fa = Some (OBJ_FUNCTION f).
Proof.
  unfold frame_function. intros H. inv_vm.
  match goal with H : frame _ = _ |- _ => apply frame_inv in H as [-> Hfr] end.
  match goal with H : closure_function _ _ = _ |- _ =>
    apply closure_function_inv in H as [-> [us Hc]] end.
  apply function_of_inv in H as [-> Hf].
  split; [reflexivity|]. eauto 6.
Qed.

Lemma set_frame_ip_inv n vm vm' :
  set_frame_ip n vm = Some (tt, vm') ->
  exists fs fr, frames vm = fs ++ [fr] /\
    vm' = set_frames (fs ++ [mkFrame (closure fr) n (slots fr)]) vm.
Proof.
  unfold set_frame_ip. intros H. inv_vm.
  destruct (frames vm) as [|c l] eqn:Hfs; inv_vm.
  destruct (last (c :: l)) as [fr|] eqn:Hlast.
  - apply last_Some in Hlast as [fs Hl]. exists fs, fr.
    rewrite Hl. split; [reflexivity|]. rewrite alter_last. reflexivity.
  - apply last_None in Hlast. discriminate.
Qed.

(** Reading an instruction byte moves the [ip] of the current frame and
    changes nothing else. *)
Lemma READ_BYTE_inv b vm vm' :
  READ_BYTE vm = Some (b, vm') ->
  exists fs fr f fa us,
    frames vm = fs ++ [fr] /\
    heap vm !! closure fr = Some (OBJ_CLOSURE fa us) /\
    heap vm !! fa = Some (OBJ_FUNCTION f) /\
    code (chunk f) !! ip fr = Some b /\
    vm' = set_frames (fs ++ [mkFrame (closure fr) (S (ip fr)) (slots fr)]) vm.
Proof.
  unfold READ_BYTE. intros H. inv_vm.
  match goal with H : frame _ = _ |- _ => apply frame_inv in H as [-> Hfr] end.
  match goal with H : frame_function _ = _ |- _ =>
    apply frame_function_inv in H as [-> (fr' & fa & us & Hfr' & Hc & Hf)] end.
  match goal with H : set_frame_ip _ _ = Some (?u, _) |- _ =>
    destruct u; apply set_frame_ip_inv in H as (fs & fr & Hfs & ->) end.
  rewrite Hfs, last_snoc in Hfr, Hfr'. simplify_eq.
  do 5 eexists. repeat split; eauto.
Qed.

(** Run the first computation of a sequence, given a tactic that proves
    what it returns. *)
Ltac vm_step tac := erewrite bind_Some; [|solve [tac]].

(** *** What a primitive returns *)

Lemma deref_Some a o vm : heap vm !! a = Some o -> deref a vm = Some (o, vm).
Proof. intros H. unfold deref. rewrite H. reflexivity. Qed.

Lemma allocateObject_Some o vm :
  allocateObject o vm
  = Some (fresh (dom (heap vm)),
          set_heap (<[fresh (dom (heap vm)) := o]> (heap vm)) vm).
Proof. reflexivity. Qed.

Lemma writeArray_Some a es v vm :
  heap vm !! a = Some (OBJ_ARRAY es) ->
  writeArray a v vm
  = Some (tt, set_heap (<[a := OBJ_ARRAY (es ++ [v])]> (heap vm)) vm).
Proof.
  intros H. unfold writeArray, array_elements, set_array_elements.
  rewrite (bind_Some _ _ vm es vm).
  - rewrite (bind_Some _ _ vm (OBJ_ARRAY es) vm) by (apply deref_Some; exact H).
    reflexivity.
  - rewrite (bind_Some _ _ vm (OBJ_ARRAY es) vm) by (apply deref_Some; exact H).
    reflexivity.
Qed.

Lemma test_Some p v vm : test p v vm = Some (p (heap vm) v, vm).
Proof. reflexivity. Qed.

Lemma AS_STRING_inv v a vm vm' :
  AS_STRING v vm = Some (a, vm') ->
  vm' = vm /\ v = OBJ_VAL a /\ exists chars, heap vm !! a = Some (OBJ_STRING chars).
Proof.
  unfold AS_STRING, AS_OBJ. intros H. destruct v; inv_vm.
  match goal with H : deref _ _ = _ |- _ => apply deref_inv in H as [-> Ho] end.
  match goal with H : match ?o with _ => _ end _ = _ |- _ =>
    destruct o; inv_vm end.
  eauto.
Qed.

(** Reading a name operand moves the [ip] of the current frame and changes
    nothing else; the name is a string object. *)
Lemma READ_STRING_inv s vm vm' :
  READ_STRING vm = Some (s, vm') ->
  (exists fs, vm' = set_frames fs vm /\ fs <> []) /\
  exists chars, heap vm !! s = Some (OBJ_STRING chars).
Proof.
  unfold READ_STRING, READ_CONSTANT. intros H. inv_vm.
  match goal with H : READ_BYTE _ = _ |- _ =>
    apply READ_BYTE_inv in H as (fs & fr & f & fa & us & Hfs & Hc & Hf & Hb & ->) end.
  match goal with H : frame_function _ = _ |- _ =>
    apply frame_function_inv in H as [-> _] end.
  apply AS_STRING_inv in H as (-> & -> & chars & Hs).
  split; [|eauto]. eexists. split; [reflexivity|].
  intros Hnil. apply app_eq_nil in Hnil as [_ ?]. discriminate.
Qed.

Lemma AS_INSTANCE_Some a k fs vm :
  heap vm !! a = Some (OBJ_INSTANCE k fs) ->
  AS_INSTANCE (OBJ_VAL a) vm = Some (a, vm).
Proof.
  intros H. unfold AS_INSTANCE, AS_OBJ.
  vm_step ltac:(reflexivity). vm_step ltac:(apply deref_Some; exact H).
  reflexivity.
Qed.

Lemma instance_fields_Some a k fs vm :
  heap vm !! a = Some (OBJ_INSTANCE k fs) ->
  instance_fields a vm = Some (fs, vm).
Proof.
  intros H. unfold instance_fields.
  vm_step ltac:(apply deref_Some; exact H). reflexivity.
Qed.

Lemma set_instance_fields_Some a k fs fs' vm :
  heap vm !! a = Some (OBJ_INSTANCE k fs) ->
  set_instance_fields a fs' vm
  = Some (tt, set_heap (<[a := OBJ_INSTANCE k fs']> (heap vm)) vm).
Proof.
  intros H. unfold set_instance_fields.
  vm_step ltac:(apply deref_Some; exact H). reflexivity.
Qed.

Lemma IS_INSTANCE_true h a k fs :
  h !! a = Some (OBJ_INSTANCE k fs) -> IS_INSTANCE h (OBJ_VAL a) = true.
Proof.
  intros H. unfold IS_INSTANCE, isObjType, OBJ_TYPE. rewrite H. reflexivity.
Qed.

Lemma IS_ARRAY_true h a es :
  h !! a = Some (OBJ_ARRAY es) -> IS_ARRAY h (OBJ_VAL a) = true.
Proof.
  intros H. unfold IS_ARRAY, isObjType, OBJ_TYPE. rewrite H. reflexivity.
Qed.

Lemma AS_ARRAY_Some a es vm :
  heap vm !! a = Some (OBJ_ARRAY es) ->
  AS_ARRAY (OBJ_VAL a) vm = Some (a, vm).
Proof.
  intros H. unfold AS_ARRAY, AS_OBJ.
  vm_step ltac:(reflexivity). vm_step ltac:(apply deref_Some; exact H).
  reflexivity.
Qed.

Lemma array_elements_Some a es vm :
  heap vm !! a = Some (OBJ_ARRAY es) ->
  array_elements a vm = Some (es, vm).
Proof.
  intros H. unfold array_elements.
  vm_step ltac:(apply deref_Some; exact H). reflexivity.
Qed.

Lemma set_array_elements_Some a es es' vm :
  heap vm !! a = Some (OBJ_ARRAY es) ->
  set_array_elements a es' vm
  = Some (tt, set_heap (<[a := OBJ_ARRAY es']> (heap vm)) vm).
Proof.
  intros H. unfold set_array_elements.
  vm_step ltac:(apply deref_Some; exact H). reflexivity.
Qed.

Lemma runtimeError_Some format vm :
  runtimeError format vm
  = Some (tt, set_openUpvalues [] (set_frames [] (set_stackTop 0
                (set_stderr (stderr vm ++ [format]) vm)))).
Proof. reflexivity. Qed.

Lemma fail_Some format vm :
  fail format vm
  = Some (Some INTERPRET_RUNTIME_ERROR,
          set_openUpvalues [] (set_frames [] (set_stackTop 0
                (set_stderr (stderr vm ++ [format]) vm)))).
Proof. reflexivity. Qed.

Lemma read_slot_Some i v vm :
  stack vm !! i = Some v -> read_slot i vm = Some (v, vm).
Proof. intros H. unfold read_slot. rewrite H. reflexivity. Qed.

Lemma fresh_lookup_None (h : gmap addr Obj) : h !! fresh (dom h) = None.
Proof. apply not_elem_of_dom. apply is_fresh. Qed.


(** ** OP_ARRAY *)

Lemma take_S_drop {A} (l : list A) j k v :
  l !! j = Some v -> take (S k) (drop j l) = v :: take k (drop (S j) l).
Proof.
  intros H. rewrite (drop_S l v j H). reflexivity.
Qed.

Lemma array_fill_loop_spec k : forall i n a es vm,
  heap vm !! a = Some (OBJ_ARRAY es) ->
  i + k = n -> n <= stackTop vm -> stackTop vm <= length (stack vm) ->
  array_fill_loop k i n a vm
  = Some (tt, set_heap
      (<[a := OBJ_ARRAY (es ++ take k (drop (stackTop vm - n + i) (stack vm)))]>
         (heap vm)) vm).
Proof.
  induction k as [|k IH]; intros i n a es vm Ha Hik Hn Htop.
  - simpl. rewrite take_0, app_nil_r. rewrite insert_id by assumption.
    unfold ret. destruct vm; reflexivity.
  - simpl.
    assert (stackTop vm - n + i < length (stack vm)) as Hlt by lia.
    destruct (lookup_lt_is_Some_2 _ _ Hlt) as [v Hv].
    rewrite (bind_Some _ _ vm v vm).
    2:{ apply peek_Some; [lia|].
        replace (stackTop vm - 1 - (n - i - 1)) with (stackTop vm - n + i) by lia.
        exact Hv. }
    rewrite (bind_Some _ _ _ _ _ (writeArray_Some a es v vm Ha)).
    rewrite IH with (es := es ++ [v]); simpl; try lia.
    + rewrite insert_insert_eq. rewrite (take_S_drop _ _ _ _ Hv).
      rewrite <- app_assoc. simpl.
      replace (stackTop vm - n + S i) with (S (stackTop vm - n + i)) by lia.
      reflexivity.
    + apply lookup_insert_eq.
Qed.

Lemma pop_loop_spec n : forall vm,
  n <= stackTop vm -> stackTop vm <= length (stack vm) ->
  pop_loop n vm = Some (tt, set_stackTop (stackTop vm - n) vm).
Proof.
  induction n as [|n IH]; intros vm Hn Htop.
  - simpl. rewrite Nat.sub_0_r. unfold ret. destruct vm; reflexivity.
  - simpl. destruct (stackTop vm) as [|t] eqn:Ht; [lia|].
    assert (t < length (stack vm)) as Hlt by lia.
    destruct (lookup_lt_is_Some_2 _ _ Hlt) as [v Hv].
    rewrite (bind_Some _ _ _ _ _ (pop_Some t v vm Ht Hv)).
    rewrite IH; simpl; try lia. reflexivity.
Qed.

(** C4: [OP_ARRAY n] makes a new array whose element [i] is the value
    [n - i] slots below the top (the deepest of the [n] values is element 0),
    pops the [n] values and pushes the reference to the array. *)
Theorem OP_ARRAY_builds_array (vm vm1 : VM) (n : nat) :
  READ_BYTE vm = Some (n, vm1) ->
  n <= stackTop vm -> stackTop vm <= length (stack vm) ->
  let array := fresh (dom (heap vm)) in
  let base := stackTop vm - n in
  let elements := take n (drop base (stack vm)) in
  exists vm',
    exec OP_ARRAY vm = Some (None, vm') /\
    heap vm' = <[array := OBJ_ARRAY elements]> (heap vm) /\
    length elements = n /\
    (forall i, i < n -> elements !! i = stack vm !! (base + i)) /\
    stackTop vm' = S base /\
    stack vm' !! base = Some (OBJ_VAL array) /\
    (forall i, i < base -> stack vm' !! i = stack vm !! i).
Proof.
  intros Hread Hn Htop array base elements.
  destruct (READ_BYTE_inv _ _ _ Hread) as (fs & fr & f & fa & us & Hfs & Hc & Hf & Hb & ->).
  unfold exec, newArray.
  vm_step ltac:(exact Hread).
  vm_step ltac:(apply allocateObject_Some).
  cbn [heap set_heap set_frames]. fold array.
  vm_step ltac:(apply array_fill_loop_spec with (es := []);
    [apply lookup_insert_eq | lia | simpl; lia | simpl; lia]).
  cbn [heap stack stackTop set_heap set_frames].
  rewrite insert_insert_eq, Nat.add_0_r. fold base. fold elements.
  vm_step ltac:(apply pop_loop_spec; simpl; lia).
  cbn [heap stack stackTop set_heap set_frames]. fold base.
  vm_step ltac:(apply push_Some; simpl; lia).
  unfold ret. eexists. split; [reflexivity|].
  cbn [heap stack stackTop set_heap set_frames set_stack set_stackTop].
  assert (length elements = n) as Hlen.
  { unfold elements. rewrite length_take, length_drop. lia. }
  repeat split.
  - exact Hlen.
  - intros i Hi. unfold elements. rewrite lookup_take_lt by lia.
    apply lookup_drop.
  - rewrite push_stack by lia. rewrite decide_True; reflexivity.
  - intros i Hi. rewrite push_stack by lia. rewrite decide_False by lia.
    reflexivity.
Qed.

Lemma OP_ARRAY_builds_array_witness :
  exists vm',
    exec OP_ARRAY array_example = Some (None, vm') /\
    heap vm' !! 2 = Some (OBJ_ARRAY [NUMBER_VAL one; NUMBER_VAL two]) /\
    stackTop vm' = 2 /\
    stack vm' !! 1 = Some (OBJ_VAL 2).
Proof.
  destruct (OP_ARRAY_builds_array array_example
              (set_frames [mkFrame 1 2 0] array_example) 2)
    as (vm' & Hexec & Hheap & _ & _ & Htop & Hstack & _).
  - vm_compute. reflexivity.
  - vm_compute. lia.
  - vm_compute. lia.
  - exists vm'. split; [exact Hexec|]. split; [|split].
    + rewrite Hheap. vm_compute. reflexivity.
    + rewrite Htop. vm_compute. reflexivity.
    + exact Hstack.
Defined.

(** ** OP_SET_PROPERTY *)

(** C6: [OP_SET_PROPERTY s] with an instance one below the top writes the
    top value under [s] in the instance's fields and leaves the other
    fields as they are; the instance is removed from the stack and the
    assigned value stays on top. *)
Theorem OP_SET_PROPERTY_instance (vm vm1 : VM) (s instance klass : addr)
    (fields : Table) (value : Value) (t : nat) :
  READ_STRING vm = Some (s, vm1) ->
  stackTop vm = S (S t) ->
  stack vm !! t = Some (OBJ_VAL instance) ->
  stack vm !! S t = Some value ->
  heap vm !! instance = Some (OBJ_INSTANCE klass fields) ->
  exists vm' fields',
    exec OP_SET_PROPERTY vm = Some (None, vm') /\
    heap vm' = <[instance := OBJ_INSTANCE klass fields']> (heap vm) /\
    fields' !! s = Some value /\
    (forall s', s' <> s -> fields' !! s' = fields !! s') /\
    stackTop vm' = S t /\
    stack vm' !! t = Some value /\
    (forall i, i < t -> stack vm' !! i = stack vm !! i).
Proof.
  intros Hread Htop Hinst Hval Hheap.
  destruct (READ_STRING_inv _ _ _ Hread) as [(fs & -> & _) _].
  assert (S t < length (stack vm)) as Hlen by (eapply lookup_lt_Some; eauto).
  unfold exec.
  vm_step ltac:(apply peek_Some; [lia|];
    rewrite Htop; replace (S (S t) - 1 - 1) with t by lia; exact Hinst).
  vm_step ltac:(apply test_Some).
  rewrite (IS_INSTANCE_true _ _ _ _ Hheap).
  vm_step ltac:(eapply AS_INSTANCE_Some; exact Hheap).
  vm_step ltac:(exact Hread).
  vm_step ltac:(apply peek_Some; cbn [stackTop stack set_frames]; [lia|];
    rewrite Htop; replace (S (S t) - 1 - 0) with (S t) by lia; exact Hval).
  vm_step ltac:(eapply instance_fields_Some; exact Hheap).
  vm_step ltac:(eapply set_instance_fields_Some; exact Hheap).
  vm_step ltac:(eapply pop_Some; [exact Htop | exact Hval]).
  vm_step ltac:(eapply pop_Some; [reflexivity | exact Hinst]).
  vm_step ltac:(apply push_Some; cbn [stackTop stack set_frames set_heap set_stackTop]; lia).
  unfold ret. do 2 eexists. split; [reflexivity|].
  cbn [heap stack stackTop set_heap set_frames set_stack set_stackTop
       tableSet fst].
  repeat split.
  - apply lookup_insert_eq.
  - intros s' Hs'. apply lookup_insert_ne. congruence.
  - rewrite push_stack by lia. rewrite decide_True; reflexivity.
  - intros i Hi. rewrite push_stack by lia. rewrite decide_False by lia.
    reflexivity.
Qed.

Lemma OP_SET_PROPERTY_instance_witness :
  exists vm' fields',
    exec OP_SET_PROPERTY set_property_example = Some (None, vm') /\
    heap vm' !! 3 = Some (OBJ_INSTANCE 4 fields') /\
    fields' !! 2 = Some (NUMBER_VAL one) /\
    stackTop vm' = 2 /\
    stack vm' !! 1 = Some (NUMBER_VAL one).
Proof.
  destruct (OP_SET_PROPERTY_instance set_property_example
              (set_frames [mkFrame 1 2 0] set_property_example)
              2 3 4 ∅ (NUMBER_VAL one) 1)
    as (vm' & fields' & Hexec & Hheap & Hs & _ & Htop & Hstack & _);
    try (vm_compute; reflexivity).
  exists vm', fields'. split; [exact Hexec|]. split; [|split; [|split]].
  - rewrite Hheap. apply lookup_insert_eq.
  - exact Hs.
  - exact Htop.
  - exact Hstack.
Defined.

(** ** The natives head(), tail() and rest() *)

(** C9: called with one argument that is an empty array, head(), tail()
    and rest() report a runtime error and return nil; the heap, and with
    it the argument array and its count 0, is unchanged. *)
Theorem natives_on_empty_array (fn : NativeFn) (vm : VM) (args array : addr) :
  fn = arrayHead \/ fn = arrayTail \/ fn = arrayRest ->
  stack vm !! args = Some (OBJ_VAL array) ->
  heap vm !! array = Some (OBJ_ARRAY []) ->
  exists vm',
    native fn 1 args vm = Some (NIL_VAL, vm') /\
    stderr vm' = stderr vm ++ [empty_array_message fn] /\
    heap vm' = heap vm /\
    heap vm' !! array = Some (OBJ_ARRAY []).
Proof.
  intros Hfn Harg Hheap.
  assert ((do a0 <- read_slot args;
           do b <- test IS_ARRAY a0; ret (negb b)) vm = Some (false, vm)) as Hbad.
  { vm_step ltac:(apply read_slot_Some; exact Harg).
    vm_step ltac:(apply test_Some).
    rewrite (IS_ARRAY_true _ _ _ Hheap). reflexivity. }
  assert (forall msg k,
    (do bad <- (if negb (1 =? 1) then ret true
                else do a0 <- read_slot args;
                     do b <- test IS_ARRAY a0; ret (negb b));
     if bad then runtimeError msg ;; ret NIL_VAL else k) vm = k vm) as Hguard.
  { intros msg k. cbn [Nat.eqb negb].
    vm_step ltac:(exact Hbad). reflexivity. }
  destruct Hfn as [-> | [-> | ->]]; unfold native; rewrite Hguard;
    (vm_step ltac:(apply read_slot_Some; exact Harg));
    (vm_step ltac:(eapply AS_ARRAY_Some; exact Hheap));
    (vm_step ltac:(eapply array_elements_Some; exact Hheap));
    cbn [length Nat.eqb];
    (vm_step ltac:(apply runtimeError_Some));
    unfold ret; eexists; (split; [reflexivity|]); auto.
Qed.

Lemma natives_on_empty_array_witness :
  exists vm',
    native arrayHead 1 1 empty_array_example = Some (NIL_VAL, vm') /\
    stderr vm' = ["SKILL ISSUE: head() called on an empty array."%string] /\
    heap vm' !! 2 = Some (OBJ_ARRAY []).
Proof.
  destruct (natives_on_empty_array arrayHead empty_array_example 1 2)
    as (vm' & Hrun & Herr & _ & Harr).
  - left. reflexivity.
  - vm_compute. reflexivity.
  - vm_compute. reflexivity.
  - exists vm'. split; [exact Hrun|]. split; [exact Herr|exact Harr].
Defined.

(** ** OP_OBJECT_SET on an array *)

(** The write of [OP_OBJECT_SET] at an index that is not negative: the
    slot [i] of the elements is replaced when there is one, the value,
    the index and the array are popped and nil is pushed. *)
Lemma OP_OBJECT_SET_array_write (vm : VM) (array : addr) (elements : list Value)
    (d : double) (i : Z) (value : Value) (t : nat) :
  stackTop vm = S (S (S t)) ->
  stack vm !! t = Some (OBJ_VAL array) ->
  stack vm !! S t = Some (NUMBER_VAL d) ->
  stack vm !! S (S t) = Some value ->
  heap vm !! array = Some (OBJ_ARRAY elements) ->
  double_to_int d = Some i ->
  (0 <= i)%Z ->
  exists vm',
    exec OP_OBJECT_SET vm = Some (None, vm') /\
    heap vm' = <[array := OBJ_ARRAY (<[Z.to_nat i := value]> elements)]> (heap vm) /\
    stackTop vm' = S t /\
    stack vm' !! t = Some NIL_VAL /\
    (forall j, j < t -> stack vm' !! j = stack vm !! j) /\
    stderr vm' = stderr vm.
Proof.
  intros Htop Harr Hidx Hval Hheap Hi Hpos.
  assert (S (S t) < length (stack vm)) as Hlen by (eapply lookup_lt_Some; eauto).
  assert (peek 2 vm = Some (OBJ_VAL array, vm)) as Hp2.
  { apply peek_Some; [lia|]. rewrite Htop.
    replace (S (S (S t)) - 1 - 2) with t by lia. exact Harr. }
  assert (peek 1 vm = Some (NUMBER_VAL d, vm)) as Hp1.
  { apply peek_Some; [lia|]. rewrite Htop.
    replace (S (S (S t)) - 1 - 1) with (S t) by lia. exact Hidx. }
  assert (peek 0 vm = Some (value, vm)) as Hp0.
  { apply peek_Some; [lia|]. rewrite Htop.
    replace (S (S (S t)) - 1 - 0) with (S (S t)) by lia. exact Hval. }
  unfold exec.
  vm_step ltac:(exact Hp2). vm_step ltac:(apply test_Some).
  rewrite (IS_ARRAY_true _ _ _ Hheap).
  vm_step ltac:(exact Hp1). cbn [IS_NUMBER negb].
  vm_step ltac:(exact Hp0). vm_step ltac:(reflexivity).
  rewrite Hi. vm_step ltac:(reflexivity).
  vm_step ltac:(eapply AS_ARRAY_Some; exact Hheap).
  vm_step ltac:(eapply array_elements_Some; exact Hheap).
  rewrite decide_True by exact Hpos.
  vm_step ltac:(eapply set_array_elements_Some; exact Hheap).
  vm_step ltac:(eapply pop_Some; [exact Htop | exact Hval]).
  vm_step ltac:(eapply pop_Some; [reflexivity | exact Hidx]).
  vm_step ltac:(eapply pop_Some; [reflexivity | exact Harr]).
  vm_step ltac:(apply push_Some; cbn [stackTop stack set_heap set_stackTop]; lia).
  unfold ret. eexists. split; [reflexivity|].
  cbn [heap stack stackTop stderr set_heap set_stack set_stackTop].
  repeat split.
  - rewrite push_stack by lia. rewrite decide_True; reflexivity.
  - intros j Hj. rewrite push_stack by lia. rewrite decide_False by lia.
    reflexivity.
Qed.

(** C10: [OP_OBJECT_SET] on an array only checks that the index is a
    number; the write at the truncated index is made without a check of
    the bounds.  Under [0 <= i < count] it replaces the element [i], pops
    the value, the index and the array, and pushes nil.  Outside these
    bounds the write does not reach an element and no error is reported:
    a negative index is undefined behaviour, and with an index at or above
    [count] the instruction, when it has a result (the write lands in the
    storage the array keeps past its elements), has the same one, prints
    nothing and changes no element. *)
Theorem OP_OBJECT_SET_array (vm : VM) (array : addr) (elements : list Value)
    (index value : Value) (t : nat) :
  stackTop vm = S (S (S t)) ->
  stack vm !! t = Some (OBJ_VAL array) ->
  stack vm !! S t = Some index ->
  stack vm !! S (S t) = Some value ->
  heap vm !! array = Some (OBJ_ARRAY elements) ->
  (IS_NUMBER index = false ->
     exists vm',
       exec OP_OBJECT_SET vm = Some (Some INTERPRET_RUNTIME_ERROR, vm') /\
       stderr vm' = stderr vm ++ ["SKILL ISSUE: Array access requires a number."%string] /\
       heap vm' = heap vm) /\
  (forall d i, index = NUMBER_VAL d -> double_to_int d = Some i ->
     ((0 <= i < Z.of_nat (length elements))%Z ->
        exists vm',
          exec OP_OBJECT_SET vm = Some (None, vm') /\
          heap vm' = <[array := OBJ_ARRAY (<[Z.to_nat i := value]> elements)]> (heap vm) /\
          stackTop vm' = S t /\
          stack vm' !! t = Some NIL_VAL /\
          (forall j, j < t -> stack vm' !! j = stack vm !! j)) /\
     (forall r vm',
        exec OP_OBJECT_SET vm = Some (r, vm') ->
        r = None /\
        stderr vm' = stderr vm /\
        stackTop vm' = S t /\
        stack vm' !! t = Some NIL_VAL /\
        (forall j, j < t -> stack vm' !! j = stack vm !! j) /\
        ((Z.of_nat (length elements) <= i)%Z -> heap vm' = heap vm)) /\
     ((i < 0)%Z -> exec OP_OBJECT_SET vm = None)).
Proof.
  intros Htop Harr Hidx Hval Hheap.
  split.
  - intros Hnum.
    assert (S (S t) < length (stack vm)) as Hlen by (eapply lookup_lt_Some; eauto).
    unfold exec.
    vm_step ltac:(apply peek_Some; [lia|]; rewrite Htop;
                  replace (S (S (S t)) - 1 - 2) with t by lia; exact Harr).
    vm_step ltac:(apply test_Some).
    rewrite (IS_ARRAY_true _ _ _ Hheap).
    vm_step ltac:(apply peek_Some; [lia|]; rewrite Htop;
                  replace (S (S (S t)) - 1 - 1) with (S t) by lia; exact Hidx).
    rewrite Hnum. cbn [negb].
    rewrite fail_Some. eexists. split; [reflexivity|]. auto.
  - intros d i -> Hi. split.
    + intros [Hpos Hbound].
      destruct (OP_OBJECT_SET_array_write vm array elements d i value t
                  Htop Harr Hidx Hval Hheap Hi Hpos)
        as (vm' & Hexec & Hh & Ht & Hs & Hframe & _).
      exists vm'. auto.
    + assert ((i < 0)%Z -> exec OP_OBJECT_SET vm = None) as Hnegative.
      { intros Hneg.
        assert (S (S t) < length (stack vm)) as Hlen
          by (eapply lookup_lt_Some; eauto).
        unfold exec.
        vm_step ltac:(apply peek_Some; [lia|]; rewrite Htop;
                      replace (S (S (S t)) - 1 - 2) with t by lia; exact Harr).
        vm_step ltac:(apply test_Some).
        rewrite (IS_ARRAY_true _ _ _ Hheap).
        vm_step ltac:(apply peek_Some; [lia|]; rewrite Htop;
                      replace (S (S (S t)) - 1 - 1) with (S t) by lia; exact Hidx).
        cbn [IS_NUMBER negb].
        vm_step ltac:(apply peek_Some; [lia|]; rewrite Htop;
                      replace (S (S (S t)) - 1 - 0) with (S (S t)) by lia;
                      exact Hval).
        vm_step ltac:(reflexivity).
        rewrite Hi. vm_step ltac:(reflexivity).
        vm_step ltac:(eapply AS_ARRAY_Some; exact Hheap).
        vm_step ltac:(eapply array_elements_Some; exact Hheap).
        rewrite decide_False by lia. reflexivity. }
      split; [|exact Hnegative].
      intros r vm' Hexec.
      destruct (decide (0 <= i)%Z) as [Hpos|Hneg].
      * destruct (OP_OBJECT_SET_array_write vm array elements d i value t
                    Htop Harr Hidx Hval Hheap Hi Hpos)
          as (vm1 & Hexec1 & Hh & Ht & Hs & Hframe & Herr).
        rewrite Hexec1 in Hexec. injection Hexec as <- <-.
        split; [reflexivity|]. split; [exact Herr|]. split; [exact Ht|].
        split; [exact Hs|]. split; [exact Hframe|].
        intros Hout. rewrite Hh.
        rewrite list_insert_ge by lia. apply insert_id. exact Hheap.
      * rewrite Hnegative in Hexec by lia. discriminate Hexec.
Qed.

Lemma OP_OBJECT_SET_array_witness :
  (exists vm',
     exec OP_OBJECT_SET object_set_example = Some (None, vm') /\
     heap vm' !! 2 = Some (OBJ_ARRAY [NUMBER_VAL one; BOOL_VAL true]) /\
     stackTop vm' = 2 /\
     stack vm' !! 1 = Some NIL_VAL) /\
  (exists vm',
     (native arrayTail 1 1 ;; exec OP_OBJECT_SET) object_set_example
       = Some (None, vm') /\
     heap vm' !! 2 = Some (OBJ_ARRAY [NUMBER_VAL one]) /\
     stackTop vm' = 2 /\
     stack vm' !! 1 = Some NIL_VAL).
Proof.
  split.
  - destruct (OP_OBJECT_SET_array object_set_example 2
                [NUMBER_VAL one; NUMBER_VAL two] (NUMBER_VAL one)
                (BOOL_VAL true) 1) as [_ H];
      try (vm_compute; reflexivity).
    destruct (H one 1%Z eq_refl) as [Hin _]; [vm_compute; reflexivity|].
    destruct Hin as (vm' & Hexec & Hheap & Htop & Hstack & _);
      [vm_compute; split; [discriminate|reflexivity]|].
    exists vm'. split; [exact Hexec|]. split; [|split].
    + rewrite Hheap. apply lookup_insert_eq.
    + exact Htop.
    + exact Hstack.
  - eexists. vm_compute. repeat split; reflexivity.
Defined.

(** ** OP_RETURN *)

Lemma only_upvalues_differ_refl h : only_upvalues_differ h h.
Proof. intros a. left. reflexivity. Qed.

Lemma only_upvalues_differ_trans h1 h2 h3 :
  only_upvalues_differ h1 h2 -> only_upvalues_differ h2 h3 ->
  only_upvalues_differ h1 h3.
Proof.
  intros H12 H23 a. destruct (H23 a) as [E|(u & u' & E2 & E3)].
  - rewrite E. apply H12.
  - destruct (H12 a) as [E1|(v & v' & E1 & E2')].
    + right. exists u, u'. rewrite <- E1. auto.
    + right. exists v, u'. auto.
Qed.

Lemma only_upvalues_differ_store h a u u' :
  h !! a = Some (OBJ_UPVALUE u) ->
  only_upvalues_differ h (<[a := OBJ_UPVALUE u']> h).
Proof.
  intros H b. destruct (decide (a = b)) as [<-|Hne].
  - right. exists u, u'. rewrite lookup_insert_eq. auto.
  - left. apply lookup_insert_ne. assumption.
Qed.

Lemma only_upvalues_differ_lookup h h' a o :
  only_upvalues_differ h h' -> h !! a = Some o -> obj_type o <> T_UPVALUE ->
  h' !! a = Some o.
Proof.
  intros Hd Ho Ht. destruct (Hd a) as [E|(u & u' & E & _)].
  - congruence.
  - rewrite E in Ho. injection Ho as <-. contradiction.
Qed.

Lemma only_upvalues_differ_type h h' v :
  only_upvalues_differ h h' -> OBJ_TYPE h' v = OBJ_TYPE h v.
Proof.
  intros Hd. destruct v as [| | |a]; try reflexivity. simpl.
  destruct (Hd a) as [E|(u & u' & E & E')].
  - rewrite E. reflexivity.
  - rewrite E, E'. reflexivity.
Qed.

Lemma upvalue_of_inv a u vm vm' :
  upvalue_of a vm = Some (u, vm') ->
  vm' = vm /\ heap vm !! a = Some (OBJ_UPVALUE u).
Proof.
  unfold upvalue_of. intros H. inv_vm.
  match goal with H : deref _ _ = _ |- _ => apply deref_inv in H as [-> Ho] end.
  match goal with H : match ?o with _ => _ end _ = _ |- _ =>
    destruct o; inv_vm end.
  auto.
Qed.

Lemma read_slot_inv i v vm vm' :
  read_slot i vm = Some (v, vm') -> vm' = vm /\ stack vm !! i = Some v.
Proof.
  unfold read_slot. destruct (stack vm !! i); [|discriminate].
  intros [= <- <-]. auto.
Qed.

(** [closeUpvalues] changes only upvalue objects and the open list. *)
Lemma closeUpvalues_loop_changes l : forall last vm vm',
  closeUpvalues_loop last l vm = Some (tt, vm') ->
  vm' = set_openUpvalues (openUpvalues vm') (set_heap (heap vm') vm) /\
  only_upvalues_differ (heap vm) (heap vm').
Proof.
  induction l as [|upvalue next IH]; intros last vm vm' H; simpl in H.
  - inv_vm. split; [destruct vm; reflexivity|apply only_upvalues_differ_refl].
  - inv_vm.
    match goal with H : upvalue_of _ _ = _ |- _ =>
      apply upvalue_of_inv in H as [-> Hu] end.
    destruct (location x) as [i|]; [|inv_vm].
    destruct (decide (last <= i)).
    + inv_vm.
      match goal with H : read_slot _ _ = _ |- _ =>
        apply read_slot_inv in H as [-> Hv] end.
      unfold store in *. inv_vm.
      apply IH in H as [Hvm' Hd]. cbn [heap set_heap set_openUpvalues] in Hd.
      split.
      * rewrite Hvm'. destruct vm; reflexivity.
      * eapply only_upvalues_differ_trans; [|exact Hd].
        eapply only_upvalues_differ_store. exact Hu.
    + inv_vm. split; [destruct vm; reflexivity|apply only_upvalues_differ_refl].
Qed.

Lemma closeUpvalues_changes last vm vm' :
  closeUpvalues last vm = Some (tt, vm') ->
  vm' = set_openUpvalues (openUpvalues vm') (set_heap (heap vm') vm) /\
  only_upvalues_differ (heap vm) (heap vm').
Proof.
  unfold closeUpvalues. intros H. inv_vm.
  eapply closeUpvalues_loop_changes. exact H.
Qed.

Lemma closure_function_Some a f us vm :
  heap vm !! a = Some (OBJ_CLOSURE f us) ->
  closure_function a vm = Some (f, vm).
Proof.
  intros H. unfold closure_function.
  vm_step ltac:(apply deref_Some; exact H). reflexivity.
Qed.

Lemma function_of_Some a f vm :
  heap vm !! a = Some (OBJ_FUNCTION f) ->
  function_of a vm = Some (f, vm).
Proof.
  intros H. unfold function_of, AS_FUNCTION, AS_OBJ.
  vm_step ltac:(reflexivity). vm_step ltac:(apply deref_Some; exact H).
  reflexivity.
Qed.

Lemma frame_Some fs fr vm :
  frames vm = fs ++ [fr] -> frame vm = Some (fr, vm).
Proof.
  intros H. unfold frame. vm_step ltac:(reflexivity).
  rewrite H, last_snoc. reflexivity.
Qed.

(** What [checkReturnType] computes is what the declared type requires. *)
Lemma checkReturnType_conforms f result vm :
  checkReturnType f result vm
  = Some (return_value_conforms (heap vm) (returnType f) result, vm).
Proof.
  unfold checkReturnType, return_value_conforms.
  destruct (returnType f); try reflexivity.
  unfold test, IS_STRING, isObjType, OBJ_TYPE.
  destruct result as [| | |a]; try reflexivity.
  destruct (heap vm !! a) as [[]|]; reflexivity.
Qed.

Lemma return_value_conforms_heap h h' declared result :
  only_upvalues_differ h h' ->
  return_value_conforms h' declared result
  = return_value_conforms h declared result.
Proof.
  intros Hd. unfold return_value_conforms.
  destruct declared; try reflexivity.
  destruct result as [| | |a]; try reflexivity.
  destruct (Hd a) as [E|(u & u' & E & E')].
  - rewrite E. reflexivity.
  - rewrite E, E'. reflexivity.
Qed.

(** C1: when [OP_RETURN] pops a frame that is not the outermost one and the
    returning function declares a return type, the result must be what the
    type requires; otherwise the runtime error "Invalid return type." is
    raised.  On success the stack top is the frame's base plus one, and
    the result is in the slot of the base. *)
Theorem OP_RETURN_checks_type (vm vm2 : VM) (fs : list CallFrame)
    (caller fr : CallFrame) (fa : addr) (us : list (option addr))
    (f : ObjFunction) (result : Value) (t : nat) :
  frames vm = fs ++ [caller; fr] ->
  heap vm !! closure fr = Some (OBJ_CLOSURE fa us) ->
  heap vm !! fa = Some (OBJ_FUNCTION f) ->
  returnType f <> TYPE_NONE ->
  stackTop vm = S t ->
  stack vm !! t = Some result ->
  slots fr <= length (stack vm) ->
  closeUpvalues (slots fr) (set_stackTop t vm) = Some (tt, vm2) ->
  (return_value_conforms (heap vm) (returnType f) result = false ->
     exists vm',
       exec OP_RETURN vm = Some (Some INTERPRET_RUNTIME_ERROR, vm') /\
       stderr vm' = stderr vm ++ ["SKILL ISSUE: Invalid return type."%string]) /\
  (return_value_conforms (heap vm) (returnType f) result = true ->
     exists vm',
       exec OP_RETURN vm = Some (None, vm') /\
       frames vm' = fs ++ [caller] /\
       stackTop vm' = S (slots fr) /\
       stack vm' !! slots fr = Some result /\
       (forall i, i < slots fr -> stack vm' !! i = stack vm !! i)).
Proof.
  intros Hfs Hc Hf Hrt Htop Hres Hslots Hclose.
  destruct (closeUpvalues_changes _ _ _ Hclose) as [Hvm2 Hd].
  cbn [heap set_stackTop] in Hd.
  assert (heap vm2 !! closure fr = Some (OBJ_CLOSURE fa us)) as Hc2
    by (eapply only_upvalues_differ_lookup; eauto; discriminate).
  assert (heap vm2 !! fa = Some (OBJ_FUNCTION f)) as Hf2
    by (eapply only_upvalues_differ_lookup; eauto; discriminate).
  assert (frames vm2 = fs ++ [caller; fr]) as Hfs2 by (rewrite Hvm2; exact Hfs).
  assert (stack vm2 = stack vm) as Hst2 by (rewrite Hvm2; reflexivity).
  assert (stderr vm2 = stderr vm) as Herr2 by (rewrite Hvm2; reflexivity).
  assert (removelast (fs ++ [caller; fr]) = fs ++ [caller]) as Hrl.
  { change [caller; fr] with ([caller] ++ [fr]). rewrite app_assoc.
    apply removelast_last. }
  assert ((length (frames (set_frames (removelast (frames vm2)) vm2)) =? 0)
          = false) as Hlen.
  { cbn [frames set_frames]. rewrite Hfs2, Hrl, length_app. simpl.
    apply Nat.eqb_neq. lia. }
  assert (return_value_conforms (heap vm2) (returnType f) result
          = return_value_conforms (heap vm) (returnType f) result) as Hconf2
    by (apply return_value_conforms_heap; exact Hd).
  assert (bool_decide (returnType f = TYPE_NONE) = false) as Hnone
    by (apply bool_decide_eq_false; exact Hrt).
  assert (
    exec OP_RETURN vm
    = (do fa <- closure_function (closure fr);
       do function <- function_of fa;
       do bad <- (if negb (bool_decide (returnType function = TYPE_NONE)) then
                    do ok <- checkReturnType function result; ret (negb ok)
                  else ret false);
       if bad then fail "SKILL ISSUE: Invalid return type."
       else
         modify_vm (set_stackTop (slots fr)) ;;
         push result ;;
         frame ;; go_on) (set_frames (removelast (frames vm2)) vm2)) as Hrun.
  { unfold exec.
    vm_step ltac:(apply (frame_Some (fs ++ [caller]));
                  rewrite Hfs, <- app_assoc; reflexivity).
    vm_step ltac:(eapply pop_Some; eauto).
    vm_step ltac:(exact Hclose).
    vm_step ltac:(reflexivity).
    vm_step ltac:(reflexivity).
    rewrite Hlen. reflexivity. }
  split; intros Hconf; rewrite Hrun;
    (vm_step ltac:(eapply closure_function_Some; exact Hc2));
    (vm_step ltac:(eapply function_of_Some; exact Hf2));
    rewrite Hnone; cbn [negb];
    (vm_step ltac:(vm_step ltac:(apply checkReturnType_conforms);
                   cbn [heap set_frames]; rewrite Hconf2, Hconf; reflexivity));
    cbn [negb].
  - rewrite fail_Some. eexists. split; [reflexivity|].
    cbn [stderr set_stderr set_frames set_openUpvalues set_stackTop].
    rewrite Herr2. reflexivity.
  - vm_step ltac:(reflexivity).
    vm_step ltac:(apply push_Some;
                  cbn [stackTop stack set_stackTop set_frames];
                  rewrite Hst2; exact Hslots).
    vm_step ltac:(apply (frame_Some fs caller);
                  cbn [frames set_frames set_stack set_stackTop];
                  rewrite Hfs2, Hrl; reflexivity).
    unfold ret. eexists. split; [reflexivity|].
    cbn [frames stack stackTop set_stack set_stackTop set_frames].
    rewrite Hst2, Hfs2, Hrl. repeat split.
    + rewrite push_stack by lia. rewrite decide_True; reflexivity.
    + intros i Hi. rewrite push_stack by lia. rewrite decide_False by lia.
      reflexivity.
Qed.

Lemma OP_RETURN_checks_type_witness :
  exists vm',
    exec OP_RETURN return_example = Some (None, vm') /\
    frames vm' = [mkFrame 1 5 0] /\
    stackTop vm' = 2 /\
    stack vm' !! 1 = Some (NUMBER_VAL one).
Proof.
  destruct (OP_RETURN_checks_type return_example
              (set_stackTop 2 return_example) []
              (mkFrame 1 5 0) (mkFrame 3 1 1) 2 [] int_function
              (NUMBER_VAL one) 2) as [_ H];
    try (vm_compute; reflexivity).
  - discriminate.
  - vm_compute. lia.
  - destruct H as (vm' & Hexec & Hframes & Htop & Hstack & _);
      [vm_compute; reflexivity|].
    exists vm'. split; [exact Hexec|]. split; [exact Hframes|].
    split; [exact Htop|exact Hstack].
Defined.

(** ** OP_CALL *)

Lemma lookup_insert_fresh (h : gmap addr Obj) a o o' :
  h !! a = Some o -> <[fresh (dom h) := o']> h !! a = Some o.
Proof.
  intros H. rewrite lookup_insert_ne; [exact H|].
  intros E. rewrite <- E in H. rewrite fresh_lookup_None in H. discriminate.
Qed.

Lemma poke_Some d v vm :
  d < stackTop vm -> stackTop vm <= length (stack vm) ->
  poke d v vm
  = Some (tt, set_stack (<[stackTop vm - 1 - d := v]> (stack vm)) vm).
Proof.
  intros Hd Hle. unfold poke. rewrite decide_True by (split; lia).
  reflexivity.
Qed.

(** [call] pushes a frame whose base is the callee's slot when the
    argument count is the arity, and reports an error otherwise. *)
Lemma call_spec c fa us f n vm :
  heap vm !! c = Some (OBJ_CLOSURE fa us) ->
  heap vm !! fa = Some (OBJ_FUNCTION f) ->
  n + 1 <= stackTop vm ->
  call c n vm
  = if n =? arity f then
      Some (true, set_frames (frames vm ++ [mkFrame c 0 (stackTop vm - n - 1)]) vm)
    else
      Some (false, set_openUpvalues [] (set_frames [] (set_stackTop 0
             (set_stderr (stderr vm ++ ["SKILL ISSUE: Expected %d arguments but got %d."%string]) vm)))).
Proof.
  intros Hc Hf Hn. unfold call.
  vm_step ltac:(eapply closure_function_Some; exact Hc).
  vm_step ltac:(eapply function_of_Some; exact Hf).
  destruct (n =? arity f); cbn [negb].
  - vm_step ltac:(reflexivity). rewrite decide_True by assumption.
    reflexivity.
  - reflexivity.
Qed.

Lemma AS_CLOSURE_Some a f us vm :
  heap vm !! a = Some (OBJ_CLOSURE f us) ->
  AS_CLOSURE (OBJ_VAL a) vm = Some (a, vm).
Proof.
  intros H. unfold AS_CLOSURE, AS_OBJ.
  vm_step ltac:(reflexivity). vm_step ltac:(apply deref_Some; exact H).
  reflexivity.
Qed.

Lemma AS_CLASS_Some a n ms vm :
  heap vm !! a = Some (OBJ_CLASS n ms) ->
  AS_CLASS (OBJ_VAL a) vm = Some (a, vm).
Proof.
  intros H. unfold AS_CLASS, AS_OBJ.
  vm_step ltac:(reflexivity). vm_step ltac:(apply deref_Some; exact H).
  reflexivity.
Qed.

Lemma class_methods_Some a n ms vm :
  heap vm !! a = Some (OBJ_CLASS n ms) ->
  class_methods a vm = Some (ms, vm).
Proof.
  intros H. unfold class_methods.
  vm_step ltac:(apply deref_Some; exact H). reflexivity.
Qed.

(** Closures: [OP_CALL n] on a closure requires [n] to be the arity and
    pushes a frame whose base is the callee's slot, [top - n - 1]. *)
Lemma OP_CALL_closure (vm vm1 : VM) (n c fa : addr)
    (us : list (option addr)) (f : ObjFunction) :
  READ_BYTE vm = Some (n, vm1) ->
  n < stackTop vm ->
  stack vm !! (stackTop vm - 1 - n) = Some (OBJ_VAL c) ->
  heap vm !! c = Some (OBJ_CLOSURE fa us) ->
  heap vm !! fa = Some (OBJ_FUNCTION f) ->
  (n = arity f ->
     exec OP_CALL vm
     = Some (None, set_frames (frames vm1 ++ [mkFrame c 0 (stackTop vm - n - 1)]) vm1)) /\
  (n <> arity f ->
     exists vm',
       exec OP_CALL vm = Some (Some INTERPRET_RUNTIME_ERROR, vm') /\
       stderr vm' = stderr vm ++ ["SKILL ISSUE: Expected %d arguments but got %d."%string]).
Proof.
  intros Hread Hn Hcallee Hc Hf.
  destruct (READ_BYTE_inv _ _ _ Hread)
    as (fs & fr & f0 & fa0 & us0 & Hfs & _ & _ & _ & ->).
  assert (forall vmx, heap vmx = heap vm ->
          OBJ_TYPE (heap vmx) (OBJ_VAL c) = Some T_CLOSURE) as Hty.
  { intros vmx ->. simpl. rewrite Hc. reflexivity. }
  split; intros Har; unfold exec;
    (vm_step ltac:(exact Hread));
    (vm_step ltac:(apply peek_Some; [exact Hn | exact Hcallee]));
    unfold callValue.
  - vm_step ltac:(vm_step ltac:(reflexivity); rewrite Hty by reflexivity;
                  vm_step ltac:(eapply AS_CLOSURE_Some; exact Hc);
                  erewrite call_spec by (first [exact Hc | exact Hf | cbn [stackTop set_frames]; lia]);
                  rewrite (proj2 (Nat.eqb_eq _ _) Har); reflexivity).
    cbn [negb].
    vm_step ltac:(eapply frame_Some; cbn [frames set_frames stackTop]; reflexivity).
    reflexivity.
  - vm_step ltac:(vm_step ltac:(reflexivity); rewrite Hty by reflexivity;
                  vm_step ltac:(eapply AS_CLOSURE_Some; exact Hc);
                  erewrite call_spec by (first [exact Hc | exact Hf | cbn [stackTop set_frames]; lia]);
                  rewrite (proj2 (Nat.eqb_neq _ _) Har); reflexivity).
    cbn [negb]. unfold ret. eexists. split; [reflexivity|]. reflexivity.
Qed.

(** [callValue] on a class: the new instance replaces the callee, then the
    initializer, when there is one, is called. *)
Lemma callValue_class (vm : VM) (n klass cname init : addr) (methods : Table) :
  n < stackTop vm -> stackTop vm <= length (stack vm) ->
  heap vm !! klass = Some (OBJ_CLASS cname methods) ->
  initString vm = Some init ->
  callValue (OBJ_VAL klass) n vm
  = match tableGet methods init with
    | Some initializer => do c <- AS_CLOSURE initializer; call c n
    | None =>
        if negb (n =? 0) then
          runtimeError "SKILL ISSUE: Expected 0 arguments but got %d." ;;
          ret false
        else ret true
    end (set_stack (<[stackTop vm - 1 - n := OBJ_VAL (fresh (dom (heap vm)))]> (stack vm))
           (set_heap (<[fresh (dom (heap vm)) := OBJ_INSTANCE klass ∅]> (heap vm)) vm)).
Proof.
  intros Hn Htop Hk Hinit. unfold callValue.
  vm_step ltac:(reflexivity).
  replace (OBJ_TYPE (heap vm) (OBJ_VAL klass)) with (Some T_CLASS)
    by (simpl; rewrite Hk; reflexivity).
  vm_step ltac:(eapply AS_CLASS_Some; exact Hk).
  vm_step ltac:(apply allocateObject_Some).
  vm_step ltac:(apply poke_Some; cbn [stackTop stack set_heap]; lia).
  vm_step ltac:(eapply class_methods_Some; cbn [heap set_heap set_stack];
                apply lookup_insert_fresh; exact Hk).
  rewrite Hinit.
  vm_step ltac:(reflexivity).
  reflexivity.
Qed.

(** Classes: [OP_CALL n] on a class stores a new instance in the
    callee's slot; with an [init] method it calls it with the [n]
    arguments, without one it requires [n = 0]. *)
Lemma OP_CALL_class (vm vm1 : VM) (n klass cname init : addr) (methods : Table) :
  READ_BYTE vm = Some (n, vm1) ->
  n < stackTop vm -> stackTop vm <= length (stack vm) ->
  stack vm !! (stackTop vm - 1 - n) = Some (OBJ_VAL klass) ->
  heap vm !! klass = Some (OBJ_CLASS cname methods) ->
  initString vm = Some init ->
  let instance := fresh (dom (heap vm)) in
  let vm2 := set_stack (<[stackTop vm - 1 - n := OBJ_VAL instance]> (stack vm))
               (set_heap (<[instance := OBJ_INSTANCE klass ∅]> (heap vm)) vm1) in
  (forall c fa us f,
     methods !! init = Some (OBJ_VAL c) ->
     heap vm !! c = Some (OBJ_CLOSURE fa us) ->
     heap vm !! fa = Some (OBJ_FUNCTION f) ->
     (n = arity f ->
        exec OP_CALL vm
        = Some (None, set_frames (frames vm1 ++ [mkFrame c 0 (stackTop vm - n - 1)]) vm2)) /\
     (n <> arity f ->
        exists vm',
          exec OP_CALL vm = Some (Some INTERPRET_RUNTIME_ERROR, vm') /\
          stderr vm' = stderr vm ++ ["SKILL ISSUE: Expected %d arguments but got %d."%string])) /\
  (methods !! init = None ->
     (n = 0 -> exec OP_CALL vm = Some (None, vm2)) /\
     (n <> 0 ->
        exists vm',
          exec OP_CALL vm = Some (Some INTERPRET_RUNTIME_ERROR, vm') /\
          stderr vm' = stderr vm ++ ["SKILL ISSUE: Expected 0 arguments but got %d."%string])).
Proof.
  intros Hread Hn Htop Hcallee Hk Hinit.
  destruct (READ_BYTE_inv _ _ _ Hread)
    as (fs & fr & f0 & fa0 & us0 & Hfs & _ & _ & _ & Hvm1).
  intros instance vm2. subst vm1.
  assert (exec OP_CALL vm
    = (do ok <- callValue (OBJ_VAL klass) n;
       if negb ok then leave INTERPRET_RUNTIME_ERROR else frame ;; go_on)
        (set_frames (fs ++ [mkFrame (closure fr) (S (ip fr)) (slots fr)]) vm))
    as Hrun.
  { unfold exec.
    vm_step ltac:(exact Hread).
    vm_step ltac:(apply peek_Some; [exact Hn | exact Hcallee]).
    reflexivity. }
  assert (callValue (OBJ_VAL klass) n
            (set_frames (fs ++ [mkFrame (closure fr) (S (ip fr)) (slots fr)]) vm)
    = match tableGet methods init with
      | Some initializer => do c <- AS_CLOSURE initializer; call c n
      | None =>
          if negb (n =? 0) then
            runtimeError "SKILL ISSUE: Expected 0 arguments but got %d." ;;
            ret false
          else ret true
      end vm2) as Hcv.
  { rewrite (callValue_class _ n klass cname init methods)
      by assumption.
    reflexivity. }
  rewrite Hrun. clear Hrun. unfold tableGet in Hcv.
  split.
  - intros c fa us f Hm Hc Hf.
    assert (heap vm2 !! c = Some (OBJ_CLOSURE fa us)) as Hc2.
    { unfold vm2. cbn [heap set_heap set_stack]. 
      apply lookup_insert_fresh. exact Hc. }
    assert (heap vm2 !! fa = Some (OBJ_FUNCTION f)) as Hf2.
    { unfold vm2. cbn [heap set_heap set_stack]. 
      apply lookup_insert_fresh. exact Hf. }
    assert (stackTop vm2 = stackTop vm) as Ht2 by reflexivity.
    rewrite Hm in Hcv.
    assert (callValue (OBJ_VAL klass) n
              (set_frames (fs ++ [mkFrame (closure fr) (S (ip fr)) (slots fr)]) vm)
            = call c n vm2) as Hcv'.
    { rewrite Hcv.
      vm_step ltac:(eapply AS_CLOSURE_Some; exact Hc2). reflexivity. }
    rewrite (call_spec c fa us f n vm2 Hc2 Hf2) in Hcv' by (rewrite Ht2; lia).
    split; intros Har.
    + rewrite (proj2 (Nat.eqb_eq _ _) Har) in Hcv'.
      vm_step ltac:(exact Hcv'). cbn [negb].
      vm_step ltac:(eapply frame_Some; cbn [frames set_frames]; reflexivity).
      unfold ret. rewrite Ht2. reflexivity.
    + rewrite (proj2 (Nat.eqb_neq _ _) Har) in Hcv'.
      vm_step ltac:(exact Hcv'). cbn [negb]. unfold ret.
      eexists. split; [reflexivity|].
      reflexivity.
  - intros Hm. rewrite Hm in Hcv. split; intros Hz.
    + rewrite (proj2 (Nat.eqb_eq _ _) Hz) in Hcv. cbn [negb] in Hcv.
      vm_step ltac:(exact Hcv). cbn [negb].
      vm_step ltac:(eapply frame_Some; unfold vm2;
                    cbn [frames set_frames set_stack set_heap]; reflexivity).
      reflexivity.
    + rewrite (proj2 (Nat.eqb_neq _ _) Hz) in Hcv. cbn [negb] in Hcv.
      vm_step ltac:(rewrite Hcv; vm_step ltac:(apply runtimeError_Some);
                    reflexivity).
      cbn [negb]. unfold ret. eexists. split; [reflexivity|].
      reflexivity.
Qed.

(** Other callees: a value that is no bound method, class, closure or
    native cannot be called. *)
Lemma OP_CALL_not_callable (vm vm1 : VM) (n : nat) (callee : Value) :
  READ_BYTE vm = Some (n, vm1) ->
  n < stackTop vm ->
  stack vm !! (stackTop vm - 1 - n) = Some callee ->
  OBJ_TYPE (heap vm) callee <> Some T_BOUND_METHOD ->
  OBJ_TYPE (heap vm) callee <> Some T_CLASS ->
  OBJ_TYPE (heap vm) callee <> Some T_CLOSURE ->
  OBJ_TYPE (heap vm) callee <> Some T_NATIVE ->
  exists vm',
    exec OP_CALL vm = Some (Some INTERPRET_RUNTIME_ERROR, vm') /\
    stderr vm' = stderr vm ++ ["SKILL ISSUE: Can only call functions and classes."%string].
Proof.
  intros Hread Hn Hcallee Hb Hk Hc Hnat.
  destruct (READ_BYTE_inv _ _ _ Hread)
    as (fs & fr & f0 & fa0 & us0 & Hfs & _ & _ & _ & Hvm1).
  unfold exec.
  vm_step ltac:(exact Hread).
  vm_step ltac:(apply peek_Some; rewrite Hvm1; [exact Hn | exact Hcallee]).
  assert (callValue callee n vm1
          = (runtimeError "SKILL ISSUE: Can only call functions and classes." ;;
             ret false) vm1) as Hcv.
  { unfold callValue. vm_step ltac:(reflexivity).
    replace (heap vm1) with (heap vm) by (rewrite Hvm1; reflexivity).
    destruct (OBJ_TYPE (heap vm) callee) as [[]|]; try reflexivity;
      congruence. }
  vm_step ltac:(rewrite Hcv; vm_step ltac:(apply runtimeError_Some); reflexivity).
  cbn [negb]. unfold ret. eexists. split; [reflexivity|].
  rewrite Hvm1. reflexivity.
Qed.

(** C3: [OP_CALL n] dispatches on the callee [n + 1] slots below the top.
    A class puts a new instance in that slot and calls its [init] method
    with the [n] arguments when it has one, and requires [n = 0]
    otherwise; a closure requires [n] to be its arity and gets a frame
    whose base is [top - n - 1]; a callee that is no bound method, class,
    closure or native raises "Can only call functions and classes.". *)
Theorem OP_CALL_dispatch (vm vm1 : VM) (n : nat) (callee : Value) :
  READ_BYTE vm = Some (n, vm1) ->
  n < stackTop vm -> stackTop vm <= length (stack vm) ->
  stack vm !! (stackTop vm - 1 - n) = Some callee ->
  (* a class *)
  (forall klass cname methods init,
     callee = OBJ_VAL klass ->
     heap vm !! klass = Some (OBJ_CLASS cname methods) ->
     initString vm = Some init ->
     let instance := fresh (dom (heap vm)) in
     let vm2 := set_stack (<[stackTop vm - 1 - n := OBJ_VAL instance]> (stack vm))
                  (set_heap (<[instance := OBJ_INSTANCE klass ∅]> (heap vm)) vm1) in
     (forall c fa us f,
        methods !! init = Some (OBJ_VAL c) ->
        heap vm !! c = Some (OBJ_CLOSURE fa us) ->
        heap vm !! fa = Some (OBJ_FUNCTION f) ->
        (n = arity f ->
           exec OP_CALL vm
           = Some (None, set_frames (frames vm1 ++ [mkFrame c 0 (stackTop vm - n - 1)]) vm2)) /\
        (n <> arity f ->
           exists vm',
             exec OP_CALL vm = Some (Some INTERPRET_RUNTIME_ERROR, vm') /\
             stderr vm' = stderr vm ++ ["SKILL ISSUE: Expected %d arguments but got %d."%string])) /\
     (methods !! init = None ->
        (n = 0 -> exec OP_CALL vm = Some (None, vm2)) /\
        (n <> 0 ->
           exists vm',
             exec OP_CALL vm = Some (Some INTERPRET_RUNTIME_ERROR, vm') /\
             stderr vm' = stderr vm ++ ["SKILL ISSUE: Expected 0 arguments but got %d."%string]))) /\
  (* a closure *)
  (forall c fa us f,
     callee = OBJ_VAL c ->
     heap vm !! c = Some (OBJ_CLOSURE fa us) ->
     heap vm !! fa = Some (OBJ_FUNCTION f) ->
     (n = arity f ->
        exec OP_CALL vm
        = Some (None, set_frames (frames vm1 ++ [mkFrame c 0 (stackTop vm - n - 1)]) vm1)) /\
     (n <> arity f ->
        exists vm',
          exec OP_CALL vm = Some (Some INTERPRET_RUNTIME_ERROR, vm') /\
          stderr vm' = stderr vm ++ ["SKILL ISSUE: Expected %d arguments but got %d."%string])) /\
  (* anything that cannot be called *)
  (OBJ_TYPE (heap vm) callee <> Some T_BOUND_METHOD ->
   OBJ_TYPE (heap vm) callee <> Some T_CLASS ->
   OBJ_TYPE (heap vm) callee <> Some T_CLOSURE ->
   OBJ_TYPE (heap vm) callee <> Some T_NATIVE ->
   exists vm',
     exec OP_CALL vm = Some (Some INTERPRET_RUNTIME_ERROR, vm') /\
     stderr vm' = stderr vm ++ ["SKILL ISSUE: Can only call functions and classes."%string]).
Proof.
  intros Hread Hn Htop Hcallee. split; [|split].
  - intros klass cname methods init -> Hk Hinit.
    exact (OP_CALL_class vm vm1 n klass cname init methods
             Hread Hn Htop Hcallee Hk Hinit).
  - intros c fa us f -> Hc Hf.
    exact (OP_CALL_closure vm vm1 n c fa us f Hread Hn Hcallee Hc Hf).
  - intros Hb Hk Hc Hnat.
    exact (OP_CALL_not_callable vm vm1 n callee Hread Hn Hcallee Hb Hk Hc Hnat).
Qed.

Lemma OP_CALL_dispatch_witness :
  exists vm',
    exec OP_CALL call_example = Some (None, vm') /\
    frames vm' = [mkFrame 1 2 0; mkFrame 3 0 1].
Proof.
  destruct (OP_CALL_dispatch call_example
              (set_frames [mkFrame 1 2 0] call_example) 1 (OBJ_VAL 3))
    as (_ & H & _).
  - vm_compute. reflexivity.
  - vm_compute. lia.
  - vm_compute. lia.
  - vm_compute. reflexivity.
  - destruct (H 3 2 [] (mkFunction 1 0 TYPE_NONE (mkChunk [] [] []) None))
      as [Hcall _]; try (vm_compute; reflexivity).
    eexists. split; [apply Hcall; reflexivity|]. reflexivity.
Defined.

(** ** OP_DICT *)

Lemma set_frame_ip_Some fs fr n vm :
  frames vm = fs ++ [fr] ->
  set_frame_ip n vm
  = Some (tt, set_frames (fs ++ [mkFrame (closure fr) n (slots fr)]) vm).
Proof.
  intros Hfs. unfold set_frame_ip. vm_step ltac:(reflexivity).
  rewrite <- (alter_last (fun fr => mkFrame (closure fr) n (slots fr)) fs fr).
  rewrite <- Hfs. destruct (frames vm) eqn:E.
  - destruct fs; discriminate.
  - reflexivity.
Qed.

Lemma READ_BYTE_Some fs fr fa us f b vm :
  frames vm = fs ++ [fr] ->
  heap vm !! closure fr = Some (OBJ_CLOSURE fa us) ->
  heap vm !! fa = Some (OBJ_FUNCTION f) ->
  code (chunk f) !! ip fr = Some b ->
  READ_BYTE vm
  = Some (b, set_frames (fs ++ [mkFrame (closure fr) (S (ip fr)) (slots fr)]) vm).
Proof.
  intros Hfs Hc Hf Hb. unfold READ_BYTE, frame_function.
  vm_step ltac:(eapply frame_Some; exact Hfs).
  vm_step ltac:(vm_step ltac:(eapply frame_Some; exact Hfs);
                vm_step ltac:(eapply closure_function_Some; exact Hc);
                eapply function_of_Some; exact Hf).
  rewrite Hb. vm_step ltac:(reflexivity).
  vm_step ltac:(eapply set_frame_ip_Some; exact Hfs).
  reflexivity.
Qed.

(** Allocating an object does not disturb the instruction stream. *)
Lemma READ_BYTE_alloc b o vm vm1 :
  READ_BYTE vm = Some (b, vm1) ->
  READ_BYTE (set_heap (<[fresh (dom (heap vm)) := o]> (heap vm)) vm)
  = Some (b, set_heap (<[fresh (dom (heap vm)) := o]> (heap vm)) vm1).
Proof.
  intros H.
  destruct (READ_BYTE_inv _ _ _ H) as (fs & fr & f & fa & us & Hfs & Hc & Hf & Hb & ->).
  erewrite READ_BYTE_Some; [reflexivity| exact Hfs | | | exact Hb].
  - apply lookup_insert_fresh. exact Hc.
  - apply lookup_insert_fresh. exact Hf.
Qed.

Lemma IS_STRING_true h a chars :
  h !! a = Some (OBJ_STRING chars) -> IS_STRING h (OBJ_VAL a) = true.
Proof.
  intros H. unfold IS_STRING, isObjType, OBJ_TYPE. rewrite H. reflexivity.
Qed.

Lemma AS_STRING_Some a chars vm :
  heap vm !! a = Some (OBJ_STRING chars) ->
  AS_STRING (OBJ_VAL a) vm = Some (a, vm).
Proof.
  intros H. unfold AS_STRING, AS_OBJ.
  vm_step ltac:(reflexivity). vm_step ltac:(apply deref_Some; exact H).
  reflexivity.
Qed.

Lemma writeDict_Some d t k v vm :
  heap vm !! d = Some (OBJ_DICT t) ->
  writeDict d k v vm
  = Some (tt, set_heap (<[d := OBJ_DICT (<[k := v]> t)]> (heap vm)) vm).
Proof.
  intros H. unfold writeDict, dict_items, set_dict_items.
  vm_step ltac:(vm_step ltac:(apply deref_Some; exact H); reflexivity).
  vm_step ltac:(apply deref_Some; exact H). reflexivity.
Qed.

Lemma dict_literal_slots_app ps qs :
  dict_literal_slots (ps ++ qs) = dict_literal_slots ps ++ dict_literal_slots qs.
Proof. unfold dict_literal_slots. apply flat_map_app. Qed.

Lemma dict_literal_slots_length ps :
  length (dict_literal_slots ps) = 2 * length ps.
Proof.
  induction ps as [|p ps IH]; [reflexivity|].
  simpl. rewrite IH. lia.
Qed.

(** The loop of [OP_DICT] on pairs whose keys are strings: after the
    topmost [length pairs] pairs, the loop goes on with [m] more. *)
Lemma dict_fill_loop_pairs pairs : forall m dict items base vm,
  dict_literal_on_stack vm base pairs ->
  stackTop vm <= length (stack vm) ->
  heap vm !! dict = Some (OBJ_DICT items) ->
  dict_fill_loop (length pairs + m) dict vm
  = dict_fill_loop m dict
      (set_stackTop base
         (set_heap (<[dict := OBJ_DICT (dict_of_pairs items pairs)]> (heap vm)) vm)).
Proof.
  induction pairs as [|[k v] pairs IH] using rev_ind;
    intros m dict items base vm (Htop & Hslots & Hkeys) Hlen Hd.
  - simpl in *. rewrite insert_id by assumption.
    replace (set_stackTop base _) with vm; [reflexivity|].
    destruct vm; unfold set_stackTop, set_heap; simpl in *. f_equal. lia.
  - rewrite dict_literal_slots_app, length_app in *. simpl in Htop, Hslots.
    simpl length.
    replace (length pairs + 1 + m) with (S (length pairs + m)) by lia.
    cbn [dict_fill_loop].
    set (n := length (dict_literal_slots pairs)) in *.
    assert (stack vm !! (base + n) = Some (OBJ_VAL k)) as Hk.
    { rewrite Hslots by lia. rewrite lookup_app_r by (unfold n; lia).
      replace (n - length (dict_literal_slots pairs)) with 0 by (unfold n; lia).
      reflexivity. }
    assert (stack vm !! (base + S n) = Some v) as Hv.
    { rewrite Hslots by lia. rewrite lookup_app_r by (unfold n; lia).
      replace (S n - length (dict_literal_slots pairs)) with 1 by (unfold n; lia).
      reflexivity. }
    destruct (Hkeys (k, v)) as [chars Hchars]; [apply in_or_app; right; left; reflexivity|].
    simpl in Hchars.
    vm_step ltac:(apply (pop_Some (base + S n)); [lia | exact Hv]).
    vm_step ltac:(apply (pop_Some (base + n)); [cbn [stackTop set_stackTop]; lia | exact Hk]).
    vm_step ltac:(apply test_Some).
    cbn [heap set_stackTop]. rewrite (IS_STRING_true _ _ _ Hchars). cbn [negb].
    vm_step ltac:(eapply AS_STRING_Some; exact Hchars).
    vm_step ltac:(eapply writeDict_Some; exact Hd).
    rewrite (IH m dict (<[k := v]> items) base).
    + cbn [heap stack stackTop set_heap set_stackTop].
      rewrite insert_insert_eq. unfold dict_of_pairs. rewrite foldr_app.
      reflexivity.
    + unfold dict_literal_on_stack.
      cbn [heap stack stackTop set_heap set_stackTop]. fold n. repeat split.
      * intros i Hi. rewrite Hslots by lia.
        apply lookup_app_l. exact Hi.
      * intros p Hp. destruct (Hkeys p) as [c Hc]; [apply in_or_app; left; exact Hp|].
        exists c. rewrite lookup_insert_ne; [exact Hc|].
        intros E. rewrite <- E in Hc. congruence.
    + cbn [heap stack stackTop set_heap set_stackTop]. lia.
    + cbn [heap stack stackTop set_heap set_stackTop]. apply lookup_insert_eq.
Qed.

(** A key maps to the value of its first pair. *)
Lemma dict_of_pairs_lookup k pairs :
  dict_of_pairs ∅ pairs !! k = first_occurrence k pairs.
Proof.
  induction pairs as [|[k' v] pairs IH]; [apply lookup_empty|].
  simpl. destruct (decide (k' = k)) as [->|Hne].
  - apply lookup_insert_eq.
  - rewrite lookup_insert_ne by assumption. exact IH.
Qed.

(** [OP_DICT] with a key that is not a string: the pairs above it are
    consumed, then the runtime error is raised. *)
Lemma OP_DICT_key_not_string (vm vm1 : VM) (base n : nat) (key value : Value)
    (above : list (addr * Value)) :
  dict_literal_on_stack vm (base + 2) above ->
  stackTop vm <= length (stack vm) ->
  stack vm !! base = Some key ->
  stack vm !! S base = Some value ->
  IS_STRING (heap vm) key = false ->
  READ_BYTE vm = Some (n, vm1) ->
  length above < n ->
  exists vm',
    exec OP_DICT vm = Some (Some INTERPRET_RUNTIME_ERROR, vm') /\
    stderr vm' = stderr vm ++ ["SKILL ISSUE: Dictionary keys must be strings."%string].
Proof.
  intros (Htop & Hslots & Hkeys) Hlen Hkey Hvalue Hnot Hread Hn.
  pose proof (READ_BYTE_alloc _ (OBJ_DICT ∅) _ _ Hread) as Hread'.
  destruct (READ_BYTE_inv _ _ _ Hread)
    as (fs & fr & f0 & fa0 & us0 & Hfs & _ & _ & _ & ->).
  set (dict := fresh (dom (heap vm))) in *.
  unfold exec, newDict.
  vm_step ltac:(apply allocateObject_Some). fold dict.
  vm_step ltac:(exact Hread').
  replace n with (length above + S (n - length above - 1)) by lia.
  erewrite (bind_Some (dict_fill_loop _ _)); cycle 1.
  { erewrite (dict_fill_loop_pairs above _ dict ∅ (base + 2)).
    - cbn [dict_fill_loop].
      vm_step ltac:(apply (pop_Some (S base));
                    [cbn [stackTop set_stackTop]; lia | exact Hvalue]).
      vm_step ltac:(apply (pop_Some base); [reflexivity | exact Hkey]).
      vm_step ltac:(apply test_Some).
      cbn [heap set_heap set_stackTop set_frames].
      replace (IS_STRING _ key) with false.
      + cbn [negb]. vm_step ltac:(apply runtimeError_Some). reflexivity.
      + symmetry. revert Hnot. unfold IS_STRING, isObjType, OBJ_TYPE.
        destruct key as [| | |a]; try reflexivity.
        rewrite insert_insert_eq.
        destruct (decide (a = dict)) as [->|Hne].
        * rewrite lookup_insert_eq. reflexivity.
        * rewrite lookup_insert_ne by congruence. auto.
    - unfold dict_literal_on_stack. cbn [heap stack stackTop set_heap set_frames].
      repeat split; try assumption.
      intros p Hp. destruct (Hkeys p Hp) as [c Hc]. exists c.
      apply lookup_insert_fresh. exact Hc.
    - exact Hlen.
    - cbn [heap set_heap set_frames]. apply lookup_insert_eq. }
  cbn [negb]. unfold ret. eexists. split; [reflexivity|]. reflexivity.
Qed.

(** C5, amended: [OP_DICT n] pops [2n] slots, each value before its key; a
    key that is not a string raises a runtime error; when a key occurs in
    more than one pair, the dict maps it to the value of its first
    occurrence in the literal, as the pairs are written from the last to
    the first. *)
Theorem OP_DICT_first_occurrence_wins (vm vm1 : VM) (base n : nat) :
  READ_BYTE vm = Some (n, vm1) ->
  stackTop vm <= length (stack vm) ->
  (forall pairs,
     dict_literal_on_stack vm base pairs -> n = length pairs ->
     let dict := fresh (dom (heap vm)) in
     exists vm' items,
       exec OP_DICT vm = Some (None, vm') /\
       heap vm' = <[dict := OBJ_DICT items]> (heap vm) /\
       (forall k, items !! k = first_occurrence k pairs) /\
       stackTop vm + 1 = stackTop vm' + 2 * n /\
       stack vm' !! base = Some (OBJ_VAL dict) /\
       (forall i, i < base -> stack vm' !! i = stack vm !! i)) /\
  (forall key value above,
     dict_literal_on_stack vm (base + 2) above -> length above < n ->
     stack vm !! base = Some key ->
     stack vm !! S base = Some value ->
     IS_STRING (heap vm) key = false ->
     exists vm',
       exec OP_DICT vm = Some (Some INTERPRET_RUNTIME_ERROR, vm') /\
       stderr vm' = stderr vm ++ ["SKILL ISSUE: Dictionary keys must be strings."%string]).
Proof.
  intros Hread Hlen. split.
  - intros pairs Hlit -> dict.
    pose proof Hlit as (Htop & Hslots & Hkeys).
    pose proof (READ_BYTE_alloc _ (OBJ_DICT ∅) _ _ Hread) as Hread'.
    destruct (READ_BYTE_inv _ _ _ Hread)
      as (fs & fr & f0 & fa0 & us0 & Hfs & _ & _ & _ & ->).
    unfold exec, newDict.
    vm_step ltac:(apply allocateObject_Some). fold dict.
    vm_step ltac:(exact Hread').
    erewrite (bind_Some (dict_fill_loop _ _)); cycle 1.
    { rewrite <- (Nat.add_0_r (length pairs)).
      erewrite (dict_fill_loop_pairs pairs _ dict ∅ base).
      - reflexivity.
      - unfold dict_literal_on_stack. cbn [heap stack stackTop set_heap set_frames].
        repeat split; try assumption.
        intros p Hp. destruct (Hkeys p Hp) as [c Hc]. exists c.
        apply lookup_insert_fresh. exact Hc.
      - exact Hlen.
      - cbn [heap set_heap set_frames]. apply lookup_insert_eq. }
    cbn [negb].
    vm_step ltac:(apply push_Some;
                  cbn [stackTop stack set_stackTop set_heap set_frames]; lia).
    unfold ret. do 2 eexists. split; [reflexivity|].
    cbn [heap stack stackTop set_heap set_stack set_stackTop set_frames].
    rewrite insert_insert_eq. repeat split.
    + intros k. apply dict_of_pairs_lookup.
    + rewrite Htop, dict_literal_slots_length. lia.
    + rewrite push_stack by lia. rewrite decide_True; reflexivity.
    + intros i Hi. rewrite push_stack by lia. rewrite decide_False by lia.
      reflexivity.
  - intros key value above Hlit Hn Hkey Hvalue Hnot.
    exact (OP_DICT_key_not_string vm vm1 base n key value above
             Hlit Hlen Hkey Hvalue Hnot Hread Hn).
Qed.

(** C5 as stated fails: on the slots of [{"x": 1, "x": 2}] the dict maps
    "x" to 1, the value of the first pair, not to 2. *)
Lemma OP_DICT_last_occurrence_wins_fails : ~ OP_DICT_last_occurrence_wins.
Proof.
  intros claim.
  specialize (claim dict_example
                (set_frames [mkFrame 1 2 0] dict_example)
                dict_example_after 1 dict_example_pairs 3
                (<[2 := NUMBER_VAL one]> ∅) 2).
  assert (<[2 := NUMBER_VAL one]> (∅ : Table) !! 2
          = last_occurrence 2 dict_example_pairs) as E.
  { apply claim.
    - unfold dict_literal_on_stack, dict_example_pairs. split; [|split].
      + reflexivity.
      + intros i Hi. simpl in Hi.
        do 4 (destruct i as [|i]; [reflexivity|]). lia.
      + intros p [<-|[<-|[]]]; exists "x"%string; reflexivity.
    - vm_compute. reflexivity.
    - vm_compute. reflexivity.
    - vm_compute. reflexivity.
    - vm_compute. reflexivity. }
  vm_compute in E. discriminate E.
Qed.

Lemma OP_DICT_first_occurrence_wins_witness :
  exists vm' items,
    exec OP_DICT dict_example = Some (None, vm') /\
    heap vm' !! 3 = Some (OBJ_DICT items) /\
    items !! 2 = Some (NUMBER_VAL one) /\
    stack vm' !! 1 = Some (OBJ_VAL 3).
Proof.
  destruct (OP_DICT_first_occurrence_wins dict_example
              (set_frames [mkFrame 1 2 0] dict_example) 1 2) as [H _].
  - vm_compute. reflexivity.
  - vm_compute. lia.
  - destruct (H dict_example_pairs) as (vm' & items & Hexec & Hheap & Hitems & _ & Hstack & _).
    + split; [vm_compute; reflexivity|]. split.
      * intros i Hi. vm_compute in Hi.
        do 4 (destruct i as [|i]; [vm_compute; reflexivity|]). lia.
      * intros p Hp. exists "x"%string.
        destruct Hp as [<-|[<-|[]]]; vm_compute; reflexivity.
    + reflexivity.
    + exists vm', items. split; [exact Hexec|]. split; [|split].
      * rewrite Hheap. vm_compute. reflexivity.
      * rewrite Hitems. vm_compute. reflexivity.
      * exact Hstack.
Defined.

(** ** The open-upvalue list stays descending *)

Lemma descending_iff vm :
  open_upvalues_descending vm <->
  exists slots,
    Forall2 (fun a i => open_slot (heap vm) a = Some i) (openUpvalues vm) slots /\
    strictly_descending slots.
Proof.
  unfold open_upvalues_descending, open_slots. split.
  - destruct (mapM _ _) as [slots|] eqn:E; [|tauto].
    intros H. exists slots. split; [|exact H]. apply mapM_Some. exact E.
  - intros (slots & H & Hd). apply mapM_Some in H. rewrite H. exact Hd.
Qed.

Lemma descending_app l1 l2 :
  strictly_descending (l1 ++ l2) <->
  strictly_descending l1 /\ strictly_descending l2 /\
  Forall (fun i => Forall (fun j => j < i) l2) l1.
Proof.
  induction l1 as [|i l1 IH]; simpl.
  - split; [intros H; repeat split; [exact H|constructor]|tauto].
  - rewrite Forall_app, IH, Forall_cons. tauto.
Qed.

Lemma descending_NoDup l : strictly_descending l -> NoDup l.
Proof.
  induction l as [|i l IH]; simpl; [constructor|].
  intros [Hlt Hd]. constructor; [|apply IH, Hd].
  intros Hin. rewrite Forall_forall in Hlt. specialize (Hlt i Hin). lia.
Qed.

(** The invariant looks at the heap and at the list only. *)
Lemma descending_frame vm vm' :
  heap vm' = heap vm -> openUpvalues vm' = openUpvalues vm ->
  open_upvalues_descending vm -> open_upvalues_descending vm'.
Proof.
  unfold open_upvalues_descending, open_slots. intros -> ->. tauto.
Qed.

Lemma open_slot_insert_ne h a b o :
  a <> b -> open_slot (<[a := o]> h) b = open_slot h b.
Proof. intros Hne. unfold open_slot. rewrite lookup_insert_ne by exact Hne. reflexivity. Qed.

Lemma open_slots_insert h a o l slots :
  a ∉ l ->
  Forall2 (fun b i => open_slot h b = Some i) l slots ->
  Forall2 (fun b i => open_slot (<[a := o]> h) b = Some i) l slots.
Proof.
  intros Hnot H. induction H as [|b i l slots Hb H IH]; constructor.
  - rewrite open_slot_insert_ne; [exact Hb|].
    intros ->. apply Hnot. left.
  - apply IH. intros Hin. apply Hnot. right. exact Hin.
Qed.

Lemma open_nodes_in h l slots a :
  Forall2 (fun b i => open_slot h b = Some i) l slots ->
  a ∈ l -> exists i, open_slot h a = Some i /\ i ∈ slots.
Proof.
  intros H. induction H as [|b i l slots Hb H IH]; intros Hin.
  - inversion Hin.
  - apply elem_of_cons in Hin as [->|Hin].
    + exists i. split; [exact Hb|left].
    + destruct (IH Hin) as (j & Hj & Hjin). exists j. split; [exact Hj|right; exact Hjin].
Qed.

(** A write to an object that is not an open upvalue, and the creation of
    an object, keep the list as it is. *)
Lemma descending_insert vm a o :
  open_slot (heap vm) a = None ->
  open_upvalues_descending vm ->
  open_upvalues_descending (set_heap (<[a := o]> (heap vm)) vm).
Proof.
  intros Ha. rewrite !descending_iff. intros (slots & H & Hd).
  exists slots. split; [|exact Hd].
  cbn [heap openUpvalues set_heap].
  apply open_slots_insert; [|exact H].
  intros Hin. destruct (open_nodes_in _ _ _ _ H Hin) as (i & Hi & _).
  congruence.
Qed.

Lemma open_slot_fresh h : open_slot h (fresh (dom h)) = None.
Proof.
  unfold open_slot. rewrite fresh_lookup_None. reflexivity.
Qed.

(** *** Rules for [preserves] *)

Lemma preserves_bind {A B} (m : M A) (k : A -> M B) :
  preserves m -> (forall a, preserves (k a)) -> preserves (bind m k).
Proof.
  intros Hm Hk vm r vm' Hinv H. apply bind_inv in H as (a & vm1 & H1 & H2).
  eapply Hk; [|exact H2]. eapply Hm; [exact Hinv|exact H1].
Qed.

Lemma preserves_ret {A} (a : A) : preserves (ret a).
Proof. intros vm r vm' Hinv H. apply ret_inv in H. injection H as _ <-. exact Hinv. Qed.

Lemma preserves_undef {A} : preserves (undef : M A).
Proof. intros vm r vm' _ H. discriminate. Qed.

Lemma preserves_of_option {A} (o : option A) : preserves (of_option o).
Proof. destruct o; [apply preserves_ret|apply preserves_undef]. Qed.

Lemma preserves_get_vm : preserves get_vm.
Proof. intros vm r vm' Hinv H. injection H as _ <-. exact Hinv. Qed.

(** A computation that leaves the heap and the list alone. *)
Lemma preserves_frame {A} (m : M A) :
  (forall vm r vm', m vm = Some (r, vm') ->
     heap vm' = heap vm /\ openUpvalues vm' = openUpvalues vm) ->
  preserves m.
Proof.
  intros Hm vm r vm' Hinv H. destruct (Hm _ _ _ H) as [Hh Hl].
  eapply descending_frame; eassumption.
Qed.

Lemma preserves_modify_vm (f : VM -> VM) :
  (forall vm, heap (f vm) = heap vm /\ openUpvalues (f vm) = openUpvalues vm) ->
  preserves (modify_vm f).
Proof.
  intros Hf. apply preserves_frame. intros vm r vm' H.
  injection H as _ <-. apply Hf.
Qed.

Ltac frame_raw f :=
  apply preserves_frame; intros vm r vm' H; unfold f in H;
  repeat case_match; simplify_eq; split; reflexivity.

Lemma preserves_push v : preserves (push v).
Proof. frame_raw push. Qed.

Lemma preserves_pop : preserves pop.
Proof. frame_raw pop. Qed.

Lemma preserves_peek d : preserves (peek d).
Proof. frame_raw peek. Qed.

Lemma preserves_poke d v : preserves (poke d v).
Proof. frame_raw poke. Qed.

Lemma preserves_read_slot i : preserves (read_slot i).
Proof. frame_raw read_slot. Qed.

Lemma preserves_write_slot i v : preserves (write_slot i v).
Proof. frame_raw write_slot. Qed.

Lemma preserves_test p v : preserves (test p v).
Proof. frame_raw test. Qed.

Lemma preserves_host_number : preserves host_number.
Proof. frame_raw host_number. Qed.

Lemma preserves_deref a : preserves (deref a).
Proof. frame_raw deref. Qed.

Lemma preserves_allocateObject o : preserves (allocateObject o).
Proof.
  intros vm r vm' Hinv H. unfold allocateObject in H. simplify_eq.
  apply descending_insert; [apply open_slot_fresh|exact Hinv].
Qed.

(** [resetStack] empties the list. *)
Lemma preserves_resetStack : preserves resetStack.
Proof.
  intros vm r vm' _ H. unfold resetStack, modify_vm, modify in H.
  simplify_eq. apply descending_iff. exists []. split; constructor.
Qed.

Lemma store_not_open vm a o r vm' :
  open_slot (heap vm) a = None ->
  open_upvalues_descending vm -> store a o vm = Some (r, vm') ->
  open_upvalues_descending vm'.
Proof.
  intros Ha Hinv H. unfold store, modify_vm, modify in H. simplify_eq.
  apply descending_insert; assumption.
Qed.

Create HintDb pres discriminated.

#[local] Hint Resolve preserves_ret preserves_undef preserves_of_option
  preserves_get_vm preserves_push preserves_pop preserves_peek preserves_poke
  preserves_read_slot preserves_write_slot preserves_test
  preserves_host_number preserves_deref preserves_allocateObject
  preserves_resetStack : pres.

Ltac head_of t := match t with ?f _ => head_of f | _ => t end.

(** Walk through a computation: binds, case distinctions, the computations
    already dealt with, and the definitions of the others. *)
Ltac pres :=
  repeat first
    [ solve [auto with pres nocore]
    | apply preserves_bind; [|intros ?]
    | match goal with
      | |- preserves (match ?x with _ => _ end) => destruct x
      end
    | match goal with
      | |- preserves (modify_vm _) =>
          apply preserves_modify_vm; intros ?; split; reflexivity
      end
    | match goal with
      | |- preserves ?m => let h := head_of m in progress unfold h
      end ].

Lemma preserves_runtimeError format : preserves (runtimeError format).
Proof. pres. Qed.

Lemma preserves_copyString chars : preserves (copyString chars).
Proof. pres. Qed.

Lemma preserves_READ_BYTE : preserves READ_BYTE.
Proof. pres. Qed.

Ltac store_raw f :=
  let H := fresh "H" in
  let Hinv := fresh "Hinv" in
  let Hd := fresh "Hd" in
  let Hlook := fresh "Hlook" in
  intros vm r vm' Hinv H; unfold f in H;
  apply bind_inv in H as (o & vm1 & Hd & H);
  apply deref_inv in Hd as [-> Hlook]; destruct o; try discriminate;
  eapply store_not_open; [|exact Hinv|exact H];
  unfold open_slot; rewrite Hlook; reflexivity.

Lemma preserves_set_class_methods a ms : preserves (set_class_methods a ms).
Proof. store_raw set_class_methods. Qed.

Lemma preserves_set_instance_fields a fs : preserves (set_instance_fields a fs).
Proof. store_raw set_instance_fields. Qed.

Lemma preserves_set_array_elements a es : preserves (set_array_elements a es).
Proof. store_raw set_array_elements. Qed.

Lemma preserves_set_dict_items a t : preserves (set_dict_items a t).
Proof. store_raw set_dict_items. Qed.

#[local] Hint Resolve preserves_set_class_methods preserves_set_instance_fields
  preserves_set_array_elements preserves_set_dict_items
  preserves_runtimeError preserves_copyString preserves_READ_BYTE : pres.

(** *** [captureUpvalue] *)

(** The search stops at the first node that is not above [local]. *)
Lemma captureUpvalue_search_spec h local l slots :
  Forall2 (fun a i => open_slot h a = Some i) l slots ->
  exists passed rest sp sr,
    captureUpvalue_search h local l = Some (passed, rest) /\
    l = passed ++ rest /\ slots = sp ++ sr /\
    Forall2 (fun a i => open_slot h a = Some i) passed sp /\
    Forall2 (fun a i => open_slot h a = Some i) rest sr /\
    Forall (fun i => local < i) sp /\
    match sr with [] => True | i :: _ => i <= local end.
Proof.
  intros H. induction H as [|a i l slots Ha H IH].
  - exists [], [], [], []. simpl. repeat split; constructor.
  - destruct IH as (passed & rest & sp & sr & Es & -> & -> & Hp & Hr & Hsp & Hsr).
    simpl. unfold open_slot in Ha.
    destruct (h !! a) as [[| | | |u| | | | |]|] eqn:Ea; try discriminate.
    destruct (location u) as [j|] eqn:Eu; [|discriminate].
    injection Ha as ->.
    destruct (decide (local < i)) as [Hlt|Hge].
    + rewrite Es.
      exists (a :: passed), rest, (i :: sp), sr. repeat split; auto.
      constructor; [|exact Hp]. unfold open_slot. rewrite Ea, Eu. reflexivity.
    + exists [], (a :: passed ++ rest), [], (i :: sp ++ sr).
      repeat split; auto; try constructor.
      * unfold open_slot. rewrite Ea, Eu. reflexivity.
      * apply Forall2_app; assumption.
      * lia.
Qed.

Lemma descending_lt_tail i l j :
  strictly_descending (i :: l) -> j ∈ l -> j < i.
Proof.
  simpl. intros [H _] Hin. rewrite Forall_forall in H. apply H, Hin.
Qed.

Lemma fresh_not_open h l slots :
  Forall2 (fun a i => open_slot h a = Some i) l slots -> fresh (dom h) ∉ l.
Proof.
  intros H Hin. destruct (open_nodes_in _ _ _ _ H Hin) as (i & Hi & _).
  rewrite open_slot_fresh in Hi. discriminate.
Qed.

Lemma open_slot_insert_open h a i v :
  open_slot (<[a := OBJ_UPVALUE (mkUpvalue (OnStack i) v)]> h) a = Some i.
Proof. unfold open_slot. rewrite lookup_insert_eq. reflexivity. Qed.

(** The creation branch of [captureUpvalue]: the new node goes between
    the nodes above [local] and the nodes below it. *)
Lemma captureUpvalue_create local vm passed rest sp sr :
  Forall2 (fun a i => open_slot (heap vm) a = Some i) passed sp ->
  Forall2 (fun a i => open_slot (heap vm) a = Some i) rest sr ->
  strictly_descending (sp ++ sr) ->
  Forall (fun i => local < i) sp -> Forall (fun i => i < local) sr ->
  exists a vm',
    (do createdUpvalue <- newUpvalue local;
     modify_vm (set_openUpvalues (passed ++ createdUpvalue :: rest)) ;;
     ret createdUpvalue) vm = Some (a, vm') /\
    a = fresh (dom (heap vm)) /\
    vm' = set_openUpvalues (passed ++ a :: rest)
            (set_heap (<[a := OBJ_UPVALUE (mkUpvalue (OnStack local) NIL_VAL)]>
                         (heap vm)) vm) /\
    open_upvalues_descending vm' /\
    open_slot (heap vm') a = Some local.
Proof.
  intros Hp Hr Hd Hsp Hsr. eexists _, _.
  split; [reflexivity|]. split; [reflexivity|]. split; [reflexivity|].
  cbn [heap set_heap set_openUpvalues].
  split; [|apply open_slot_insert_open].
  apply descending_iff. exists (sp ++ local :: sr).
  cbn [heap openUpvalues set_heap set_openUpvalues].
  apply descending_app in Hd as (Hdp & Hdr & Hcross).
  split.
  - apply Forall2_app; [|constructor].
    + apply open_slots_insert; [|exact Hp]. eapply fresh_not_open, Hp.
    + apply open_slot_insert_open.
    + apply open_slots_insert; [|exact Hr]. eapply fresh_not_open, Hr.
  - apply descending_app. split; [exact Hdp|]. split; [split; assumption|].
    rewrite Forall_forall in *. intros i Hi. constructor; [apply Hsp, Hi|].
    apply Hcross, Hi.
Qed.

Lemma upvalue_of_open vm a i :
  open_slot (heap vm) a = Some i ->
  exists u, upvalue_of a vm = Some (u, vm) /\ location u = OnStack i.
Proof.
  unfold open_slot, upvalue_of. intros H.
  destruct (heap vm !! a) as [[| | | |u| | | | |]|] eqn:Ea; try discriminate.
  destruct (location u) as [j|] eqn:Eu; [|discriminate].
  injection H as ->. exists u. split; [|exact Eu].
  erewrite bind_Some by (unfold deref; rewrite Ea; reflexivity).
  reflexivity.
Qed.

Lemma open_slots_weaken h l slots (P : nat -> Prop) :
  Forall2 (fun a i => open_slot h a = Some i) l slots -> Forall P slots ->
  Forall (fun a => exists i, open_slot h a = Some i /\ P i) l.
Proof.
  intros H. induction H as [|a i l slots Ha H IH]; intros HP; constructor.
  - exists i. split; [exact Ha|]. apply Forall_cons in HP as [HP _]. exact HP.
  - apply IH. apply Forall_cons in HP as [_ HP]. exact HP.
Qed.

(** On a descending list [captureUpvalue] returns: either a node of the
    list that points at [local], with the state as it was, or a new node,
    inserted after the nodes above [local] and before the nodes below it. *)
Lemma captureUpvalue_spec local vm :
  open_upvalues_descending vm ->
  exists a vm',
    captureUpvalue local vm = Some (a, vm') /\
    open_upvalues_descending vm' /\
    open_slot (heap vm') a = Some local /\
    ((a ∈ openUpvalues vm /\ vm' = vm) \/
     (exists passed rest,
        a = fresh (dom (heap vm)) /\
        openUpvalues vm = passed ++ rest /\
        vm' = set_openUpvalues (passed ++ a :: rest)
                (set_heap
                   (<[a := OBJ_UPVALUE (mkUpvalue (OnStack local) NIL_VAL)]>
                      (heap vm)) vm) /\
        Forall (fun b => exists i, open_slot (heap vm) b = Some i /\ local < i)
               passed /\
        Forall (fun b => exists i, open_slot (heap vm) b = Some i /\ i < local)
               rest)).
Proof.
  intros Hinv. pose proof Hinv as Hinv0.
  apply descending_iff in Hinv as (slots & H & Hd).
  destruct (captureUpvalue_search_spec (heap vm) local _ _ H)
    as (passed & rest & sp & sr & Es & El & -> & Hp & Hr & Hsp & Hsr).
  unfold captureUpvalue.
  erewrite bind_Some by reflexivity.
  erewrite bind_Some by (rewrite Es; reflexivity).
  cbn [fst snd].
  assert (Forall (fun i => i < local) sr ->
          exists a vm',
            (do createdUpvalue <- newUpvalue local;
             modify_vm (set_openUpvalues (passed ++ createdUpvalue :: rest)) ;;
             ret createdUpvalue) vm = Some (a, vm') /\
            open_upvalues_descending vm' /\
            open_slot (heap vm') a = Some local /\
            ((a ∈ openUpvalues vm /\ vm' = vm) \/
             (exists passed rest,
                a = fresh (dom (heap vm)) /\
                openUpvalues vm = passed ++ rest /\
                vm' = set_openUpvalues (passed ++ a :: rest)
                        (set_heap
                           (<[a := OBJ_UPVALUE (mkUpvalue (OnStack local) NIL_VAL)]>
                              (heap vm)) vm) /\
                Forall (fun b => exists i, open_slot (heap vm) b = Some i /\ local < i)
                       passed /\
                Forall (fun b => exists i, open_slot (heap vm) b = Some i /\ i < local)
                       rest))) as Hcreate.
  { intros Hlt.
    destruct (captureUpvalue_create local vm passed rest sp sr Hp Hr Hd Hsp Hlt)
      as (a & vm' & Hrun & Ha & Hvm' & Hinv' & Hslot).
    exists a, vm'. split; [exact Hrun|]. split; [exact Hinv'|].
    split; [exact Hslot|]. right. exists passed, rest.
    split; [exact Ha|]. split; [exact El|]. split; [exact Hvm'|].
    split; eapply open_slots_weaken; eassumption. }
  destruct Hr as [|u i rest sr Hu Hr].
  - apply Hcreate. constructor.
  - destruct (upvalue_of_open _ _ _ Hu) as (ou & Eu & Hloc).
    erewrite bind_Some by exact Eu.
    rewrite Hloc. destruct (decide (OnStack i = OnStack local)) as [E|Hne].
    + injection E as ->. exists u, vm. split; [reflexivity|].
      split; [exact Hinv0|]. split; [exact Hu|]. left. split; [|reflexivity].
      rewrite El. apply elem_of_app. right. left.
    + apply Hcreate. apply descending_app in Hd as (_ & [Hlt _] & _).
      assert (i < local) by (assert (i <> local) by congruence; lia).
      constructor; [assumption|].
      eapply Forall_impl; [exact Hlt|]. simpl. intros; lia.
Qed.

(** *** [closeUpvalues] *)

Lemma open_slot_closed h a i :
  open_slot h a = Some i ->
  exists u, h !! a = Some (OBJ_UPVALUE u) /\ location u = OnStack i.
Proof.
  unfold open_slot. intros H.
  destruct (h !! a) as [[| | | |u| | | | |]|]; try discriminate.
  destruct (location u) as [j|] eqn:Eu; [|discriminate].
  injection H as ->. exists u. auto.
Qed.

Lemma head_not_in_tail h a i l slots :
  open_slot h a = Some i ->
  Forall2 (fun b j => open_slot h b = Some j) l slots ->
  Forall (fun j => j < i) slots -> a ∉ l.
Proof.
  intros Ha H Hlt Hin.
  destruct (open_nodes_in _ _ _ _ H Hin) as (j & Hj & Hjin).
  rewrite Forall_forall in Hlt. specialize (Hlt j Hjin).
  rewrite Ha in Hj. injection Hj as ->. lia.
Qed.

(** The loop closes the nodes at the head of the list that are at or above
    [last], takes them off the list, and stops at the first node below
    [last]. *)
Lemma closeUpvalues_loop_spec last l :
  forall slots vm r vm',
    openUpvalues vm = l ->
    Forall2 (fun a i => open_slot (heap vm) a = Some i) l slots ->
    strictly_descending slots ->
    closeUpvalues_loop last l vm = Some (r, vm') ->
    exists removed sr sk,
      l = removed ++ openUpvalues vm' /\ slots = sr ++ sk /\
      length removed = length sr /\
      Forall (fun i => last <= i) sr /\ Forall (fun i => i < last) sk /\
      Forall2 (fun a i => open_slot (heap vm') a = Some i) (openUpvalues vm') sk.
Proof.
  induction l as [|u next IH]; intros slots vm r vm' El H Hd Hrun.
  - apply Forall2_nil_inv_l in H as ->. simpl in Hrun.
    apply ret_inv in Hrun. injection Hrun as _ <-.
    exists [], [], []. rewrite El. repeat split; constructor.
  - apply Forall2_cons_inv_l in H as (i & sl & Hu & H & ->).
    destruct Hd as [Hlt Hd]. simpl in Hrun.
    destruct (upvalue_of_open _ _ _ Hu) as (ou & Eu & Hloc).
    erewrite bind_Some in Hrun by exact Eu. rewrite Hloc in Hrun.
    destruct (decide (last <= i)) as [Hge|Hnge].
    + apply bind_inv in Hrun as (v & vm1 & Hread & Hrun).
      assert (vm1 = vm) as ->.
      { unfold read_slot in Hread. destruct (stack vm !! i); congruence. }
      erewrite bind_Some in Hrun by reflexivity.
      erewrite bind_Some in Hrun by reflexivity.
      apply IH with (slots := sl) in Hrun; [|reflexivity| |exact Hd].
      * destruct Hrun as (removed & sr & sk & E1 & E2 & E3 & Hsr & Hsk & Hk).
        exists (u :: removed), (i :: sr), sk.
        split; [simpl; rewrite <- E1; reflexivity|].
        split; [simpl; rewrite E2; reflexivity|].
        split; [simpl; rewrite E3; reflexivity|].
        split; [constructor; assumption|]. split; assumption.
      * cbn [heap set_heap set_openUpvalues].
        apply open_slots_insert; [|exact H].
        eapply head_not_in_tail; eassumption.
    + apply ret_inv in Hrun. injection Hrun as _ <-.
      exists [], [], (i :: sl). rewrite El.
      split; [reflexivity|]. split; [reflexivity|]. split; [reflexivity|].
      split; [constructor|]. split; [|constructor; assumption].
      constructor; [lia|]. eapply Forall_impl; [exact Hlt|]. simpl. intros; lia.
Qed.

Lemma closeUpvalues_spec last vm r vm' :
  open_upvalues_descending vm ->
  closeUpvalues last vm = Some (r, vm') ->
  exists removed sr sk,
    openUpvalues vm = removed ++ openUpvalues vm' /\
    open_slots vm = Some (sr ++ sk) /\ open_slots vm' = Some sk /\
    length removed = length sr /\
    Forall (fun i => last <= i) sr /\ Forall (fun i => i < last) sk /\
    open_upvalues_descending vm'.
Proof.
  intros Hinv Hrun. apply descending_iff in Hinv as (slots & H & Hd).
  unfold closeUpvalues in Hrun. erewrite bind_Some in Hrun by reflexivity.
  destruct (closeUpvalues_loop_spec _ _ _ _ _ _ eq_refl H Hd Hrun)
    as (removed & sr & sk & E1 & -> & E3 & Hsr & Hsk & Hk).
  exists removed, sr, sk. split; [exact E1|].
  split; [apply mapM_Some; exact H|].
  split; [apply mapM_Some; exact Hk|].
  split; [exact E3|]. split; [exact Hsr|]. split; [exact Hsk|].
  apply descending_iff. exists sk. split; [exact Hk|].
  apply descending_app in Hd. tauto.
Qed.

Lemma preserves_closeUpvalues last : preserves (closeUpvalues last).
Proof.
  intros vm r vm' Hinv H.
  destruct (closeUpvalues_spec _ _ _ _ Hinv H) as (? & ? & ? & ?). tauto.
Qed.

Lemma preserves_captureUpvalue local : preserves (captureUpvalue local).
Proof.
  intros vm r vm' Hinv H.
  destruct (captureUpvalue_spec local vm Hinv) as (a & vm1 & E & Hinv' & _).
  rewrite E in H. injection H as _ <-. exact Hinv'.
Qed.

#[local] Hint Resolve preserves_closeUpvalues preserves_captureUpvalue : pres.

(** *** The rest of the VM *)

Lemma preserves_READ_SHORT : preserves READ_SHORT.
Proof. pres. Qed.

Lemma preserves_READ_CONSTANT : preserves READ_CONSTANT.
Proof. pres. Qed.

Lemma preserves_READ_CONSTANT_LONG : preserves READ_CONSTANT_LONG.
Proof. pres. Qed.

Lemma preserves_READ_STRING : preserves READ_STRING.
Proof. pres. Qed.

Lemma preserves_fail format : preserves (fail format).
Proof. pres. Qed.

#[local] Hint Resolve preserves_READ_SHORT preserves_READ_CONSTANT
  preserves_READ_CONSTANT_LONG preserves_READ_STRING preserves_fail : pres.

Lemma preserves_copy_from n : forall i values a, preserves (copy_from n i values a).
Proof. induction n as [|n IH]; intros i values a; simpl; pres. Qed.

Lemma preserves_array_fill_loop n :
  forall i elementCount array, preserves (array_fill_loop n i elementCount array).
Proof. induction n as [|n IH]; intros i elementCount array; simpl; pres. Qed.

Lemma preserves_pop_loop n : preserves (pop_loop n).
Proof. induction n as [|n IH]; simpl; pres. Qed.

Lemma preserves_dict_fill_loop n : forall dict, preserves (dict_fill_loop n dict).
Proof. induction n as [|n IH]; intros dict; simpl; pres. Qed.

#[local] Hint Resolve preserves_copy_from preserves_array_fill_loop
  preserves_pop_loop preserves_dict_fill_loop : pres.

Lemma preserves_native fn argCount args : preserves (native fn argCount args).
Proof. destruct fn; cbv beta iota delta [native]; pres. Qed.

Lemma preserves_call closure argCount : preserves (call closure argCount).
Proof. pres. Qed.

#[local] Hint Resolve preserves_native preserves_call : pres.

Lemma preserves_callValue callee argCount : preserves (callValue callee argCount).
Proof. pres. Qed.

#[local] Hint Resolve preserves_callValue : pres.

Lemma preserves_invoke name argCount : preserves (invoke name argCount).
Proof. pres. Qed.

Lemma preserves_bindMethod klass name : preserves (bindMethod klass name).
Proof. pres. Qed.

Lemma preserves_defineMethod name : preserves (defineMethod name).
Proof. pres. Qed.

Lemma preserves_concatenate : preserves concatenate.
Proof. pres. Qed.

Lemma preserves_BINARY_OP op : preserves (BINARY_OP op).
Proof. pres. Qed.

Lemma preserves_bitwise_op ok op message : preserves (bitwise_op ok op message).
Proof. pres. Qed.

Lemma preserves_invokeFromClass klass name argCount :
  preserves (invokeFromClass klass name argCount).
Proof. pres. Qed.

#[local] Hint Resolve preserves_invoke preserves_bindMethod preserves_defineMethod
  preserves_concatenate preserves_BINARY_OP preserves_bitwise_op
  preserves_invokeFromClass : pres.

(** Filling a slot of the new closure writes to a closure. *)
Lemma preserves_closure_upvalues_loop n :
  forall i new_closure, preserves (closure_upvalues_loop n i new_closure).
Proof.
  induction n as [|n IH]; intros i new_closure; simpl; [pres|].
  do 4 (apply preserves_bind; [pres|intros ?]).
  intros vm r vm' Hinv H.
  apply bind_inv in H as (o & vm1 & Hd & H).
  apply deref_inv in Hd as [-> Hlook].
  destruct o; try discriminate.
  destruct (decide (i < length upvalues)); [|discriminate].
  apply bind_inv in H as ([] & vm1 & Hs & H).
  eapply IH; [|exact H].
  eapply store_not_open; [|exact Hinv|exact Hs].
  unfold open_slot. rewrite Hlook. reflexivity.
Qed.

#[local] Hint Resolve preserves_closure_upvalues_loop : pres.

(** [OP_SET_UPVALUE] writes to the stack through an open upvalue and to the
    [closed] field of a closed one. *)
Lemma preserves_set_upvalue a :
  preserves (do u <- upvalue_of a;
             do v <- peek 0;
             match location u with
             | OnStack i => write_slot i v
             | InClosed => store a (OBJ_UPVALUE (mkUpvalue InClosed v))
             end ;;
             go_on).
Proof.
  intros vm r vm' Hinv H.
  apply bind_inv in H as (u & vm1 & Hu & H).
  unfold upvalue_of in Hu. apply bind_inv in Hu as (o & vm2 & Hd & Hu).
  apply deref_inv in Hd as [-> Hlook].
  destruct o as [| | | |ou| | | | |]; try discriminate.
  apply ret_inv in Hu. injection Hu as E1 E2. subst u vm1.
  apply bind_inv in H as (v & vm3 & Hv & H).
  assert (vm3 = vm) as ->.
  { unfold peek in Hv. repeat case_match; congruence. }
  apply bind_inv in H as ([] & vm4 & Hw & H).
  apply ret_inv in H. injection H as _ <-.
  destruct (location ou) eqn:Eloc.
  - eapply preserves_write_slot; eassumption.
  - eapply store_not_open; [|exact Hinv|exact Hw].
    unfold open_slot. rewrite Hlook, Eloc. reflexivity.
Qed.

(** Every instruction keeps the list descending. *)
Lemma preserves_exec op : preserves (exec op).
Proof.
  destruct op; cbv beta iota delta [exec];
    try (pres; fail).
  do 5 (apply preserves_bind; [pres|intros ?]).
  apply preserves_set_upvalue.
Qed.

#[local] Hint Resolve preserves_exec : pres.

Lemma preserves_step : preserves step.
Proof. pres. Qed.

#[local] Hint Resolve preserves_step : pres.

Lemma preserves_run fuel : preserves (run fuel).
Proof. induction fuel as [|fuel IH]; simpl; pres. Qed.

Lemma preserves_defineNative name function : preserves (defineNative name function).
Proof. pres. Qed.

#[local] Hint Resolve preserves_run preserves_defineNative : pres.

(** [initVM] starts with an empty list, whatever the state before. *)
Lemma initVM_descending vm r vm' :
  initVM vm = Some (r, vm') -> open_upvalues_descending vm'.
Proof.
  unfold initVM. intros H.
  apply bind_inv in H as ([] & vm1 & _ & H).
  apply bind_inv in H as ([] & vm2 & _ & H).
  apply bind_inv in H as ([] & vm3 & H3 & H).
  apply bind_inv in H as ([] & vm4 & H4 & H).
  unfold resetStack, modify_vm, modify in H3, H4. simplify_eq.
  revert H. generalize (set_frames [] (set_stackTop 0 vm2)). intros vm3 H.
  assert (open_upvalues_descending (set_heap ∅ (set_openUpvalues [] vm3))) as Hinv.
  { apply descending_iff. exists []. split; constructor. }
  revert Hinv H. generalize (set_heap ∅ (set_openUpvalues [] vm3)).
  intros vm4 Hinv H.
  assert (preserves
            (modify_vm (set_globals ∅);;
             modify_vm (set_strings ∅);;
             modify_vm (set_initString None);;
             do init <- copyString "init";
             modify_vm (set_initString (Some init));;
             defineNative "clock" clockNative;;
             defineNative "time" timeNative;;
             defineNative "term" termNative;;
             defineNative "prepend" arrayPrepend;;
             defineNative "append" arrayAppend;;
             defineNative "head" arrayHead;;
             defineNative "tail" arrayTail;;
             defineNative "rest" arrayRest;;
             defineNative "remove" dictRemove;;
             defineNative "length" lengthNative)) as Hp by pres.
  eapply Hp; eassumption.
Qed.


(** Two nodes of a descending list that point at the same slot are the
    same node. *)
Lemma open_nodes_inj h l slots a b i :
  Forall2 (fun c j => open_slot h c = Some j) l slots ->
  strictly_descending slots ->
  a ∈ l -> b ∈ l -> open_slot h a = Some i -> open_slot h b = Some i -> a = b.
Proof.
  intros H Hd Ha Hb Hia Hib.
  apply list_elem_of_lookup in Ha as [ka Hka].
  apply list_elem_of_lookup in Hb as [kb Hkb].
  destruct (Forall2_lookup_l _ _ _ _ _ H Hka) as (ja & Hja & Ea).
  destruct (Forall2_lookup_l _ _ _ _ _ H Hkb) as (jb & Hjb & Eb).
  assert (ja = i) as -> by congruence. assert (jb = i) as -> by congruence.
  assert (ka = kb) as ->.
  { eapply NoDup_lookup; [apply descending_NoDup, Hd|exact Hja|exact Hjb]. }
  congruence.
Qed.

(** C7: the open-upvalue list is strictly descending by stack address and
    no two of its nodes point at the same slot, at every point of a run.
    [initVM] leaves a list that is descending.  From a state [vm] whose
    list is descending: the slots of the nodes are pairwise distinct; the
    list is descending after every number of instructions of [run];
    [captureUpvalue] returns, with a node that points at the requested
    slot and a list that is descending: the node of the list that points
    at the slot, and the state unchanged, when there is one, and otherwise
    a new node, put after the nodes above the slot and before the nodes
    below it; and [closeUpvalues] takes a prefix off the list, the nodes at
    or above [last], and leaves the nodes below [last], still descending. *)
Theorem open_upvalues_stay_descending (vm : VM) :
  (forall vm0 r, initVM vm0 = Some (r, vm) -> open_upvalues_descending vm) /\
  (open_upvalues_descending vm ->
   (forall slots, open_slots vm = Some slots -> NoDup slots) /\
   (forall fuel r vm',
      run fuel vm = Some (r, vm') -> open_upvalues_descending vm') /\
   (forall local,
      exists a vm',
        captureUpvalue local vm = Some (a, vm') /\
        open_upvalues_descending vm' /\
        open_slot (heap vm') a = Some local /\
        (forall b, b ∈ openUpvalues vm -> open_slot (heap vm) b = Some local ->
                   a = b /\ vm' = vm) /\
        ((forall b, b ∈ openUpvalues vm -> open_slot (heap vm) b <> Some local) ->
         exists passed rest,
           heap vm !! a = None /\
           openUpvalues vm = passed ++ rest /\
           openUpvalues vm' = passed ++ a :: rest /\
           heap vm' = <[a := OBJ_UPVALUE (mkUpvalue (OnStack local) NIL_VAL)]>
                        (heap vm) /\
           Forall (fun b => exists i, open_slot (heap vm) b = Some i /\ local < i)
                  passed /\
           Forall (fun b => exists i, open_slot (heap vm) b = Some i /\ i < local)
                  rest)) /\
   (forall last r vm',
      closeUpvalues last vm = Some (r, vm') ->
      exists removed sr sk,
        openUpvalues vm = removed ++ openUpvalues vm' /\
        open_slots vm = Some (sr ++ sk) /\ open_slots vm' = Some sk /\
        length removed = length sr /\
        Forall (fun i => last <= i) sr /\ Forall (fun i => i < last) sk /\
        open_upvalues_descending vm')).
Proof.
  split; [intros vm0 r H; eapply initVM_descending, H|].
  intros Hinv. split; [|split; [|split]].
  - intros slots E. apply descending_NoDup.
    unfold open_upvalues_descending in Hinv. rewrite E in Hinv. exact Hinv.
  - intros fuel r vm' H. eapply preserves_run; eassumption.
  - intros local.
    destruct (captureUpvalue_spec local vm Hinv)
      as (a & vm' & E & Hinv' & Hslot & Hcase).
    exists a, vm'. split; [exact E|]. split; [exact Hinv'|]. split; [exact Hslot|].
    apply descending_iff in Hinv as (slots & H & Hd).
    destruct Hcase as [[Ha ->]|(passed & rest & Ea & El & Evm & Hp & Hr)].
    + split.
      * intros b Hb Hib. split; [|reflexivity].
        eapply open_nodes_inj; eassumption.
      * intros Hnone. destruct (Hnone a Ha Hslot).
    + split.
      * intros b Hb Hib. exfalso. rewrite El in Hb.
        rewrite Forall_forall in Hp, Hr.
        apply elem_of_app in Hb as [Hb|Hb];
          [destruct (Hp b Hb) as (i & Hi & Hlt)
          |destruct (Hr b Hb) as (i & Hi & Hlt)];
          rewrite Hib in Hi; injection Hi as <-; lia.
      * intros _. exists passed, rest.
        split; [rewrite Ea; apply fresh_lookup_None|].
        split; [exact El|]. rewrite Evm. repeat split; assumption.
  - intros last r vm' H. eapply closeUpvalues_spec; eassumption.
Qed.

Lemma open_upvalues_stay_descending_witness :
  open_upvalues_descending upvalues_example /\
  exists a vm',
    captureUpvalue 1 upvalues_example = Some (a, vm') /\
    openUpvalues vm' = [2; a; 3] /\
    open_upvalues_descending vm'.
Proof.
  assert (open_upvalues_descending upvalues_example) as Hinv.
  { apply (bool_decide_unpack _). vm_compute. exact I. }
  split; [exact Hinv|].
  destruct (open_upvalues_stay_descending upvalues_example) as [_ H].
  destruct (H Hinv) as (_ & _ & Hc & _).
  destruct (Hc 1) as (a & vm' & E & Hinv' & _).
  exists a, vm'. split; [exact E|]. split; [|exact Hinv'].
  vm_compute in E. injection E as <- <-. reflexivity.
Defined.

(** ** until and while *)

Module CompilerFacts.
Import Compiler.

Lemma bind_assoc {S A B C} (m : ST S A) (f : A -> ST S B) (g : B -> ST S C) s :
  bind (bind m f) g s = bind m (fun x => bind (f x) g) s.
Proof. unfold bind. destruct (m s) as [[a s']|]; reflexivity. Qed.

Lemma bind_ext_state {S A B} (m : ST S A) (k k' : A -> ST S B) s :
  (forall a s', m s = Some (a, s') -> k a s' = k' a s') ->
  bind m k s = bind m k' s.
Proof.
  intros H. unfold bind. destruct (m s) as [[a s']|]; [|reflexivity].
  apply H. reflexivity.
Qed.

Lemma with_heap_id s : with_heap (heap (vm s)) s = s.
Proof. destruct s as [p sc c cc v i]. destruct v. reflexivity. Qed.

Lemma parser_only_heap {A} (m : C A) s a s' :
  parser_only m -> m s = Some (a, s') -> heap (vm s') = heap (vm s).
Proof.
  intros Hm Hs. specialize (Hm s). rewrite Hs in Hm. destruct Hm as [_ Hh].
  specialize (Hh (heap (vm s))). rewrite with_heap_id, Hs in Hh.
  injection Hh as Hh. rewrite Hh at 1. reflexivity.
Qed.

Lemma parser_only_ret {A} (a : A) : parser_only (ret a).
Proof. intros s. unfold ret. auto. Qed.

Lemma parser_only_bind {A B} (m : C A) (k : A -> C B) :
  parser_only m -> (forall a, parser_only (k a)) -> parser_only (bind m k).
Proof.
  intros Hm Hk s. unfold bind. specialize (Hm s).
  destruct (m s) as [[a s']|].
  - destruct Hm as [Hc Hh]. specialize (Hk a s').
    destruct (k a s') as [[b s'']|].
    + destruct Hk as [Hc' Hh']. split; [congruence|].
      intros h. rewrite Hh. apply Hh'.
    + intros h. rewrite Hh. apply Hk.
  - intros h. rewrite Hm. reflexivity.
Qed.

Lemma parser_only_get_parser : parser_only get_parser.
Proof. intros s. unfold get_parser, bind, get, ret. auto. Qed.

Lemma parser_only_modify_parser f : parser_only (modify_parser f).
Proof. intros s. unfold modify_parser, modify. auto. Qed.

Lemma parser_only_errorAt token message : parser_only (errorAt token message).
Proof.
  unfold errorAt. apply parser_only_bind; [apply parser_only_get_parser|].
  intros p. destruct (panicMode p); [apply parser_only_ret|].
  apply parser_only_bind; [apply parser_only_modify_parser|]. intros _.
  apply parser_only_bind; [|intros _; apply parser_only_modify_parser].
  intros s. unfold liftVM, modify_vm, modify. simpl. auto.
Qed.

Lemma parser_only_errorAtCurrent message : parser_only (errorAtCurrent message).
Proof.
  unfold errorAtCurrent. apply parser_only_bind; [apply parser_only_get_parser|].
  intros p. apply parser_only_errorAt.
Qed.

Lemma parser_only_scanToken : parser_only scanToken.
Proof.
  intros s. unfold scanToken, bind, get, modify, ret.
  destruct (scanner s) eqn:E; simpl; rewrite E; auto.
Qed.

Lemma parser_only_advance_loop n : parser_only (advance_loop n).
Proof.
  induction n as [|n IH].
  - intros s. unfold advance_loop, undef. auto.
  - cbn [advance_loop]. apply parser_only_bind; [apply parser_only_scanToken|].
    intros t. apply parser_only_bind; [apply parser_only_modify_parser|].
    intros _. destruct (negb _); [apply parser_only_ret|].
    apply parser_only_bind; [apply parser_only_errorAtCurrent|].
    intros _. exact IH.
Qed.

Lemma parser_only_advance : parser_only advance.
Proof.
  unfold advance. apply parser_only_bind; [apply parser_only_modify_parser|].
  intros _ s. unfold bind at 1. unfold get at 1.
  pose proof (parser_only_advance_loop (S (length (scanner s))) s) as H.
  destruct (advance_loop (S (length (scanner s))) s) as [[a s']|].
  - destruct H as [Hc Hh]. split; [exact Hc|]. intros h.
    unfold bind, get. exact (Hh h).
  - intros h. unfold bind, get. exact (H h).
Qed.

Lemma parser_only_check t : parser_only (check t).
Proof.
  unfold check. apply parser_only_bind; [apply parser_only_get_parser|].
  intros p. apply parser_only_ret.
Qed.

Lemma parser_only_consume t message : parser_only (consume t message).
Proof.
  unfold consume. apply parser_only_bind; [apply parser_only_check|].
  intros [|]; [apply parser_only_advance|apply parser_only_errorAtCurrent].
Qed.

(** What [emitByte] does: it appends the byte to the chunk of the current
    function, in the heap, and touches nothing else. *)
Lemma emitByte_at_spec b l s :
  emitByte_at b l s
  = match compiler s with
    | c :: _ =>
        match heap (vm s) !! function c with
        | Some (OBJ_FUNCTION fn) =>
            Some (tt, with_heap
              (<[function c := OBJ_FUNCTION
                   (mkFunction (arity fn) (upvalueCount fn) (returnType fn)
                      (writeChunk (chunk fn) b l)
                      (match fn with mkFunction _ _ _ _ n => n end))]>
                 (heap (vm s))) s)
        | _ => None
        end
    | [] => None
    end.
Proof.
  unfold emitByte_at, modify_chunk, modify_function, cur, liftVM, function_of,
    AS_FUNCTION, AS_OBJ, deref, store, modify_vm, of_option.
  unfold bind, get, modify, ret, undef.
  destruct (compiler s) as [|c cs]; [reflexivity|]. simpl.
  destruct (heap (vm s) !! function c) as [[]|]; reflexivity.
Qed.

Lemma emitByte_eq b s :
  emitByte b s = emitByte_at b (line (previous (parser s))) s.
Proof. reflexivity. Qed.

(** A computation that only moves through the tokens commutes with the
    emission of a byte. *)
Lemma parser_only_commute {A} (m : C unit) b l (K : C A) s :
  parser_only m ->
  (m ;; emitByte_at b l ;; K) s = (emitByte_at b l ;; m ;; K) s.
Proof.
  intros Hm. unfold bind at 1 3. rewrite (emitByte_at_spec b l s).
  pose proof (Hm s) as Hs.
  destruct (m s) as [[[] s']|] eqn:Ems.
  - destruct Hs as [Hc Hh].
    pose proof (parser_only_heap m s tt s' Hm Ems) as Hheap.
    unfold bind at 1. rewrite (emitByte_at_spec b l s'). rewrite Hc, Hheap.
    destruct (compiler s) as [|c cs]; [reflexivity|].
    destruct (heap (vm s) !! function c) as [[| fn | | | | | | | |]|]; try reflexivity.
    unfold bind. rewrite Hh. reflexivity.
  - destruct (compiler s) as [|c cs]; [reflexivity|].
    destruct (heap (vm s) !! function c) as [[| fn | | | | | | | |]|]; try reflexivity.
    unfold bind. rewrite Hs. reflexivity.
Qed.

Lemma errorAt_parser token message s u s' :
  errorAt token message s = Some (u, s') ->
  previous (parser s') = previous (parser s) /\
  current (parser s') = current (parser s).
Proof.
  unfold errorAt, get_parser, modify_parser, liftVM, modify_vm. intros H.
  inv_vm. destruct (panicMode (parser s)); inv_vm; [auto|].
  unfold modify in *. simplify_eq. auto.
Qed.

Lemma errorAtCurrent_parser message s u s' :
  errorAtCurrent message s = Some (u, s') ->
  previous (parser s') = previous (parser s) /\
  current (parser s') = current (parser s).
Proof.
  unfold errorAtCurrent, get_parser. intros H. inv_vm.
  eapply errorAt_parser. eassumption.
Qed.

Lemma scanToken_previous s t s' :
  scanToken s = Some (t, s') -> previous (parser s') = previous (parser s).
Proof.
  unfold scanToken. intros H. inv_vm.
  destruct (scanner s); inv_vm; reflexivity.
Qed.

Lemma advance_loop_previous n : forall s s',
  advance_loop n s = Some (tt, s') ->
  previous (parser s') = previous (parser s).
Proof.
  induction n as [|n IH]; intros s s' H; [discriminate|].
  cbn [advance_loop] in H. unfold modify_parser in H. inv_vm.
  match goal with H : scanToken _ = _ |- _ =>
    apply scanToken_previous in H; rename H into E1 end.
  destruct (negb _); inv_vm.
  - simpl. exact E1.
  - apply IH in H.
    match goal with H : errorAtCurrent _ _ = _ |- _ =>
      apply errorAtCurrent_parser in H as [Hp _] end.
    rewrite H, Hp. simpl. exact E1.
Qed.

Lemma advance_previous s s' :
  advance s = Some (tt, s') ->
  previous (parser s') = current (parser s).
Proof.
  unfold advance, modify_parser. intros H. inv_vm.
  apply advance_loop_previous in H. rewrite H. reflexivity.
Qed.

(** [consume] followed by [emitByte] is [emitByte] followed by [consume],
    with the line of the token that [consume] takes. *)
Lemma consume_emitByte_commute {A} t message b (K : C A) s :
  (consume t message ;; emitByte b ;; K) s
  = (emitByte_before t b ;; consume t message ;; K) s.
Proof.
  transitivity ((consume t message ;;
                 emitByte_at b (line_after_consume t (parser s)) ;; K) s).
  - apply bind_ext_state. intros [] s' Ec.
    assert (line (previous (parser s')) = line_after_consume t (parser s)) as El.
    { unfold line_after_consume. unfold consume, check, get_parser in Ec. inv_vm.
      destruct (bool_decide (type (current (parser s)) = t)) eqn:Et.
      - apply advance_previous in Ec. rewrite Ec. reflexivity.
      - apply errorAtCurrent_parser in Ec as [Hp _]. rewrite Hp. reflexivity. }
    unfold bind. rewrite emitByte_eq, El. reflexivity.
  - rewrite parser_only_commute by apply parser_only_consume.
    reflexivity.
Qed.

(** When the token to take, if it is there, is on the line of the token
    before it, that is the line that [emitByte] records. *)
Lemma emitByte_before_same_line t b s :
  (type (current (parser s)) = t ->
   line (current (parser s)) = line (previous (parser s))) ->
  emitByte_before t b s = emitByte b s.
Proof.
  intros Hline. rewrite emitByte_eq.
  assert (line_after_consume t (parser s) = line (previous (parser s))) as <-.
  { unfold line_after_consume.
    destruct (bool_decide (type (current (parser s)) = t)) eqn:Et; [|reflexivity].
    apply bool_decide_eq_true in Et. apply Hline, Et. }
  reflexivity.
Qed.

Lemma liftVM_function_of_state a f s s' :
  liftVM (function_of a) s = Some (f, s') -> s' = s.
Proof.
  unfold liftVM. destruct (function_of a (vm s)) as [[f' v]|] eqn:E;
    [|discriminate].
  intros [= <- <-]. apply function_of_inv in E as [-> _].
  destruct s; reflexivity.
Qed.

Lemma currentChunk_state c s s' :
  currentChunk s = Some (c, s') -> s' = s.
Proof.
  unfold currentChunk, cur_function, cur. intros H. inv_vm.
  match goal with H : liftVM _ _ = _ |- _ =>
    apply liftVM_function_of_state in H end.
  assumption.
Qed.

Lemma consume_present t message s :
  type (current (parser s)) = t -> consume t message s = advance s.
Proof.
  intros H. unfold consume, check, get_parser. unfold bind, get, ret.
  rewrite bool_decide_eq_true_2 by exact H. reflexivity.
Qed.

(** The operator [!] compiles its operand and then emits [OP_NOT]. *)
Lemma consume_present_bind {A} t message (K : C A) s :
  type (current (parser s)) = t ->
  (consume t message ;; K) s = (advance ;; K) s.
Proof. intros H. unfold bind. rewrite (consume_present _ _ _ H). reflexivity. Qed.

Lemma unary_bang parsePrecedence canAssign s :
  type (previous (parser s)) = TOKEN_BANG ->
  unary parsePrecedence canAssign s
  = (parsePrecedence PREC_UNARY ;; emitByte OP_NOT) s.
Proof.
  intros H. unfold unary, get_parser. unfold bind, get, ret.
  rewrite H. reflexivity.
Qed.

End CompilerFacts.

(** [OP_NOT] replaces the value on top of the stack by its negation. *)
Lemma OP_NOT_inverts vm v t :
  stackTop vm = S t -> stack vm !! t = Some v ->
  exists vm',
    exec OP_NOT vm = Some (None, vm') /\
    stackTop vm' = S t /\
    stack vm' !! t = Some (BOOL_VAL (isFalsey v)) /\
    heap vm' = heap vm.
Proof.
  intros Htop Hv.
  assert (t < length (stack vm)) as Hlen by (eapply lookup_lt_Some; eauto).
  unfold exec.
  vm_step ltac:(eapply pop_Some; eassumption).
  vm_step ltac:(apply push_Some; cbn [stackTop stack set_stackTop]; lia).
  eexists. split; [reflexivity|].
  cbn [stackTop stack heap set_stackTop set_stack].
  split; [reflexivity|]. split; [|reflexivity].
  rewrite push_stack by lia. rewrite decide_True by reflexivity. reflexivity.
Qed.

(** C8: [until (c) s] compiles as [while] does with the condition
    inverted.  With the opening parenthesis present, [untilStatement] is
    [whileStatement] with a condition that emits one [OP_NOT] right after
    the code of [c]: the two leave the same compiler state, hence the same
    bytes and constants.  The line recorded for that [OP_NOT] is the line
    of the closing parenthesis, which is the line [emitByte] records when
    the parenthesis is on the line on which the condition ends.  That
    [OP_NOT] is what the prefix [!] emits after its operand, so the
    condition is the code of [c] followed by the negation of [!c]: at run
    time it replaces the value of [c] by [isFalsey] of it. *)
Theorem until_is_while_not (parsePrecedence : nat -> Compiler.C unit)
    (statement : Compiler.C unit) (s : Compiler.State) :
  Compiler.type (Compiler.current (Compiler.parser s))
    = Compiler.TOKEN_LEFT_PAREN ->
  Compiler.untilStatement parsePrecedence statement s
  = Compiler.whileStatement
      (fun p => parsePrecedence p ;;
                emitByte_before Compiler.TOKEN_RIGHT_PAREN (opcode_byte OP_NOT))
      statement s
  /\
  (forall s1,
     (Compiler.type (Compiler.current (Compiler.parser s1))
        = Compiler.TOKEN_RIGHT_PAREN ->
      Compiler.line (Compiler.current (Compiler.parser s1))
        = Compiler.line (Compiler.previous (Compiler.parser s1))) ->
     emitByte_before Compiler.TOKEN_RIGHT_PAREN (opcode_byte OP_NOT) s1
     = Compiler.emitByte (opcode_byte OP_NOT) s1)
  /\
  (forall canAssign s0,
     Compiler.type (Compiler.previous (Compiler.parser s0))
       = Compiler.TOKEN_BANG ->
     Compiler.unary parsePrecedence canAssign s0
     = (parsePrecedence Compiler.PREC_UNARY ;;
        Compiler.emitByte (opcode_byte OP_NOT)) s0)
  /\
  (forall vm v t,
     stackTop vm = S t -> stack vm !! t = Some v ->
     exists vm',
       exec OP_NOT vm = Some (None, vm') /\
       stackTop vm' = S t /\
       stack vm' !! t = Some (BOOL_VAL (isFalsey v)) /\
       heap vm' = heap vm).
Proof.
  intros Hparen.
  split; [|split; [|split];
    [intros; apply CompilerFacts.emitByte_before_same_line; assumption
    |intros; apply CompilerFacts.unary_bang; assumption
    |intros; eapply OP_NOT_inverts; eassumption]].
  unfold Compiler.untilStatement, Compiler.whileStatement, Compiler.expression.
  apply CompilerFacts.bind_ext_state. intros c s0 Hc.
  apply CompilerFacts.currentChunk_state in Hc. subst s0.
  rewrite !(CompilerFacts.consume_present_bind _ _ _ s Hparen).
  apply CompilerFacts.bind_ext_state. intros [] s0 Hadv.
  rewrite CompilerFacts.bind_assoc.
  apply CompilerFacts.bind_ext_state. intros [] s1 Hpp.
  apply CompilerFacts.consume_emitByte_commute.
Qed.

Lemma until_is_while_not_witness :
  exists s',
    Compiler.untilStatement
      (Compiler.parsePrecedence strtod_decimal 5)
      (Compiler.statement strtod_decimal 5) loop_example = Some (tt, s') /\
    Compiler.whileStatement
      (fun p => Compiler.parsePrecedence strtod_decimal 5 p ;;
                emitByte_before Compiler.TOKEN_RIGHT_PAREN (opcode_byte OP_NOT))
      (Compiler.statement strtod_decimal 5) loop_example = Some (tt, s').
Proof.
  destruct (until_is_while_not
              (Compiler.parsePrecedence strtod_decimal 5)
              (Compiler.statement strtod_decimal 5) loop_example) as [E _].
  - vm_compute. reflexivity.
  - rewrite <- E. eexists. split; vm_compute; reflexivity.
Defined.

(** * Further properties of the virtual machine *)

(** ** The array natives on an array *)

(** The loop of [arrayPrepend] moves every element one slot up. *)
Lemma shift_right_app (p : list Value) : forall y s,
  shift_right (length p) (p ++ y :: s) = hd y p :: p ++ s.
Proof.
  induction p as [|z p IH] using rev_ind; intros y s; [reflexivity|].
  rewrite length_app. cbn [length]. rewrite Nat.add_1_r. cbn [shift_right].
  rewrite <- app_assoc. cbn [app].
  rewrite (list_lookup_middle p (y :: s) z (length p) eq_refl). cbn [default].
  replace (<[S (length p) := z]> (p ++ z :: y :: s)) with (p ++ z :: z :: s).
  - rewrite IH. rewrite <- (app_assoc p [z] s). destruct p; reflexivity.
  - change (p ++ z :: y :: s) with (p ++ [z] ++ y :: s).
    change (p ++ z :: z :: s) with (p ++ [z] ++ z :: s).
    rewrite !app_assoc.
    replace (S (length p)) with (length (p ++ [z]) + 0)
      by (rewrite length_app; simpl; lia).
    rewrite insert_app_r. reflexivity.
Qed.

(** The loop of [arrayHead] moves every element but the first one slot
    down; the last slot keeps its value. *)
Lemma shift_left_app (l : list Value) : forall p x,
  shift_left (length l) (length p) (p ++ x :: l)
  = p ++ l ++ [default x (last l)].
Proof.
  induction l as [|y l IH]; intros p x; [reflexivity|].
  cbn [length shift_left].
  replace ((p ++ x :: y :: l) !! S (length p)) with (Some y).
  2: { change (p ++ x :: y :: l) with (p ++ [x] ++ y :: l).
       rewrite app_assoc.
       rewrite (list_lookup_middle (p ++ [x]) l y); [reflexivity|].
       rewrite length_app. simpl. lia. }
  cbn [default].
  replace (<[length p := y]> (p ++ x :: y :: l)) with ((p ++ [y]) ++ y :: l).
  - replace (S (length p)) with (length (p ++ [y]))
      by (rewrite length_app; simpl; lia).
    rewrite IH. rewrite <- app_assoc. simpl. rewrite last_cons.
    destruct (last l); reflexivity.
  - rewrite <- app_assoc. simpl.
    replace (length p) with (length p + 0) at 1 by lia.
    rewrite insert_app_r. reflexivity.
Qed.

Lemma copy_from_spec (l : list Value) : forall p done array vm,
  heap vm !! array = Some (OBJ_ARRAY done) ->
  copy_from (length l) (length p) (p ++ l) array vm
  = Some (tt, set_heap (<[array := OBJ_ARRAY (done ++ l)]> (heap vm)) vm).
Proof.
  induction l as [|x l IH]; intros p done array vm Hheap.
  - simpl. rewrite app_nil_r. unfold ret. f_equal. f_equal.
    rewrite insert_id by exact Hheap. destruct vm; reflexivity.
  - cbn [length copy_from].
    vm_step ltac:(rewrite (list_lookup_middle p l x (length p) eq_refl); reflexivity).
    vm_step ltac:(apply writeArray_Some; exact Hheap).
    replace (p ++ x :: l) with ((p ++ [x]) ++ l) by (rewrite <- app_assoc; reflexivity).
    replace (S (length p)) with (length (p ++ [x]))
      by (rewrite length_app; simpl; lia).
    rewrite (IH _ (done ++ [x])) by (cbn [heap set_heap]; apply lookup_insert_eq).
    cbn [heap set_heap]. rewrite insert_insert_eq, <- app_assoc. reflexivity.
Qed.

(** The argument check of the natives that take an array. *)
Lemma array_argument_ok n args array es vm :
  stack vm !! args = Some (OBJ_VAL array) ->
  heap vm !! array = Some (OBJ_ARRAY es) ->
  (if negb (n =? n) then ret true
   else do a0 <- read_slot args;
        do b <- test IS_ARRAY a0; ret (negb b)) vm = Some (false, vm).
Proof.
  intros Harg Hheap. rewrite Nat.eqb_refl. cbn [negb].
  vm_step ltac:(apply read_slot_Some; exact Harg).
  vm_step ltac:(apply test_Some).
  rewrite (IS_ARRAY_true _ _ _ Hheap). reflexivity.
Qed.

Lemma arrayAppend_run vm args array es value :
  stack vm !! args = Some (OBJ_VAL array) ->
  stack vm !! (args + 1) = Some value ->
  heap vm !! array = Some (OBJ_ARRAY es) ->
  native arrayAppend 2 args vm
  = Some (NIL_VAL, set_heap (<[array := OBJ_ARRAY (es ++ [value])]> (heap vm)) vm).
Proof.
  intros Harg Hval Hheap. unfold native.
  vm_step ltac:(eapply (array_argument_ok 2); eassumption).
  cbv beta iota.
  vm_step ltac:(apply read_slot_Some; exact Harg).
  vm_step ltac:(eapply AS_ARRAY_Some; exact Hheap).
  vm_step ltac:(apply read_slot_Some; exact Hval).
  vm_step ltac:(apply writeArray_Some; exact Hheap).
  reflexivity.
Qed.

Lemma arrayPrepend_run vm args array es value :
  stack vm !! args = Some (OBJ_VAL array) ->
  stack vm !! (args + 1) = Some value ->
  heap vm !! array = Some (OBJ_ARRAY es) ->
  native arrayPrepend 2 args vm
  = Some (NIL_VAL, set_heap (<[array := OBJ_ARRAY (value :: es)]> (heap vm)) vm).
Proof.
  intros Harg Hval Hheap. unfold native.
  vm_step ltac:(eapply (array_argument_ok 2); eassumption).
  cbv beta iota.
  vm_step ltac:(apply read_slot_Some; exact Harg).
  vm_step ltac:(eapply AS_ARRAY_Some; exact Hheap).
  vm_step ltac:(apply read_slot_Some; exact Hval).
  vm_step ltac:(apply writeArray_Some; exact Hheap).
  vm_step ltac:(eapply array_elements_Some; cbn [heap set_heap];
                apply lookup_insert_eq).
  vm_step ltac:(eapply set_array_elements_Some; cbn [heap set_heap];
                apply lookup_insert_eq).
  cbn [heap set_heap]. unfold ret. rewrite insert_insert_eq.
  rewrite length_app. cbn [length]. rewrite Nat.add_sub.
  rewrite shift_right_app, app_nil_r. reflexivity.
Qed.

Lemma arrayHead_run vm args array value es :
  stack vm !! args = Some (OBJ_VAL array) ->
  heap vm !! array = Some (OBJ_ARRAY (value :: es)) ->
  native arrayHead 1 args vm
  = Some (value, set_heap (<[array := OBJ_ARRAY es]> (heap vm)) vm).
Proof.
  intros Harg Hheap. unfold native.
  vm_step ltac:(eapply (array_argument_ok 1); eassumption).
  cbv beta iota.
  vm_step ltac:(apply read_slot_Some; exact Harg).
  vm_step ltac:(eapply AS_ARRAY_Some; exact Hheap).
  vm_step ltac:(eapply array_elements_Some; exact Hheap).
  cbn [length Nat.eqb].
  vm_step ltac:(reflexivity).
  vm_step ltac:(eapply set_array_elements_Some; exact Hheap).
  unfold ret. rewrite Nat.sub_succ, Nat.sub_0_r.
  pose proof (shift_left_app es [] value) as E. cbn [app length] in E.
  rewrite E, take_app_length. reflexivity.
Qed.

Lemma arrayTail_run vm args array value es :
  stack vm !! args = Some (OBJ_VAL array) ->
  heap vm !! array = Some (OBJ_ARRAY (es ++ [value])) ->
  native arrayTail 1 args vm
  = Some (value, set_heap (<[array := OBJ_ARRAY es]> (heap vm)) vm).
Proof.
  intros Harg Hheap. unfold native.
  vm_step ltac:(eapply (array_argument_ok 1); eassumption).
  cbv beta iota.
  vm_step ltac:(apply read_slot_Some; exact Harg).
  vm_step ltac:(eapply AS_ARRAY_Some; exact Hheap).
  vm_step ltac:(eapply array_elements_Some; exact Hheap).
  rewrite length_app. cbn [length]. rewrite Nat.add_1_r. cbn [Nat.eqb].
  rewrite Nat.sub_succ, Nat.sub_0_r.
  vm_step ltac:(rewrite (list_lookup_middle es [] value (length es) eq_refl);
                reflexivity).
  vm_step ltac:(eapply set_array_elements_Some; exact Hheap).
  unfold ret. rewrite take_app_length. reflexivity.
Qed.

(** X1: append(a, v) adds [v] after the last element of the array and
    prepend(a, v) puts it before the first; both return nil, report
    nothing and leave every other object as it is. *)
Theorem append_and_prepend (vm : VM) (args array : addr) (es : list Value)
    (value : Value) :
  stack vm !! args = Some (OBJ_VAL array) ->
  stack vm !! (args + 1) = Some value ->
  heap vm !! array = Some (OBJ_ARRAY es) ->
  native arrayAppend 2 args vm
  = Some (NIL_VAL, set_heap (<[array := OBJ_ARRAY (es ++ [value])]> (heap vm)) vm)
  /\
  native arrayPrepend 2 args vm
  = Some (NIL_VAL, set_heap (<[array := OBJ_ARRAY (value :: es)]> (heap vm)) vm).
Proof.
  intros Harg Hval Hheap. split.
  - apply arrayAppend_run; assumption.
  - apply arrayPrepend_run; assumption.
Qed.

(** X2: on an array that is not empty, head(a) returns the first element
    and removes it, the others moving down in order, and tail(a) returns
    the last element and removes it. *)
Theorem head_and_tail (vm : VM) (args array : addr) :
  stack vm !! args = Some (OBJ_VAL array) ->
  (forall value es,
     heap vm !! array = Some (OBJ_ARRAY (value :: es)) ->
     native arrayHead 1 args vm
     = Some (value, set_heap (<[array := OBJ_ARRAY es]> (heap vm)) vm)) /\
  (forall value es,
     heap vm !! array = Some (OBJ_ARRAY (es ++ [value])) ->
     native arrayTail 1 args vm
     = Some (value, set_heap (<[array := OBJ_ARRAY es]> (heap vm)) vm)).
Proof.
  intros Harg. split; intros value es Hheap.
  - apply arrayHead_run; assumption.
  - apply arrayTail_run; assumption.
Qed.

(** X3: on an array that is not empty, rest(a) returns a new array that
    holds the elements after the first, in order; the argument keeps all
    its elements. *)
Theorem rest_copies (vm : VM) (args array : addr) (value : Value)
    (es : list Value) :
  stack vm !! args = Some (OBJ_VAL array) ->
  heap vm !! array = Some (OBJ_ARRAY (value :: es)) ->
  let anewArray := fresh (dom (heap vm)) in
  native arrayRest 1 args vm
  = Some (OBJ_VAL anewArray,
          set_heap (<[anewArray := OBJ_ARRAY es]> (heap vm)) vm) /\
  anewArray <> array /\
  <[anewArray := OBJ_ARRAY es]> (heap vm) !! array
  = Some (OBJ_ARRAY (value :: es)).
Proof.
  intros Harg Hheap anewArray.
  assert (anewArray <> array) as Hne.
  { intros E. unfold anewArray in E. rewrite <- E in Hheap.
    rewrite fresh_lookup_None in Hheap. discriminate. }
  split; [|split; [exact Hne|rewrite lookup_insert_ne by exact Hne; exact Hheap]].
  unfold native.
  vm_step ltac:(eapply (array_argument_ok 1); eassumption).
  cbv beta iota.
  vm_step ltac:(apply read_slot_Some; exact Harg).
  vm_step ltac:(eapply AS_ARRAY_Some; exact Hheap).
  vm_step ltac:(eapply array_elements_Some; exact Hheap).
  cbn [length Nat.eqb]. unfold newArray.
  vm_step ltac:(apply allocateObject_Some). fold anewArray.
  rewrite Nat.sub_succ, Nat.sub_0_r.
  vm_step ltac:(apply (copy_from_spec es [value] []); cbn [heap set_heap];
                apply lookup_insert_eq).
  cbn [heap set_heap app]. rewrite insert_insert_eq. reflexivity.
Qed.

(** X4: head after prepend, and tail after append, give the value back
    and leave the array with the elements it had. *)
Theorem prepend_head_append_tail (vm : VM) (args array : addr)
    (es : list Value) (value : Value) :
  stack vm !! args = Some (OBJ_VAL array) ->
  stack vm !! (args + 1) = Some value ->
  heap vm !! array = Some (OBJ_ARRAY es) ->
  (native arrayPrepend 2 args ;; native arrayHead 1 args) vm = Some (value, vm) /\
  (native arrayAppend 2 args ;; native arrayTail 1 args) vm = Some (value, vm).
Proof.
  intros Harg Hval Hheap.
  assert (set_heap (<[array := OBJ_ARRAY es]> (heap vm)) vm = vm) as Hid.
  { rewrite insert_id by exact Hheap. destruct vm; reflexivity. }
  split.
  - vm_step ltac:(apply arrayPrepend_run; eassumption).
    rewrite (arrayHead_run _ args array value es);
      [|exact Harg|cbn [heap set_heap]; apply lookup_insert_eq].
    cbn [heap set_heap]. rewrite insert_insert_eq. f_equal. f_equal.
    transitivity (set_heap (<[array := OBJ_ARRAY es]> (heap vm)) vm);
      [reflexivity|exact Hid].
  - vm_step ltac:(apply arrayAppend_run; eassumption).
    rewrite (arrayTail_run _ args array value es);
      [|exact Harg|cbn [heap set_heap]; apply lookup_insert_eq].
    cbn [heap set_heap]. rewrite insert_insert_eq. f_equal. f_equal.
    transitivity (set_heap (<[array := OBJ_ARRAY es]> (heap vm)) vm);
      [reflexivity|exact Hid].
Qed.

Lemma IS_ARRAY_string h a chars :
  h !! a = Some (OBJ_STRING chars) -> IS_ARRAY h (OBJ_VAL a) = false.
Proof.
  intros H. unfold IS_ARRAY, isObjType, OBJ_TYPE. rewrite H. reflexivity.
Qed.

Lemma IS_STRING_array h a es :
  h !! a = Some (OBJ_ARRAY es) -> IS_STRING h (OBJ_VAL a) = false.
Proof.
  intros H. unfold IS_STRING, isObjType, OBJ_TYPE. rewrite H. reflexivity.
Qed.

Lemma string_chars_Some a chars vm :
  heap vm !! a = Some (OBJ_STRING chars) -> string_chars a vm = Some (chars, vm).
Proof.
  intros H. unfold string_chars.
  vm_step ltac:(apply deref_Some; exact H). reflexivity.
Qed.

(** X5: length(x) is the number of characters of a string and the number
    of elements of an array; on any other value, and when not called with
    one argument, it prints its message, resets the stack and returns
    nil. *)
Theorem length_of_string_and_array (vm : VM) (args : nat) :
  (forall a chars,
     stack vm !! args = Some (OBJ_VAL a) ->
     heap vm !! a = Some (OBJ_STRING chars) ->
     native lengthNative 1 args vm
     = Some (NUMBER_VAL (int_to_double (Z.of_nat (String.length chars))), vm)) /\
  (forall a es,
     stack vm !! args = Some (OBJ_VAL a) ->
     heap vm !! a = Some (OBJ_ARRAY es) ->
     native lengthNative 1 args vm
     = Some (NUMBER_VAL (int_to_double (Z.of_nat (length es))), vm)) /\
  (forall v,
     stack vm !! args = Some v ->
     IS_STRING (heap vm) v = false -> IS_ARRAY (heap vm) v = false ->
     native lengthNative 1 args vm
     = Some (NIL_VAL,
             after_runtimeError
               "SKILL ISSUE: Argument to length() must be a string or an array." vm)) /\
  (forall n,
     n <> 1 ->
     native lengthNative n args vm
     = Some (NIL_VAL,
             after_runtimeError "SKILL ISSUE: length() takes exactly 1 argument." vm)).
Proof.
  split; [|split; [|split]].
  - intros a chars Harg Hheap. unfold native. cbn [Nat.eqb negb].
    vm_step ltac:(apply read_slot_Some; exact Harg).
    vm_step ltac:(apply test_Some).
    rewrite (IS_STRING_true _ _ _ Hheap).
    vm_step ltac:(eapply AS_STRING_Some; exact Hheap).
    vm_step ltac:(eapply string_chars_Some; exact Hheap).
    reflexivity.
  - intros a es Harg Hheap. unfold native. cbn [Nat.eqb negb].
    vm_step ltac:(apply read_slot_Some; exact Harg).
    vm_step ltac:(apply test_Some).
    rewrite (IS_STRING_array _ _ _ Hheap).
    vm_step ltac:(apply test_Some).
    rewrite (IS_ARRAY_true _ _ _ Hheap).
    vm_step ltac:(eapply AS_ARRAY_Some; exact Hheap).
    vm_step ltac:(eapply array_elements_Some; exact Hheap).
    reflexivity.
  - intros v Harg Hs Ha. unfold native. cbn [Nat.eqb negb].
    vm_step ltac:(apply read_slot_Some; exact Harg).
    vm_step ltac:(apply test_Some). rewrite Hs.
    vm_step ltac:(apply test_Some). rewrite Ha.
    vm_step ltac:(apply runtimeError_Some). reflexivity.
  - intros n Hn. unfold native.
    apply Nat.eqb_neq in Hn. rewrite Hn. cbn [negb].
    vm_step ltac:(apply runtimeError_Some). reflexivity.
Qed.

Lemma length_of_string_and_array_witness :
  native lengthNative 1 1 string_example
  = Some (NUMBER_VAL (int_to_double 3), string_example) /\
  native lengthNative 1 1 three_array_example
  = Some (NUMBER_VAL (int_to_double 3), three_array_example).
Proof.
  split.
  - apply (proj1 (length_of_string_and_array string_example 1) 2 "abc"%string);
      vm_compute; reflexivity.
  - apply (proj1 (proj2 (length_of_string_and_array three_array_example 1)) 2
             [NUMBER_VAL one; NUMBER_VAL two; BOOL_VAL true]);
      vm_compute; reflexivity.
Defined.

(** X6: remove(d, k) on a dictionary and a string takes the key out of
    the dictionary and keeps the other entries; a key that is not there
    changes nothing.  It returns nil. *)
Theorem remove_deletes_key (vm : VM) (args dict key : addr) (items : Table)
    (chars : string) :
  stack vm !! args = Some (OBJ_VAL dict) ->
  stack vm !! (args + 1) = Some (OBJ_VAL key) ->
  heap vm !! dict = Some (OBJ_DICT items) ->
  heap vm !! key = Some (OBJ_STRING chars) ->
  exists items',
    native dictRemove 2 args vm
    = Some (NIL_VAL, set_heap (<[dict := OBJ_DICT items']> (heap vm)) vm) /\
    tableGet items' key = None /\
    (forall k, k <> key -> tableGet items' k = tableGet items k) /\
    (tableGet items key = None -> items' = items).
Proof.
  intros Hd Hk Hdict Hkey. exists (tableDelete items key).
  split; [|split; [|split]].
  - unfold native. cbn [Nat.eqb negb].
    assert (IS_DICT (heap vm) (OBJ_VAL dict) = true) as Hisd
      by (unfold IS_DICT, isObjType, OBJ_TYPE; rewrite Hdict; reflexivity).
    vm_step ltac:(
      vm_step ltac:(apply read_slot_Some; exact Hd);
      vm_step ltac:(apply test_Some); rewrite Hisd; cbn [negb];
      vm_step ltac:(apply read_slot_Some; exact Hk);
      vm_step ltac:(apply test_Some);
      rewrite (IS_STRING_true _ _ _ Hkey); reflexivity).
    cbn [negb].
    vm_step ltac:(apply read_slot_Some; exact Hd).
    vm_step ltac:(unfold AS_DICT, AS_OBJ; vm_step ltac:(reflexivity);
                  vm_step ltac:(apply deref_Some; exact Hdict); reflexivity).
    vm_step ltac:(apply read_slot_Some; exact Hk).
    vm_step ltac:(eapply AS_STRING_Some; exact Hkey).
    vm_step ltac:(unfold dict_items; vm_step ltac:(apply deref_Some; exact Hdict);
                  reflexivity).
    vm_step ltac:(unfold set_dict_items;
                  vm_step ltac:(apply deref_Some; exact Hdict); reflexivity).
    reflexivity.
  - unfold tableGet, tableDelete. apply lookup_delete_eq.
  - intros k Hne. unfold tableGet, tableDelete.
    apply lookup_delete_ne. congruence.
  - unfold tableGet, tableDelete. intros Hnone. apply delete_id. exact Hnone.
Qed.

Lemma remove_deletes_key_witness :
  exists items',
    native dictRemove 2 1 dict_remove_example
    = Some (NIL_VAL,
            set_heap (<[2 := OBJ_DICT items']> (heap dict_remove_example))
                     dict_remove_example) /\
    tableGet items' 3 = None.
Proof.
  destruct (remove_deletes_key dict_remove_example 1 2 3
              (<[3 := NUMBER_VAL one]> ∅) "x")
    as (items' & Hrun & Hnone & _).
  - vm_compute. reflexivity.
  - vm_compute. reflexivity.
  - vm_compute. reflexivity.
  - vm_compute. reflexivity.
  - exists items'. split; [exact Hrun|exact Hnone].
Defined.

(** X7: a native that takes an array, called with another number of
    arguments or with a first argument that is not an array, prints its
    usage message, resets the stack and returns nil; no object changes. *)
Theorem array_natives_check_arguments (fn : NativeFn) (arity : nat) (vm : VM)
    (n args : nat) :
  array_native_arity fn = Some arity ->
  (n <> arity ->
   native fn n args vm
   = Some (NIL_VAL, after_runtimeError (array_native_usage fn) vm)) /\
  (forall v,
     stack vm !! args = Some v -> IS_ARRAY (heap vm) v = false ->
     native fn arity args vm
     = Some (NIL_VAL, after_runtimeError (array_native_usage fn) vm)) /\
  heap (after_runtimeError (array_native_usage fn) vm) = heap vm /\
  stackTop (after_runtimeError (array_native_usage fn) vm) = 0.
Proof.
  intros Hfn. split; [|split; [|split; reflexivity]].
  - intros Hn.
    destruct fn; try discriminate; injection Hfn as <-;
      apply Nat.eqb_neq in Hn; unfold native; rewrite Hn; cbn [negb];
      vm_step ltac:(reflexivity); cbv beta iota;
      vm_step ltac:(apply runtimeError_Some); reflexivity.
  - intros v Harg Hnot.
    destruct fn; try discriminate; injection Hfn as <-;
      unfold native; rewrite ?Nat.eqb_refl; cbn [Nat.eqb negb];
      (vm_step ltac:(vm_step ltac:(apply read_slot_Some; exact Harg);
                     vm_step ltac:(apply test_Some); rewrite Hnot; reflexivity));
      cbn [negb];
      vm_step ltac:(apply runtimeError_Some); reflexivity.
Qed.

Lemma array_natives_check_arguments_witness :
  native arrayHead 1 1 string_example
  = Some (NIL_VAL,
          after_runtimeError
            "SKILL ISSUE: head() takes exactly 1 argument: array." string_example).
Proof.
  destruct (array_natives_check_arguments arrayHead 1 string_example 1 1 eq_refl)
    as (_ & H & _).
  apply (H (OBJ_VAL 2)); vm_compute; reflexivity.
Defined.

Lemma append_and_prepend_witness :
  native arrayAppend 2 1 three_array_example
  = Some (NIL_VAL,
          set_heap (<[2 := OBJ_ARRAY [NUMBER_VAL one; NUMBER_VAL two;
                                      BOOL_VAL true; NIL_VAL]]>
                      (heap three_array_example)) three_array_example) /\
  native arrayPrepend 2 1 three_array_example
  = Some (NIL_VAL,
          set_heap (<[2 := OBJ_ARRAY [NIL_VAL; NUMBER_VAL one; NUMBER_VAL two;
                                      BOOL_VAL true]]>
                      (heap three_array_example)) three_array_example).
Proof.
  apply (append_and_prepend three_array_example 1 2
           [NUMBER_VAL one; NUMBER_VAL two; BOOL_VAL true] NIL_VAL);
    vm_compute; reflexivity.
Defined.

Lemma head_and_tail_witness :
  native arrayHead 1 1 three_array_example
  = Some (NUMBER_VAL one,
          set_heap (<[2 := OBJ_ARRAY [NUMBER_VAL two; BOOL_VAL true]]>
                      (heap three_array_example)) three_array_example) /\
  native arrayTail 1 1 three_array_example
  = Some (BOOL_VAL true,
          set_heap (<[2 := OBJ_ARRAY [NUMBER_VAL one; NUMBER_VAL two]]>
                      (heap three_array_example)) three_array_example).
Proof.
  destruct (head_and_tail three_array_example 1 2) as [Hh Ht];
    [vm_compute; reflexivity|].
  split.
  - apply (Hh (NUMBER_VAL one) [NUMBER_VAL two; BOOL_VAL true]).
    vm_compute. reflexivity.
  - apply (Ht (BOOL_VAL true) [NUMBER_VAL one; NUMBER_VAL two]).
    vm_compute. reflexivity.
Defined.

Lemma rest_copies_witness :
  native arrayRest 1 1 three_array_example
  = Some (OBJ_VAL 3,
          set_heap (<[3 := OBJ_ARRAY [NUMBER_VAL two; BOOL_VAL true]]>
                      (heap three_array_example)) three_array_example).
Proof.
  destruct (rest_copies three_array_example 1 2 (NUMBER_VAL one)
              [NUMBER_VAL two; BOOL_VAL true]) as (H & _).
  - vm_compute. reflexivity.
  - vm_compute. reflexivity.
  - exact H.
Defined.

Lemma prepend_head_append_tail_witness :
  (native arrayPrepend 2 1 ;; native arrayHead 1 1) three_array_example
  = Some (NIL_VAL, three_array_example) /\
  (native arrayAppend 2 1 ;; native arrayTail 1 1) three_array_example
  = Some (NIL_VAL, three_array_example).
Proof.
  apply (prepend_head_append_tail three_array_example 1 2
           [NUMBER_VAL one; NUMBER_VAL two; BOOL_VAL true] NIL_VAL);
    vm_compute; reflexivity.
Defined.

(** ** What every instruction keeps *)

Section Keeps.

(** A property of the heap and of the table of strings that survives the
    creation of an object that is not a string, a write that replaces an
    object of a mutable kind by one of the same kind, and the interning of
    a new string. *)
Variable I : VM -> Prop.

Hypothesis I_frame : forall vm vm',
  heap vm' = heap vm -> strings vm' = strings vm -> I vm -> I vm'.

Hypothesis I_alloc : forall vm o,
  obj_type o <> T_STRING -> I vm ->
  I (set_heap (<[fresh (dom (heap vm)) := o]> (heap vm)) vm).

Hypothesis I_store : forall vm a o o',
  heap vm !! a = Some o -> obj_type o' = obj_type o ->
  mutable_type (obj_type o) = true -> I vm ->
  I (set_heap (<[a := o']> (heap vm)) vm).

Hypothesis I_intern : forall vm chars,
  strings vm !! chars = None -> I vm ->
  I (set_strings (<[chars := fresh (dom (heap vm))]> (strings vm))
       (set_heap (<[fresh (dom (heap vm)) := OBJ_STRING chars]> (heap vm)) vm)).

Local Set Default Proof Using "I_frame I_alloc I_store I_intern".

Lemma keeps_bind {A B} (m : M A) (k : A -> M B) :
  keeps I m -> (forall a, keeps I (k a)) -> keeps I (bind m k).
Proof.
  intros Hm Hk vm r vm' Hinv H. apply bind_inv in H as (a & vm1 & H1 & H2).
  eapply Hk; [|exact H2]. eapply Hm; [exact Hinv|exact H1].
Qed.

Lemma keeps_ret {A} (a : A) : keeps I (ret a).
Proof. intros vm r vm' Hinv H. apply ret_inv in H. injection H as _ <-. exact Hinv. Qed.

Lemma keeps_undef {A} : keeps I (undef : M A).
Proof. intros vm r vm' _ H. discriminate. Qed.

Lemma keeps_of_option {A} (o : option A) : keeps I (of_option o).
Proof. destruct o; [apply keeps_ret|apply keeps_undef]. Qed.

Lemma keeps_get_vm : keeps I get_vm.
Proof. intros vm r vm' Hinv H. injection H as _ <-. exact Hinv. Qed.

Lemma keeps_frame {A} (m : M A) :
  (forall vm r vm', m vm = Some (r, vm') ->
     heap vm' = heap vm /\ strings vm' = strings vm) ->
  keeps I m.
Proof.
  intros Hm vm r vm' Hinv H. destruct (Hm _ _ _ H) as [Hh Hs].
  eapply I_frame; eassumption.
Qed.

Lemma keeps_modify_vm (f : VM -> VM) :
  (forall vm, heap (f vm) = heap vm /\ strings (f vm) = strings vm) ->
  keeps I (modify_vm f).
Proof.
  intros Hf. apply keeps_frame. intros vm r vm' H.
  injection H as _ <-. apply Hf.
Qed.

Ltac keeps_raw f :=
  apply keeps_frame; intros vm r vm' H; unfold f in H;
  repeat case_match; simplify_eq; split; reflexivity.

Lemma keeps_push v : keeps I (push v).
Proof. keeps_raw push. Qed.

Lemma keeps_pop : keeps I pop.
Proof. keeps_raw pop. Qed.

Lemma keeps_peek d : keeps I (peek d).
Proof. keeps_raw peek. Qed.

Lemma keeps_poke d v : keeps I (poke d v).
Proof. keeps_raw poke. Qed.

Lemma keeps_read_slot i : keeps I (read_slot i).
Proof. keeps_raw read_slot. Qed.

Lemma keeps_write_slot i v : keeps I (write_slot i v).
Proof. keeps_raw write_slot. Qed.

Lemma keeps_test p v : keeps I (test p v).
Proof. keeps_raw test. Qed.

Lemma keeps_host_number : keeps I host_number.
Proof. keeps_raw host_number. Qed.

Lemma keeps_deref a : keeps I (deref a).
Proof. keeps_raw deref. Qed.

Lemma keeps_allocateObject o :
  obj_type o <> T_STRING -> keeps I (allocateObject o).
Proof.
  intros Ho vm r vm' Hinv H. unfold allocateObject in H. simplify_eq.
  apply I_alloc; assumption.
Qed.

Lemma keeps_copyString chars : keeps I (copyString chars).
Proof.
  intros vm r vm' Hinv H. unfold copyString in H.
  erewrite bind_Some in H by reflexivity.
  destruct (strings vm !! chars) as [a|] eqn:E.
  - apply ret_inv in H. injection H as _ <-. exact Hinv.
  - erewrite bind_Some in H by apply allocateObject_Some.
    erewrite bind_Some in H by reflexivity.
    apply ret_inv in H. injection H as _ E2. subst vm'.
    exact (I_intern vm chars E Hinv).
Qed.

(** A write that follows the read of the object it replaces. *)
Lemma keeps_store vm a o o' r vm' :
  heap vm !! a = Some o -> obj_type o' = obj_type o ->
  mutable_type (obj_type o) = true ->
  I vm -> store a o' vm = Some (r, vm') -> I vm'.
Proof.
  intros Ha Ht Hm Hinv H. unfold store, modify_vm, modify in H. simplify_eq.
  eapply I_store; eassumption.
Qed.

Ltac keeps_store_raw f :=
  let H := fresh "H" in
  let Hinv := fresh "Hinv" in
  let Hd := fresh "Hd" in
  let Hlook := fresh "Hlook" in
  intros vm r vm' Hinv H; unfold f in H;
  apply bind_inv in H as (o & vm1 & Hd & H);
  apply deref_inv in Hd as [-> Hlook]; destruct o; try discriminate;
  eapply keeps_store; [exact Hlook| | |exact Hinv|exact H]; reflexivity.

Lemma keeps_set_class_methods a ms : keeps I (set_class_methods a ms).
Proof. keeps_store_raw set_class_methods. Qed.

Lemma keeps_set_instance_fields a fs : keeps I (set_instance_fields a fs).
Proof. keeps_store_raw set_instance_fields. Qed.

Lemma keeps_set_array_elements a es : keeps I (set_array_elements a es).
Proof. keeps_store_raw set_array_elements. Qed.

Lemma keeps_set_dict_items a t : keeps I (set_dict_items a t).
Proof. keeps_store_raw set_dict_items. Qed.

Create HintDb keeps discriminated.

Hint Resolve keeps_ret keeps_undef keeps_of_option keeps_get_vm keeps_push
  keeps_pop keeps_peek keeps_poke keeps_read_slot keeps_write_slot keeps_test
  keeps_host_number keeps_deref keeps_copyString keeps_set_class_methods
  keeps_set_instance_fields keeps_set_array_elements keeps_set_dict_items
  : keeps.

Ltac keeps_go :=
  repeat first
    [ solve [auto with keeps nocore]
    | apply keeps_bind; [|intros ?]
    | match goal with
      | |- keeps _ (match ?x with _ => _ end) => destruct x
      end
    | match goal with
      | |- keeps _ (modify_vm _) =>
          apply keeps_modify_vm; intros ?; split; reflexivity
      end
    | match goal with
      | |- keeps _ (allocateObject _) =>
          apply keeps_allocateObject; discriminate
      end
    | match goal with
      | |- keeps _ (let _ := _ in _) => cbv zeta
      end
    | match goal with
      | |- keeps _ ?m => let h := head_of m in progress unfold h
      end ].

Lemma keeps_runtimeError format : keeps I (runtimeError format).
Proof. keeps_go. Qed.

Lemma keeps_READ_BYTE : keeps I READ_BYTE.
Proof. keeps_go. Qed.

Hint Resolve keeps_runtimeError keeps_READ_BYTE : keeps.

Lemma keeps_READ_SHORT : keeps I READ_SHORT.
Proof. keeps_go. Qed.

Lemma keeps_READ_CONSTANT : keeps I READ_CONSTANT.
Proof. keeps_go. Qed.

Lemma keeps_READ_CONSTANT_LONG : keeps I READ_CONSTANT_LONG.
Proof. keeps_go. Qed.

Lemma keeps_READ_STRING : keeps I READ_STRING.
Proof. keeps_go. Qed.

Lemma keeps_fail format : keeps I (fail format).
Proof. keeps_go. Qed.

Hint Resolve keeps_READ_SHORT keeps_READ_CONSTANT keeps_READ_CONSTANT_LONG
  keeps_READ_STRING keeps_fail : keeps.

Lemma keeps_copy_from n : forall i values a, keeps I (copy_from n i values a).
Proof. induction n as [|n IH]; intros i values a; simpl; keeps_go. Qed.

Lemma keeps_array_fill_loop n :
  forall i elementCount array, keeps I (array_fill_loop n i elementCount array).
Proof. induction n as [|n IH]; intros i elementCount array; simpl; keeps_go. Qed.

Lemma keeps_pop_loop n : keeps I (pop_loop n).
Proof. induction n as [|n IH]; simpl; keeps_go. Qed.

Lemma keeps_dict_fill_loop n : forall dict, keeps I (dict_fill_loop n dict).
Proof. induction n as [|n IH]; intros dict; simpl; keeps_go. Qed.

Hint Resolve keeps_copy_from keeps_array_fill_loop keeps_pop_loop
  keeps_dict_fill_loop : keeps.

Lemma keeps_native fn argCount args : keeps I (native fn argCount args).
Proof. destruct fn; cbv beta iota delta [native]; keeps_go. Qed.

Lemma keeps_call closure argCount : keeps I (call closure argCount).
Proof. keeps_go. Qed.

Hint Resolve keeps_native keeps_call : keeps.

Lemma keeps_callValue callee argCount : keeps I (callValue callee argCount).
Proof. keeps_go. Qed.

Hint Resolve keeps_callValue : keeps.

Lemma keeps_invoke name argCount : keeps I (invoke name argCount).
Proof. keeps_go. Qed.

Lemma keeps_bindMethod klass name : keeps I (bindMethod klass name).
Proof. keeps_go. Qed.

Lemma keeps_defineMethod name : keeps I (defineMethod name).
Proof. keeps_go. Qed.

Lemma keeps_concatenate : keeps I concatenate.
Proof. keeps_go. Qed.

Lemma keeps_BINARY_OP op : keeps I (BINARY_OP op).
Proof. keeps_go. Qed.

Lemma keeps_bitwise_op ok op message : keeps I (bitwise_op ok op message).
Proof. keeps_go. Qed.

Lemma keeps_invokeFromClass klass name argCount :
  keeps I (invokeFromClass klass name argCount).
Proof. keeps_go. Qed.

Hint Resolve keeps_invoke keeps_bindMethod keeps_defineMethod
  keeps_concatenate keeps_BINARY_OP keeps_bitwise_op keeps_invokeFromClass
  : keeps.

Lemma keeps_captureUpvalue local : keeps I (captureUpvalue local).
Proof. keeps_go. Qed.

Lemma keeps_closeUpvalues_loop last l : keeps I (closeUpvalues_loop last l).
Proof.
  induction l as [|upvalue next IH]; simpl; [keeps_go|].
  intros vm r vm' Hinv H.
  apply bind_inv in H as (u & vm1 & Hu & H).
  apply upvalue_of_inv in Hu as [-> Hlook].
  destruct (location u); [|discriminate].
  destruct (decide (last <= slot)).
  - apply bind_inv in H as (v & vm1 & Hv & H).
    apply read_slot_inv in Hv as [-> _].
    apply bind_inv in H as ([] & vm1 & Hs & H).
    eapply (keeps_bind (modify_vm (set_openUpvalues next))
                       (fun _ => closeUpvalues_loop last next));
      [keeps_go|intros _; exact IH| |exact H].
    eapply keeps_store; [exact Hlook| | |exact Hinv|exact Hs]; reflexivity.
  - apply ret_inv in H. injection H as _ <-. exact Hinv.
Qed.

Lemma keeps_closeUpvalues last : keeps I (closeUpvalues last).
Proof.
  unfold closeUpvalues. apply keeps_bind; [keeps_go|].
  intros vm. apply keeps_closeUpvalues_loop.
Qed.

Hint Resolve keeps_captureUpvalue keeps_closeUpvalues : keeps.

Lemma keeps_closure_upvalues_loop n :
  forall i new_closure, keeps I (closure_upvalues_loop n i new_closure).
Proof.
  induction n as [|n IH]; intros i new_closure; simpl; [keeps_go|].
  do 4 (apply keeps_bind; [keeps_go|intros ?]).
  intros vm r vm' Hinv H.
  apply bind_inv in H as (o & vm1 & Hd & H).
  apply deref_inv in Hd as [-> Hlook].
  destruct o; try discriminate.
  destruct (decide (i < length upvalues)); [|discriminate].
  apply bind_inv in H as ([] & vm1 & Hs & H).
  eapply IH; [|exact H].
  eapply keeps_store; [exact Hlook| | |exact Hinv|exact Hs]; reflexivity.
Qed.

Hint Resolve keeps_closure_upvalues_loop : keeps.

Lemma keeps_set_upvalue a :
  keeps I (do u <- upvalue_of a;
           do v <- peek 0;
           match location u with
           | OnStack i => write_slot i v
           | InClosed => store a (OBJ_UPVALUE (mkUpvalue InClosed v))
           end ;;
           go_on).
Proof.
  intros vm r vm' Hinv H.
  apply bind_inv in H as (u & vm1 & Hu & H).
  apply upvalue_of_inv in Hu as [-> Hlook].
  apply bind_inv in H as (v & vm3 & Hv & H).
  assert (vm3 = vm) as ->.
  { unfold peek in Hv. repeat case_match; congruence. }
  apply bind_inv in H as ([] & vm4 & Hw & H).
  apply ret_inv in H. injection H as _ <-.
  destruct (location u) eqn:Eloc.
  - eapply keeps_write_slot; eassumption.
  - eapply keeps_store; [exact Hlook| | |exact Hinv|exact Hw]; reflexivity.
Qed.

Lemma keeps_exec op : keeps I (exec op).
Proof.
  destruct op; cbv beta iota delta [exec];
    try (keeps_go; fail).
  do 5 (apply keeps_bind; [keeps_go|intros ?]).
  apply keeps_set_upvalue.
Qed.

Hint Resolve keeps_exec : keeps.

Lemma keeps_step : keeps I step.
Proof. keeps_go. Qed.

Hint Resolve keeps_step : keeps.

Lemma keeps_run fuel : keeps I (run fuel).
Proof. induction fuel as [|fuel IH]; simpl; keeps_go. Qed.

Lemma keeps_defineNative name function : keeps I (defineNative name function).
Proof. keeps_go. Qed.

End Keeps.

(** *** Interned strings *)

Lemma holds_string_true h a chars :
  holds_string h a chars = true <-> h !! a = Some (OBJ_STRING chars).
Proof.
  unfold holds_string. split.
  - destruct (h !! a) as [[c| | | | | | | | |]|]; try discriminate.
    intros H. apply bool_decide_eq_true in H. congruence.
  - intros ->. apply bool_decide_eq_true. reflexivity.
Qed.

Lemma strings_interned_iff vm :
  strings_interned vm <->
  (forall chars a, strings vm !! chars = Some a <->
                   heap vm !! a = Some (OBJ_STRING chars)).
Proof.
  unfold strings_interned, map_Forall. split.
  - intros [H1 H2] chars a. split.
    + intros H. apply holds_string_true, H1, H.
    + intros H. specialize (H2 _ _ H). apply bool_decide_eq_true in H2. exact H2.
  - intros H. split.
    + intros chars a E. apply holds_string_true, H, E.
    + intros a o E. destruct o; try reflexivity.
      apply bool_decide_eq_true. apply H, E.
Qed.

Lemma interned_frame vm vm' :
  heap vm' = heap vm -> strings vm' = strings vm ->
  strings_interned vm -> strings_interned vm'.
Proof. unfold strings_interned. intros -> ->. tauto. Qed.

(** A change of the heap at an address that holds no string, to an object
    that is no string. *)
Lemma interned_insert vm a o :
  (forall chars, heap vm !! a <> Some (OBJ_STRING chars)) ->
  obj_type o <> T_STRING ->
  strings_interned vm ->
  strings_interned (set_heap (<[a := o]> (heap vm)) vm).
Proof.
  intros Ha Ho. rewrite !strings_interned_iff. intros H chars b.
  cbn [heap strings set_heap]. rewrite H.
  destruct (decide (b = a)) as [->|Hne].
  - rewrite lookup_insert_eq. split.
    + intros E. destruct (Ha _ E).
    + intros E. injection E as ->. destruct Ho. reflexivity.
  - rewrite lookup_insert_ne by congruence. reflexivity.
Qed.

Lemma interned_alloc vm o :
  obj_type o <> T_STRING -> strings_interned vm ->
  strings_interned (set_heap (<[fresh (dom (heap vm)) := o]> (heap vm)) vm).
Proof.
  intros Ho. apply interned_insert; [|exact Ho].
  intros chars. rewrite fresh_lookup_None. discriminate.
Qed.

Lemma interned_store vm a o o' :
  heap vm !! a = Some o -> obj_type o' = obj_type o ->
  mutable_type (obj_type o) = true -> strings_interned vm ->
  strings_interned (set_heap (<[a := o']> (heap vm)) vm).
Proof.
  intros Ha Ht Hm. apply interned_insert.
  - intros chars E. rewrite Ha in E. injection E as ->. discriminate.
  - rewrite Ht. intros E. rewrite E in Hm. discriminate.
Qed.

Lemma interned_intern vm chars :
  strings vm !! chars = None -> strings_interned vm ->
  strings_interned
    (set_strings (<[chars := fresh (dom (heap vm))]> (strings vm))
       (set_heap (<[fresh (dom (heap vm)) := OBJ_STRING chars]> (heap vm)) vm)).
Proof.
  intros Hnone. rewrite !strings_interned_iff. intros H c b.
  cbn [heap strings set_heap set_strings].
  destruct (decide (b = fresh (dom (heap vm)))) as [->|Hb].
  - rewrite lookup_insert_eq.
    destruct (decide (c = chars)) as [->|Hc].
    + rewrite lookup_insert_eq. tauto.
    + rewrite lookup_insert_ne by congruence. rewrite H, fresh_lookup_None.
      split; [discriminate|congruence].
  - rewrite (lookup_insert_ne (heap vm)) by congruence.
    destruct (decide (c = chars)) as [->|Hc].
    + rewrite lookup_insert_eq. rewrite <- H, Hnone.
      split; [congruence|discriminate].
    + rewrite lookup_insert_ne by congruence. apply H.
Qed.

Lemma initVM_interned vm r vm' :
  initVM vm = Some (r, vm') -> strings_interned vm'.
Proof.
  unfold initVM. intros H.
  apply bind_inv in H as ([] & vm1 & _ & H).
  apply bind_inv in H as ([] & vm2 & _ & H).
  apply bind_inv in H as ([] & vm3 & _ & H).
  apply bind_inv in H as ([] & vm4 & H4 & H).
  apply bind_inv in H as ([] & vm5 & H5 & H).
  apply bind_inv in H as ([] & vm6 & H6 & H).
  unfold modify_vm, modify in H4, H5, H6. simplify_eq.
  assert (strings_interned (set_strings ∅ (set_globals ∅ (set_heap ∅ vm3))))
    as Hinv.
  { apply strings_interned_iff. intros chars a.
    cbn [heap strings set_strings set_globals set_heap].
    rewrite !lookup_empty. split; discriminate. }
  revert Hinv H. generalize (set_strings ∅ (set_globals ∅ (set_heap ∅ vm3))).
  intros vm4 Hinv H.
  pose proof (keeps_copyString strings_interned interned_frame interned_alloc
                interned_store interned_intern) as Hcopy.
  pose proof (keeps_defineNative strings_interned interned_frame interned_alloc
                interned_store interned_intern) as Hdef.
  pose proof (keeps_modify_vm strings_interned interned_frame interned_alloc
                interned_store interned_intern) as Hmod.
  pose proof (fun A B => @keeps_bind strings_interned interned_frame
                interned_alloc interned_store interned_intern A B) as Hbind.
  assert (keeps strings_interned
            (modify_vm (set_initString None);;
             do init <- copyString "init";
             modify_vm (set_initString (Some init));;
             defineNative "clock" clockNative;;
             defineNative "time" timeNative;;
             defineNative "term" termNative;;
             defineNative "prepend" arrayPrepend;;
             defineNative "append" arrayAppend;;
             defineNative "head" arrayHead;;
             defineNative "tail" arrayTail;;
             defineNative "rest" arrayRest;;
             defineNative "remove" dictRemove;;
             defineNative "length" lengthNative)) as Hp.
  { repeat first
      [ apply Hdef | apply Hcopy
      | apply Hmod; intros ?; split; reflexivity
      | apply Hbind; [|intros ?] ]. }
  eapply Hp; eassumption.
Qed.

(** X10: the table of strings and the string objects agree at every
    point of a run: the table maps the characters of each string object to
    that object and holds nothing else.  This holds after [initVM] and
    every instruction keeps it, so two string objects with the same
    characters are one object, and strings can be compared by address. *)
Theorem strings_stay_interned (vm : VM) :
  (forall vm0 r, initVM vm0 = Some (r, vm) -> strings_interned vm) /\
  (strings_interned vm ->
   (forall fuel r vm', run fuel vm = Some (r, vm') -> strings_interned vm') /\
   (forall a b chars,
      heap vm !! a = Some (OBJ_STRING chars) ->
      heap vm !! b = Some (OBJ_STRING chars) -> a = b)).
Proof.
  split; [intros vm0 r H; eapply initVM_interned, H|].
  intros Hinv. split.
  - intros fuel r vm' H.
    eapply (keeps_run strings_interned interned_frame interned_alloc
              interned_store interned_intern); eassumption.
  - intros a b chars Ha Hb.
    pose proof (proj1 (strings_interned_iff vm) Hinv) as Hi.
    apply (proj2 (Hi _ _)) in Ha. apply (proj2 (Hi _ _)) in Hb. congruence.
Qed.

Lemma strings_stay_interned_witness :
  strings_interned concat_example /\
  exists r vm', run 3 concat_example = Some (r, vm') /\ strings_interned vm'.
Proof.
  assert (strings_interned concat_example) as Hinv.
  { apply (bool_decide_unpack _). vm_compute. exact I. }
  split; [exact Hinv|].
  destruct (strings_stay_interned concat_example) as [_ H].
  destruct (H Hinv) as [Hrun _].
  eexists _, _. split; [vm_compute; reflexivity|].
  apply (Hrun 3 None). vm_compute. reflexivity.
Defined.

(** *** Objects that are never written to *)

Lemma persists_insert_other a o vm b o' :
  b <> a -> object_persists a o vm ->
  object_persists a o (set_heap (<[b := o']> (heap vm)) vm).
Proof.
  intros Hne (o1 & H1 & Ht & Him). exists o1.
  cbn [heap set_heap]. rewrite lookup_insert_ne by exact Hne. auto.
Qed.

Lemma persists_frame a o vm vm' :
  heap vm' = heap vm -> strings vm' = strings vm ->
  object_persists a o vm -> object_persists a o vm'.
Proof. unfold object_persists. intros -> _. tauto. Qed.

Lemma persists_alloc a o vm o' :
  obj_type o' <> T_STRING -> object_persists a o vm ->
  object_persists a o (set_heap (<[fresh (dom (heap vm)) := o']> (heap vm)) vm).
Proof.
  intros _ H. apply persists_insert_other; [|exact H].
  destruct H as (o1 & H1 & _). intros E. rewrite <- E in H1.
  rewrite fresh_lookup_None in H1. discriminate.
Qed.

Lemma persists_store a o vm b o1 o1' :
  heap vm !! b = Some o1 -> obj_type o1' = obj_type o1 ->
  mutable_type (obj_type o1) = true -> object_persists a o vm ->
  object_persists a o (set_heap (<[b := o1']> (heap vm)) vm).
Proof.
  intros Hb Ht Hm H. destruct (decide (b = a)) as [->|Hne].
  - destruct H as (o2 & H2 & Ht2 & Him). rewrite Hb in H2. injection H2 as ->.
    exists o1'. cbn [heap set_heap]. rewrite lookup_insert_eq.
    split; [reflexivity|]. split; [congruence|].
    intros Hfalse. rewrite <- Ht2, Hm in Hfalse. discriminate.
  - apply persists_insert_other; assumption.
Qed.

Lemma persists_intern a o vm chars :
  strings vm !! chars = None -> object_persists a o vm ->
  object_persists a o
    (set_strings (<[chars := fresh (dom (heap vm))]> (strings vm))
       (set_heap (<[fresh (dom (heap vm)) := OBJ_STRING chars]> (heap vm)) vm)).
Proof.
  intros _ (o1 & H1 & Ht & Him). exists o1.
  cbn [heap set_heap set_strings]. rewrite lookup_insert_ne; [auto|].
  intros E. rewrite <- E in H1. rewrite fresh_lookup_None in H1. discriminate.
Qed.

(** X11: no instruction removes an object or turns it into an object of
    another kind, and no instruction writes to a string, a function, a
    native or a bound method: after any number of instructions, such an
    object is the one it was.  So the code and the constants of a
    function stay as they were compiled. *)
Theorem run_keeps_objects (vm vm' : VM) (fuel : nat)
    (r : option InterpretResult) (a : addr) (o : Obj) :
  heap vm !! a = Some o ->
  run fuel vm = Some (r, vm') ->
  exists o',
    heap vm' !! a = Some o' /\ obj_type o' = obj_type o /\
    (mutable_type (obj_type o) = false -> o' = o).
Proof.
  intros Ha Hrun.
  apply (keeps_run (object_persists a o) (persists_frame a o)
           (fun vm o' => persists_alloc a o vm o')
           (fun vm b o1 o1' => persists_store a o vm b o1 o1')
           (fun vm chars => persists_intern a o vm chars) fuel vm r vm');
    [|exact Hrun].
  exists o. auto.
Qed.

Lemma run_keeps_objects_witness :
  run 3 concat_example = Some (None, concat_example_after) /\
  heap concat_example_after !! 2 = Some (OBJ_STRING "a").
Proof.
  split; [vm_compute; reflexivity|].
  destruct (run_keeps_objects concat_example concat_example_after 3 None 2
              (OBJ_STRING "a")) as (o' & Ho' & _ & Hsame).
  - vm_compute. reflexivity.
  - vm_compute. reflexivity.
  - rewrite (Hsame eq_refl) in Ho'. exact Ho'.
Defined.

(** ** Global variables *)

(** X8: [OP_DEFINE_GLOBAL] binds the name to the value on top of the
    stack and pops it.  [OP_SET_GLOBAL] overwrites the value of a name that
    is defined and leaves the value on the stack; on a name that is not
    defined it raises "Undefined variable" and the globals are as before.
    [OP_GET_GLOBAL] pushes the value of a defined name and raises
    "Undefined variable" otherwise. *)
Theorem global_variables (vm vm1 : VM) (name : addr) (v : Value) (t : nat) :
  READ_STRING vm = Some (name, vm1) ->
  stackTop vm = S t -> stack vm !! t = Some v ->
  exec OP_DEFINE_GLOBAL vm
  = Some (None, set_stackTop t (set_globals (<[name := v]> (globals vm)) vm1)) /\
  (forall old,
     tableGet (globals vm) name = Some old ->
     exec OP_SET_GLOBAL vm
     = Some (None, set_globals (<[name := v]> (globals vm)) vm1)) /\
  (tableGet (globals vm) name = None ->
   exists vm',
     exec OP_SET_GLOBAL vm = Some (Some INTERPRET_RUNTIME_ERROR, vm') /\
     globals vm' = globals vm /\
     stderr vm' = stderr vm ++ ["SKILL ISSUE: Undefined variable '%s'."%string]) /\
  (forall value,
     tableGet (globals vm) name = Some value ->
     exists vm',
       exec OP_GET_GLOBAL vm = Some (None, vm') /\
       stackTop vm' = S (S t) /\ stack vm' !! S t = Some value /\
       globals vm' = globals vm) /\
  (tableGet (globals vm) name = None ->
   exec OP_GET_GLOBAL vm
   = Some (Some INTERPRET_RUNTIME_ERROR,
           after_runtimeError "SKILL ISSUE: Undefined variable '%s'." vm1)).
Proof.
  intros Hread Htop Hv.
  destruct (READ_STRING_inv _ _ _ Hread) as [(fs & -> & _) _].
  assert (t < length (stack vm)) as Hlen by (eapply lookup_lt_Some; eauto).
  assert (peek 0 (set_frames fs vm) = Some (v, set_frames fs vm)) as Hpeek.
  { apply peek_Some; cbn [stackTop stack set_frames]; [lia|].
    rewrite Htop. replace (S t - 1 - 0) with t by lia. exact Hv. }
  split; [|split; [|split; [|split]]].
  - unfold exec. vm_step ltac:(exact Hread). vm_step ltac:(exact Hpeek).
    vm_step ltac:(reflexivity).
    vm_step ltac:(eapply pop_Some; cbn [stackTop stack set_frames set_globals];
                  eassumption).
    reflexivity.
  - intros old Hold. unfold exec.
    vm_step ltac:(exact Hread). vm_step ltac:(exact Hpeek).
    vm_step ltac:(reflexivity).
    unfold tableSet, tableGet in *. cbn [globals set_frames].
    vm_step ltac:(reflexivity).
    rewrite Hold. rewrite bool_decide_eq_false_2 by discriminate.
    reflexivity.
  - intros Hnone. unfold exec.
    vm_step ltac:(exact Hread). vm_step ltac:(exact Hpeek).
    vm_step ltac:(reflexivity).
    unfold tableSet, tableGet, tableDelete in *. cbn [globals set_frames].
    vm_step ltac:(reflexivity).
    rewrite bool_decide_eq_true_2 by exact Hnone.
    vm_step ltac:(reflexivity).
    rewrite fail_Some. eexists. split; [reflexivity|].
    cbn [globals stderr set_globals set_frames set_stderr set_stackTop
         set_openUpvalues].
    split; [apply delete_insert_id; exact Hnone|reflexivity].
  - intros value Hvalue. unfold exec.
    vm_step ltac:(exact Hread). vm_step ltac:(reflexivity).
    cbn [globals set_frames]. rewrite Hvalue.
    vm_step ltac:(apply push_Some; cbn [stackTop stack set_frames]; lia).
    eexists. split; [reflexivity|].
    cbn [globals stackTop stack set_globals set_frames set_stack set_stackTop].
    rewrite Htop. split; [reflexivity|]. split; [|reflexivity].
    rewrite push_stack by lia. rewrite decide_True by reflexivity. reflexivity.
  - intros Hnone. unfold exec.
    vm_step ltac:(exact Hread). vm_step ltac:(reflexivity).
    cbn [globals set_frames]. rewrite Hnone. apply fail_Some.
Qed.

(** ** Properties of instances *)

Lemma instance_klass_Some a k fs vm :
  heap vm !! a = Some (OBJ_INSTANCE k fs) -> instance_klass a vm = Some (k, vm).
Proof.
  intros H. unfold instance_klass.
  vm_step ltac:(apply deref_Some; exact H). reflexivity.
Qed.

(** X9: [OP_GET_PROPERTY] on an instance looks in the fields first, so a
    field hides a method of the same name; without such a field, a method
    of the class is bound to the instance in a new bound-method object;
    with neither, "Undefined property" is raised.  The result replaces
    the instance on the stack. *)
Theorem property_lookup (vm vm1 : VM) (name instance klass cname : addr)
    (fields methods : Table) (t : nat) :
  READ_STRING vm = Some (name, vm1) ->
  stackTop vm = S t -> stack vm !! t = Some (OBJ_VAL instance) ->
  heap vm !! instance = Some (OBJ_INSTANCE klass fields) ->
  heap vm !! klass = Some (OBJ_CLASS cname methods) ->
  (forall value,
     tableGet fields name = Some value ->
     exists vm',
       exec OP_GET_PROPERTY vm = Some (None, vm') /\
       stackTop vm' = S t /\ stack vm' !! t = Some value /\
       heap vm' = heap vm) /\
  (forall m fa us,
     tableGet fields name = None ->
     tableGet methods name = Some (OBJ_VAL m) ->
     heap vm !! m = Some (OBJ_CLOSURE fa us) ->
     let bound := fresh (dom (heap vm)) in
     exists vm',
       exec OP_GET_PROPERTY vm = Some (None, vm') /\
       stackTop vm' = S t /\ stack vm' !! t = Some (OBJ_VAL bound) /\
       heap vm' = <[bound := OBJ_BOUND_METHOD (OBJ_VAL instance) m]> (heap vm)) /\
  (tableGet fields name = None ->
   tableGet methods name = None ->
   exec OP_GET_PROPERTY vm
   = Some (Some INTERPRET_RUNTIME_ERROR,
           after_runtimeError "SKILL ISSUE: Undefined property '%s'." vm1)).
Proof.
  intros Hread Htop Hv Hinst Hklass.
  destruct (READ_STRING_inv _ _ _ Hread) as [(fs & -> & _) _].
  assert (t < length (stack vm)) as Hlen by (eapply lookup_lt_Some; eauto).
  assert (peek 0 vm = Some (OBJ_VAL instance, vm)) as Hpeek.
  { apply peek_Some; [lia|].
    rewrite Htop. replace (S t - 1 - 0) with t by lia. exact Hv. }
  assert (exec OP_GET_PROPERTY vm
          = match tableGet fields name with
            | Some value => (pop ;; push value ;; go_on) (set_frames fs vm)
            | None =>
                (do bound <- bindMethod klass name;
                 if negb bound then leave INTERPRET_RUNTIME_ERROR else go_on)
                  (set_frames fs vm)
            end) as Hexec.
  { unfold exec. vm_step ltac:(exact Hpeek). vm_step ltac:(apply test_Some).
    rewrite (IS_INSTANCE_true _ _ _ _ Hinst).
    vm_step ltac:(eapply AS_INSTANCE_Some; exact Hinst).
    vm_step ltac:(exact Hread).
    vm_step ltac:(eapply instance_fields_Some; cbn [heap set_frames]; exact Hinst).
    destruct (tableGet fields name); [reflexivity|].
    vm_step ltac:(eapply instance_klass_Some; cbn [heap set_frames]; exact Hinst).
    reflexivity. }
  rewrite Hexec. split; [|split].
  - intros value Hvalue. rewrite Hvalue.
    vm_step ltac:(eapply pop_Some; cbn [stackTop stack set_frames]; eassumption).
    vm_step ltac:(apply push_Some; cbn [stackTop stack set_frames set_stackTop]; lia).
    eexists. split; [reflexivity|].
    cbn [heap stackTop stack set_frames set_stack set_stackTop].
    split; [reflexivity|]. split; [|reflexivity].
    rewrite push_stack by lia. rewrite decide_True by reflexivity. reflexivity.
  - intros m fa us Hnone Hm Hclosure bound. rewrite Hnone.
    unfold bindMethod.
    vm_step ltac:(
      vm_step ltac:(eapply class_methods_Some; cbn [heap set_frames]; exact Hklass);
      rewrite Hm;
      vm_step ltac:(apply peek_Some; cbn [stackTop stack set_frames];
                    [lia|rewrite Htop; replace (S t - 1 - 0) with t by lia;
                         exact Hv]);
      vm_step ltac:(eapply AS_CLOSURE_Some; cbn [heap set_frames]; exact Hclosure);
      unfold newBoundMethod;
      vm_step ltac:(apply allocateObject_Some);
      vm_step ltac:(eapply pop_Some;
                    cbn [stackTop stack set_frames set_heap]; eassumption);
      vm_step ltac:(apply push_Some;
                    cbn [stackTop stack set_frames set_heap set_stackTop]; lia);
      reflexivity).
    cbn [negb]. eexists. split; [reflexivity|].
    cbn [heap stackTop stack set_frames set_stack set_stackTop set_heap].
    split; [reflexivity|]. split; [|reflexivity].
    rewrite push_stack by lia. rewrite decide_True by reflexivity. reflexivity.
  - intros Hnone Hmiss. rewrite Hnone. unfold bindMethod.
    vm_step ltac:(
      vm_step ltac:(eapply class_methods_Some; cbn [heap set_frames]; exact Hklass);
      rewrite Hmiss;
      vm_step ltac:(apply runtimeError_Some); reflexivity).
    reflexivity.
Qed.

(** ** Inheritance *)

(** X12: [OP_INHERIT] requires the value below the top to be a class and
    raises "Superclass must be a class." otherwise; it copies every method
    of the superclass into the subclass, where a method of the same name is
    replaced by it and the other methods stay, and pops the subclass. *)
Theorem inherit_copies_methods (vm : VM) (superclass : Value)
    (subclass subname : addr) (submethods : Table) (t : nat) :
  stackTop vm = S (S t) ->
  stack vm !! t = Some superclass ->
  stack vm !! S t = Some (OBJ_VAL subclass) ->
  heap vm !! subclass = Some (OBJ_CLASS subname submethods) ->
  (IS_CLASS (heap vm) superclass = false ->
   exec OP_INHERIT vm
   = Some (Some INTERPRET_RUNTIME_ERROR,
           after_runtimeError "SKILL ISSUE: Superclass must be a class." vm)) /\
  (forall super supername methods,
     superclass = OBJ_VAL super ->
     heap vm !! super = Some (OBJ_CLASS supername methods) ->
     exists inherited,
       exec OP_INHERIT vm
       = Some (None,
               set_stackTop (S t)
                 (set_heap (<[subclass := OBJ_CLASS subname inherited]> (heap vm))
                    vm)) /\
       (forall name m, tableGet methods name = Some m ->
                       tableGet inherited name = Some m) /\
       (forall name, tableGet methods name = None ->
                     tableGet inherited name = tableGet submethods name)).
Proof.
  intros Htop Hsuper Hsub Hheap.
  assert (S t < length (stack vm)) as Hlen by (eapply lookup_lt_Some; eauto).
  assert (peek 1 vm = Some (superclass, vm)) as Hp1.
  { apply peek_Some; [lia|]. rewrite Htop.
    replace (S (S t) - 1 - 1) with t by lia. exact Hsuper. }
  assert (peek 0 vm = Some (OBJ_VAL subclass, vm)) as Hp0.
  { apply peek_Some; [lia|]. rewrite Htop.
    replace (S (S t) - 1 - 0) with (S t) by lia. exact Hsub. }
  split.
  - intros Hnot. unfold exec.
    vm_step ltac:(exact Hp1). vm_step ltac:(apply test_Some).
    rewrite Hnot. cbn [negb]. apply fail_Some.
  - intros super supername methods -> Hs.
    exists (tableAddAll methods submethods). split; [|split].
    + unfold exec.
      vm_step ltac:(exact Hp1). vm_step ltac:(apply test_Some).
      assert (IS_CLASS (heap vm) (OBJ_VAL super) = true) as ->
        by (unfold IS_CLASS, isObjType, OBJ_TYPE; rewrite Hs; reflexivity).
      cbn [negb].
      vm_step ltac:(exact Hp0).
      vm_step ltac:(eapply AS_CLASS_Some; exact Hheap).
      vm_step ltac:(eapply AS_CLASS_Some; exact Hs).
      vm_step ltac:(eapply class_methods_Some; exact Hs).
      vm_step ltac:(eapply class_methods_Some; exact Hheap).
      vm_step ltac:(unfold set_class_methods;
                    vm_step ltac:(apply deref_Some; exact Hheap); reflexivity).
      vm_step ltac:(eapply pop_Some; cbn [stackTop stack set_heap]; eassumption).
      reflexivity.
    + intros name m Hm. unfold tableGet, tableAddAll in *.
      apply lookup_union_Some_l. exact Hm.
    + intros name Hnone. unfold tableGet, tableAddAll in *.
      apply lookup_union_r. exact Hnone.
Qed.

(** ** Addition, division and remainder *)

Lemma both_numbers_Some vm va vb t :
  stackTop vm = S (S t) ->
  stack vm !! t = Some va -> stack vm !! S t = Some vb ->
  both_numbers vm = Some (IS_NUMBER vb && IS_NUMBER va, vm).
Proof.
  intros Htop Ha Hb. unfold both_numbers.
  vm_step ltac:(apply peek_Some; [lia|]; rewrite Htop;
                replace (S (S t) - 1 - 0) with (S t) by lia; exact Hb).
  destruct (IS_NUMBER vb); [|reflexivity].
  vm_step ltac:(apply peek_Some; [lia|]; rewrite Htop;
                replace (S (S t) - 1 - 1) with t by lia; exact Ha).
  reflexivity.
Qed.

(** Two numbers on top of the stack are replaced by [result]. *)
Lemma pop_pop_push vm x y t result :
  stackTop vm = S (S t) ->
  stack vm !! t = Some (NUMBER_VAL x) -> stack vm !! S t = Some (NUMBER_VAL y) ->
  (do vb <- pop; do b <- AS_NUMBER vb;
   do va <- pop; do a <- AS_NUMBER va;
   push (result a b) ;; go_on) vm
  = Some (None, set_stackTop (S t)
                  (set_stack (<[t := result x y]> (stack vm)) vm)).
Proof.
  intros Htop Ha Hb.
  assert (S t < length (stack vm)) as Hlen by (eapply lookup_lt_Some; eauto).
  vm_step ltac:(eapply pop_Some; eassumption).
  vm_step ltac:(reflexivity).
  vm_step ltac:(eapply pop_Some; cbn [stackTop stack set_stackTop];
                [reflexivity|exact Ha]).
  vm_step ltac:(reflexivity).
  vm_step ltac:(apply push_Some; cbn [stackTop stack set_stackTop]; lia).
  cbn [stackTop stack set_stackTop]. rewrite decide_True by lia. reflexivity.
Qed.

(** X13: [OP_ADD] concatenates two strings, the result being the interned
    string of the two sequences of characters, and adds two numbers; any
    other pair of operands, such as a number and a string, raises
    "Operands must be two numbers or two strings.". *)
Theorem add_strings_or_numbers (vm : VM) (va vb : Value) (t : nat) :
  stackTop vm = S (S t) ->
  stack vm !! t = Some va -> stack vm !! S t = Some vb ->
  (forall a b sa sb,
     va = OBJ_VAL a -> vb = OBJ_VAL b ->
     heap vm !! a = Some (OBJ_STRING sa) -> heap vm !! b = Some (OBJ_STRING sb) ->
     strings_interned vm ->
     exists vm' r,
       exec OP_ADD vm = Some (None, vm') /\
       stackTop vm' = S t /\ stack vm' !! t = Some (OBJ_VAL r) /\
       heap vm' !! r = Some (OBJ_STRING (sa ++ sb)) /\
       strings vm' !! (sa ++ sb)%string = Some r) /\
  (forall x y,
     va = NUMBER_VAL x -> vb = NUMBER_VAL y ->
     exec OP_ADD vm
     = Some (None,
             set_stackTop (S t)
               (set_stack (<[t := NUMBER_VAL (SFadd prec64 emax64 x y)]> (stack vm))
                  vm))) /\
  (IS_STRING (heap vm) vb && IS_STRING (heap vm) va = false ->
   IS_NUMBER vb && IS_NUMBER va = false ->
   exec OP_ADD vm
   = Some (Some INTERPRET_RUNTIME_ERROR,
           after_runtimeError
             "SKILL ISSUE: Operands must be two numbers or two strings." vm)).
Proof.
  intros Htop Ha Hb.
  assert (S t < length (stack vm)) as Hlen by (eapply lookup_lt_Some; eauto).
  assert (peek 0 vm = Some (vb, vm)) as Hp0.
  { apply peek_Some; [lia|]. rewrite Htop.
    replace (S (S t) - 1 - 0) with (S t) by lia. exact Hb. }
  assert (peek 1 vm = Some (va, vm)) as Hp1.
  { apply peek_Some; [lia|]. rewrite Htop.
    replace (S (S t) - 1 - 1) with t by lia. exact Ha. }
  assert (exec OP_ADD vm
          = if IS_STRING (heap vm) vb && IS_STRING (heap vm) va
            then (concatenate ;; go_on) vm
            else if IS_NUMBER vb && IS_NUMBER va
                 then (do vb <- pop; do b <- AS_NUMBER vb;
                       do va <- pop; do a <- AS_NUMBER va;
                       push (NUMBER_VAL (SFadd prec64 emax64 a b)) ;; go_on) vm
                 else fail "SKILL ISSUE: Operands must be two numbers or two strings."
                        vm) as Hexec.
  { unfold exec.
    vm_step ltac:(exact Hp0). vm_step ltac:(apply test_Some).
    destruct (IS_STRING (heap vm) vb).
    - vm_step ltac:(vm_step ltac:(exact Hp1); apply test_Some).
      cbn [andb]. destruct (IS_STRING (heap vm) va); [reflexivity|].
      vm_step ltac:(eapply both_numbers_Some; eassumption).
      destruct (IS_NUMBER vb && IS_NUMBER va); reflexivity.
    - vm_step ltac:(reflexivity). cbn [andb].
      vm_step ltac:(eapply both_numbers_Some; eassumption).
      destruct (IS_NUMBER vb && IS_NUMBER va); reflexivity. }
  rewrite Hexec. clear Hexec. split; [|split].
  - intros a b sa sb -> -> Hsa Hsb Hint.
    rewrite (IS_STRING_true _ _ _ Hsa), (IS_STRING_true _ _ _ Hsb). cbn [andb].
    pose proof (proj1 (strings_interned_iff vm) Hint) as Hi.
    assert (concatenate vm
            = (do result <- copyString (sa ++ sb);
               pop ;; pop ;; push (OBJ_VAL result)) vm) as Hcat.
    { unfold concatenate, takeString.
      vm_step ltac:(exact Hp0).
      vm_step ltac:(eapply AS_STRING_Some; exact Hsb).
      vm_step ltac:(exact Hp1).
      vm_step ltac:(eapply AS_STRING_Some; exact Hsa).
      vm_step ltac:(eapply string_chars_Some; exact Hsa).
      vm_step ltac:(eapply string_chars_Some; exact Hsb).
      reflexivity. }
    assert (exists vm' r,
              concatenate vm = Some (tt, vm') /\
              stackTop vm' = S t /\ stack vm' !! t = Some (OBJ_VAL r) /\
              heap vm' !! r = Some (OBJ_STRING (sa ++ sb)) /\
              strings vm' !! (sa ++ sb)%string = Some r)
      as (vm' & r & Hc & Hrest).
    { rewrite Hcat. unfold copyString.
      destruct (strings vm !! (sa ++ sb)%string) as [r|] eqn:Er.
      - vm_step ltac:(vm_step ltac:(reflexivity); rewrite Er; reflexivity).
        vm_step ltac:(eapply pop_Some; eassumption).
        vm_step ltac:(eapply pop_Some; cbn [stackTop stack set_stackTop];
                      [reflexivity|exact Ha]).
        rewrite push_Some by (cbn [stackTop stack set_stackTop]; lia).
        eexists _, r. split; [reflexivity|].
        cbn [heap strings stackTop stack set_stackTop set_stack].
        split; [reflexivity|]. split; [|split; [apply Hi, Er|exact Er]].
        rewrite push_stack by lia. rewrite decide_True by reflexivity. reflexivity.
      - vm_step ltac:(vm_step ltac:(reflexivity); rewrite Er;
                      vm_step ltac:(apply allocateObject_Some);
                      vm_step ltac:(reflexivity); reflexivity).
        vm_step ltac:(eapply pop_Some;
                      cbn [stackTop stack set_stackTop set_strings set_heap];
                      eassumption).
        vm_step ltac:(eapply pop_Some;
                      cbn [stackTop stack set_stackTop set_strings set_heap];
                      [reflexivity|exact Ha]).
        rewrite push_Some
          by (cbn [stackTop stack set_stackTop set_strings set_heap]; lia).
        eexists _, (fresh (dom (heap vm))). split; [reflexivity|].
        cbn [heap strings stackTop stack set_stackTop set_stack set_strings
             set_heap].
        split; [reflexivity|].
        split; [|split; [apply lookup_insert_eq|apply lookup_insert_eq]].
        rewrite push_stack by lia. rewrite decide_True by reflexivity.
        reflexivity. }
    vm_step ltac:(exact Hc). exists vm', r. split; [reflexivity|exact Hrest].
  - intros x y -> ->. cbn [IS_NUMBER andb].
    assert (IS_STRING (heap vm) (NUMBER_VAL y) = false) as -> by reflexivity.
    cbn [andb].
    apply (pop_pop_push vm x y t
             (fun a b => NUMBER_VAL (SFadd prec64 emax64 a b))); assumption.
  - intros Hnots Hnotn. rewrite Hnots, Hnotn. apply fail_Some.
Qed.

(** X14: [OP_DIVIDE] on two numbers pushes their quotient whatever the
    divisor is, zero included: it never raises an error.  [OP_MODULO]
    raises "Division by zero." when the divisor compares equal to zero,
    after both operands are popped, and pushes the remainder otherwise.
    Operands that are not two numbers raise "Operands must be numbers.". *)
Theorem divide_and_modulo (vm : VM) (va vb : Value) (t : nat) :
  stackTop vm = S (S t) ->
  stack vm !! t = Some va -> stack vm !! S t = Some vb ->
  (IS_NUMBER vb && IS_NUMBER va = false ->
   exec OP_DIVIDE vm
   = Some (Some INTERPRET_RUNTIME_ERROR,
           after_runtimeError "SKILL ISSUE: Operands must be numbers." vm) /\
   exec OP_MODULO vm
   = Some (Some INTERPRET_RUNTIME_ERROR,
           after_runtimeError "SKILL ISSUE: Operands must be numbers." vm)) /\
  (forall x y,
     va = NUMBER_VAL x -> vb = NUMBER_VAL y ->
     exec OP_DIVIDE vm
     = Some (None,
             set_stackTop (S t)
               (set_stack (<[t := NUMBER_VAL (SFdiv prec64 emax64 x y)]> (stack vm))
                  vm)) /\
     (SFeqb y (S754_zero false) = true ->
      exec OP_MODULO vm
      = Some (Some INTERPRET_RUNTIME_ERROR,
              after_runtimeError "SKILL ISSUE: Division by zero."
                (set_stackTop t vm))) /\
     (SFeqb y (S754_zero false) = false ->
      exec OP_MODULO vm
      = Some (None,
              set_stackTop (S t)
                (set_stack (<[t := NUMBER_VAL (fmod x y)]> (stack vm)) vm)))).
Proof.
  intros Htop Ha Hb.
  assert (S t < length (stack vm)) as Hlen by (eapply lookup_lt_Some; eauto).
  pose proof (both_numbers_Some vm va vb t Htop Ha Hb) as Hboth.
  split.
  - intros Hnot. split; unfold exec, BINARY_OP;
      (vm_step ltac:(exact Hboth)); rewrite Hnot; cbn [negb]; apply fail_Some.
  - intros x y -> ->. cbn [IS_NUMBER andb] in Hboth. split; [|split].
    + unfold exec, BINARY_OP. vm_step ltac:(exact Hboth). cbn [negb].
      apply (pop_pop_push vm x y t
               (fun a b => NUMBER_VAL (SFdiv prec64 emax64 a b))); assumption.
    + intros Hzero. unfold exec. vm_step ltac:(exact Hboth). cbn [negb].
      vm_step ltac:(eapply pop_Some; eassumption).
      vm_step ltac:(reflexivity).
      vm_step ltac:(eapply pop_Some; cbn [stackTop stack set_stackTop];
                    [reflexivity|exact Ha]).
      vm_step ltac:(reflexivity).
      rewrite Hzero. apply fail_Some.
    + intros Hnz. unfold exec. vm_step ltac:(exact Hboth). cbn [negb].
      vm_step ltac:(eapply pop_Some; eassumption).
      vm_step ltac:(reflexivity).
      vm_step ltac:(eapply pop_Some; cbn [stackTop stack set_stackTop];
                    [reflexivity|exact Ha]).
      vm_step ltac:(reflexivity).
      rewrite Hnz.
      vm_step ltac:(apply push_Some; cbn [stackTop stack set_stackTop]; lia).
      cbn [stackTop stack set_stackTop]. rewrite decide_True by lia. reflexivity.
Qed.

(** ** Calls of natives *)

(** X15: a call of a native hands it the arguments on top of the stack and
    replaces the callee and the arguments by the result.  When the native
    has reported a runtime error, which empties the stack, the adjustment
    [vm.stackTop -= argCount + 1] moves [stackTop] below the start of the
    stack: the call has no defined behaviour. *)
Theorem call_of_native (vm vm1 : VM) (callee : addr) (fn : NativeFn)
    (n : nat) (result : Value) :
  heap vm !! callee = Some (OBJ_NATIVE fn) ->
  n <= stackTop vm ->
  native fn n (stackTop vm - n) vm = Some (result, vm1) ->
  (n + 1 <= stackTop vm1 -> stackTop vm1 <= length (stack vm1) ->
   exists vm',
     callValue (OBJ_VAL callee) n vm = Some (true, vm') /\
     stackTop vm' = stackTop vm1 - n /\
     stack vm' !! (stackTop vm1 - n - 1) = Some result /\
     heap vm' = heap vm1) /\
  (stackTop vm1 = 0 -> callValue (OBJ_VAL callee) n vm = None).
Proof.
  intros Hheap Hn Hnative.
  assert (callValue (OBJ_VAL callee) n vm
          = if decide (n + 1 <= stackTop vm1) then
              (modify_vm (set_stackTop (stackTop vm1 - (n + 1))) ;;
               push result ;; ret true) vm1
            else None) as Hcall.
  { unfold callValue. vm_step ltac:(reflexivity).
    unfold OBJ_TYPE. rewrite Hheap. cbn [fmap option_fmap option_map obj_type].
    vm_step ltac:(unfold AS_NATIVE, AS_OBJ; vm_step ltac:(reflexivity);
                  vm_step ltac:(apply deref_Some; exact Hheap); reflexivity).
    vm_step ltac:(vm_step ltac:(reflexivity); reflexivity).
    rewrite decide_True by exact Hn.
    vm_step ltac:(exact Hnative).
    vm_step ltac:(reflexivity).
    destruct (decide (n + 1 <= stackTop vm1)); reflexivity. }
  rewrite Hcall. split.
  - intros Hle Hlen. rewrite decide_True by exact Hle.
    vm_step ltac:(reflexivity).
    vm_step ltac:(apply push_Some; cbn [stackTop stack set_stackTop]; lia).
    eexists. split; [reflexivity|].
    cbn [heap stackTop stack set_stackTop set_stack].
    split; [lia|]. split; [|reflexivity].
    replace (stackTop vm1 - n - 1) with (stackTop vm1 - (n + 1)) by lia.
    rewrite push_stack by lia. rewrite decide_True by reflexivity. reflexivity.
  - intros Hzero. rewrite decide_False by lia. reflexivity.
Qed.

(** ** Closing upvalues *)

Lemma open_slot_insert_other h a b o :
  a <> b -> open_slot (<[a := o]> h) b = open_slot h b.
Proof. apply open_slot_insert_ne. Qed.

(** The loop of [closeUpvalues] leaves the stack as it is, writes to the
    nodes of the list only, and gives each node at or above [last] the
    value of its slot. *)
Lemma closeUpvalues_loop_values last l :
  forall slots vm r vm',
    Forall2 (fun a i => open_slot (heap vm) a = Some i) l slots ->
    strictly_descending slots ->
    closeUpvalues_loop last l vm = Some (r, vm') ->
    stack vm' = stack vm /\
    (forall a, a ∉ l -> heap vm' !! a = heap vm !! a) /\
    (forall a i,
       a ∈ l -> open_slot (heap vm) a = Some i ->
       (last <= i ->
        exists v, stack vm !! i = Some v /\
                  heap vm' !! a = Some (OBJ_UPVALUE (mkUpvalue InClosed v))) /\
       (i < last -> heap vm' !! a = heap vm !! a)).
Proof.
  induction l as [|u next IH]; intros slots vm r vm' H Hd Hrun.
  - simpl in Hrun. apply ret_inv in Hrun. injection Hrun as _ <-.
    split; [reflexivity|]. split; [reflexivity|].
    intros a i Hin. inversion Hin.
  - apply Forall2_cons_inv_l in H as (i0 & sl & Hu & H & ->).
    destruct Hd as [Hlt Hd]. simpl in Hrun.
    destruct (upvalue_of_open _ _ _ Hu) as (ou & Eu & Hloc).
    erewrite bind_Some in Hrun by exact Eu. rewrite Hloc in Hrun.
    assert (u ∉ next) as Hnotin by (eapply head_not_in_tail; eassumption).
    destruct (decide (last <= i0)) as [Hge|Hnge].
    + apply bind_inv in Hrun as (v0 & vm1 & Hread & Hrun).
      apply read_slot_inv in Hread as [-> Hv0].
      erewrite bind_Some in Hrun by reflexivity.
      erewrite bind_Some in Hrun by reflexivity.
      apply IH with (slots := sl) in Hrun; [| |exact Hd].
      2: { cbn [heap set_heap set_openUpvalues].
           apply open_slots_insert; assumption. }
      cbn [heap stack set_heap set_openUpvalues] in Hrun.
      destruct Hrun as (Hstack & Hother & Hnodes).
      split; [exact Hstack|]. split.
      * intros a Ha. rewrite Hother.
        -- apply lookup_insert_ne. intros ->. apply Ha. left.
        -- intros Hin. apply Ha. right. exact Hin.
      * intros a i Hin Hi. apply elem_of_cons in Hin as [->|Hin].
        -- rewrite Hu in Hi. injection Hi as <-. split; [|lia].
           intros _. exists v0. split; [exact Hv0|].
           rewrite Hother by exact Hnotin. apply lookup_insert_eq.
        -- assert (u <> a) as Hne by (intros ->; contradiction).
           destruct (Hnodes a i Hin) as [Hclosed Hopen].
           { rewrite open_slot_insert_ne by exact Hne. exact Hi. }
           split; [exact Hclosed|].
           intros Hi2. rewrite (Hopen Hi2). apply lookup_insert_ne. exact Hne.
    + apply ret_inv in Hrun. injection Hrun as _ <-.
      split; [reflexivity|]. split; [reflexivity|].
      intros a i Hin Hi. split; [|reflexivity].
      intros Hge. exfalso. apply elem_of_cons in Hin as [->|Hin].
      * rewrite Hu in Hi. injection Hi as <-. lia.
      * destruct (open_nodes_in _ _ _ _ H Hin) as (j & Hj & Hjin).
        rewrite Hi in Hj. injection Hj as <-.
        rewrite Forall_forall in Hlt. specialize (Hlt i Hjin). lia.
Qed.

(** The loop returns when every node of the list points at a slot of the
    stack. *)
Lemma closeUpvalues_loop_returns last l :
  forall slots vm,
    Forall2 (fun a i => open_slot (heap vm) a = Some i) l slots ->
    strictly_descending slots ->
    Forall (fun i => i < length (stack vm)) slots ->
    exists vm', closeUpvalues_loop last l vm = Some (tt, vm').
Proof.
  induction l as [|u next IH]; intros slots vm H Hd Hin.
  - eexists. reflexivity.
  - apply Forall2_cons_inv_l in H as (i0 & sl & Hu & H & ->).
    destruct Hd as [Hlt Hd]. apply Forall_cons in Hin as [Hi0 Hin].
    cbn [closeUpvalues_loop].
    destruct (upvalue_of_open _ _ _ Hu) as (ou & Eu & Hloc).
    erewrite bind_Some by exact Eu. rewrite Hloc.
    destruct (decide (last <= i0)) as [Hge|Hnge]; [|eexists; reflexivity].
    destruct (lookup_lt_is_Some_2 _ _ Hi0) as [v0 Hv0].
    erewrite bind_Some by (apply read_slot_Some; exact Hv0).
    erewrite bind_Some by reflexivity.
    erewrite bind_Some by reflexivity.
    apply (IH sl); [|exact Hd|exact Hin].
    cbn [heap set_heap set_openUpvalues].
    apply open_slots_insert; [|exact H].
    eapply head_not_in_tail; eassumption.
Qed.

(** X16: [closeUpvalues last] copies into every open upvalue that points
    at slot [last] or above the value that the slot holds, and leaves the
    open upvalues below [last], the other objects and the stack as they
    are: a closure keeps the value its variable had when the scope
    ended. *)
Theorem closeUpvalues_keeps_values (vm : VM) (last : nat) :
  open_upvalues_descending vm ->
  (forall a i, a ∈ openUpvalues vm -> open_slot (heap vm) a = Some i ->
               i < length (stack vm)) ->
  exists vm',
    closeUpvalues last vm = Some (tt, vm') /\
    stack vm' = stack vm /\
    (forall a, a ∉ openUpvalues vm -> heap vm' !! a = heap vm !! a) /\
    (forall a i,
       a ∈ openUpvalues vm -> open_slot (heap vm) a = Some i ->
       (last <= i ->
        exists v, stack vm !! i = Some v /\
                  heap vm' !! a = Some (OBJ_UPVALUE (mkUpvalue InClosed v))) /\
       (i < last -> heap vm' !! a = heap vm !! a)).
Proof.
  intros Hinv Hstack. apply descending_iff in Hinv as (slots & H & Hd).
  assert (Forall (fun i => i < length (stack vm)) slots) as Hin.
  { apply Forall_forall. intros i Hi.
    apply list_elem_of_lookup in Hi as [n Hn].
    destruct (Forall2_lookup_r _ _ _ _ _ H Hn) as (a & Ha & Hopen).
    eapply Hstack; [|exact Hopen].
    eapply list_elem_of_lookup_2. exact Ha. }
  destruct (closeUpvalues_loop_returns last _ slots vm H Hd Hin) as [vm' Hrun].
  exists vm'. split.
  - unfold closeUpvalues. erewrite bind_Some by reflexivity. exact Hrun.
  - eapply closeUpvalues_loop_values; eassumption.
Qed.

Lemma closeUpvalues_keeps_values_witness :
  closeUpvalues 1 upvalues_example = Some (tt, upvalues_example_closed) /\
  heap upvalues_example_closed !! 2
  = Some (OBJ_UPVALUE (mkUpvalue InClosed (BOOL_VAL true))) /\
  heap upvalues_example_closed !! 3
  = Some (OBJ_UPVALUE (mkUpvalue (OnStack 0) NIL_VAL)).
Proof.
  assert (closeUpvalues 1 upvalues_example
          = Some (tt, upvalues_example_closed)) as E
    by (vm_compute; reflexivity).
  split; [exact E|].
  destruct (closeUpvalues_keeps_values upvalues_example 1)
    as (vm' & Hrun & _ & _ & Hnodes).
  - apply (bool_decide_unpack _). vm_compute. exact I.
  - intros a i Ha Hi. unfold upvalues_example in Ha.
    cbn [openUpvalues set_openUpvalues] in Ha.
    apply elem_of_cons in Ha as [->|Ha];
      [vm_compute in Hi; injection Hi as <-; vm_compute; lia|].
    apply elem_of_cons in Ha as [->|Ha];
      [vm_compute in Hi; injection Hi as <-; vm_compute; lia|].
    apply elem_of_nil in Ha. destruct Ha.
  - rewrite E in Hrun. injection Hrun as <-. split.
    + destruct (Hnodes 2 2) as [Hclosed _].
      * unfold upvalues_example. cbn [openUpvalues set_openUpvalues]. left.
      * vm_compute. reflexivity.
      * destruct (Hclosed ltac:(lia)) as (v & Hv & Hheap).
        vm_compute in Hv. injection Hv as <-. exact Hheap.
    + destruct (Hnodes 3 0) as [_ Hopen].
      * unfold upvalues_example. cbn [openUpvalues set_openUpvalues].
        right. left.
      * vm_compute. reflexivity.
      * transitivity (heap upvalues_example !! 3);
          [exact (Hopen ltac:(lia))|vm_compute; reflexivity].
Defined.

(** ** The properties above on concrete states *)

Lemma global_variables_witness :
  exec OP_DEFINE_GLOBAL global_example
  = Some (None,
          set_stackTop 1
            (set_globals (<[2 := NUMBER_VAL one]> ∅)
               (set_frames [mkFrame 1 2 0] global_example))).
Proof.
  destruct (global_variables global_example
              (set_frames [mkFrame 1 2 0] global_example) 2 (NUMBER_VAL one) 1)
    as [H _].
  - vm_compute. reflexivity.
  - vm_compute. reflexivity.
  - vm_compute. reflexivity.
  - exact H.
Defined.

Lemma property_lookup_witness :
  exists vm',
    exec OP_GET_PROPERTY property_example = Some (None, vm') /\
    stackTop vm' = 2 /\ stack vm' !! 1 = Some (NUMBER_VAL one).
Proof.
  destruct (property_lookup property_example
              (set_frames [mkFrame 1 2 0] property_example) 2 3 4 2
              (<[2 := NUMBER_VAL one]> ∅) ∅ 1) as [H _].
  - vm_compute. reflexivity.
  - vm_compute. reflexivity.
  - vm_compute. reflexivity.
  - vm_compute. reflexivity.
  - vm_compute. reflexivity.
  - destruct (H (NUMBER_VAL one)) as (vm' & Hexec & Htop & Hstack & _).
    + vm_compute. reflexivity.
    + exists vm'. split; [exact Hexec|]. split; [exact Htop|exact Hstack].
Defined.

Lemma inherit_copies_methods_witness :
  exists inherited,
    exec OP_INHERIT inherit_example
    = Some (None,
            set_stackTop 2
              (set_heap (<[3 := OBJ_CLASS 4 inherited]> (heap inherit_example))
                 inherit_example)) /\
    tableGet inherited 5 = Some (OBJ_VAL 1).
Proof.
  destruct (inherit_copies_methods inherit_example (OBJ_VAL 2) 3 4 ∅ 1)
    as [_ H].
  - vm_compute. reflexivity.
  - vm_compute. reflexivity.
  - vm_compute. reflexivity.
  - vm_compute. reflexivity.
  - destruct (H 2 4 (<[5 := OBJ_VAL 1]> ∅) eq_refl)
      as (inherited & Hexec & Hin & _).
    + vm_compute. reflexivity.
    + exists inherited. split; [exact Hexec|]. apply Hin.
      vm_compute. reflexivity.
Defined.

Lemma add_strings_or_numbers_witness :
  exec OP_ADD array_example
  = Some (None,
          set_stackTop 2
            (set_stack (<[1 := NUMBER_VAL (SFadd prec64 emax64 one two)]>
                          (stack array_example)) array_example)).
Proof.
  destruct (add_strings_or_numbers array_example (NUMBER_VAL one)
              (NUMBER_VAL two) 1) as (_ & H & _).
  - vm_compute. reflexivity.
  - vm_compute. reflexivity.
  - vm_compute. reflexivity.
  - apply (H one two); reflexivity.
Defined.

Lemma divide_and_modulo_witness :
  exec OP_DIVIDE array_example
  = Some (None,
          set_stackTop 2
            (set_stack (<[1 := NUMBER_VAL (SFdiv prec64 emax64 one two)]>
                          (stack array_example)) array_example)).
Proof.
  destruct (divide_and_modulo array_example (NUMBER_VAL one)
              (NUMBER_VAL two) 1) as (_ & H).
  - vm_compute. reflexivity.
  - vm_compute. reflexivity.
  - vm_compute. reflexivity.
  - destruct (H one two eq_refl eq_refl) as [Hdiv _]. exact Hdiv.
Defined.

Lemma call_of_native_witness :
  (exists vm',
     callValue (OBJ_VAL 3) 1 native_call_example = Some (true, vm') /\
     stackTop vm' = 2 /\
     stack vm' !! 1 = Some (NUMBER_VAL (int_to_double 3))) /\
  callValue (OBJ_VAL 3) 1 native_error_example = None.
Proof.
  split.
  - destruct (call_of_native native_call_example native_call_example 3
                lengthNative 1 (NUMBER_VAL (int_to_double 3))) as [H _].
    + vm_compute. reflexivity.
    + vm_compute. lia.
    + vm_compute. reflexivity.
    + destruct H as (vm' & Hcall & Htop & Hstack & _).
      * vm_compute. lia.
      * vm_compute. lia.
      * exists vm'. split; [exact Hcall|]. split; [exact Htop|exact Hstack].
  - destruct (call_of_native native_error_example
                (after_runtimeError
                   "SKILL ISSUE: head() called on an empty array."
                   native_error_example)
                3 arrayHead 1 NIL_VAL) as [_ H].
    + vm_compute. reflexivity.
    + vm_compute. lia.
    + vm_compute. reflexivity.
    + apply H. reflexivity.
Defined.

(** * Further properties of the compiler *)

Module ChunkFacts.
Import Compiler.

Lemma cur_Some k ks s : compiler s = k :: ks -> cur s = Some (k, s).
Proof.
  intros H. unfold cur. erewrite bind_Some by reflexivity.
  rewrite H. reflexivity.
Qed.

Lemma current_function_inv s fn :
  current_function s = Some fn ->
  exists k ks, compiler s = k :: ks /\
               heap (vm s) !! function k = Some (OBJ_FUNCTION fn).
Proof.
  unfold current_function. destruct (compiler s) as [|k ks]; [discriminate|].
  destruct (heap (vm s) !! function k) as [[| f | | | | | | | |]|] eqn:E;
    try discriminate.
  intros [= ->]. eauto.
Qed.

Lemma chunk_of_inv s c :
  chunk_of s = Some c ->
  exists fn, current_function s = Some fn /\ chunk fn = c.
Proof.
  unfold chunk_of. destruct (current_function s) as [fn|]; [|discriminate].
  intros [= <-]. eauto.
Qed.

Lemma set_vm_id s : set_vm (vm s) s = s.
Proof. destruct s; reflexivity. Qed.

Lemma cur_function_Some s fn :
  current_function s = Some fn -> cur_function s = Some (fn, s).
Proof.
  intros H. destruct (current_function_inv _ _ H) as (k & ks & Hk & Hfn).
  unfold cur_function. erewrite bind_Some by (eapply cur_Some; exact Hk).
  unfold liftVM. rewrite (function_of_Some _ _ _ Hfn). rewrite set_vm_id.
  reflexivity.
Qed.

Lemma currentChunk_Some s c :
  chunk_of s = Some c -> currentChunk s = Some (c, s).
Proof.
  intros H. destruct (chunk_of_inv _ _ H) as (fn & Hfn & <-).
  unfold currentChunk. erewrite bind_Some by (apply cur_function_Some; exact Hfn).
  reflexivity.
Qed.

Lemma modify_chunk_Some s c f :
  chunk_of s = Some c -> modify_chunk f s = Some (tt, with_chunk (f c) s).
Proof.
  intros H. destruct (chunk_of_inv _ _ H) as (fn & Hfn & <-).
  destruct (current_function_inv _ _ Hfn) as (k & ks & Hk & Hheap).
  unfold modify_chunk, modify_function, with_chunk.
  erewrite bind_Some by (eapply cur_Some; exact Hk).
  erewrite bind_Some
    by (unfold liftVM; rewrite (function_of_Some _ _ _ Hheap), set_vm_id;
        reflexivity).
  rewrite Hk, Hheap. destruct fn. reflexivity.
Qed.

Lemma chunk_of_with_chunk s c c' :
  chunk_of s = Some c -> chunk_of (with_chunk c' s) = Some c'.
Proof.
  intros H. destruct (chunk_of_inv _ _ H) as (fn & Hfn & <-).
  destruct (current_function_inv _ _ Hfn) as (k & ks & Hk & Hheap).
  unfold with_chunk, chunk_of, current_function. rewrite Hk, Hheap.
  cbn [compiler vm with_heap set_vm heap set_heap]. rewrite Hk.
  rewrite lookup_insert_eq. reflexivity.
Qed.

Lemma with_chunk_with_chunk s c c1 c2 :
  chunk_of s = Some c -> with_chunk c2 (with_chunk c1 s) = with_chunk c2 s.
Proof.
  intros H. destruct (chunk_of_inv _ _ H) as (fn & Hfn & <-).
  destruct (current_function_inv _ _ Hfn) as (k & ks & Hk & Hheap).
  unfold with_chunk. rewrite Hk, Hheap.
  cbn [compiler vm with_heap set_vm heap set_heap]. rewrite Hk.
  rewrite lookup_insert_eq. unfold with_heap.
  cbn [compiler vm with_heap set_vm heap set_heap arity upvalueCount returnType
       name]. rewrite insert_insert_eq. reflexivity.
Qed.

Lemma parser_with_chunk s c : parser (with_chunk c s) = parser s.
Proof.
  unfold with_chunk. destruct (compiler s) as [|k ks]; [reflexivity|].
  destruct (heap (vm s) !! function k) as [[| f | | | | | | | |]|]; reflexivity.
Qed.

Lemma compiler_with_chunk s c : compiler (with_chunk c s) = compiler s.
Proof.
  unfold with_chunk. destruct (compiler s) as [|k ks] eqn:E; [exact E|].
  destruct (heap (vm s) !! function k) as [[| f | | | | | | | |]|];
    exact E.
Qed.

Lemma stderr_with_chunk s c : stderr (vm (with_chunk c s)) = stderr (vm s).
Proof.
  unfold with_chunk. destruct (compiler s) as [|k ks]; [reflexivity|].
  destruct (heap (vm s) !! function k) as [[| f | | | | | | | |]|]; reflexivity.
Qed.

Lemma emitByte_Some s c b :
  chunk_of s = Some c ->
  emitByte b s
  = Some (tt, with_chunk (writeChunk c b (line (previous (parser s)))) s).
Proof.
  intros H. unfold emitByte, get_parser.
  erewrite bind_Some by (erewrite bind_Some by reflexivity; reflexivity).
  exact (modify_chunk_Some s c
           (fun c => writeChunk c b (line (previous (parser s)))) H).
Qed.

End ChunkFacts.

(** ** Reporting errors *)

Lemma errorAt_panic s token message :
  Compiler.panicMode (Compiler.parser s) = true ->
  Compiler.errorAt token message s = Some (tt, s).
Proof.
  intros Hp. unfold Compiler.errorAt, Compiler.get_parser.
  erewrite bind_Some by (erewrite bind_Some by reflexivity; reflexivity).
  rewrite Hp. reflexivity.
Qed.

Lemma errorAt_first s token message :
  Compiler.panicMode (Compiler.parser s) = false ->
  Compiler.errorAt token message s
  = Some (tt,
          Compiler.set_parser
            (Compiler.mkParser (Compiler.current (Compiler.parser s))
               (Compiler.previous (Compiler.parser s)) true true)
            (Compiler.set_vm
               (set_stderr (stderr (Compiler.vm s) ++ [message]) (Compiler.vm s))
               s)).
Proof.
  intros Hp. unfold Compiler.errorAt, Compiler.get_parser.
  erewrite bind_Some by (erewrite bind_Some by reflexivity; reflexivity).
  rewrite Hp. reflexivity.
Qed.

Lemma error_first s message :
  Compiler.panicMode (Compiler.parser s) = false ->
  Compiler.error message s
  = Some (tt,
          Compiler.set_parser
            (Compiler.mkParser (Compiler.current (Compiler.parser s))
               (Compiler.previous (Compiler.parser s)) true true)
            (Compiler.set_vm
               (set_stderr (stderr (Compiler.vm s) ++ [message]) (Compiler.vm s))
               s)).
Proof.
  intros Hp. unfold Compiler.error, Compiler.get_parser.
  erewrite bind_Some by (erewrite bind_Some by reflexivity; reflexivity).
  apply errorAt_first. exact Hp.
Qed.

(** X17: [errorAt] prints the message and sets [hadError] and
    [panicMode]; in panic mode it does nothing.  So of two errors in a row
    only the first is reported. *)
Theorem error_reported_once (s : Compiler.State) (token : Compiler.Token)
    (message : string) :
  (Compiler.panicMode (Compiler.parser s) = true ->
   Compiler.errorAt token message s = Some (tt, s)) /\
  (Compiler.panicMode (Compiler.parser s) = false ->
   Compiler.errorAt token message s
   = Some (tt,
           Compiler.set_parser
             (Compiler.mkParser (Compiler.current (Compiler.parser s))
                (Compiler.previous (Compiler.parser s)) true true)
             (Compiler.set_vm
                (set_stderr (stderr (Compiler.vm s) ++ [message]) (Compiler.vm s))
                s))) /\
  (forall token2 message2,
     (Compiler.errorAt token message ;; Compiler.errorAt token2 message2) s
     = Compiler.errorAt token message s).
Proof.
  pose proof (errorAt_panic s token message) as Hpanic.
  pose proof (errorAt_first s token message) as Hfirst.
  split; [exact Hpanic|]. split; [exact Hfirst|].
  intros token2 message2.
  destruct (Compiler.panicMode (Compiler.parser s)) eqn:Hp.
  - erewrite bind_Some by (apply Hpanic; reflexivity).
    unfold Compiler.errorAt, Compiler.get_parser.
    erewrite bind_Some by (erewrite bind_Some by reflexivity; reflexivity).
    rewrite Hp.
    erewrite bind_Some by (erewrite bind_Some by reflexivity; reflexivity).
    rewrite Hp. reflexivity.
  - erewrite bind_Some by (apply Hfirst; reflexivity).
    rewrite (Hfirst eq_refl).
    unfold Compiler.errorAt, Compiler.get_parser.
    erewrite bind_Some by (erewrite bind_Some by reflexivity; reflexivity).
    reflexivity.
Qed.

Lemma error_reported_once_witness :
  exists s',
    Compiler.errorAt (tok Compiler.TOKEN_EOF "") "Expect expression."
      compiler_init = Some (tt, s') /\
    stderr (Compiler.vm s') = ["Expect expression."%string] /\
    Compiler.hadError (Compiler.parser s') = true.
Proof.
  destruct (error_reported_once compiler_init (tok Compiler.TOKEN_EOF "")
              "Expect expression.") as (_ & H & _).
  eexists. split; [apply H; reflexivity|]. split; vm_compute; reflexivity.
Defined.

(** ** Jumps *)

(** The two bytes that [patchJump] and [emitLoop] write are the operand
    that [READ_SHORT] reads. *)
Lemma byte_of_int_low j : Compiler.byte_of_int (Z.of_nat j) = j mod 256.
Proof.
  unfold Compiler.byte_of_int.
  change 255%Z with (Z.ones 8). rewrite Z.land_ones by lia.
  change (2 ^ 8)%Z with (Z.of_nat 256).
  rewrite <- Nat2Z.inj_mod. apply Nat2Z.id.
Qed.

Lemma byte_of_int_high j :
  Compiler.byte_of_int (Z.shiftr (Z.of_nat j) 8) = (j / 256) mod 256.
Proof.
  rewrite Z.shiftr_div_pow2 by lia. change (2 ^ 8)%Z with (Z.of_nat 256).
  rewrite <- Nat2Z.inj_div. apply byte_of_int_low.
Qed.

Lemma lor_bytes (a b : N) : (b < 256)%N -> N.lor (N.shiftl a 8) b = (a * 256 + b)%N.
Proof.
  intros Hb. rewrite N.shiftl_mul_pow2. change (2 ^ 8)%N with 256%N.
  assert (N.land (a * 256) b = 0%N) as Hland.
  2: { rewrite <- (N.lxor_lor _ _ Hland). symmetry.
       apply N.add_nocarry_lxor. exact Hland. }
  apply N.bits_inj_0. intros n. rewrite N.land_spec.
  destruct (N.lt_ge_cases n 8) as [Hn|Hn].
  - change 256%N with (2 ^ 8)%N. rewrite N.mul_pow2_bits_low by exact Hn.
    reflexivity.
  - rewrite (N.bits_above_log2 b n); [apply andb_false_r|].
    destruct (N.eq_dec b 0%N) as [->|Hb0]; [simpl; lia|].
    apply N.log2_lt_pow2; [lia|].
    eapply N.lt_le_trans; [exact Hb|]. change 256%N with (2 ^ 8)%N.
    apply N.pow_le_mono_r; [lia|exact Hn].
Qed.

Lemma short_of_bytes_spec j :
  (Z.of_nat j <= 65535)%Z ->
  short_of_bytes (Compiler.byte_of_int (Z.shiftr (Z.of_nat j) 8))
                 (Compiler.byte_of_int (Z.of_nat j)) = j.
Proof.
  intros Hj. rewrite byte_of_int_low, byte_of_int_high.
  unfold short_of_bytes.
  assert (j / 256 < 256) as Hhi
    by (apply Nat.Div0.div_lt_upper_bound; lia).
  rewrite (Nat.mod_small (j / 256)) by exact Hhi.
  pose proof (Nat.mod_upper_bound j 256 ltac:(lia)) as Hlo0.
  rewrite lor_bytes by lia.
  change 65535%N with (N.ones 16). rewrite N.land_ones.
  change (2 ^ 16)%N with 65536%N.
  pose proof (Nat.div_mod_eq j 256) as Hdm.
  pose proof (Nat.mod_upper_bound j 256 ltac:(lia)) as Hlo.
  rewrite N.mod_small by lia. lia.
Qed.

Lemma READ_SHORT_Some fs fr fa us f hi lo vm :
  frames vm = fs ++ [fr] ->
  heap vm !! closure fr = Some (OBJ_CLOSURE fa us) ->
  heap vm !! fa = Some (OBJ_FUNCTION f) ->
  code (chunk f) !! ip fr = Some hi ->
  code (chunk f) !! S (ip fr) = Some lo ->
  READ_SHORT vm
  = Some (short_of_bytes hi lo,
          set_frames (fs ++ [mkFrame (closure fr) (S (S (ip fr))) (slots fr)]) vm).
Proof.
  intros Hfs Hc Hf Hhi Hlo. unfold READ_SHORT.
  vm_step ltac:(eapply READ_BYTE_Some; eassumption).
  vm_step ltac:(eapply (READ_BYTE_Some fs
                          (mkFrame (closure fr) (S (ip fr)) (slots fr)) fa us f lo);
                [reflexivity|exact Hc|exact Hf|exact Hlo]).
  reflexivity.
Qed.

(** X18: [patchJump] writes the distance from the operand of the jump to
    the end of the chunk into the two operand bytes and changes nothing
    else; a jump instruction that reads them moves [ip] to the position
    that was the end of the chunk when [patchJump] ran.  When the distance
    does not fit two bytes, "Too much code to jump over." is reported. *)
Theorem patched_jump_lands (s : Compiler.State) (c : Chunk) (offset : nat) :
  chunk_of s = Some c ->
  offset + 1 < length (code c) ->
  ((Z.of_nat (length (code c)) - Z.of_nat offset - 2 <= Compiler.UINT16_MAX)%Z ->
   exists c',
     Compiler.patchJump offset s = Some (tt, with_chunk c' s) /\
     length (code c') = length (code c) /\
     lines c' = lines c /\ constants c' = constants c /\
     (forall i, i <> offset -> i <> offset + 1 -> code c' !! i = code c !! i) /\
     forall (vm : VM) fs fr fa us f,
       frames vm = fs ++ [fr] ->
       heap vm !! closure fr = Some (OBJ_CLOSURE fa us) ->
       heap vm !! fa = Some (OBJ_FUNCTION f) ->
       chunk f = c' -> ip fr = offset ->
       exec OP_JUMP vm
       = Some (None,
               set_frames
                 (fs ++ [mkFrame (closure fr) (length (code c)) (slots fr)]) vm)) /\
  ((Z.of_nat (length (code c)) - Z.of_nat offset - 2 > Compiler.UINT16_MAX)%Z ->
   Compiler.panicMode (Compiler.parser s) = false ->
   exists s',
     Compiler.patchJump offset s = Some (tt, s') /\
     Compiler.hadError (Compiler.parser s') = true /\
     stderr (Compiler.vm s')
     = stderr (Compiler.vm s) ++ ["Too much code to jump over."%string]).
Proof.
  intros Hc Hoff.
  set (jump := (Z.of_nat (length (code c)) - Z.of_nat offset - 2)%Z).
  set (c' := mkChunk
               (<[offset + 1 := Compiler.byte_of_int jump]>
                  (<[offset := Compiler.byte_of_int (Z.shiftr jump 8)]> (code c)))
               (lines c) (constants c)).
  split.
  - intros Hfit. exists c'. split; [|split; [|split; [|split; [|split]]]].
    + unfold Compiler.patchJump.
      erewrite bind_Some by (apply ChunkFacts.currentChunk_Some; exact Hc).
      cbv zeta. fold jump.
      rewrite decide_False by (unfold Compiler.UINT16_MAX in *; lia).
      erewrite bind_Some by reflexivity.
      erewrite bind_Some by (apply ChunkFacts.currentChunk_Some; exact Hc).
      rewrite decide_True by exact Hoff.
      apply (ChunkFacts.modify_chunk_Some s c
               (fun c => mkChunk
                  (<[offset + 1 := Compiler.byte_of_int jump]>
                     (<[offset := Compiler.byte_of_int (Z.shiftr jump 8)]> (code c)))
                  (lines c) (constants c)) Hc).
    + unfold c'. cbn [code]. rewrite !length_insert. reflexivity.
    + reflexivity.
    + reflexivity.
    + intros i Hi1 Hi2. unfold c'. cbn [code].
      rewrite !list_lookup_insert_ne by congruence. reflexivity.
    + intros vm fs fr fa us f Hfs Hclosure Hf Hchunk Hip.
      assert (jump = Z.of_nat (length (code c) - offset - 2)) as Hj
        by (unfold jump; lia).
      assert (code (chunk f) !! ip fr
              = Some (Compiler.byte_of_int (Z.shiftr jump 8))) as Hhi.
      { rewrite Hchunk, Hip. unfold c'. cbn [code].
        rewrite list_lookup_insert_ne by lia.
        apply list_lookup_insert_eq. lia. }
      assert (code (chunk f) !! S (ip fr)
              = Some (Compiler.byte_of_int jump)) as Hlo.
      { rewrite Hchunk, Hip. unfold c'. cbn [code].
        replace (S offset) with (offset + 1) by lia.
        apply list_lookup_insert_eq. rewrite length_insert. lia. }
      unfold exec.
      vm_step ltac:(eapply READ_SHORT_Some; eassumption).
      vm_step ltac:(eapply frame_Some; cbn [frames set_frames]; reflexivity).
      vm_step ltac:(eapply set_frame_ip_Some; cbn [frames set_frames];
                    reflexivity).
      cbn [closure ip slots]. rewrite Hj, short_of_bytes_spec
        by (unfold jump, Compiler.UINT16_MAX in *; lia).
      rewrite Hip.
      replace (S (S offset) + (length (code c) - offset - 2))
        with (length (code c)) by lia.
      reflexivity.
  - intros Hfar Hpanic.
    pose proof (error_first s "Too much code to jump over." Hpanic) as Herr.
    eexists. split.
    + unfold Compiler.patchJump.
      erewrite bind_Some by (apply ChunkFacts.currentChunk_Some; exact Hc).
      cbv zeta. fold jump. rewrite decide_True by exact Hfar.
      erewrite bind_Some by exact Herr.
      match goal with |- bind Compiler.currentChunk _ ?s1 = _ =>
        assert (chunk_of s1 = Some c) as Hc1 by exact Hc end.
      erewrite bind_Some by (apply ChunkFacts.currentChunk_Some; exact Hc1).
      rewrite decide_True by exact Hoff.
      apply (ChunkFacts.modify_chunk_Some _ c
               (fun c => mkChunk
                  (<[offset + 1 := Compiler.byte_of_int jump]>
                     (<[offset := Compiler.byte_of_int (Z.shiftr jump 8)]> (code c)))
                  (lines c) (constants c)) Hc1).
    + rewrite ChunkFacts.parser_with_chunk, ChunkFacts.stderr_with_chunk.
      split; reflexivity.
Qed.

Lemma patched_jump_lands_witness :
  chunk_of jump_example = Some (mkChunk [2; 33; 255; 255; 5] [0; 0; 0; 0; 0] []) /\
  2 + 1 < 5 /\
  exists c',
    Compiler.patchJump 2 jump_example = Some (tt, with_chunk c' jump_example) /\
    length (code c') = 5.
Proof.
  split; [vm_compute; reflexivity|]. split; [lia|].
  destruct (patched_jump_lands jump_example
              (mkChunk [2; 33; 255; 255; 5] [0; 0; 0; 0; 0] []) 2) as [H _].
  - vm_compute. reflexivity.
  - cbn [code length]. lia.
  - destruct H as (c' & Hp & Hlen & _).
    + vm_compute. discriminate.
    + exists c'. split; [exact Hp|exact Hlen].
Defined.

(** X19: [emitLoop] appends the loop instruction and a two-byte operand;
    when the virtual machine executes that instruction, [ip] moves back to
    [loopStart].  A loop body that does not fit two bytes is reported as
    "Loop body too large.". *)
Theorem emitted_loop_jumps_back (s : Compiler.State) (c : Chunk) (loopStart : nat) :
  chunk_of s = Some c ->
  loopStart <= length (code c) ->
  ((Z.of_nat (length (code c)) - Z.of_nat loopStart + 3 <= Compiler.UINT16_MAX)%Z ->
   exists hi lo,
     let l := Compiler.line (Compiler.previous (Compiler.parser s)) in
     let c' := mkChunk (code c ++ [opcode_byte OP_LOOP; hi; lo])
                       (lines c ++ [l; l; l]) (constants c) in
     Compiler.emitLoop loopStart s = Some (tt, with_chunk c' s) /\
     forall (vm : VM) fs fr fa us f,
       frames vm = fs ++ [fr] ->
       heap vm !! closure fr = Some (OBJ_CLOSURE fa us) ->
       heap vm !! fa = Some (OBJ_FUNCTION f) ->
       chunk f = c' -> ip fr = length (code c) + 1 ->
       exec OP_LOOP vm
       = Some (None,
               set_frames (fs ++ [mkFrame (closure fr) loopStart (slots fr)]) vm)) /\
  ((Z.of_nat (length (code c)) - Z.of_nat loopStart + 3 > Compiler.UINT16_MAX)%Z ->
   Compiler.panicMode (Compiler.parser s) = false ->
   exists s',
     Compiler.emitLoop loopStart s = Some (tt, s') /\
     Compiler.hadError (Compiler.parser s') = true /\
     stderr (Compiler.vm s')
     = stderr (Compiler.vm s) ++ ["Loop body too large."%string]).
Proof.
  intros Hc Hstart.
  set (l := Compiler.line (Compiler.previous (Compiler.parser s))).
  set (j := length (code c) + 3 - loopStart).
  set (c1 := Compiler.writeChunk c (opcode_byte OP_LOOP) l).
  assert (chunk_of (with_chunk c1 s) = Some c1) as Hc1
    by (eapply ChunkFacts.chunk_of_with_chunk; exact Hc).
  assert ((Z.of_nat (length (code c1)) - Z.of_nat loopStart + 2)%Z = Z.of_nat j)
    as Hoffset.
  { unfold c1, Compiler.writeChunk, j. cbn [code]. rewrite length_app.
    cbn [length]. lia. }
  assert (opcode_byte OP_LOOP mod 256 = opcode_byte OP_LOOP) as Hop
    by (vm_compute; reflexivity).
  split.
  - intros Hfit.
    exists (Compiler.byte_of_int (Z.shiftr (Z.of_nat j) 8)),
           (Compiler.byte_of_int (Z.of_nat j)).
    cbv zeta. fold l. split.
    + unfold Compiler.emitLoop.
      erewrite bind_Some by (apply ChunkFacts.emitByte_Some; exact Hc).
      fold l. fold c1.
      erewrite bind_Some by (apply ChunkFacts.currentChunk_Some; exact Hc1).
      cbv zeta. rewrite Hoffset.
      rewrite decide_False by (unfold Compiler.UINT16_MAX, j in *; lia).
      erewrite bind_Some by reflexivity.
      erewrite bind_Some by (apply ChunkFacts.emitByte_Some; exact Hc1).
      rewrite (ChunkFacts.with_chunk_with_chunk s c) by exact Hc.
      rewrite ChunkFacts.parser_with_chunk. fold l.
      match goal with |- Compiler.emitByte _ (with_chunk ?c2 s) = _ =>
        assert (chunk_of (with_chunk c2 s) = Some c2) as Hc2
          by (eapply ChunkFacts.chunk_of_with_chunk; exact Hc) end.
      rewrite (ChunkFacts.emitByte_Some _ _ _ Hc2).
      rewrite (ChunkFacts.with_chunk_with_chunk s c) by exact Hc.
      rewrite ChunkFacts.parser_with_chunk. fold l.
      unfold c1, Compiler.writeChunk. cbn [code lines constants].
      rewrite Hop, <- !app_assoc. cbn [app].
      rewrite byte_of_int_low, byte_of_int_high.
      rewrite !Nat.Div0.mod_mod. reflexivity.
    + intros vm fs fr fa us f Hfs Hclosure Hf Hchunk Hip.
      assert (code (chunk f) !! ip fr
              = Some (Compiler.byte_of_int (Z.shiftr (Z.of_nat j) 8))) as Hhi.
      { rewrite Hchunk, Hip. cbn [code].
        rewrite lookup_app_r by lia.
        replace (length (code c) + 1 - length (code c)) with 1 by lia.
        reflexivity. }
      assert (code (chunk f) !! S (ip fr)
              = Some (Compiler.byte_of_int (Z.of_nat j))) as Hlo.
      { rewrite Hchunk, Hip. cbn [code].
        rewrite lookup_app_r by lia.
        replace (S (length (code c) + 1) - length (code c)) with 2 by lia.
        reflexivity. }
      unfold exec.
      vm_step ltac:(eapply READ_SHORT_Some; eassumption).
      vm_step ltac:(eapply frame_Some; cbn [frames set_frames]; reflexivity).
      cbn [closure ip slots].
      rewrite short_of_bytes_spec
        by (unfold j, Compiler.UINT16_MAX in *; lia).
      rewrite decide_True by (unfold j; lia).
      vm_step ltac:(eapply set_frame_ip_Some; cbn [frames set_frames];
                    reflexivity).
      rewrite Hip.
      replace (S (S (length (code c) + 1)) - j) with loopStart
        by (unfold j; lia).
      reflexivity.
  - intros Hfar Hpanic.
    assert (Compiler.panicMode (Compiler.parser (with_chunk c1 s)) = false)
      as Hpanic1 by (rewrite ChunkFacts.parser_with_chunk; exact Hpanic).
    pose proof (error_first (with_chunk c1 s) "Loop body too large." Hpanic1)
      as Herr.
    eexists. split.
    + unfold Compiler.emitLoop.
      erewrite bind_Some by (apply ChunkFacts.emitByte_Some; exact Hc).
      fold l. fold c1.
      erewrite bind_Some by (apply ChunkFacts.currentChunk_Some; exact Hc1).
      cbv zeta. rewrite Hoffset.
      rewrite decide_True by (unfold Compiler.UINT16_MAX, j in *; lia).
      erewrite bind_Some by exact Herr.
      match goal with |- bind (Compiler.emitByte _) _ ?s1 = _ =>
        assert (chunk_of s1 = Some c1) as Hc1' by exact Hc1 end.
      erewrite bind_Some by (apply ChunkFacts.emitByte_Some; exact Hc1').
      match goal with |- Compiler.emitByte _ (with_chunk ?c2 ?s1) = _ =>
        assert (chunk_of (with_chunk c2 s1) = Some c2) as Hc2
          by (eapply ChunkFacts.chunk_of_with_chunk; exact Hc1') end.
      rewrite (ChunkFacts.emitByte_Some _ _ _ Hc2). reflexivity.
    + rewrite !ChunkFacts.parser_with_chunk, !ChunkFacts.stderr_with_chunk.
      cbn [Compiler.parser Compiler.set_parser Compiler.vm Compiler.set_vm
           Compiler.hadError stderr set_stderr].
      rewrite ?ChunkFacts.stderr_with_chunk. split; reflexivity.
Qed.

Lemma emitted_loop_jumps_back_witness :
  chunk_of jump_example = Some (mkChunk [2; 33; 255; 255; 5] [0; 0; 0; 0; 0] []) /\
  1 <= 5 /\
  exists hi lo,
    Compiler.emitLoop 1 jump_example
    = Some (tt, with_chunk (mkChunk [2; 33; 255; 255; 5; opcode_byte OP_LOOP; hi; lo]
                                    [0; 0; 0; 0; 0; 0; 0; 0] [])
                  jump_example).
Proof.
  split; [vm_compute; reflexivity|]. split; [lia|].
  destruct (emitted_loop_jumps_back jump_example
              (mkChunk [2; 33; 255; 255; 5] [0; 0; 0; 0; 0] []) 1) as [H _].
  - vm_compute. reflexivity.
  - cbn [code length]. lia.
  - destruct H as (hi & lo & Hp & _).
    + vm_compute. discriminate.
    + exists hi, lo. exact Hp.
Defined.
(** * Local variables and scopes of the compiler *)

(** ** [resolveLocal] *)

Lemma resolveLocal_loop_None nm ls : forall n,
  (forall i l, i < n -> ls !! i = Some l -> Compiler.name l <> nm) ->
  Compiler.resolveLocal_loop nm n ls = None.
Proof.
  induction n as [|n IH]; intros H; [reflexivity|].
  cbn [Compiler.resolveLocal_loop].
  destruct (ls !! n) as [l|] eqn:E; [|reflexivity].
  unfold Compiler.identifiersEqual.
  rewrite bool_decide_eq_false_2
    by (intros Heq; apply (H n l); [lia|exact E|symmetry; exact Heq]).
  apply IH. intros i l' Hi. apply H. lia.
Qed.

Lemma resolveLocal_loop_Some nm ls i l : forall n,
  i < n -> ls !! i = Some l -> Compiler.name l = nm ->
  n <= length ls ->
  (forall j l', i < j -> j < n -> ls !! j = Some l' -> Compiler.name l' <> nm) ->
  Compiler.resolveLocal_loop nm n ls = Some (i, l).
Proof.
  induction n as [|n IH]; intros Hi Hl Hnm Hn Hlater; [lia|].
  cbn [Compiler.resolveLocal_loop].
  destruct (decide (i = n)) as [->|Hne].
  - rewrite Hl. unfold Compiler.identifiersEqual.
    rewrite bool_decide_eq_true_2 by (symmetry; exact Hnm). reflexivity.
  - destruct (lookup_lt_is_Some_2 ls n ltac:(lia)) as [l' Hl'].
    rewrite Hl'. unfold Compiler.identifiersEqual.
    rewrite bool_decide_eq_false_2
      by (intros Heq; apply (Hlater n l'); [lia|lia|exact Hl'|symmetry; exact Heq]).
    apply IH; [lia|exact Hl|exact Hnm|lia|].
    intros j l'' Hj1 Hj2. apply Hlater; lia.
Qed.

(** X20: [resolveLocal] finds the local of the given name that was
    declared last, so an inner declaration shadows an outer one; it
    answers -1 ([None]) when no local has the name, and reports "Can't
    read local variable in its own initializer." when the local found is
    not yet initialised. *)
Theorem resolveLocal_innermost (s : Compiler.State) (k : nat)
    (c : Compiler.Compiler) (nm : string) :
  Compiler.compiler s !! k = Some c ->
  ((forall l, l ∈ Compiler.locals c -> Compiler.name l <> nm) ->
   Compiler.resolveLocal k nm s = Some (None, s)) /\
  (forall i l,
     Compiler.locals c !! i = Some l -> Compiler.name l = nm ->
     (forall j l', i < j -> Compiler.locals c !! j = Some l' ->
                   Compiler.name l' <> nm) ->
     (Compiler.depth l <> (-1)%Z ->
      Compiler.resolveLocal k nm s = Some (Some i, s)) /\
     (Compiler.depth l = (-1)%Z ->
      Compiler.panicMode (Compiler.parser s) = false ->
      Compiler.resolveLocal k nm s
      = Some (Some i,
              reported "Can't read local variable in its own initializer." s))).
Proof.
  intros Hk. split.
  - intros Hno. unfold Compiler.resolveLocal.
    erewrite bind_Some by reflexivity.
    erewrite bind_Some by (rewrite Hk; reflexivity).
    rewrite resolveLocal_loop_None; [reflexivity|].
    intros i l _ Hl. apply Hno. eapply list_elem_of_lookup_2. exact Hl.
  - intros i l Hl Hnm Hlater.
    assert (Compiler.resolveLocal_loop nm (length (Compiler.locals c))
              (Compiler.locals c) = Some (i, l)) as Hloop.
    { apply resolveLocal_loop_Some; [|exact Hl|exact Hnm|lia|].
      - eapply lookup_lt_Some. exact Hl.
      - intros j l' Hj _. apply Hlater. exact Hj. }
    split.
    + intros Hd. unfold Compiler.resolveLocal.
      erewrite bind_Some by reflexivity.
      erewrite bind_Some by (rewrite Hk; reflexivity).
      rewrite Hloop. rewrite decide_False by exact Hd.
      erewrite bind_Some by reflexivity. reflexivity.
    + intros Hd Hpanic. unfold Compiler.resolveLocal.
      erewrite bind_Some by reflexivity.
      erewrite bind_Some by (rewrite Hk; reflexivity).
      rewrite Hloop. rewrite decide_True by exact Hd.
      erewrite bind_Some by (apply error_first; exact Hpanic).
      reflexivity.
Qed.

Lemma resolveLocal_innermost_witness :
  Compiler.resolveLocal 0 "a" scope_example = Some (Some 3, scope_example) /\
  Compiler.resolveLocal 0 "c" scope_example = Some (None, scope_example).
Proof.
  destruct (resolveLocal_innermost scope_example 0
              scope_example_compiler "a") as [_ Ha].
  - vm_compute. reflexivity.
  - destruct (resolveLocal_innermost scope_example 0
              scope_example_compiler "c") as [Hc _].
    + vm_compute. reflexivity.
    + split.
      * destruct (Ha 3 (Compiler.mkLocal "a" 2 false)) as [Hfound _].
        -- vm_compute. reflexivity.
        -- vm_compute. reflexivity.
        -- intros j l' Hj Hl'. apply lookup_lt_Some in Hl'.
           cbn [scope_example_compiler Compiler.locals length] in Hl'. lia.
        -- apply Hfound. cbn [Compiler.depth]. lia.
      * apply Hc. intros l Hl.
        cbn [scope_example_compiler Compiler.locals] in Hl.
        repeat (apply elem_of_cons in Hl as [->|Hl];
                [cbn [Compiler.name]; congruence|]).
        apply elem_of_nil in Hl. destruct Hl.
Defined.

(** ** [declareVariable] *)

Lemma modify_cur_Some f s c cs :
  Compiler.compiler s = c :: cs ->
  Compiler.modify_cur f s = Some (tt, Compiler.set_compiler (f c :: cs) s).
Proof.
  intros H. unfold Compiler.modify_cur.
  erewrite bind_Some by reflexivity. rewrite H. reflexivity.
Qed.

(** The loop of [declareVariable] looks at the locals of the current scope
    only: those after the last local of an enclosing scope. *)
Lemma declareVariable_loop_scope nm scope outer :
  match last outer with
  | Some o => in_current_scope scope o = false
  | None => True
  end ->
  forall inner rest,
    Forall (fun l => in_current_scope scope l = true) inner ->
    Compiler.declareVariable_loop nm scope (length outer + length inner)
      (outer ++ inner ++ rest)
    = bool_decide (nm ∈ Compiler.name <$> inner).
Proof.
  intros Houter inner. induction inner as [|x inner IH] using rev_ind;
    intros rest Hin.
  - cbn [length app fmap list_fmap]. rewrite Nat.add_0_r.
    rewrite bool_decide_eq_false_2 by (apply not_elem_of_nil).
    destruct outer as [|o outer _] using rev_ind; [reflexivity|].
    rewrite last_snoc in Houter. rewrite length_app. cbn [length].
    rewrite Nat.add_1_r. cbn [Compiler.declareVariable_loop].
    assert (((outer ++ [o]) ++ rest) !! length outer = Some o) as ->
      by (rewrite <- app_assoc; apply list_lookup_middle; reflexivity).
    unfold in_current_scope in Houter.
    apply orb_false_iff in Houter as [H1 H2]. rewrite H1.
    apply bool_decide_eq_false in H2.
    rewrite (bool_decide_eq_true_2 (Compiler.depth o < scope)%Z) by lia.
    reflexivity.
  - apply Forall_app in Hin as [Hin Hx].
    rewrite Forall_singleton in Hx.
    rewrite length_app. cbn [length]. rewrite Nat.add_assoc, Nat.add_1_r.
    cbn [Compiler.declareVariable_loop].
    assert ((outer ++ (inner ++ [x]) ++ rest) !! (length outer + length inner)
            = Some x) as ->.
    { rewrite <- app_assoc. cbn [app]. rewrite app_assoc.
      apply list_lookup_middle. rewrite length_app. reflexivity. }
    unfold in_current_scope in Hx.
    assert (negb (bool_decide (Compiler.depth x = (-1)%Z))
            && bool_decide (Compiler.depth x < scope)%Z = false) as ->.
    { destruct (bool_decide (Compiler.depth x = (-1)%Z)); [reflexivity|].
      cbn [orb] in Hx. apply bool_decide_eq_true in Hx.
      cbn [negb andb]. apply bool_decide_eq_false. lia. }
    rewrite fmap_app. cbn [fmap list_fmap].
    unfold Compiler.identifiersEqual.
    destruct (decide (nm = Compiler.name x)) as [Heq|Hne].
    + rewrite (bool_decide_eq_true_2 (nm = Compiler.name x)) by exact Heq.
      symmetry. apply bool_decide_eq_true. apply elem_of_app. right.
      apply list_elem_of_singleton. exact Heq.
    + rewrite (bool_decide_eq_false_2 (nm = Compiler.name x)) by exact Hne.
      replace (outer ++ (inner ++ [x]) ++ rest)
        with (outer ++ inner ++ x :: rest)
        by (rewrite <- (app_assoc inner); reflexivity).
      rewrite (IH (x :: rest) Hin).
      apply bool_decide_ext. rewrite elem_of_app, list_elem_of_singleton.
      tauto.
Qed.

Lemma error_panic s message :
  Compiler.panicMode (Compiler.parser s) = true ->
  Compiler.error message s = Some (tt, s).
Proof.
  intros Hp. unfold Compiler.error, Compiler.get_parser.
  erewrite bind_Some by (erewrite bind_Some by reflexivity; reflexivity).
  apply errorAt_panic. exact Hp.
Qed.

(** Reporting at the first match only is what the loop of the source does,
    which goes on after a match: the later calls of [error] find the
    parser in panic mode. *)
Lemma declareVariable_scan_loop nm scope ls : forall n s,
  declareVariable_scan nm scope n ls s
  = (if Compiler.declareVariable_loop nm scope n ls
     then Compiler.error "Already a variable with this name in this scope."
     else ret tt) s.
Proof.
  induction n as [|n IH]; intros s; [reflexivity|].
  cbn [declareVariable_scan Compiler.declareVariable_loop].
  destruct (ls !! n) as [l|]; [|reflexivity].
  destruct (negb (bool_decide (Compiler.depth l = (-1)%Z))
            && bool_decide (Compiler.depth l < scope)%Z); [reflexivity|].
  destruct (Compiler.identifiersEqual nm (Compiler.name l)).
  - destruct (Compiler.panicMode (Compiler.parser s)) eqn:Hp.
    + erewrite bind_Some by (apply error_panic; exact Hp).
      rewrite IH.
      destruct (Compiler.declareVariable_loop nm scope n ls);
        [reflexivity|]. symmetry. apply error_panic. exact Hp.
    + erewrite bind_Some by (apply error_first; exact Hp).
      rewrite IH. rewrite (error_first _ _ Hp).
      destruct (Compiler.declareVariable_loop nm scope n ls);
        [|reflexivity]. apply error_panic. reflexivity.
  - erewrite bind_Some by reflexivity. apply IH.
Qed.

(** X21: inside a block [declareVariable] adds the name just consumed as a
    local that is not yet initialised.  A local of the same name in the
    current scope makes it report "Already a variable with this name in
    this scope." (the local is added all the same); a local of the same
    name in an enclosing scope does not. *)
Theorem declareVariable_checks_current_scope (s : Compiler.State)
    (c : Compiler.Compiler) (cs : list Compiler.Compiler)
    (outer inner : list Compiler.Local) :
  Compiler.compiler s = c :: cs ->
  Compiler.scopeDepth c <> 0%Z ->
  Compiler.locals c = outer ++ inner ->
  Forall (fun l => in_current_scope (Compiler.scopeDepth c) l = true) inner ->
  match last outer with
  | Some o => in_current_scope (Compiler.scopeDepth c) o = false
  | None => True
  end ->
  length (Compiler.locals c) <> Compiler.UINT8_COUNT ->
  let nm := Compiler.lexeme (Compiler.previous (Compiler.parser s)) in
  let declared :=
    with_scope (Compiler.locals c ++ [Compiler.mkLocal nm (-1) false])
               (Compiler.scopeDepth c) in
  (nm ∉ Compiler.name <$> inner ->
   Compiler.declareVariable s = Some (tt, declared s)) /\
  (nm ∈ Compiler.name <$> inner ->
   Compiler.panicMode (Compiler.parser s) = false ->
   Compiler.declareVariable s
   = Some (tt, declared
                 (reported "Already a variable with this name in this scope." s))).
Proof.
  intros Hk Hdepth Hlocals Hin Hout Hroom nm declared.
  assert (Compiler.declareVariable_loop nm (Compiler.scopeDepth c)
            (length (Compiler.locals c)) (Compiler.locals c)
          = bool_decide (nm ∈ Compiler.name <$> inner)) as Hloop.
  { rewrite Hlocals, length_app.
    rewrite <- (app_nil_r inner) at 2.
    apply declareVariable_loop_scope; assumption. }
  split.
  - intros Hfresh. unfold Compiler.declareVariable.
    erewrite bind_Some by (eapply ChunkFacts.cur_Some; exact Hk).
    rewrite decide_False by exact Hdepth.
    unfold Compiler.get_parser.
    erewrite bind_Some by (erewrite bind_Some by reflexivity; reflexivity).
    fold nm. rewrite Hloop, bool_decide_eq_false_2 by exact Hfresh.
    erewrite bind_Some by reflexivity.
    unfold Compiler.addLocal.
    erewrite bind_Some by (eapply ChunkFacts.cur_Some; exact Hk).
    rewrite decide_False by exact Hroom.
    rewrite (modify_cur_Some _ s c cs Hk).
    unfold declared, with_scope. rewrite Hk. reflexivity.
  - intros Hdup Hpanic. unfold Compiler.declareVariable.
    erewrite bind_Some by (eapply ChunkFacts.cur_Some; exact Hk).
    rewrite decide_False by exact Hdepth.
    unfold Compiler.get_parser.
    erewrite bind_Some by (erewrite bind_Some by reflexivity; reflexivity).
    fold nm. rewrite Hloop, bool_decide_eq_true_2 by exact Hdup.
    erewrite bind_Some by (apply error_first; exact Hpanic).
    fold (reported "Already a variable with this name in this scope." s).
    set (s1 := reported "Already a variable with this name in this scope." s).
    assert (Compiler.compiler s1 = c :: cs) as Hk1 by exact Hk.
    unfold Compiler.addLocal.
    erewrite bind_Some by (eapply ChunkFacts.cur_Some; exact Hk1).
    rewrite decide_False by exact Hroom.
    rewrite (modify_cur_Some _ s1 c cs Hk1).
    unfold declared, with_scope. rewrite Hk1. reflexivity.
Qed.

Lemma declareVariable_checks_current_scope_witness :
  Compiler.declareVariable scope_example
  = Some (tt,
          with_scope
            (Compiler.locals scope_example_compiler
               ++ [Compiler.mkLocal "b" (-1) false]) 2
            (reported "Already a variable with this name in this scope."
               scope_example)).
Proof.
  destruct (declareVariable_checks_current_scope scope_example
              scope_example_compiler []
              [Compiler.mkLocal "this" 0 false; Compiler.mkLocal "a" 1 false]
              [Compiler.mkLocal "b" 2 false; Compiler.mkLocal "a" 2 false])
    as [_ H].
  - vm_compute. reflexivity.
  - vm_compute. discriminate.
  - reflexivity.
  - repeat constructor.
  - vm_compute. reflexivity.
  - vm_compute. discriminate.
  - apply H.
    + apply list_elem_of_here.
    + vm_compute. reflexivity.
Defined.

(** ** [endScope] *)

Lemma scoped_state s c cs fn ch ls d :
  Compiler.compiler s = c :: cs ->
  heap (Compiler.vm s) !! Compiler.function c = Some (OBJ_FUNCTION fn) ->
  with_chunk ch (with_scope ls d s)
  = Compiler.mkState (Compiler.parser s) (Compiler.scanner s)
      (Compiler.mkCompiler (Compiler.function c) (Compiler.function_type c) ls
         (Compiler.upvalues c) d :: cs)
      (Compiler.currentClass s)
      (set_heap
         (<[Compiler.function c :=
              OBJ_FUNCTION (mkFunction (arity fn) (upvalueCount fn)
                              (returnType fn) ch (name fn))]>
            (heap (Compiler.vm s)))
         (Compiler.vm s))
      (Compiler.imports s).
Proof.
  intros Hk Hfn. unfold with_scope. rewrite Hk. unfold with_chunk.
  cbn [Compiler.compiler Compiler.set_compiler Compiler.vm Compiler.function].
  rewrite Hfn. reflexivity.
Qed.

Lemma scope_exit_byte_small l : scope_exit_byte l mod 256 = scope_exit_byte l.
Proof. unfold scope_exit_byte. destruct (Compiler.isCaptured l); reflexivity. Qed.

Lemma endScope_loop_spec outer : forall inner n s c cs fn,
  Compiler.compiler s = c :: cs ->
  heap (Compiler.vm s) !! Compiler.function c = Some (OBJ_FUNCTION fn) ->
  Compiler.locals c = outer ++ inner ->
  Forall (fun l => (Compiler.depth l > Compiler.scopeDepth c)%Z) inner ->
  match last outer with
  | Some o => (Compiler.depth o <= Compiler.scopeDepth c)%Z
  | None => True
  end ->
  length inner <= n ->
  Compiler.endScope_loop n s
  = Some (tt,
          with_chunk
            (mkChunk (code (chunk fn) ++ (scope_exit_byte <$> reverse inner))
               (lines (chunk fn)
                  ++ replicate (length inner)
                       (Compiler.line (Compiler.previous (Compiler.parser s))))
               (constants (chunk fn)))
            (with_scope outer (Compiler.scopeDepth c) s)).
Proof.
  induction inner as [|x inner IH] using rev_ind;
    intros n s c cs fn Hk Hfn Hlocals Hin Hout Hn.
  - rewrite app_nil_r in Hlocals.
    assert (with_chunk
              (mkChunk (code (chunk fn) ++ (scope_exit_byte <$> reverse []))
                 (lines (chunk fn)
                    ++ replicate (length (@nil Compiler.Local))
                         (Compiler.line (Compiler.previous (Compiler.parser s))))
                 (constants (chunk fn)))
              (with_scope outer (Compiler.scopeDepth c) s) = s) as ->.
    { rewrite (scoped_state s c cs fn) by assumption.
      cbn [reverse rev_append fmap list_fmap length replicate].
      rewrite !app_nil_r. rewrite <- Hlocals.
      destruct fn as [a u r [co li cn] nm]. cbn [chunk code lines constants
        arity upvalueCount returnType name].
      rewrite insert_id by exact Hfn.
      destruct s as [p sc k cc v im]. cbn in Hk |- *. subst k.
      destruct c, v. reflexivity. }
    destruct n as [|n]; [reflexivity|].
    cbn [Compiler.endScope_loop].
    erewrite bind_Some by (eapply ChunkFacts.cur_Some; exact Hk).
    rewrite Hlocals. destruct (last outer) as [o|]; [|reflexivity].
    rewrite decide_False by lia. reflexivity.
  - apply Forall_app in Hin as [Hin Hx]. rewrite Forall_singleton in Hx.
    rewrite length_app in Hn. cbn [length] in Hn.
    destruct n as [|n]; [lia|].
    cbn [Compiler.endScope_loop].
    erewrite bind_Some by (eapply ChunkFacts.cur_Some; exact Hk).
    rewrite Hlocals, app_assoc, last_snoc.
    rewrite decide_True by exact Hx. cbv beta iota.
    set (l := Compiler.line (Compiler.previous (Compiler.parser s))).
    assert (chunk_of s = Some (chunk fn)) as Hc.
    { unfold chunk_of, current_function. rewrite Hk, Hfn. reflexivity. }
    set (ch1 := Compiler.writeChunk (chunk fn) (scope_exit_byte x) l).
    assert (Compiler.emitByte (scope_exit_byte x) s
            = Some (tt, with_chunk ch1 s)) as Hemit
      by (apply ChunkFacts.emitByte_Some; exact Hc).
    erewrite bind_Some
      by (unfold scope_exit_byte in Hemit;
          destruct (Compiler.isCaptured x); exact Hemit).
    erewrite bind_Some
      by (apply modify_cur_Some; rewrite ChunkFacts.compiler_with_chunk;
          exact Hk).
    cbv beta.
    match goal with |- Compiler.endScope_loop n ?st = _ => set (s1 := st) end.
    set (c' := Compiler.mkCompiler (Compiler.function c)
                 (Compiler.function_type c)
                 (removelast (Compiler.locals c)) (Compiler.upvalues c)
                 (Compiler.scopeDepth c)).
    set (fn1 := mkFunction (arity fn) (upvalueCount fn) (returnType fn) ch1
                  (name fn)).
    assert (Compiler.compiler s1 = c' :: cs) as Hk1 by reflexivity.
    assert (heap (Compiler.vm s1) = <[Compiler.function c := OBJ_FUNCTION fn1]>
                                      (heap (Compiler.vm s))) as Hheap1.
    { unfold s1, with_chunk. rewrite Hk, Hfn. reflexivity. }
    assert (Compiler.parser s1 = Compiler.parser s) as Hparser1
      by (unfold s1; cbn [Compiler.parser Compiler.set_compiler];
          apply ChunkFacts.parser_with_chunk).
    assert (heap (Compiler.vm s1) !! Compiler.function c'
            = Some (OBJ_FUNCTION fn1)) as Hfn1
      by (rewrite Hheap1; apply lookup_insert_eq).
    rewrite (IH n s1 c' cs fn1 Hk1 Hfn1).
    + f_equal. f_equal.
      rewrite (scoped_state s1 c' cs fn1) by assumption.
      rewrite (scoped_state s c cs fn) by assumption.
      rewrite Hparser1, Hheap1, insert_insert_eq. fold l.
      unfold fn1, ch1, Compiler.writeChunk, c'.
      cbn [chunk code lines constants arity upvalueCount returnType name
           Compiler.function Compiler.function_type Compiler.upvalues
           Compiler.scopeDepth].
      rewrite scope_exit_byte_small, reverse_snoc, length_app.
      cbn [length fmap list_fmap]. rewrite Nat.add_1_r.
      cbn [replicate]. rewrite <- !app_assoc. cbn [app].
      unfold s1, with_chunk. rewrite Hk, Hfn. reflexivity.
    + unfold c'. cbn [Compiler.locals]. rewrite Hlocals, app_assoc.
      apply removelast_last.
    + exact Hin.
    + exact Hout.
    + lia.
Qed.

(** X22: [endScope] leaves the block: it removes the locals declared in
    it, last one first, and emits one instruction for each of them,
    [OP_CLOSE_UPVALUE] for a captured local and [OP_POP] otherwise; the
    locals of the enclosing scopes stay. *)
Theorem endScope_pops_scope (s : Compiler.State) (c : Compiler.Compiler)
    (cs : list Compiler.Compiler) (ch : Chunk)
    (outer inner : list Compiler.Local) :
  Compiler.compiler s = c :: cs ->
  chunk_of s = Some ch ->
  Compiler.locals c = outer ++ inner ->
  Forall (fun l => (Compiler.scopeDepth c <= Compiler.depth l)%Z) inner ->
  match last outer with
  | Some o => (Compiler.depth o < Compiler.scopeDepth c)%Z
  | None => True
  end ->
  Compiler.endScope s
  = Some (tt,
          with_chunk
            (mkChunk (code ch ++ (scope_exit_byte <$> reverse inner))
               (lines ch
                  ++ replicate (length inner)
                       (Compiler.line (Compiler.previous (Compiler.parser s))))
               (constants ch))
            (with_scope outer (Compiler.scopeDepth c - 1) s)).
Proof.
  intros Hk Hc Hlocals Hin Hout.
  destruct (ChunkFacts.chunk_of_inv _ _ Hc) as (fn & Hfn & <-).
  destruct (ChunkFacts.current_function_inv _ _ Hfn) as (k & ks & Hk' & Hheap).
  rewrite Hk in Hk'. injection Hk' as <- <-.
  unfold Compiler.endScope.
  erewrite bind_Some by (apply modify_cur_Some; exact Hk).
  cbv beta.
  set (c0 := Compiler.mkCompiler (Compiler.function c)
               (Compiler.function_type c) (Compiler.locals c)
               (Compiler.upvalues c) (Compiler.scopeDepth c - 1)).
  set (s0 := Compiler.set_compiler (c0 :: cs) s).
  assert (Compiler.compiler s0 = c0 :: cs) as Hk0 by reflexivity.
  erewrite bind_Some by (eapply ChunkFacts.cur_Some; exact Hk0).
  assert (heap (Compiler.vm s0) !! Compiler.function c0
          = Some (OBJ_FUNCTION fn)) as Hheap0 by exact Hheap.
  rewrite (endScope_loop_spec outer inner (length (Compiler.locals c0)) s0 c0
             cs fn Hk0 Hheap0).
  - rewrite (scoped_state s0 c0 cs fn) by assumption.
    rewrite (scoped_state s c cs fn) by assumption.
    reflexivity.
  - exact Hlocals.
  - eapply Forall_impl; [exact Hin|]. intros l Hl.
    unfold c0. cbn beta in Hl. cbn [Compiler.scopeDepth]. lia.
  - destruct (last outer) as [o|]; [|exact I].
    unfold c0. cbn [Compiler.scopeDepth]. lia.
  - unfold c0. cbn [Compiler.locals]. rewrite Hlocals, length_app. lia.
Qed.

Lemma endScope_pops_scope_witness :
  Compiler.endScope scope_example
  = Some (tt,
          with_chunk
            (mkChunk [opcode_byte OP_POP; opcode_byte OP_POP] [1; 1] [])
            (with_scope
               [Compiler.mkLocal "this" 0 false; Compiler.mkLocal "a" 1 false]
               1 scope_example)).
Proof.
  apply (endScope_pops_scope scope_example scope_example_compiler []
           (mkChunk [] [] [])
           [Compiler.mkLocal "this" 0 false; Compiler.mkLocal "a" 1 false]
           [Compiler.mkLocal "b" 2 false; Compiler.mkLocal "a" 2 false]).
  - vm_compute. reflexivity.
  - vm_compute. reflexivity.
  - reflexivity.
  - repeat (apply Forall_cons_2; [vm_compute; discriminate|]). apply Forall_nil_2.
  - vm_compute. reflexivity.
Defined.

(** ** [addUpvalue] *)

Lemma liftVM_Some {A} (m : M A) s a v :
  m (Compiler.vm s) = Some (a, v) ->
  Compiler.liftVM m s = Some (a, Compiler.set_vm v s).
Proof. intros H. unfold Compiler.liftVM. rewrite H. reflexivity. Qed.

Lemma addUpvalue_found s k c fn index isLocal i u :
  Compiler.compiler s !! k = Some c ->
  heap (Compiler.vm s) !! Compiler.function c = Some (OBJ_FUNCTION fn) ->
  list_find (fun u => Compiler.index u = index ∧ Compiler.isLocal u = isLocal)
            (take (upvalueCount fn) (Compiler.upvalues c)) = Some (i, u) ->
  Compiler.addUpvalue k index isLocal s = Some (i, s).
Proof.
  intros Hk Hfn Hfind. unfold Compiler.addUpvalue.
  erewrite bind_Some by reflexivity.
  erewrite bind_Some by (rewrite Hk; reflexivity).
  erewrite bind_Some
    by (apply liftVM_Some; apply function_of_Some; exact Hfn).
  cbv zeta. rewrite Hfind. rewrite ChunkFacts.set_vm_id. reflexivity.
Qed.

Lemma addUpvalue_full s k c fn index isLocal :
  Compiler.compiler s !! k = Some c ->
  heap (Compiler.vm s) !! Compiler.function c = Some (OBJ_FUNCTION fn) ->
  list_find (fun u => Compiler.index u = index ∧ Compiler.isLocal u = isLocal)
            (take (upvalueCount fn) (Compiler.upvalues c)) = None ->
  upvalueCount fn = Compiler.UINT8_COUNT ->
  Compiler.addUpvalue k index isLocal s
  = (Compiler.error "Too many closure variables in function." ;; ret 0) s.
Proof.
  intros Hk Hfn Hfind Hfull. unfold Compiler.addUpvalue.
  erewrite bind_Some by reflexivity.
  erewrite bind_Some by (rewrite Hk; reflexivity).
  erewrite bind_Some
    by (apply liftVM_Some; apply function_of_Some; exact Hfn).
  cbv zeta. rewrite Hfind. rewrite ChunkFacts.set_vm_id.
  rewrite decide_True by exact Hfull. reflexivity.
Qed.

Lemma addUpvalue_new s k c fn index isLocal :
  Compiler.compiler s !! k = Some c ->
  heap (Compiler.vm s) !! Compiler.function c = Some (OBJ_FUNCTION fn) ->
  list_find (fun u => Compiler.index u = index ∧ Compiler.isLocal u = isLocal)
            (take (upvalueCount fn) (Compiler.upvalues c)) = None ->
  upvalueCount fn <> Compiler.UINT8_COUNT ->
  Compiler.addUpvalue k index isLocal s
  = Some (upvalueCount fn,
          with_heap
            (<[Compiler.function c :=
                 OBJ_FUNCTION (mkFunction (arity fn) (S (upvalueCount fn))
                                 (returnType fn) (chunk fn) (name fn))]>
               (heap (Compiler.vm s)))
            (Compiler.set_compiler
               (alter (fun c =>
                         Compiler.mkCompiler (Compiler.function c)
                           (Compiler.function_type c) (Compiler.locals c)
                           (take (upvalueCount fn) (Compiler.upvalues c)
                              ++ [Compiler.mkCUpvalue index isLocal])
                           (Compiler.scopeDepth c))
                      k (Compiler.compiler s)) s)).
Proof.
  intros Hk Hfn Hfind Hroom. unfold Compiler.addUpvalue.
  erewrite bind_Some by reflexivity.
  erewrite bind_Some by (rewrite Hk; reflexivity).
  erewrite bind_Some
    by (apply liftVM_Some; apply function_of_Some; exact Hfn).
  cbv zeta. rewrite Hfind. rewrite ChunkFacts.set_vm_id.
  rewrite decide_False by exact Hroom.
  erewrite bind_Some
    by (unfold Compiler.modify_compiler_at;
        erewrite bind_Some by reflexivity; rewrite Hk; reflexivity).
  erewrite bind_Some by (apply liftVM_Some; reflexivity).
  destruct fn. reflexivity.
Qed.

(** X23: [addUpvalue] hands out one index per captured variable: asked
    again for the same variable it answers the same index and changes
    nothing.  Unless the function already has [UINT8_COUNT] upvalues, the
    upvalue at the index answered is the one asked for. *)
Theorem addUpvalue_reuses_index (s : Compiler.State) (k : nat)
    (c : Compiler.Compiler) (fn : ObjFunction) (index : nat) (isLocal : bool) :
  Compiler.compiler s !! k = Some c ->
  heap (Compiler.vm s) !! Compiler.function c = Some (OBJ_FUNCTION fn) ->
  upvalueCount fn <= length (Compiler.upvalues c) ->
  exists n s',
    Compiler.addUpvalue k index isLocal s = Some (n, s') /\
    Compiler.addUpvalue k index isLocal s' = Some (n, s') /\
    (upvalueCount fn <> Compiler.UINT8_COUNT ->
     exists c',
       Compiler.compiler s' !! k = Some c' /\
       Compiler.upvalues c' !! n = Some (Compiler.mkCUpvalue index isLocal) /\
       Compiler.parser s' = Compiler.parser s).
Proof.
  intros Hk Hfn Hlen.
  destruct (list_find
              (fun u => Compiler.index u = index ∧ Compiler.isLocal u = isLocal)
              (take (upvalueCount fn) (Compiler.upvalues c)))
    as [[i u]|] eqn:Hfind.
  - exists i, s.
    pose proof (addUpvalue_found s k c fn index isLocal i u Hk Hfn Hfind) as H.
    split; [exact H|]. split; [exact H|].
    intros _. exists c. split; [exact Hk|]. split; [|reflexivity].
    apply list_find_Some in Hfind as (Hi & [Hindex HisLocal] & _).
    apply lookup_take_Some in Hi as [Hi _]. rewrite Hi.
    destruct u. cbn in Hindex, HisLocal. subst. reflexivity.
  - destruct (decide (upvalueCount fn = Compiler.UINT8_COUNT)) as [Hfull|Hroom].
    + pose proof (addUpvalue_full s k c fn index isLocal Hk Hfn Hfind Hfull)
        as H.
      destruct (Compiler.panicMode (Compiler.parser s)) eqn:Hp.
      * exists 0, s. rewrite H.
        erewrite bind_Some by (apply error_panic; exact Hp).
        split; [reflexivity|]. split; [reflexivity|]. intros Hne. contradiction.
      * exists 0, (reported "Too many closure variables in function." s).
        rewrite H.
        erewrite bind_Some by (apply error_first; exact Hp).
        split; [reflexivity|]. split; [|intros Hne; contradiction].
        rewrite (addUpvalue_full
                   (reported "Too many closure variables in function." s)
                   k c fn index isLocal Hk Hfn Hfind Hfull).
        erewrite bind_Some by (apply error_panic; reflexivity).
        reflexivity.
    + rewrite (addUpvalue_new s k c fn index isLocal Hk Hfn Hfind Hroom).
      eexists _, _. split; [reflexivity|].
      set (c' := Compiler.mkCompiler (Compiler.function c)
                   (Compiler.function_type c) (Compiler.locals c)
                   (take (upvalueCount fn) (Compiler.upvalues c)
                      ++ [Compiler.mkCUpvalue index isLocal])
                   (Compiler.scopeDepth c)).
      set (fn' := mkFunction (arity fn) (S (upvalueCount fn)) (returnType fn)
                    (chunk fn) (name fn)).
      match goal with |- Compiler.addUpvalue _ _ _ ?st = _ /\ _ =>
        set (s' := st) end.
      assert (Compiler.compiler s' !! k = Some c') as Hk'.
      { unfold s', with_heap.
        cbn [Compiler.compiler Compiler.set_vm Compiler.set_compiler].
        rewrite list_lookup_alter, Hk, decide_True by reflexivity.
        reflexivity. }
      assert (heap (Compiler.vm s') !! Compiler.function c'
              = Some (OBJ_FUNCTION fn')) as Hfn'
        by (apply lookup_insert_eq).
      assert (length (take (upvalueCount fn) (Compiler.upvalues c))
              = upvalueCount fn) as Htake by (rewrite length_take; lia).
      split.
      * apply (addUpvalue_found s' k c' fn' index isLocal (upvalueCount fn)
                 (Compiler.mkCUpvalue index isLocal) Hk' Hfn').
        unfold c', fn'. cbn [Compiler.upvalues upvalueCount].
        rewrite take_ge by (rewrite length_app; cbn [length]; lia).
        apply list_find_Some. split; [|split].
        -- rewrite lookup_app_r by lia. rewrite Htake, Nat.sub_diag.
           reflexivity.
        -- split; reflexivity.
        -- intros j y Hj Hlt Hy.
           rewrite lookup_app_l in Hj by lia.
           apply list_find_None in Hfind.
           rewrite Forall_lookup in Hfind. exact (Hfind j y Hj Hy).
      * intros _. exists c'. split; [exact Hk'|]. split; [|reflexivity].
        unfold c'. cbn [Compiler.upvalues].
        rewrite lookup_app_r by lia. rewrite Htake, Nat.sub_diag.
        reflexivity.
Qed.

Lemma addUpvalue_reuses_index_witness :
  exists n s',
    Compiler.addUpvalue 0 1 true scope_example = Some (n, s') /\
    Compiler.addUpvalue 0 1 true s' = Some (n, s').
Proof.
  destruct (addUpvalue_reuses_index scope_example 0 scope_example_compiler
              (mkFunction 0 0 TYPE_NONE (mkChunk [] [] []) None) 1 true)
    as (n & s' & H1 & H2 & _).
  - vm_compute. reflexivity.
  - vm_compute. reflexivity.
  - cbn. lia.
  - exists n, s'. split; [exact H1|exact H2].
Defined.
(** * Runtime errors *)

Lemma reports_weaken {A} (P : VM -> Prop) (f : A -> bool) (m : M A) :
  reports (fun _ => True) f m -> reports P f m.
Proof. intros H vm a vm' _. apply H. exact I. Qed.

Lemma reports_bind {A B} P (f : B -> bool) (m : M A) (k : A -> M B) :
  (forall a, reports (fun _ => True) f (k a)) -> reports P f (bind m k).
Proof.
  intros Hk vm b vm' _ H Hf. apply bind_inv in H as (a & vm1 & _ & H2).
  exact (Hk a vm1 b vm' I H2 Hf).
Qed.

(** After a callee that answers [false] only once it has reported the
    error, the caller may leave with the error at once. *)
Lemma reports_bind_bool {B} P (f : B -> bool) (m : M bool) (k : bool -> M B) :
  reports (fun _ => True) negb m ->
  reports (fun _ => True) f (k true) ->
  reports stack_reset f (k false) ->
  reports P f (bind m k).
Proof.
  intros Hm Ht Hf vm b vm' _ H Hb. apply bind_inv in H as (a & vm1 & H1 & H2).
  destruct a.
  - exact (Ht vm1 b vm' I H2 Hb).
  - exact (Hf vm1 b vm' (Hm vm false vm1 I H1 eq_refl) H2 Hb).
Qed.

Lemma reports_ret_ok {A} P (f : A -> bool) (a : A) :
  f a = false -> reports P f (ret a).
Proof.
  intros Ha vm a' vm' _ H Hf. apply ret_inv in H. injection H as <- _.
  congruence.
Qed.

Lemma reports_ret_reset {A} (f : A -> bool) (a : A) :
  reports stack_reset f (ret a).
Proof.
  intros vm a' vm' Hreset H _. apply ret_inv in H. injection H as _ <-.
  exact Hreset.
Qed.

Lemma reports_undef {A} P (f : A -> bool) : reports P f (undef : M A).
Proof. intros vm a vm' _ H. discriminate. Qed.

Lemma reports_of_option {A} P (f : A -> bool) (o : option A) :
  (forall a, f a = false) -> reports P f (of_option o).
Proof.
  intros Hf. destruct o; [apply reports_ret_ok; apply Hf|apply reports_undef].
Qed.

Lemma runtimeError_resets format vm :
  exists vm', runtimeError format vm = Some (tt, vm') /\ stack_reset vm'.
Proof.
  eexists. split; [apply runtimeError_Some|].
  repeat split. cbn. intros H. apply app_eq_nil in H as [_ H]. discriminate.
Qed.

Lemma reports_runtimeError_then {A} P (f : A -> bool) format (a : A) :
  reports P f (runtimeError format ;; ret a).
Proof.
  intros vm a' vm' _ H _.
  destruct (runtimeError_resets format vm) as (vm1 & H1 & Hreset).
  erewrite bind_Some in H by exact H1.
  apply ret_inv in H. injection H as _ <-. exact Hreset.
Qed.

Lemma reports_fail P format : reports P failed (fail format).
Proof. apply reports_runtimeError_then. Qed.

Create HintDb reports.

#[local] Hint Resolve reports_undef reports_fail reports_runtimeError_then
  reports_ret_reset : reports.
#[local] Hint Extern 1 (reports _ _ (ret _)) =>
  apply reports_ret_ok; reflexivity : reports.
#[local] Hint Extern 1 (reports _ _ (of_option _)) =>
  apply reports_of_option; reflexivity : reports.

(** Walk through a computation: only what follows the last call that may
    report an error matters. *)
Ltac reports_go :=
  repeat first
    [ solve [auto with reports nocore]
    | match goal with
      | |- reports _ _ (bind ?m _) =>
          apply reports_bind_bool;
          [solve [auto with reports nocore]| cbn [negb] | cbn [negb]]
      end
    | apply reports_bind; intros ?
    | match goal with
      | |- reports _ _ (match ?x with _ => _ end) => destruct x
      end
    | match goal with
      | |- reports _ _ (let _ := _ in _) => cbv zeta
      end
    | match goal with
      | |- reports _ _ ?m => let h := head_of m in progress unfold h
      end ].

Lemma reports_call closure argCount :
  reports (fun _ => True) negb (call closure argCount).
Proof. reports_go. Qed.

#[local] Hint Resolve reports_call : reports.

Lemma reports_callValue callee argCount :
  reports (fun _ => True) negb (callValue callee argCount).
Proof. reports_go. Qed.

Lemma reports_invokeFromClass klass name argCount :
  reports (fun _ => True) negb (invokeFromClass klass name argCount).
Proof. reports_go. Qed.

Lemma reports_bindMethod klass name :
  reports (fun _ => True) negb (bindMethod klass name).
Proof. reports_go. Qed.

#[local] Hint Resolve reports_callValue reports_invokeFromClass
  reports_bindMethod : reports.

Lemma reports_invoke name argCount :
  reports (fun _ => True) negb (invoke name argCount).
Proof. reports_go. Qed.

Lemma reports_dict_fill_loop n : forall dict,
  reports (fun _ => True) negb (dict_fill_loop n dict).
Proof. induction n as [|n IH]; intros dict; cbn [dict_fill_loop]; reports_go. Qed.

#[local] Hint Resolve reports_invoke reports_dict_fill_loop : reports.

Lemma reports_exec op : reports (fun _ => True) failed (exec op).
Proof. destruct op; cbv beta iota delta [exec]; reports_go. Qed.

#[local] Hint Resolve reports_exec : reports.

Lemma reports_step : reports (fun _ => True) failed step.
Proof. reports_go. Qed.

#[local] Hint Resolve reports_step : reports.

Lemma reports_run fuel : reports (fun _ => True) failed (run fuel).
Proof.
  induction fuel as [|fuel IH]; cbn [run]; [reports_go|].
  intros vm r vm' _ H Hr. apply bind_inv in H as ([result|] & vm1 & H1 & H2).
  - apply ret_inv in H2. injection H2 as Hresult Hvm. subst r vm'.
    exact (reports_step vm (Some result) vm1 I H1 Hr).
  - exact (IH vm1 r vm' I H2 Hr).
Qed.

(** X24: when [run] ends with [INTERPRET_RUNTIME_ERROR], whatever the
    instruction that failed, a message has been printed and the stack is
    reset: it is empty, and no call frame and no open upvalue is left. *)
Theorem runtime_error_resets_stack (fuel : nat) (vm vm' : VM) :
  run fuel vm = Some (Some INTERPRET_RUNTIME_ERROR, vm') ->
  stack_reset vm'.
Proof.
  intros H. exact (reports_run fuel vm _ vm' I H eq_refl).
Qed.

Lemma runtime_error_resets_stack_witness :
  run 1 negate_example
  = Some (Some INTERPRET_RUNTIME_ERROR,
          after_runtimeError "SKILL ISSUE: Operand must be a number."
            (set_frames [mkFrame 1 1 0] negate_example)) /\
  stack_reset
    (after_runtimeError "SKILL ISSUE: Operand must be a number."
       (set_frames [mkFrame 1 1 0] negate_example)).
Proof.
  split; [vm_compute; reflexivity|].
  apply (runtime_error_resets_stack 1 negate_example).
  vm_compute. reflexivity.
Defined.
(** * The return-type check of the compiler *)

Lemma match_absent t s :
  Compiler.type (Compiler.current (Compiler.parser s)) <> t ->
  Compiler.match_ t s = Some (false, s).
Proof.
  intros H. unfold Compiler.match_, Compiler.check, Compiler.get_parser.
  erewrite bind_Some
    by (erewrite bind_Some by (erewrite bind_Some by reflexivity; reflexivity);
        reflexivity).
  rewrite bool_decide_eq_false_2 by exact H. reflexivity.
Qed.

Lemma last_code_byte_Some s c b :
  chunk_of s = Some c -> last (code c) = Some b ->
  Compiler.last_code_byte s = Some (b, s).
Proof.
  intros Hc Hlast. apply last_Some in Hlast as [bytes Hcode].
  unfold Compiler.last_code_byte.
  erewrite bind_Some by (apply ChunkFacts.currentChunk_Some; exact Hc).
  rewrite Hcode, length_app. cbn [length]. rewrite Nat.add_1_r.
  rewrite list_lookup_middle by reflexivity. reflexivity.
Qed.

(** The condition of the [if] for a numeric return type, whatever the
    bytes of the six opcodes are. *)
Lemma numeric_check (b c1 c2 c3 c4 c5 c6 : nat) :
  negb (b =? c1) && negb (b =? c2) && negb (b =? c3) && negb (b =? c4)
  && negb (b =? c5) && negb (b =? c6)
  = negb (bool_decide (b ∈ [c1; c2; c3; c4; c5; c6])).
Proof.
  destruct (decide (b ∈ [c1; c2; c3; c4; c5; c6])) as [Hin|Hout].
  - rewrite bool_decide_eq_true_2 by exact Hin.
    repeat (apply elem_of_cons in Hin as [->|Hin];
            [rewrite Nat.eqb_refl; cbn [negb andb];
             rewrite ?andb_false_r; reflexivity|]).
    apply elem_of_nil in Hin. destruct Hin.
  - rewrite bool_decide_eq_false_2 by exact Hout.
    repeat match goal with
           | |- context [?x =? ?y] =>
               destruct (Nat.eqb_spec x y) as [->|?];
               [exfalso; apply Hout; set_solver|]
           end.
    reflexivity.
Qed.

(** With a return value and a numeric return type, [returnStatement]
    decides by the last byte of the chunk, whichever instruction that byte
    belongs to. *)
Lemma returnStatement_numeric (parsePrecedence : nat -> Compiler.C unit)
    (s s0 s1 : Compiler.State) (k : Compiler.Compiler)
    (ks : list Compiler.Compiler) (fn fn1 : ObjFunction) (b : nat) :
  Compiler.compiler s = k :: ks ->
  Compiler.function_type k <> Compiler.TYPE_SCRIPT ->
  Compiler.type (Compiler.current (Compiler.parser s))
    <> Compiler.TOKEN_SEMICOLON ->
  current_function s = Some fn -> returnType fn <> TYPE_VOID ->
  Compiler.expression parsePrecedence s = Some (tt, s0) ->
  Compiler.consume Compiler.TOKEN_SEMICOLON "Expect ';' after return value." s0
    = Some (tt, s1) ->
  current_function s1 = Some fn1 ->
  returnType fn1 = TYPE_INT \/ returnType fn1 = TYPE_FLOAT ->
  last (code (chunk fn1)) = Some b ->
  Compiler.returnStatement parsePrecedence s
  = (if bool_decide (b ∈ numeric_return_bytes)
     then Compiler.emitByte (opcode_byte OP_RETURN)
     else Compiler.error "Function must return a number." ;;
          Compiler.emitByte (opcode_byte OP_RETURN)) s1.
Proof.
  intros Hk Hscript Hsemi Hfn Hvoid Hexpr Hconsume Hfn1 Hrt Hlast.
  assert (chunk_of s1 = Some (chunk fn1)) as Hc1
    by (unfold chunk_of; rewrite Hfn1; reflexivity).
  unfold Compiler.returnStatement.
  erewrite bind_Some by (eapply ChunkFacts.cur_Some; exact Hk).
  rewrite decide_False by exact Hscript.
  erewrite bind_Some by reflexivity.
  erewrite bind_Some by (apply match_absent; exact Hsemi).
  cbv iota.
  erewrite bind_Some by (apply ChunkFacts.cur_function_Some; exact Hfn).
  rewrite bool_decide_eq_false_2 by exact Hvoid.
  erewrite bind_Some by reflexivity.
  erewrite bind_Some by exact Hexpr.
  erewrite bind_Some by exact Hconsume.
  erewrite bind_Some by (eapply last_code_byte_Some; [exact Hc1|exact Hlast]).
  erewrite bind_Some by (apply ChunkFacts.cur_function_Some; exact Hfn1).
  assert (((if negb (b =? opcode_byte OP_CONSTANT) && negb (b =? opcode_byte OP_ADD)
               && negb (b =? opcode_byte OP_SUBTRACT)
               && negb (b =? opcode_byte OP_MULTIPLY)
               && negb (b =? opcode_byte OP_DIVIDE)
               && negb (b =? opcode_byte OP_NEGATE)
            then Compiler.error "Function must return a number."
            else ret tt) ;; Compiler.emitByte (opcode_byte OP_RETURN)) s1
          = (if bool_decide (b ∈ numeric_return_bytes)
             then Compiler.emitByte (opcode_byte OP_RETURN)
             else Compiler.error "Function must return a number." ;;
                  Compiler.emitByte (opcode_byte OP_RETURN)) s1) as Hcheck.
  { rewrite numeric_check. fold numeric_return_bytes.
    destruct (bool_decide (b ∈ numeric_return_bytes)); [|reflexivity].
    cbn [negb]. erewrite bind_Some by reflexivity. reflexivity. }
  destruct Hrt as [-> | ->]; exact Hcheck.
Qed.

(** After a literal the last byte of the chunk is the operand of the
    constant instruction: the index of the literal in the pool. *)
Lemma emitConstant_last_byte (s : Compiler.State) (c : Chunk) (v : Value) :
  chunk_of s = Some c ->
  length (constants c) <= Compiler.UINT8_MAX ->
  exists s',
    Compiler.emitConstant v s = Some (tt, s') /\
    chunk_of s'
    = Some (mkChunk
              (code c ++ [opcode_byte OP_CONSTANT; length (constants c)])
              (lines c ++ [Compiler.line (Compiler.previous (Compiler.parser s));
                           Compiler.line (Compiler.previous (Compiler.parser s))])
              (constants c ++ [v])).
Proof.
  intros Hc Hsmall.
  set (l := Compiler.line (Compiler.previous (Compiler.parser s))).
  set (c1 := mkChunk (code c) (lines c) (constants c ++ [v])).
  assert (chunk_of (with_chunk c1 s) = Some c1) as Hc1
    by (eapply ChunkFacts.chunk_of_with_chunk; exact Hc).
  eexists. split.
  - unfold Compiler.emitConstant, Compiler.get_parser.
    erewrite bind_Some by (erewrite bind_Some by reflexivity; reflexivity).
    fold l. unfold Compiler.writeConstant.
    erewrite bind_Some.
    2: { unfold Compiler.addConstant.
         erewrite bind_Some by (apply ChunkFacts.currentChunk_Some; exact Hc).
         erewrite bind_Some
           by (exact (ChunkFacts.modify_chunk_Some s c
                        (fun c => mkChunk (code c) (lines c) (constants c ++ [v]))
                        Hc)).
         reflexivity. }
    rewrite decide_True by exact Hsmall.
    exact (ChunkFacts.modify_chunk_Some (with_chunk c1 s) c1
             (fun c' => Compiler.writeChunk
                         (Compiler.writeChunk c' (opcode_byte OP_CONSTANT) l)
                         (length (constants c)) l) Hc1).
  - rewrite (ChunkFacts.with_chunk_with_chunk s c) by exact Hc.
    rewrite (ChunkFacts.chunk_of_with_chunk s c) by exact Hc.
    unfold Compiler.writeChunk, c1. cbn [code lines constants].
    rewrite <- !app_assoc. cbn [app].
    rewrite (Nat.mod_small (length (constants c)))
      by (unfold Compiler.UINT8_MAX in Hsmall; lia).
    reflexivity.
Qed.

(** C2: the check that [returnStatement] makes for a declared numeric
    return type compares the last byte of the chunk with the bytes of
    [OP_CONSTANT], [OP_ADD], [OP_SUBTRACT], [OP_MULTIPLY], [OP_DIVIDE] and
    [OP_NEGATE].  That byte is the last emitted opcode only when the last
    instruction has no operand; after a literal it is the index of the
    literal in the constant pool.  So the verdict on a literal follows its
    index, not its kind: with the opcodes numbered from [OP_CONSTANT] = 0,
    [fn f() @int { return "x"; }] (index 0) is compiled without any error,
    and [fn f() @int { out 1; return 2; }] (index 1, the byte of no
    permitted opcode) is refused with "Function must return a number."
    although it returns a number.  [fn f() @int { return true; }], whose
    last byte is the opcode [OP_TRUE], is refused. *)
Theorem returnStatement_inspects_last_byte (strtod : string -> double) :
  (forall (parsePrecedence : nat -> Compiler.C unit)
          (s s0 s1 : Compiler.State) (k : Compiler.Compiler)
          (ks : list Compiler.Compiler) (fn fn1 : ObjFunction) (b : nat),
     Compiler.compiler s = k :: ks ->
     Compiler.function_type k <> Compiler.TYPE_SCRIPT ->
     Compiler.type (Compiler.current (Compiler.parser s))
       <> Compiler.TOKEN_SEMICOLON ->
     current_function s = Some fn -> returnType fn <> TYPE_VOID ->
     Compiler.expression parsePrecedence s = Some (tt, s0) ->
     Compiler.consume Compiler.TOKEN_SEMICOLON
       "Expect ';' after return value." s0 = Some (tt, s1) ->
     current_function s1 = Some fn1 ->
     returnType fn1 = TYPE_INT \/ returnType fn1 = TYPE_FLOAT ->
     last (code (chunk fn1)) = Some b ->
     Compiler.returnStatement parsePrecedence s
     = (if bool_decide (b ∈ numeric_return_bytes)
        then Compiler.emitByte (opcode_byte OP_RETURN)
        else Compiler.error "Function must return a number." ;;
             Compiler.emitByte (opcode_byte OP_RETURN)) s1) /\
  (forall (s : Compiler.State) (c : Chunk) (v : Value),
     chunk_of s = Some c ->
     length (constants c) <= Compiler.UINT8_MAX ->
     exists s' c',
       Compiler.emitConstant v s = Some (tt, s') /\
       chunk_of s' = Some c' /\
       last (code c') = Some (length (constants c)) /\
       constants c' !! length (constants c) = Some v) /\
  (exists (script : addr) (s : Compiler.State) (f fname x : addr),
     Compiler.compile strtod 20 return_string_from_int compiler_init
       = Some (Some script, s) /\
     Compiler.hadError (Compiler.parser s) = false /\
     stderr (Compiler.vm s) = [] /\
     heap (Compiler.vm s) !! f
       = Some (OBJ_FUNCTION
           (mkFunction 0 0 TYPE_INT
              (mkChunk [opcode_byte OP_CONSTANT; 0; opcode_byte OP_RETURN;
                        opcode_byte OP_NIL; opcode_byte OP_RETURN]
                       [1; 1; 1; 1; 1]
                       [OBJ_VAL x])
              (Some fname))) /\
     heap (Compiler.vm s) !! x = Some (OBJ_STRING "x") /\
     opcode_byte OP_CONSTANT = 0) /\
  (exists (s : Compiler.State) (f fname : addr),
     Compiler.compile strtod 20 return_second_number_from_int compiler_init
       = Some (None, s) /\
     Compiler.hadError (Compiler.parser s) = true /\
     stderr (Compiler.vm s) = ["Function must return a number."%string] /\
     heap (Compiler.vm s) !! f
       = Some (OBJ_FUNCTION
           (mkFunction 0 0 TYPE_INT
              (mkChunk [opcode_byte OP_CONSTANT; 0; opcode_byte OP_OUT;
                        opcode_byte OP_CONSTANT; 1; opcode_byte OP_RETURN;
                        opcode_byte OP_NIL; opcode_byte OP_RETURN]
                       [1; 1; 1; 1; 1; 1; 1; 1]
                       [NUMBER_VAL (strtod "1"); NUMBER_VAL (strtod "2")])
              (Some fname))) /\
     1 ∉ numeric_return_bytes) /\
  (exists s : Compiler.State,
     Compiler.compile strtod 20 return_true_from_int compiler_init
       = Some (None, s) /\
     Compiler.hadError (Compiler.parser s) = true /\
     stderr (Compiler.vm s) = ["Function must return a number."%string] /\
     opcode_byte OP_TRUE ∉ numeric_return_bytes).
Proof.
  split; [|split; [|split; [|split]]].
  - intros. eapply returnStatement_numeric; eassumption.
  - intros s c v Hc Hsmall.
    destruct (emitConstant_last_byte s c v Hc Hsmall) as (s' & Hemit & Hc').
    eexists s', _. split; [exact Hemit|]. split; [exact Hc'|].
    cbn [code constants]. split.
    + rewrite last_app. reflexivity.
    + apply list_lookup_middle. reflexivity.
  - eexists _, _, 23, _, _. vm_compute. repeat split; reflexivity.
  - eexists _, 23, _. split; [vm_compute; reflexivity|].
    split; [vm_compute; reflexivity|]. split; [vm_compute; reflexivity|].
    split; [vm_compute; reflexivity|].
    apply (bool_decide_unpack _). vm_compute. exact I.
  - eexists. split; [vm_compute; reflexivity|].
    split; [vm_compute; reflexivity|]. split; [vm_compute; reflexivity|].
    apply (bool_decide_unpack _). vm_compute. exact I.
Qed.
